(** * image-generator: the size-targeting core of [src/imageGenerator.js]

    A shallow embedding of the [ImageGenerator] class: the dimension
    estimator ([estimateInitialDimensions]), the adjustment step
    ([adjustDimensions]), the tolerance test ([isWithinTolerance]) and the
    convergence loop ([generateImageWithTargetSize]).

    JavaScript numbers are IEEE 754 binary64 values, and so are Rocq's
    primitive floats: [+], [-], [*], [/] and [sqrt] are the correctly
    rounded operations of the standard in both, and the comparisons are
    false on NaN in both.  Every arithmetic step of the source is therefore
    transcribed operation by operation, and concrete runs are evaluated
    bit-exactly.  Facts about all runs are proved from the specification
    of the operations in [SpecFloat]; where sizes matter, on the real
    numbers the doubles stand for, with the rounding errors bounded.

    The other methods of the class (the MIME type, the colour, the font,
    the label and the calls into Jimp that make up the rendering method)
    and the command line's validation of the format and the size
    ([src/cli.js]) are embedded as well; the properties proved of them
    follow the claims. *)

From Stdlib Require Import ZArith Reals Lra Floats Bool String Ascii List Lia.
From Stdlib Require Uint63.
Import ListNotations.

Set Warnings "-inexact-float".

Local Open Scope float_scope.

(** ** JavaScript built-ins used by the source *)

Module JS.

(** An integer of magnitude below 2^63 as a Number. *)
Definition of_Z (n : Z) : float :=
  match n with
  | Z0 => 0
  | Zpos _ => of_uint63 (Uint63.of_Z n)
  | Zneg p => - of_uint63 (Uint63.of_Z (Zpos p))
  end.

(** [Math.round]: the integer closest to [x], ties towards +infinity;
    NaN, the infinities and the zeros are returned unchanged, and a
    negative argument that rounds to zero gives -0.  A finite non-zero
    double is [(-1)^s * m * 2^e]; for [e >= 0] it is already an integer,
    otherwise the result is [floor (x + 1/2)], computed exactly on the
    mantissa (its magnitude is at most 2^52). *)
Definition Math_round (x : float) : float :=
  match Prim2SF x with
  | S754_finite s m e =>
      if (0 <=? e)%Z then x
      else
        let n := Z.shiftr (cond_Zopp s (Zpos m) + Z.shiftl 1 (- e - 1)) (- e) in
        if (n =? 0)%Z then (if s then (-0) else 0) else of_Z n
  | _ => x
  end.

(** [Math.max] and [Math.min] of two arguments: NaN if either is NaN,
    and +0 counts as larger than -0. *)
Definition Math_max (x y : float) : float :=
  if is_nan x || is_nan y then nan
  else if x <? y then y
  else if y <? x then x
  else if get_sign x then y else x.

Definition Math_min (x y : float) : float :=
  if is_nan x || is_nan y then nan
  else if x <? y then x
  else if y <? x then y
  else if get_sign x then x else y.

Definition Math_abs : float -> float := abs.
Definition Math_sqrt : float -> float := sqrt.

(** The comparisons [>] and [>=] of the source, in terms of [<] and [<=]. *)
Definition gtb (x y : float) : bool := y <? x.
Definition geb (x y : float) : bool := y <=? x.

(** [String.prototype.toLowerCase].  Strings are byte sequences; the
    letters A-Z are mapped to a-z and every other byte is kept.  No
    character outside A-Z lower-cases to one of the ASCII letters of the
    keys compared against below, so equality of the result with those
    keys is decided as in JavaScript. *)
Definition lower_ascii (c : ascii) : ascii :=
  let n := nat_of_ascii c in
  if ((65 <=? n) && (n <=? 90))%nat then ascii_of_nat (n + 32) else c.

Fixpoint toLowerCase (s : string) : string :=
  match s with
  | EmptyString => EmptyString
  | String c s' => String (lower_ascii c) (toLowerCase s')
  end.

(** [Array.prototype.includes] on an array of strings. *)
Definition includes (xs : list string) (x : string) : bool :=
  existsb (String.eqb x) xs.

(** Reading a property of an object literal whose own properties are
    numbers.  A key that is not an own property is looked up on
    [Object.prototype], whose members are functions or objects. *)
Inductive value :=
| VNumber (x : float)
| VObject
| VUndefined.

Definition Object_prototype_keys : list string :=
  [ "constructor"; "__proto__"; "hasOwnProperty"; "isPrototypeOf";
    "propertyIsEnumerable"; "toLocaleString"; "toString"; "valueOf";
    "__defineGetter__"; "__defineSetter__"; "__lookupGetter__";
    "__lookupSetter__" ]%string.

Fixpoint own_property (props : list (string * float)) (key : string) : option float :=
  match props with
  | [] => None
  | (k, v) :: rest => if String.eqb k key then Some v else own_property rest key
  end.

Definition get_property (props : list (string * float)) (key : string) : value :=
  match own_property props key with
  | Some v => VNumber v
  | None => if includes Object_prototype_keys key then VObject else VUndefined
  end.

(** [v || d] for a number [d]: [v] when it is truthy (an object, or a
    number other than 0 and NaN). *)
Definition or_default (v : value) (d : float) : value :=
  match v with
  | VNumber x => if is_nan x || is_zero x then VNumber d else v
  | VObject => v
  | VUndefined => VNumber d
  end.

(** [ToNumber] as applied by an arithmetic operator: a function or a
    plain object converts to NaN. *)
Definition toNumber (v : value) : float :=
  match v with
  | VNumber x => x
  | VObject => nan
  | VUndefined => nan
  end.

End JS.

Import JS.

(** ** Data *)

(** A [Buffer] is a byte sequence; only its length is observed. *)
Definition Buffer := list Byte.byte.

(** The argument of [generateImageWithTargetSize]; the optional fields
    are [None] when the caller leaves them out. *)
Record Config := {
  targetSizeMB : float;
  format : string;
  backgroundColor : option string;
  textColor : option string;
  maxIterations : option nat;
  tolerance : option float
}.

(** The argument of [generateImageWithText], as the loop builds it. *)
Record ImageConfig := {
  img_width : float;
  img_height : float;
  img_format : string;
  img_sizeMB : float;
  img_backgroundColor : string;
  img_textColor : string;
  img_quality : float
}.

Record Dimensions := { width : float; height : float }.

(** The local variables of the loop.  [buffer] and [actualSize] are
    declared without a value, hence [None] until the first render. *)
Record LoopState := {
  cur : Dimensions;
  quality : float;
  iteration : nat;
  buffer : option Buffer;
  actualSize : option float
}.

(** The object returned by [generateImageWithTargetSize]. *)
Record Outcome := {
  out_buffer : option Buffer;
  out_width : float;
  out_height : float;
  actualSizeBytes : option float;
  actualSizeMB : float;
  out_targetSizeMB : float;
  iterations : nat;
  out_format : string;
  out_quality : option float
}.

(** What the class throws, and what Jimp itself may throw. *)
Inductive Error :=
| InvalidTargetSize                     (* "Target size must be greater than 0" *)
| UnsupportedFormat (fmt : string)      (* "Unsupported format: ..." *)
| JimpNotAvailable                      (* "Jimp module is not available..." *)
| NonPositiveDimensions                 (* "Image dimensions must be positive numbers" *)
| DimensionsTooLarge (w h : float)      (* "Image dimensions too large: ..." *)
| JimpError (msg : string).             (* anything raised inside Jimp *)

(** ** Pure methods *)

Definition maxDimension : float := 32767.

Definition supportedFormats : list string := ["jpg"; "jpeg"; "png"]%string.

Definition isFormatSupported (fmt : string) : bool :=
  includes supportedFormats (toLowerCase fmt).

(** The test [format.toLowerCase() === "jpg" || format.toLowerCase() === "jpeg"]. *)
Definition isJpeg (fmt : string) : bool :=
  String.eqb (toLowerCase fmt) "jpg" || String.eqb (toLowerCase fmt) "jpeg".

Definition getImageSize (b : Buffer) : float := of_Z (Z.of_nat (length b)).

Definition bytesToMB (bytes : float) : float := bytes / (1024 * 1024).

Definition mbToBytes (mb : float) : float := mb * 1024 * 1024.

Definition compressionFactors : list (string * float) :=
  [ ("jpg", 1.5); ("jpeg", 1.5); ("png", 1.2) ]%string.

Definition estimateInitialDimensions (targetSizeBytes : float) (fmt : string) : Dimensions :=
  let factor := or_default (get_property compressionFactors (toLowerCase fmt)) 1.5 in
  let estimatedPixels := targetSizeBytes / toNumber factor in
  let aspectRatio := 16 / 9 in
  let width0 := Math_sqrt (estimatedPixels * aspectRatio) in
  let height0 := estimatedPixels / width0 in
  let '(width1, height1) :=
    if gtb width0 maxDimension || gtb height0 maxDimension then
      let '(w, h) :=
        if gtb width0 height0
        then (maxDimension, maxDimension / aspectRatio)
        else (maxDimension * aspectRatio, maxDimension) in
      (Math_min w maxDimension, Math_min h maxDimension)
    else (width0, height0) in
  {| width := Math_max (Math_round width1) 100;
     height := Math_max (Math_round height1) 56 |}.

Definition adjustDimensions (currentSize targetSize currentWidth currentHeight : float)
  : Dimensions :=
  let sizeRatio := targetSize / currentSize in
  let scaleFactor := Math_sqrt sizeRatio in
  let newWidth := Math_round (currentWidth * scaleFactor) in
  let newHeight := Math_round (currentHeight * scaleFactor) in
  {| width := Math_max newWidth 50; height := Math_max newHeight 50 |}.

Definition isWithinTolerance (actual target tol : float) : bool :=
  let difference := Math_abs (actual - target) in
  let allowedDifference := target * tol in
  difference <? allowedDifference.

(** ** The convergence loop, piece by piece *)

(** Lines 365-399: the ceiling check at the head of an iteration. *)
Definition seedQuality (bytesPerPixel : float) : float :=
  if gtb bytesPerPixel 2 then 100
  else if gtb bytesPerPixel 1.5 then 95
  else if gtb bytesPerPixel 1 then 90
  else if gtb bytesPerPixel 0.5 then 80
  else 70.

Definition exceedsCeiling (d : Dimensions) : bool :=
  gtb (width d) maxDimension || gtb (height d) maxDimension.

Definition clampDimensions (d : Dimensions) : Dimensions :=
  let aspectRatio := width d / height d in
  let '(w, h) :=
    if gtb (width d) (height d)
    then (maxDimension, Math_round (maxDimension / aspectRatio))
    else (Math_round (maxDimension * aspectRatio), maxDimension) in
  {| width := Math_min w maxDimension; height := Math_min h maxDimension |}.

Definition ceilingCheck (fmt : string) (targetSizeBytes : float) (st : LoopState)
  : LoopState :=
  if exceedsCeiling (cur st) then
    let d := clampDimensions (cur st) in
    let q :=
      if isJpeg fmt then
        let pixelCount := width d * height d in
        let bytesPerPixel := targetSizeBytes / pixelCount in
        seedQuality bytesPerPixel
      else quality st in
    {| cur := d; quality := q; iteration := iteration st;
       buffer := buffer st; actualSize := actualSize st |}
  else st.

(** Lines 419-443: the adjustment after a render that missed tolerance. *)
Definition atCeiling (fmt : string) (d : Dimensions) : bool :=
  (geb (width d) maxDimension || geb (height d) maxDimension) && isJpeg fmt.

Definition adjustQuality (actual targetSizeBytes q : float) : float :=
  if actual <? targetSizeBytes then Math_min 100 (q + 5) else Math_max 10 (q - 5).

Definition adjust (fmt : string) (targetSizeBytes : float) (b : Buffer) (st : LoopState)
  : LoopState :=
  let actual := getImageSize b in
  if atCeiling fmt (cur st) then
    {| cur := cur st; quality := adjustQuality actual targetSizeBytes (quality st);
       iteration := S (iteration st); buffer := Some b; actualSize := Some actual |}
  else
    {| cur := adjustDimensions actual targetSizeBytes (width (cur st)) (height (cur st));
       quality := quality st;
       iteration := S (iteration st); buffer := Some b; actualSize := Some actual |}.

(** The state at a [break]: the render is recorded and nothing else moves. *)
Definition accept (b : Buffer) (st : LoopState) : LoopState :=
  {| cur := cur st; quality := quality st; iteration := iteration st;
     buffer := Some b; actualSize := Some (getImageSize b) |}.

(** ** Effects: the Jimp library, the record of render calls, exceptions *)

(** Everything [generateImageWithText] does after its own validation
    (creating the canvas, printing the label, encoding) happens inside
    Jimp.  [JimpLib W] is that library over a world [W] it may read and
    change: given the image configuration it returns an encoded buffer or
    raises. *)
Definition JimpLib (W : Type) := ImageConfig -> W -> (Error + Buffer) * W.

Section Generator.

Variable W : Type.

(** The module-level [Jimp]: [None] when [require("jimp")] failed. *)
Variable Jimp : option (JimpLib W).

(** What a call can observe or change beyond its result: the world of
    the library, every invocation of the rendering method so far (oldest
    first), and the number of [console.warn] calls. *)
Record Env := {
  world : W;
  renderCalls : list ImageConfig;
  warnings : nat
}.

(** Computations that may throw and that thread [Env]. *)
Definition M (A : Type) := Env -> (Error + A) * Env.

Definition ret {A} (a : A) : M A := fun env => (inr a, env).
Definition throw {A} (e : Error) : M A := fun env => (inl e, env).
Definition bind {A B} (c : M A) (k : A -> M B) : M B :=
  fun env =>
    match c env with
    | (inl e, env') => (inl e, env')
    | (inr a, env') => k a env'
    end.

Notation "x <- c ;; k" := (bind c (fun x => k))
  (at level 61, c at next level, right associativity).
Notation "c ;;; k" := (bind c (fun _ => k))
  (at level 61, right associativity).

Definition recordRenderCall (cfg : ImageConfig) : M unit :=
  fun env =>
    (inr tt, {| world := world env;
                renderCalls := renderCalls env ++ [cfg];
                warnings := warnings env |}).

Definition console_warn : M unit :=
  fun env =>
    (inr tt, {| world := world env;
                renderCalls := renderCalls env;
                warnings := S (warnings env) |}).

Definition callJimp (lib : JimpLib W) (cfg : ImageConfig) : M Buffer :=
  fun env =>
    let '(r, w') := lib cfg (world env) in
    (r, {| world := w'; renderCalls := renderCalls env; warnings := warnings env |}).

Definition validateJimpAvailability : M (JimpLib W) :=
  match Jimp with
  | Some lib => ret lib
  | None => throw JimpNotAvailable
  end.

Definition validateDimensions (w h : float) : M unit :=
  if (w <=? 0) || (h <=? 0) then throw NonPositiveDimensions
  else if gtb w maxDimension || gtb h maxDimension then throw (DimensionsTooLarge w h)
  else ret tt.

(** The rendering method.  Its invocation is recorded first. *)
Definition generateImageWithText (cfg : ImageConfig) : M Buffer :=
  recordRenderCall cfg ;;;
  lib <- validateJimpAvailability ;;
  validateDimensions (img_width cfg) (img_height cfg) ;;;
  if negb (isFormatSupported (img_format cfg))
  then throw (UnsupportedFormat (img_format cfg))
  else callJimp lib cfg.

Definition default {A} (d : A) (o : option A) : A :=
  match o with Some a => a | None => d end.

Section Loop.

Variable config : Config.

(** The destructured parameters with their defaults, and the target
    in bytes. *)
Definition backgroundColor' : string := default "#ffffff"%string (backgroundColor config).
Definition textColor' : string := default "#000000"%string (textColor config).
Definition maxIterations' : nat := default 20%nat (maxIterations config).
Definition tolerance' : float := default 0.05 (tolerance config).
Definition targetSizeBytes : float := mbToBytes (targetSizeMB config).

Definition renderConfig (st : LoopState) : ImageConfig :=
  {| img_width := width (cur st);
     img_height := height (cur st);
     img_format := format config;
     img_sizeMB := targetSizeMB config;
     img_backgroundColor := backgroundColor';
     img_textColor := textColor';
     img_quality := quality st |}.

(** The [while (iteration < maxIterations)] loop.  [remaining] is
    [maxIterations - iteration], so the loop condition holds exactly
    when [remaining] is a successor; a [break] returns at once, and
    leaves [iteration] as it was. *)
Fixpoint while_loop (remaining : nat) (st : LoopState) : M LoopState :=
  match remaining with
  | O => ret st
  | S remaining' =>
      let st1 := ceilingCheck (format config) targetSizeBytes st in
      b <- generateImageWithText (renderConfig st1) ;;
      if isWithinTolerance (getImageSize b) targetSizeBytes tolerance'
      then ret (accept b st1)
      else while_loop remaining' (adjust (format config) targetSizeBytes b st1)
  end.

Definition initialState : LoopState :=
  {| cur := estimateInitialDimensions targetSizeBytes (format config);
     quality := 90;
     iteration := 0;
     buffer := None;
     actualSize := None |}.

Definition outcome (st : LoopState) : Outcome :=
  {| out_buffer := buffer st;
     out_width := width (cur st);
     out_height := height (cur st);
     actualSizeBytes := actualSize st;
     actualSizeMB :=
       match actualSize st with
       | Some a => bytesToMB a
       | None => nan          (* [undefined / n] *)
       end;
     out_targetSizeMB := targetSizeMB config;
     iterations := iteration st + 1;
     out_format := format config;
     out_quality := if isJpeg (format config) then Some (quality st) else None |}.

Definition generateImageWithTargetSize : M Outcome :=
  if targetSizeMB config <=? 0 then throw InvalidTargetSize
  else if negb (isFormatSupported (format config))
  then throw (UnsupportedFormat (format config))
  else
    st <- while_loop maxIterations' initialState ;;
    (if (maxIterations' <=? iteration st)%nat then console_warn else ret tt) ;;;
    ret (outcome st).

End Loop.

End Generator.

Arguments world {W} _.
Arguments renderCalls {W} _.
Arguments warnings {W} _.

Arguments ret {W A} _ _.
Arguments throw {W A} _ _.
Arguments bind {W A B} _ _ _.

(** ** The specification's wording, as definitions to compare against *)

Module Spec.

(** "format supported": one of jpg, jpeg, png, case-insensitively. *)
Definition formatSupported (fmt : string) : Prop :=
  let f := toLowerCase fmt in f = "jpg"%string \/ f = "jpeg"%string \/ f = "png"%string.

(** "jpg/jpeg -> 1.5, png -> 1.2, fallback 1.5 for any other value". *)
Definition compressionFactor (fmt : string) : float :=
  let f := toLowerCase fmt in
  if String.eqb f "jpg" || String.eqb f "jpeg" then 1.5
  else if String.eqb f "png" then 1.2
  else 1.5.

Definition pixelCeiling : float := 32767.

(** The dimension estimator of section 4.1. *)
Definition estimate (targetSizeBytes : float) (fmt : string) : Dimensions :=
  let estimatedPixels := targetSizeBytes / compressionFactor fmt in
  let w := Math_sqrt (estimatedPixels * (16 / 9)) in
  let h := estimatedPixels / w in
  let exceeds := gtb w pixelCeiling || gtb h pixelCeiling in
  (* rescale at the fixed 16:9 ratio so that the larger one is the ceiling *)
  let w1 := if exceeds then (if gtb w h then pixelCeiling else pixelCeiling * (16 / 9)) else w in
  let h1 := if exceeds then (if gtb w h then pixelCeiling / (16 / 9) else pixelCeiling) else h in
  (* then clamp each to the ceiling *)
  let w2 := if exceeds then Math_min w1 pixelCeiling else w1 in
  let h2 := if exceeds then Math_min h1 pixelCeiling else h1 in
  {| width := Math_max (Math_round w2) 100; height := Math_max (Math_round h2) 56 |}.

(** "scaleFactor = sqrt(targetSizeBytes / actualSizeBytes);
     new = round(old x scaleFactor), floored at 50". *)
Definition scaleFactor (targetSizeBytes actualSizeBytes : float) : float :=
  Math_sqrt (targetSizeBytes / actualSizeBytes).

Definition rescale (targetSizeBytes actualSizeBytes old : float) : float :=
  Math_max (Math_round (old * scaleFactor targetSizeBytes actualSizeBytes)) 50.

(** The step table "> 2.0 -> 100, > 1.5 -> 95, > 1.0 -> 90, > 0.5 -> 80,
    else 70" applied to [targetSizeBytes / (width x height)]. *)
Definition qualityFromTable (targetSizeBytes w h : float) : float :=
  let bytesPerPixel := targetSizeBytes / (w * h) in
  if 2 <? bytesPerPixel then 100
  else if 1.5 <? bytesPerPixel then 95
  else if 1 <? bytesPerPixel then 90
  else if 0.5 <? bytesPerPixel then 80
  else 70.

(** "increase quality by 5 (max 100) if actual < target, else decrease
    by 5 (min 10)". *)
Definition qualityStep (actual targetSizeBytes q q' : float) : Prop :=
  ((actual <? targetSizeBytes) = true /\ q' = Math_min 100 (q + 5)) \/
  ((actual <? targetSizeBytes) = false /\ q' = Math_max 10 (q - 5)).

Definition area (d : Dimensions) : float := width d * height d.

End Spec.

(** ** Observations on runs *)

(** A number is "at most [c]" in the sense of JavaScript's [<=]. *)
Definition atMost (c x : float) : Prop := (x <=? c) = true.
Definition atLeast (c x : float) : Prop := (c <=? x) = true.

(** A run of the generator from an environment with no history. *)
Definition freshEnv {W} (w : W) : Env W := {| world := w; renderCalls := []; warnings := 0 |}.

(** ** Concrete collaborators and requests used in the examples *)

(** A stateless Jimp that returns [n] bytes for every request. *)
Definition constantJimp (n : nat) : JimpLib unit :=
  fun _ w => (inr (repeat Byte.x00 n), w).

Definition request (mb : float) (fmt : string) (maxIter : nat) (tol : float) : Config :=
  {| targetSizeMB := mb; format := fmt; backgroundColor := None; textColor := None;
     maxIterations := Some maxIter; tolerance := Some tol |}.

Definition run (n : nat) (c : Config) : (Error + Outcome) * Env unit :=
  generateImageWithTargetSize unit (Some (constantJimp n)) c (freshEnv tt).

(** The dimensions and quality of each render call of a run. *)
Definition rendered {W} (r : (Error + Outcome) * Env W) : list (float * float * float) :=
  map (fun c => (img_width c, img_height c, img_quality c)) (renderCalls (snd r)).

(** How a finished loop got where it is, for a loop started in [st] with
    [n] iterations left that made the render calls [calls] and ended in
    [st']: it never ran, or its last render (of the state [st1], giving
    the buffer [b]) was accepted, or the last render missed and the
    adjustment after it used up the last iteration. *)
Inductive LoopExit {W} (Jimp : option (JimpLib W)) (config : Config)
  (st : LoopState) (n : nat) (calls : list ImageConfig) (st' : LoopState) : Prop :=
| exit_no_iteration :
    n = 0%nat -> calls = [] -> st' = st -> LoopExit Jimp config st n calls st'
| exit_accepted st1 b calls0 :
    calls = calls0 ++ [renderConfig config st1] ->
    (exists lib w, Jimp = Some lib /\ fst (lib (renderConfig config st1) w) = inr b) ->
    isWithinTolerance (getImageSize b) (targetSizeBytes config) (tolerance' config) = true ->
    st' = accept b st1 ->
    (List.length calls <= n)%nat ->
    iteration st' = (iteration st + List.length calls0)%nat ->
    LoopExit Jimp config st n calls st'
| exit_exhausted st1 b calls0 :
    calls = calls0 ++ [renderConfig config st1] ->
    (exists lib w, Jimp = Some lib /\ fst (lib (renderConfig config st1) w) = inr b) ->
    isWithinTolerance (getImageSize b) (targetSizeBytes config) (tolerance' config) = false ->
    st' = adjust (format config) (targetSizeBytes config) b st1 ->
    List.length calls = n ->
    iteration st' = (iteration st + n)%nat ->
    LoopExit Jimp config st n calls st'.

(** What a finished call reports. *)
Definition iterationsOf {W} (r : (Error + Outcome) * Env W) : option nat :=
  match fst r with inr o => Some (iterations o) | inl _ => None end.

Definition bufferLengthOf {W} (r : (Error + Outcome) * Env W) : option nat :=
  match fst r with inr o => option_map (@List.length _) (out_buffer o) | inl _ => None end.

(** A render call within the ceiling: no dimension compares greater than
    32767, so each is at most 32767 unless it is NaN. *)
Definition withinCeiling (c : ImageConfig) : Prop :=
  gtb (img_width c) maxDimension = false /\
  gtb (img_height c) maxDimension = false /\
  (atMost maxDimension (img_width c) \/ is_nan (img_width c) = true) /\
  (atMost maxDimension (img_height c) \/ is_nan (img_height c) = true).

Definition sameDimensions (d : Dimensions) (c : ImageConfig) : Prop :=
  img_width c = width d /\ img_height c = height d.

(** The comparison of the pixel areas of the two estimates for a target:
    strictly larger for png, and not smaller for png. *)
Definition pngAreaLarger (targetSizeBytes : float) : bool :=
  Spec.area (estimateInitialDimensions targetSizeBytes "jpg")
  <? Spec.area (estimateInitialDimensions targetSizeBytes "png").

Definition pngAreaNotSmaller (targetSizeBytes : float) : bool :=
  Spec.area (estimateInitialDimensions targetSizeBytes "jpg")
  <=? Spec.area (estimateInitialDimensions targetSizeBytes "png").

(** ** Numbers as real numbers

    A finite double is [(-1)^s * m * 2^e].  The facts about the sizes of
    the dimensions are proved on these values. *)

Definition pow2 (e : Z) : R := powerRZ 2 e.

Definition SF2R (x : spec_float) : R :=
  match x with
  | S754_finite s m e => (IZR (cond_Zopp s (Zpos m)) * pow2 e)%R
  | _ => 0%R
  end.

Definition toReal (x : float) : R := SF2R (Prim2SF x).

(** A positive normal double: positive, finite, with 53 significant bits. *)
Definition positiveNormal (x : float) : Prop :=
  exists m e, Prim2SF x = S754_finite false m e /\ Zpos (digits2_pos m) = 53%Z.

(** A dimension between the floor of the adjustment and the ceiling. *)
Definition dimensionInRange (x : float) : Prop :=
  positiveNormal x /\ (50 <= toReal x <= 32767)%R.

Definition dimensionsInRange (d : Dimensions) : Prop :=
  dimensionInRange (width d) /\ dimensionInRange (height d).

Definition aboveFloor (d : Dimensions) : Prop :=
  (positiveNormal (width d) /\ (50 <= toReal (width d))%R) /\
  (positiveNormal (height d) /\ (50 <= toReal (height d))%R).

(** The library returns encoded images: every buffer has at least one
    byte (and fewer than 2^53). *)
Definition returnsNonEmptyBuffers {W} (Jimp : option (JimpLib W)) : Prop :=
  forall lib cfg w b w',
    Jimp = Some lib -> lib cfg w = (inr b, w') ->
    (0 < Z.of_nat (List.length b) < 2 ^ 53)%Z.

(** A size of [n] bytes is inside the tolerance band of the target, or
    outside it, by more than a relative margin of 2^-50 of its width; the
    distance and the product are the exact ones. *)
Definition insideBand (n : Z) (t tol : float) : Prop :=
  (Rabs (IZR n - toReal t) <= toReal t * toReal tol * (1 - pow2 (-50)))%R.

Definition outsideBand (n : Z) (t tol : float) : Prop :=
  (toReal t * toReal tol * (1 + pow2 (-50)) <= Rabs (IZR n - toReal t))%R.

(** A render call whose width and height are both between 50 and 32767. *)
Definition withinBounds (c : ImageConfig) : Prop :=
  atLeast 50 (img_width c) /\ atMost maxDimension (img_width c) /\
  atLeast 50 (img_height c) /\ atMost maxDimension (img_height c).

(** ** Observations on the validations, the budget and the quality *)

(** A dimension that [validateDimensions] lets through: a number above 0
    and at most 32767, or NaN, which fails both of its comparisons. *)
Definition validDimension (x : float) : Prop :=
  is_nan x = true \/ ((0 <? x) = true /\ (x <=? maxDimension) = true).

(** The fields of a render call that the loop copies from its request. *)
Definition carriesRequest (config : Config) (c : ImageConfig) : Prop :=
  img_format c = format config /\
  img_sizeMB c = targetSizeMB config /\
  img_backgroundColor c = default "#ffffff"%string (backgroundColor config) /\
  img_textColor c = default "#000000"%string (textColor config).

(** The multiples of 5 from 10 to 100. *)
Definition qualityLevels : list float :=
  [10; 15; 20; 25; 30; 35; 40; 45; 50; 55; 60; 65; 70; 75; 80; 85; 90; 95; 100].

(** The library produced the buffer [b] for the configuration [c]. *)
Definition producedBy {W} (Jimp : option (JimpLib W)) (c : ImageConfig) (b : Buffer) : Prop :=
  exists lib w, Jimp = Some lib /\ fst (lib c w) = inr b.

(** The library itself raised [e]. *)
Definition raisedByJimp {W} (Jimp : option (JimpLib W)) (e : Error) : Prop :=
  exists lib c w, Jimp = Some lib /\ fst (lib c w) = inl e.

(** A library that never raises. *)
Definition neverRaises {W} (lib : JimpLib W) : Prop :=
  forall c w, exists b, fst (lib c w) = inr b.

(** A library that raises for every request. *)
Definition failingJimp : JimpLib unit :=
  fun _ w => (inl (JimpError "encode"), w).

(** ** The other methods of the class *)

(** The value of [object[key] || fallback] for an object literal whose
    own properties are truthy: an own property, else a member inherited
    from [Object.prototype] (a function or an object, hence truthy too),
    else the fallback. *)
Inductive member (A : Type) :=
| Own (a : A)
| Inherited (key : string).

Arguments Own {A} a.
Arguments Inherited {A} key.

Fixpoint own_member {A} (props : list (string * A)) (key : string) : option A :=
  match props with
  | [] => None
  | (k, v) :: rest => if String.eqb k key then Some v else own_member rest key
  end.

Definition member_or {A} (props : list (string * A)) (key : string) (fallback : A) : member A :=
  match own_member props key with
  | Some a => Own a
  | None => if includes Object_prototype_keys key then Inherited key else Own fallback
  end.

(** [Jimp.MIME_JPEG] and [Jimp.MIME_PNG], two non-empty strings. *)
Inductive MimeType := MIME_JPEG | MIME_PNG.

Definition formatMap : list (string * MimeType) :=
  [ ("jpg", MIME_JPEG); ("jpeg", MIME_JPEG); ("png", MIME_PNG) ]%string.

Definition getMimeType (format : string) : member MimeType :=
  member_or formatMap (toLowerCase format) MIME_JPEG.

(** The four fonts of Jimp the class chooses from. *)
Inductive FontType :=
| FONT_SANS_16_BLACK
| FONT_SANS_32_BLACK
| FONT_SANS_64_BLACK
| FONT_SANS_128_BLACK.

Definition calculateFontSize (width height : float) (text : string) : FontType :=
  let minDimension := Math_min width height in
  if minDimension <? 200 then FONT_SANS_16_BLACK
  else if minDimension <? 500 then FONT_SANS_32_BLACK
  else if minDimension <? 1000 then FONT_SANS_64_BLACK
  else FONT_SANS_128_BLACK.


(** *** Strings, as sequences of code units below 256 *)

(** [string.slice(from)] and [string.slice(from, to)] for indices that
    are not negative. *)
Definition slice_from (s : string) (from : nat) : string :=
  substring from (String.length s - from) s.

Definition slice (s : string) (from to : nat) : string :=
  substring from (to - from) s.

(** [string.startsWith(p)]. *)
Definition startsWith (s p : string) : bool := String.prefix p s.

(** The integer [n] as a Number: the nearest double, ties to even. *)
Definition Number_of_Z (n : Z) : float := SF2Prim (binary_normalize prec emax n 0 false).

(** [parseInt(string, 16)]: leading white space is skipped, then a sign,
    then [0x] or [0X]; the longest run of hexadecimal digits that
    follows is the value, and NaN is returned when there is none. *)
Definition isWhiteSpace (c : ascii) : bool :=
  let n := nat_of_ascii c in
  ((9 <=? n) && (n <=? 13) || (n =? 32) || (n =? 160))%nat.

Fixpoint trimStart (s : string) : string :=
  match s with
  | EmptyString => EmptyString
  | String c rest => if isWhiteSpace c then trimStart rest else s
  end.

Definition hexDigit (c : ascii) : option Z :=
  let n := Z.of_nat (nat_of_ascii c) in
  if ((48 <=? n) && (n <=? 57))%Z then Some (n - 48)%Z
  else if ((97 <=? n) && (n <=? 102))%Z then Some (n - 87)%Z
  else if ((65 <=? n) && (n <=? 70))%Z then Some (n - 55)%Z
  else None.

Fixpoint hexDigits (s : string) (acc : option Z) : option Z :=
  match s with
  | EmptyString => acc
  | String c rest =>
      match hexDigit c with
      | Some d => hexDigits rest (Some (16 * match acc with Some a => a | None => 0 end + d)%Z)
      | None => acc
      end
  end.

Definition parseInt_16 (text : string) : float :=
  let s := trimStart text in
  let '(negative, s) :=
    match s with
    | String c rest =>
        if Ascii.eqb c "-" then (true, rest)
        else if Ascii.eqb c "+" then (false, rest)
        else (false, s)
    | EmptyString => (false, s)
    end in
  let s :=
    match s with
    | String c (String x rest) =>
        if Ascii.eqb c "0" && (Ascii.eqb x "x" || Ascii.eqb x "X") then rest else s
    | _ => s
    end in
  match hexDigits s None with
  | None => nan
  | Some Z0 => if negative then (-0) else 0
  | Some n => Number_of_Z (if negative then - n else n)
  end.

Section Colours.

(** [Jimp.rgbaToInt], with whatever it returns or raises as its result. *)
Variable Color : Type.
Variable rgbaToInt : float -> float -> float -> float -> Color.

Definition parseColor (colorStr : string) : Color :=
  if startsWith colorStr "#" then
    let hex := slice_from colorStr 1 in
    if (String.length hex =? 6)%nat then
      let r := parseInt_16 (slice hex 0 2) in
      let g := parseInt_16 (slice hex 2 4) in
      let b := parseInt_16 (slice hex 4 6) in
      rgbaToInt r g b 255
    else rgbaToInt 255 255 255 255
  else rgbaToInt 255 255 255 255.

End Colours.

(** *** The rendering method in full *)

Section Rendering.

Variable W : Type.

(** Images and loaded fonts are handles into the world of the library. *)
Variables Image Font : Type.

(** A call into the library: it may change the world and may raise. *)
Definition L (A : Type) := W -> (Error + A) * W.

Definition bindL {A B} (c : L A) (k : A -> L B) : L B :=
  fun w =>
    match c w with
    | (inl e, w') => (inl e, w')
    | (inr a, w') => k a w'
    end.

Notation "x <- c ;; k" := (bindL c (fun x => k))
  (at level 61, c at next level, right associativity).

(** What the method uses of Jimp: [Jimp.rgbaToInt], [new Jimp(w, h, c)],
    [Jimp.loadFont], [Jimp.measureText], [Jimp.measureTextHeight],
    [image.print], [image.quality] and [image.getBufferAsync]. *)
Record JimpModule := {
  Jimp_rgbaToInt : float -> float -> float -> float -> L float;
  Jimp_new : float -> float -> float -> L Image;
  Jimp_loadFont : FontType -> L Font;
  Jimp_measureText : Font -> string -> L float;
  Jimp_measureTextHeight : Font -> string -> float -> L float;
  image_print : Image -> Font -> float -> float -> string -> L unit;
  image_quality : Image -> float -> L Image;
  image_getBufferAsync : Image -> member MimeType -> L Buffer
}.

Variable J : JimpModule.

(** The conversion of a Number to a string in a template literal. *)
Variable Number_toString : float -> string.

(** The text [`${sizeMB}MB ${width} x ${height}`], with the
    multiplication sign (code unit 215) between the dimensions. *)
Definition generateDisplayText (sizeMB width height : float) : string :=
  (Number_toString sizeMB ++ "MB " ++ Number_toString width
   ++ String " " (String "215" (String " " EmptyString)) ++ Number_toString height)%string.

(** Lines 164-194: what [generateImageWithText] does once the
    validations have passed. *)
Definition renderImage (cfg : ImageConfig) : L Buffer :=
  let width := img_width cfg in
  let height := img_height cfg in
  bgColor <- parseColor (L float) (Jimp_rgbaToInt J) (img_backgroundColor cfg) ;;
  image <- Jimp_new J width height bgColor ;;
  let displayText := generateDisplayText (img_sizeMB cfg) width height in
  let fontType := calculateFontSize width height displayText in
  font <- Jimp_loadFont J fontType ;;
  textWidth <- Jimp_measureText J font displayText ;;
  textHeight <- Jimp_measureTextHeight J font displayText textWidth ;;
  let x := (width - textWidth) / 2 in
  let y := (height - textHeight) / 2 in
  _ <- image_print J image font x y displayText ;;
  let mimeType := getMimeType (img_format cfg) in
  if String.eqb (toLowerCase (img_format cfg)) "png"
  then image_getBufferAsync J image mimeType
  else
    image' <- image_quality J image (img_quality cfg) ;;
    image_getBufferAsync J image' mimeType.

End Rendering.

(** A request with another text colour, and render calls that differ in
    nothing but the text colour. *)
Definition withTextColor (color : option string) (c : Config) : Config :=
  {| targetSizeMB := targetSizeMB c; format := format c;
     backgroundColor := backgroundColor c; textColor := color;
     maxIterations := maxIterations c; tolerance := tolerance c |}.

Definition sameButTextColor (c c' : ImageConfig) : Prop :=
  img_width c = img_width c' /\ img_height c = img_height c' /\
  img_format c = img_format c' /\ img_sizeMB c = img_sizeMB c' /\
  img_backgroundColor c = img_backgroundColor c' /\ img_quality c = img_quality c'.

Definition sameButTextColors {W} (env env' : Env W) : Prop :=
  world env = world env' /\ warnings env = warnings env' /\
  Forall2 sameButTextColor (renderCalls env) (renderCalls env').

(** ** The command line's validation of the format and the size ([src/cli.js]) *)

Module CLI.

Inductive CLIValidationError :=
| UnsupportedFormat (format : string)
| InvalidSize (sizeStr : string)
| NonPositiveSize (size : float)
| SizeTooLarge (size : float).

Definition validateFormat (format : string) : CLIValidationError + string :=
  let supportedFormats := ["jpg"; "jpeg"; "png"]%string in
  let normalizedFormat := toLowerCase format in
  if negb (includes supportedFormats normalizedFormat)
  then inl (UnsupportedFormat format)
  else inr normalizedFormat.

Section Size.

(** [parseFloat], the conversion of the option's text to a Number. *)
Variable parseFloat : string -> float.

Definition validateSize (sizeStr : string) : CLIValidationError + float :=
  let size := parseFloat sizeStr in
  if is_nan size then inl (InvalidSize sizeStr)
  else if size <=? 0 then inl (NonPositiveSize size)
  else if gtb size 25 then inl (SizeTooLarge size)
  else inr size.

End Size.

End CLI.

(** Two renders with the same number of bytes per pixel: [n] bytes for
    [w] x [h] pixels and [n'] bytes for [w'] x [h'] pixels. *)
Definition sameBytesPerPixel (n : Z) (w h : float) (n' : Z) (w' h' : float) : Prop :=
  (IZR n' * (toReal w * toReal h) = IZR n * (toReal w' * toReal h'))%R.

(** ** The quality-search mode of the specification *)

Section QualitySearch.

Variable W : Type.
Variable Jimp : option (JimpLib W).
Variable config : Config.

(** "If currently in the ceiling/quality regime: increase quality by 5
    (max 100) if actualSizeBytes < target, else decrease by 5 (min 10)";
    "the loop never returns from quality-search back to
    dimension-search".  As a loop of its own: each iteration renders the
    state, stops when the size of the rendered buffer is within
    tolerance, and otherwise moves the quality, and only the quality, by
    the size of that buffer against the target. *)
Fixpoint qualitySearch (remaining : nat) (st : LoopState) : M W LoopState :=
  match remaining with
  | O => ret st
  | S remaining' =>
      bind (generateImageWithText W Jimp (renderConfig config st)) (fun b =>
        let actual := getImageSize b in
        if isWithinTolerance actual (targetSizeBytes config) (tolerance' config)
        then ret {| cur := cur st; quality := quality st; iteration := iteration st;
                    buffer := Some b; actualSize := Some actual |}
        else
          qualitySearch remaining'
            {| cur := cur st;
               quality := if actual <? targetSizeBytes config
                          then Math_min 100 (quality st + 5)
                          else Math_max 10 (quality st - 5);
               iteration := S (iteration st);
               buffer := Some b;
               actualSize := Some actual |})
  end.

End QualitySearch.

(** ** Sizes of numbers by their exponents

    A positive finite double [m * 2^e] whose mantissa has [d] binary
    digits lies in [[2^(d+e-1), 2^(d+e))]. *)

(** A positive finite number in [[2^(lo-1), 2^hi)]. *)
Definition magnitudeBetween (lo hi : Z) (x : float) : Prop :=
  exists m e, Prim2SF x = S754_finite false m e /\
              (lo <= Zpos (digits2_pos m) + e <= hi)%Z.

(** +0, or a positive finite number below [2^hi]. *)
Definition zeroOrBelow (hi : Z) (x : float) : Prop :=
  x = 0 \/ magnitudeBetween (-1073) hi x.

(** ** Observations on the heads of the iterations and on the clamp *)

(** The states at the head of the iterations of a call: the initial
    state, and the state left by the adjustment that follows a render
    (of the checked state, giving a buffer of the library) that missed
    the tolerance. *)
Inductive iterationHead {W} (Jimp : option (JimpLib W)) (config : Config)
  : LoopState -> Prop :=
| head_initial : iterationHead Jimp config (initialState config)
| head_adjusted st b :
    iterationHead Jimp config st ->
    producedBy Jimp
      (renderConfig config (ceilingCheck (format config) (targetSizeBytes config) st)) b ->
    isWithinTolerance (getImageSize b) (targetSizeBytes config) (tolerance' config) = false ->
    iterationHead Jimp config
      (adjust (format config) (targetSizeBytes config) b
         (ceilingCheck (format config) (targetSizeBytes config) st)).

(** Dimensions [d'] that are [d] clamped to the ceiling with the aspect
    ratio kept: the longer side of [d] has become 32767, and the other
    side is the whole number closest to 32767 times the ratio of the
    shorter to the longer side (within 0.501 of it, which leaves room for
    the rounding of the two operations that compute it). *)
Definition clampedKeepingRatio (d d' : Dimensions) : Prop :=
  ((toReal (height d) < toReal (width d))%R ->
     width d' = maxDimension /\
     exists n : Z, height d' = of_Z n /\
       (Rabs (IZR n - 32767 * (toReal (height d) / toReal (width d))) <= 501 / 1000)%R) /\
  ((toReal (width d) <= toReal (height d))%R ->
     height d' = maxDimension /\
     exists n : Z, width d' = of_Z n /\
       (Rabs (IZR n - 32767 * (toReal (width d) / toReal (height d))) <= 501 / 1000)%R).

(** What the loop needs of one adjustment: the adjusted dimensions are
    at least 50, they are between 50 and 32767 once the ceiling check
    has been applied to them, and that check keeps the aspect ratio. *)
Definition adjustedWithinBounds (d : Dimensions) : Prop :=
  aboveFloor d /\
  dimensionsInRange (if exceedsCeiling d then clampDimensions d else d) /\
  (exceedsCeiling d = true -> clampedKeepingRatio d (clampDimensions d)).

(** A render call made for the state at the head of an iteration, once
    the ceiling check has been applied to it. *)
Definition rendersHead {W} (Jimp : option (JimpLib W)) (config : Config)
  (c : ImageConfig) : Prop :=
  exists st,
    iterationHead Jimp config st /\
    c = renderConfig config (ceilingCheck (format config) (targetSizeBytes config) st).

(** * Facts about binary64 comparisons *)

Section FloatOrder.

Lemma SFcompare_antisym x y :
  SFcompare y x = option_map CompOpp (SFcompare x y).
Proof.
  destruct x as [sx|sx| |sx mx ex], y as [sy|sy| |sy my ey]; simpl; try reflexivity;
    try (destruct sx; reflexivity); try (destruct sy; reflexivity);
    try (destruct sx, sy; reflexivity).
  destruct sx, sy; simpl; try reflexivity;
    rewrite (Z.compare_antisym ex ey); destruct (ex ?= ey)%Z; simpl; try reflexivity;
    rewrite (Pos.compare_cont_antisym mx my Eq); simpl;
    destruct (Pos.compare_cont Eq mx my); reflexivity.
Qed.

Lemma SFcompare_refl x : SFcompare x x = Some Eq \/ x = S754_nan.
Proof.
  destruct x as [s|s| |s m e]; simpl; auto; left.
  - destruct s; reflexivity.
  - rewrite Z.compare_refl, Pos.compare_cont_refl. destruct s; reflexivity.
Qed.

Lemma is_nan_spec x : is_nan x = true <-> Prim2SF x = S754_nan.
Proof.
  unfold is_nan. rewrite FloatAxioms.eqb_spec. unfold SFeqb.
  destruct (SFcompare_refl (Prim2SF x)) as [H|H]; rewrite H; simpl; split; try congruence.
  intros E. rewrite E in H. discriminate.
Qed.

Lemma ltb_irrefl x : (x <? x) = false.
Proof.
  rewrite FloatAxioms.ltb_spec. unfold SFltb.
  destruct (SFcompare_refl (Prim2SF x)) as [H|H]; rewrite H; reflexivity.
Qed.

Lemma ltb_asym x y : (x <? y) = true -> (y <? x) = false.
Proof.
  rewrite !FloatAxioms.ltb_spec. unfold SFltb.
  rewrite (SFcompare_antisym (Prim2SF x) (Prim2SF y)).
  destruct (SFcompare (Prim2SF x) (Prim2SF y)) as [[]|]; simpl; congruence.
Qed.

Lemma ltb_leb x y : (x <? y) = true -> (x <=? y) = true.
Proof.
  rewrite FloatAxioms.ltb_spec, FloatAxioms.leb_spec. unfold SFltb, SFleb.
  destruct (SFcompare (Prim2SF x) (Prim2SF y)) as [[]|]; simpl; congruence.
Qed.

Lemma leb_refl x : is_nan x = false -> (x <=? x) = true.
Proof.
  intros N. rewrite FloatAxioms.leb_spec. unfold SFleb.
  destruct (SFcompare_refl (Prim2SF x)) as [H|H]; [rewrite H; reflexivity|].
  apply is_nan_spec in H. congruence.
Qed.

(** On numbers the order is total. *)
Lemma not_ltb_leb x y :
  is_nan x = false -> is_nan y = false -> (x <? y) = false -> (y <=? x) = true.
Proof.
  intros Hx Hy. rewrite FloatAxioms.ltb_spec, FloatAxioms.leb_spec. unfold SFltb, SFleb.
  rewrite (SFcompare_antisym (Prim2SF x) (Prim2SF y)).
  destruct (SFcompare (Prim2SF x) (Prim2SF y)) as [[]|] eqn:E; simpl; try congruence.
  intros _. exfalso.
  assert (Prim2SF x <> S754_nan) by (intro A; apply is_nan_spec in A; congruence).
  assert (Prim2SF y <> S754_nan) by (intro A; apply is_nan_spec in A; congruence).
  destruct (Prim2SF x), (Prim2SF y); simpl in E; congruence.
Qed.

Lemma ltb_nan_l x y : is_nan x = true -> (x <? y) = false.
Proof.
  intros H. apply is_nan_spec in H. rewrite FloatAxioms.ltb_spec. unfold SFltb.
  rewrite H. reflexivity.
Qed.

Lemma ltb_nan_r x y : is_nan y = true -> (x <? y) = false.
Proof.
  intros H. apply is_nan_spec in H. rewrite FloatAxioms.ltb_spec. unfold SFltb.
  rewrite H. destruct (Prim2SF x); reflexivity.
Qed.

Lemma leb_not_nan x y : (x <=? y) = true -> is_nan x = false /\ is_nan y = false.
Proof.
  rewrite FloatAxioms.leb_spec. unfold SFleb. intros H.
  split; apply not_true_is_false; intros N; apply is_nan_spec in N; rewrite N in H;
    [|destruct (Prim2SF x)]; discriminate.
Qed.

(** [Math.min(x, c)] is never above [c], and [Math.max(x, c)] never
    below it unless NaN is involved. *)
Lemma Math_min_not_gt x c : gtb (Math_min x c) c = false.
Proof.
  unfold gtb, Math_min.
  destruct (is_nan x || is_nan c) eqn:N.
  - apply ltb_nan_r. reflexivity.
  - destruct (x <? c) eqn:A.
    + now apply ltb_asym.
    + destruct (c <? x) eqn:B.
      * apply ltb_irrefl.
      * destruct (get_sign x); [exact B | apply ltb_irrefl].
Qed.

Lemma Math_min_not_gt_l c y : gtb (Math_min c y) c = false.
Proof.
  unfold gtb, Math_min.
  destruct (is_nan c || is_nan y) eqn:N.
  - apply ltb_nan_r. reflexivity.
  - destruct (c <? y) eqn:A.
    + apply ltb_irrefl.
    + destruct (y <? c) eqn:B.
      * now apply ltb_asym.
      * destruct (get_sign c); [apply ltb_irrefl | exact A].
Qed.

Lemma Math_max_nan x c :
  is_nan (Math_max x c) = true <-> is_nan x = true \/ is_nan c = true.
Proof.
  unfold Math_max. destruct (is_nan x) eqn:X; simpl.
  - split; auto.
  - destruct (is_nan c) eqn:C; simpl.
    + split; auto.
    + destruct (x <? c); [|destruct (c <? x); [|destruct (get_sign x)]];
        rewrite ?X, ?C; split; intros H; try discriminate; destruct H; discriminate.
Qed.

Lemma Math_max_ge x c :
  is_nan x = false -> is_nan c = false -> (c <=? Math_max x c) = true.
Proof.
  intros X C. unfold Math_max. rewrite X, C. simpl.
  destruct (x <? c) eqn:A.
  - now apply leb_refl.
  - destruct (c <? x) eqn:B.
    + now apply ltb_leb.
    + destruct (get_sign x); [now apply leb_refl | now apply not_ltb_leb].
Qed.

Lemma Math_max_ge_l c y :
  is_nan c = false -> is_nan y = false -> (c <=? Math_max c y) = true.
Proof.
  intros C Y. unfold Math_max. rewrite C, Y. simpl.
  destruct (c <? y) eqn:A.
  - now apply ltb_leb.
  - destruct (y <? c) eqn:B.
    + now apply leb_refl.
    + destruct (get_sign c); [now apply not_ltb_leb | now apply leb_refl].
Qed.

(** On a number, "not greater" is "at most". *)
Lemma not_gt_atMost c x :
  is_nan c = false -> is_nan x = false -> gtb x c = false -> atMost c x.
Proof. intros C X H. unfold atMost. now apply not_ltb_leb. Qed.

End FloatOrder.


(** * Facts about the loop *)

Section LoopFacts.

Variable W : Type.
Variable Jimp : option (JimpLib W).
Variable config : Config.

Local Abbreviation fmt := (format config).
Local Abbreviation target := (targetSizeBytes config).
Local Abbreviation tol := (tolerance' config).
Local Abbreviation render := (generateImageWithText W Jimp).
Local Abbreviation loop := (while_loop W Jimp config).

(** The rendering method records its invocation whatever happens next. *)
Lemma generateImageWithText_log cfg env :
  renderCalls (snd (render cfg env)) = renderCalls env ++ [cfg] /\
  warnings (snd (render cfg env)) = warnings env.
Proof.
  unfold generateImageWithText, bind, recordRenderCall, validateJimpAvailability,
    validateDimensions, callJimp, throw, ret.
  destruct Jimp as [lib|]; simpl; [|auto].
  destruct ((img_width cfg <=? 0) || (img_height cfg <=? 0)); simpl; [auto|].
  destruct (gtb (img_width cfg) maxDimension || gtb (img_height cfg) maxDimension);
    simpl; [auto|].
  destruct (negb (isFormatSupported (img_format cfg))); simpl; [auto|].
  destruct (lib cfg (world env)); simpl; auto.
Qed.

(** A buffer it returns is one Jimp produced for that configuration. *)
Lemma generateImageWithText_buffer cfg env b env1 :
  render cfg env = (inr b, env1) ->
  exists lib, Jimp = Some lib /\ fst (lib cfg (world env)) = inr b.
Proof.
  unfold generateImageWithText, bind, recordRenderCall, validateJimpAvailability,
    validateDimensions, callJimp, throw, ret.
  destruct Jimp as [lib|]; simpl; [|discriminate].
  destruct ((img_width cfg <=? 0) || (img_height cfg <=? 0)); simpl; [discriminate|].
  destruct (gtb (img_width cfg) maxDimension || gtb (img_height cfg) maxDimension);
    simpl; [discriminate|].
  destruct (negb (isFormatSupported (img_format cfg))); simpl; [discriminate|].
  destruct (lib cfg (world env)) as [r w'] eqn:E; simpl.
  intros H. inversion H; subst. exists lib. split; [reflexivity|].
  rewrite E. reflexivity.
Qed.

(** One iteration, when the render succeeds and when it throws. *)
Lemma while_loop_render_ok n st env b env1 :
  render (renderConfig config (ceilingCheck fmt target st)) env = (inr b, env1) ->
  loop (S n) st env =
    if isWithinTolerance (getImageSize b) target tol
    then (inr (accept b (ceilingCheck fmt target st)), env1)
    else loop n (adjust fmt target b (ceilingCheck fmt target st)) env1.
Proof.
  intros H. simpl. unfold bind at 1. rewrite H.
  destruct (isWithinTolerance (getImageSize b) target tol); reflexivity.
Qed.

Lemma while_loop_render_throws n st env e env1 :
  render (renderConfig config (ceilingCheck fmt target st)) env = (inl e, env1) ->
  loop (S n) st env = (inl e, env1).
Proof. intros H. simpl. unfold bind at 1. rewrite H. reflexivity. Qed.

Lemma ceilingCheck_iteration f t st : iteration (ceilingCheck f t st) = iteration st.
Proof. unfold ceilingCheck. destruct (exceedsCeiling (cur st)); reflexivity. Qed.

Lemma adjust_iteration f t b st : iteration (adjust f t b st) = S (iteration st).
Proof. unfold adjust. destruct (atCeiling f (cur st)); reflexivity. Qed.

(** After the ceiling check no dimension is above the ceiling. *)
Lemma ceilingCheck_not_exceeds f t st : exceedsCeiling (cur (ceilingCheck f t st)) = false.
Proof.
  unfold ceilingCheck. destruct (exceedsCeiling (cur st)) eqn:E; [|exact E].
  simpl. unfold exceedsCeiling, clampDimensions.
  destruct (gtb (width (cur st)) (height (cur st))); simpl;
    rewrite !Math_min_not_gt; reflexivity.
Qed.

(** Every run of the loop: the warning count is untouched, at most [n]
    render calls are appended, each for a state that passed the ceiling
    check, and a loop that returns does so in one of the three ways of
    [LoopExit]. *)
Lemma while_loop_exit n : forall st env r env',
  loop n st env = (r, env') ->
  warnings env' = warnings env /\
  exists calls,
    renderCalls env' = renderCalls env ++ calls /\
    (List.length calls <= n)%nat /\
    Forall (fun c => exists s, c = renderConfig config (ceilingCheck fmt target s)) calls /\
    match r with
    | inl _ => True
    | inr st' => LoopExit Jimp config st n calls st'
    end.
Proof.
  induction n as [|n IH]; intros st env r env' H.
  - simpl in H. unfold ret in H. inversion H; subst. split; [reflexivity|].
    exists []. rewrite app_nil_r. repeat split; auto.
    now apply exit_no_iteration.
  - set (st1 := ceilingCheck fmt target st) in *.
    destruct (generateImageWithText_log (renderConfig config st1) env) as [Hc Hw].
    destruct (render (renderConfig config st1) env) as [[e|b] env1] eqn:R.
    + rewrite (while_loop_render_throws n st env e env1 R) in H. inversion H; subst.
      simpl in Hc, Hw. split; [exact Hw|].
      exists [renderConfig config st1]. repeat split; auto.
      * simpl. lia.
      * constructor; [now exists st | constructor].
    + rewrite (while_loop_render_ok n st env b env1 R) in H.
      simpl in Hc, Hw.
      destruct (generateImageWithText_buffer _ _ _ _ R) as [lib [HJ Hb]].
      fold st1 in H.
      destruct (isWithinTolerance (getImageSize b) target tol) eqn:T.
      * inversion H; subst. split; [exact Hw|].
        exists [renderConfig config st1]. repeat split; auto.
        -- simpl. lia.
        -- constructor; [now exists st | constructor].
        -- apply (exit_accepted _ config st (S n) _ _ st1 b []); auto.
           ++ now exists lib, (world env).
           ++ simpl. lia.
           ++ simpl. unfold st1. rewrite ceilingCheck_iteration. lia.
      * destruct (IH _ _ _ _ H) as [Hw' [calls [Hc' [Hl [Hf Hr]]]]].
        split; [congruence|].
        exists (renderConfig config st1 :: calls). repeat split.
        -- rewrite Hc', Hc, <- app_assoc. reflexivity.
        -- simpl. lia.
        -- constructor; [now exists st | exact Hf].
        -- destruct r as [e|st']; [exact I|].
           destruct Hr as [Hn Hcalls Hst | s1 b1 c0 Hcalls HJ1 HT Hst Hlen Hit
                          | s1 b1 c0 Hcalls HJ1 HT Hst Hlen Hit].
           ++ subst. apply (exit_exhausted _ config st 1 _ _ st1 b []); auto.
              ** now exists lib, (world env).
              ** rewrite adjust_iteration. unfold st1. rewrite ceilingCheck_iteration. lia.
           ++ apply (exit_accepted _ config st (S n) _ _ s1 b1
                       (renderConfig config st1 :: c0)); auto.
              ** rewrite Hcalls. reflexivity.
              ** simpl. lia.
              ** rewrite Hit, adjust_iteration. unfold st1.
                 rewrite ceilingCheck_iteration. simpl. lia.
           ++ apply (exit_exhausted _ config st (S n) _ _ s1 b1
                       (renderConfig config st1 :: c0)); auto.
              ** rewrite Hcalls. reflexivity.
              ** simpl. lia.
              ** rewrite Hit, adjust_iteration. unfold st1.
                 rewrite ceilingCheck_iteration. lia.
Qed.

End LoopFacts.

(** * Facts about binary64 rounding

    The operations are specified by [SpecFloat]: a finite number is a sign,
    a mantissa [m] and an exponent [e], and every result is rounded by
    [binary_round_aux].  What is needed here is that rounding a quantity
    above the smallest subnormal never gives zero, and that a byte count
    converts to a finite number that is at least 1. *)

Section FloatRounding.

Local Open Scope Z_scope.

Lemma digits2_pos_log2 p : Zpos (digits2_pos p) = Z.log2 (Zpos p) + 1.
Proof.
  assert (S : forall q, digits2_pos q = Pos.size q) by (induction q; simpl; congruence).
  destruct p; simpl; rewrite ?S; lia.
Qed.

Lemma Zdigits2_log2 m : 0 < m -> Zdigits2 m = Z.log2 m + 1.
Proof. destruct m; try lia. intros _. simpl. apply digits2_pos_log2. Qed.

Lemma shiftr_pos a n : 0 < a -> n <= Z.log2 a -> 0 < Z.shiftr a n.
Proof.
  intros Ha Hn.
  assert (0 <= Z.shiftr a n) by (apply Z.shiftr_nonneg; lia).
  assert (Z.shiftr a n <> 0); [|lia].
  intros E. apply Z.shiftr_eq_0_iff in E. lia.
Qed.

Lemma shr_1_m mrs : 0 <= shr_m mrs -> shr_m (shr_1 mrs) = Z.div2 (shr_m mrs).
Proof.
  destruct mrs as [m r s]. simpl. destruct m as [|p|p]; try lia; intros _.
  - reflexivity.
  - destruct p; reflexivity.
Qed.

Lemma iter_shr_1_m n : forall mrs,
  0 <= shr_m mrs -> shr_m (iter_pos shr_1 n mrs) = Z.shiftr (shr_m mrs) (Zpos n).
Proof.
  assert (D : forall a, 0 <= a -> 0 <= Z.div2 a).
  { intros a Ha. rewrite Z.div2_div. apply Z.div_pos; lia. }
  assert (S1 : forall a, Z.div2 a = Z.shiftr a 1) by (intros; apply Z.div2_spec).
  induction n as [n IH|n IH|]; intros mrs H; simpl.
  - rewrite IH, IH, shr_1_m by
      (rewrite ?IH, ?shr_1_m; auto; try apply Z.shiftr_nonneg; auto;
       rewrite ?shr_1_m; auto).
    rewrite S1, !Z.shiftr_shiftr by lia. f_equal. lia.
  - rewrite IH, IH by (rewrite ?IH; auto; apply Z.shiftr_nonneg; auto).
    rewrite !Z.shiftr_shiftr by lia. f_equal. lia.
  - rewrite shr_1_m by auto. apply S1.
Qed.

Lemma shr_record_of_loc_m m l : shr_m (shr_record_of_loc m l) = m.
Proof. destruct l as [|[]]; reflexivity. Qed.

(** [shr_fexp] shifts the mantissa right by the amount [k] that brings
    the exponent up to the format's, and by nothing when [k] is negative. *)
Lemma shr_fexp_spec m e l :
  0 <= m ->
  exists k,
    k = Z.max 0 (Z.max (Zdigits2 m + e - 53) (-1074) - e) /\
    snd (shr_fexp prec emax m e l) = e + k /\
    shr_m (fst (shr_fexp prec emax m e l)) = Z.shiftr m k.
Proof.
  intros Hm. eexists. split; [reflexivity|].
  unfold shr_fexp, shr.
  change (fexp prec emax (Zdigits2 m + e)) with (Z.max (Zdigits2 m + e - 53) (-1074)).
  destruct (Z.max (Zdigits2 m + e - 53) (-1074) - e) as [|p|p] eqn:E; cbn [fst snd].
  - rewrite shr_record_of_loc_m. split; [lia|reflexivity].
  - rewrite iter_shr_1_m by (rewrite shr_record_of_loc_m; exact Hm).
    rewrite shr_record_of_loc_m. split; [lia|reflexivity].
  - rewrite shr_record_of_loc_m. split; [lia|reflexivity].
Qed.

Lemma round_nearest_even_bounds m l : m <= round_nearest_even m l <= m + 1.
Proof. destruct l as [|[]]; simpl; try lia. destruct (Z.even m); lia. Qed.

(** Rounding a positive mantissa whose magnitude is above the smallest
    subnormal gives a non-zero number of the same sign, no smaller in
    magnitude; it is finite unless the exponent bound is passed. *)
Lemma binary_round_aux_pos sx p ex lx :
  -1074 < Zpos (digits2_pos p) + ex ->
  (exists m e,
     binary_round_aux prec emax sx (Zpos p) ex lx = S754_finite sx m e /\
     Zpos (digits2_pos p) + ex <= Zpos (digits2_pos m) + e /\
     e <= Z.max ex (Z.max (Zpos (digits2_pos p) + ex - 52) (-1074))) \/
  (binary_round_aux prec emax sx (Zpos p) ex lx = S754_infinity sx /\
   971 < Z.max ex (Z.max (Zpos (digits2_pos p) + ex - 52) (-1074))).
Proof.
  intros HE. unfold binary_round_aux.
  destruct (shr_fexp_spec (Zpos p) ex lx ltac:(lia)) as [k1 [Dk1 [He1 Hm1]]].
  destruct (shr_fexp prec emax (Zpos p) ex lx) as [mrs1 e1]. cbn [fst snd] in He1, Hm1.
  change (Zdigits2 (Zpos p)) with (Zpos (digits2_pos p)) in Dk1.
  set (m1 := shr_m mrs1) in *.
  pose proof (digits2_pos_log2 p) as Hd.
  pose proof (Z.log2_nonneg (Zpos p)) as Hp0.
  assert (Hk1 : 0 <= k1 <= Z.log2 (Zpos p)) by lia.
  assert (Hm1pos : 0 < m1).
  { rewrite Hm1. apply shiftr_pos; lia. }
  assert (Hl1 : Z.log2 m1 = Z.log2 (Zpos p) - k1).
  { rewrite Hm1, Z.log2_shiftr by lia. lia. }
  pose proof (round_nearest_even_bounds m1 (loc_of_shr_record mrs1)) as Hr.
  set (m2 := round_nearest_even m1 (loc_of_shr_record mrs1)) in *.
  assert (Hl2 : Z.log2 m1 <= Z.log2 m2 <= Z.log2 m1 + 1).
  { split; [apply Z.log2_le_mono; lia|].
    transitivity (Z.log2 (Z.succ m1)); [apply Z.log2_le_mono; lia|].
    apply Z.log2_succ_le. }
  destruct (shr_fexp_spec m2 e1 loc_Exact ltac:(lia)) as [k2 [Dk2 [He2 Hm2]]].
  destruct (shr_fexp prec emax m2 e1 loc_Exact) as [mrs2 e2]. cbn [fst snd] in He2, Hm2.
  rewrite (Zdigits2_log2 m2) in Dk2 by lia.
  pose proof (Z.log2_nonneg m2) as Hp2.
  assert (Hk2 : 0 <= k2 <= Z.log2 m2) by lia.
  assert (Hm3pos : 0 < shr_m mrs2).
  { rewrite Hm2. apply shiftr_pos; lia. }
  assert (Hl3 : Z.log2 (shr_m mrs2) = Z.log2 m2 - k2).
  { rewrite Hm2, Z.log2_shiftr by lia. lia. }
  destruct (shr_m mrs2) as [|m3|m3] eqn:E3; try lia.
  destruct (e2 <=? emax - prec) eqn:L; [left|right].
  - exists m3, e2. split; [reflexivity|].
    pose proof (digits2_pos_log2 m3). lia.
  - split; [reflexivity|]. apply Z.leb_gt in L.
    change (emax - prec) with 971 in L. lia.
Qed.

Lemma digits2_pos_iter_xO m d :
  digits2_pos (Pos.iter xO m d) = (digits2_pos m + d)%positive.
Proof.
  induction d as [|d IH] using Pos.peano_ind.
  - simpl. lia.
  - rewrite Pos.iter_succ. simpl. rewrite IH. lia.
Qed.

Lemma shl_align_spec mx ex ex' :
  Zpos (digits2_pos (fst (shl_align mx ex ex'))) + snd (shl_align mx ex ex')
  = Zpos (digits2_pos mx) + ex /\
  snd (shl_align mx ex ex') <= ex.
Proof.
  unfold shl_align. destruct (ex' - ex) as [|d|d] eqn:E; cbn [fst snd]; try lia.
  rewrite digits2_pos_iter_xO. lia.
Qed.

Lemma binary_round_pos sx p ex :
  -1074 < Zpos (digits2_pos p) + ex ->
  (exists m e,
     binary_round prec emax sx p ex = S754_finite sx m e /\
     Zpos (digits2_pos p) + ex <= Zpos (digits2_pos m) + e /\
     e <= Z.max ex (Z.max (Zpos (digits2_pos p) + ex - 52) (-1074))) \/
  (binary_round prec emax sx p ex = S754_infinity sx /\
   971 < Z.max ex (Z.max (Zpos (digits2_pos p) + ex - 52) (-1074))).
Proof.
  intros HE. unfold binary_round.
  pose proof (shl_align_spec p ex (fexp prec emax (Zpos (digits2_pos p) + ex))) as [Hs Hl].
  destruct (shl_align p ex (fexp prec emax (Zpos (digits2_pos p) + ex))) as [mz ez].
  cbn [fst snd] in Hs, Hl.
  destruct (binary_round_aux_pos sx mz ez loc_Exact ltac:(lia))
    as [[m [e [H1 [H2 H3]]]]|[H1 H2]].
  - left. exists m, e. split; [exact H1|]. lia.
  - right. split; [exact H1|lia].
Qed.

Local Open Scope float_scope.

Lemma Prim2SF_zero : Prim2SF 0 = S754_zero false.
Proof. reflexivity. Qed.

(** A positive number converted from a 63-bit integer is finite and at
    least 1. *)
Lemma of_uint63_pos i :
  (0 <? of_uint63 i) = true ->
  exists m e, Prim2SF (of_uint63 i) = S754_finite false m e /\
              (1 <= Zpos (digits2_pos m) + e)%Z.
Proof.
  rewrite FloatAxioms.ltb_spec, Prim2SF_zero, of_uint63_spec.
  pose proof (Uint63.to_Z_bounded i) as B.
  destruct (Uint63.to_Z i) as [|q|q] eqn:E; try lia.
  - discriminate.
  - intros _. unfold binary_normalize.
    assert (D : (1 <= Zpos (digits2_pos q) <= 63)%Z).
    { rewrite digits2_pos_log2. pose proof (Z.log2_nonneg (Zpos q)).
      assert (Z.log2 (Zpos q) < 63)%Z; [|lia].
      apply Z.log2_lt_pow2; [lia|]. exact (proj2 B). }
    destruct (binary_round_pos false q 0 ltac:(lia)) as [[m [e [H1 [H2 H3]]]]|[_ H]].
    + exists m, e. split; [exact H1|lia].
    + lia.
Qed.

Lemma positive_cases x :
  (0 <? x) = true ->
  (exists m e, Prim2SF x = S754_finite false m e) \/ Prim2SF x = S754_infinity false.
Proof.
  rewrite FloatAxioms.ltb_spec, Prim2SF_zero. unfold SFltb.
  destruct (Prim2SF x) as [s|s| |s m e]; simpl; try discriminate.
  - destruct s; [discriminate|]. now right.
  - destruct s; [discriminate|]. left. now exists m, e.
Qed.

Lemma positive_of_cases x :
  (exists m e, Prim2SF x = S754_finite false m e) \/ Prim2SF x = S754_infinity false ->
  (0 <? x) = true.
Proof.
  rewrite FloatAxioms.ltb_spec, Prim2SF_zero. unfold SFltb.
  intros [[m [e ->]]| ->]; reflexivity.
Qed.

Lemma valid_exponent x s m e :
  Prim2SF x = S754_finite s m e -> (-1074 <= e)%Z.
Proof.
  intros H. pose proof (Prim2SF_valid x) as V. rewrite H in V.
  unfold SpecFloat.valid_binary, bounded, canonical_mantissa in V.
  apply andb_true_iff in V. destruct V as [V _]. apply Z.eqb_eq in V.
  change (fexp prec emax (Zpos (digits2_pos m) + e))
    with (Z.max (Zpos (digits2_pos m) + e - 53) (-1074)) in V. lia.
Qed.

(** The product of a number that is at least 1 with a positive number is
    positive: it cannot underflow to zero. *)
Lemma mul_pos t tol mt et :
  Prim2SF t = S754_finite false mt et ->
  (1 <= Zpos (digits2_pos mt) + et)%Z ->
  (0 <? tol) = true ->
  (0 <? t * tol) = true.
Proof.
  intros Ht Hge Htol. apply positive_of_cases. rewrite mul_spec, Ht.
  destruct (positive_cases tol Htol) as [[ml [el Hl]]|Hl]; rewrite Hl.
  - pose proof (valid_exponent tol _ _ _ Hl) as Ve.
    unfold SF64mul, SFmul. cbn [xorb].
    assert (E : (-1074 < Zpos (digits2_pos (mt * ml)) + (et + el))%Z).
    { rewrite digits2_pos_log2. rewrite Pos2Z.inj_mul.
      pose proof (Z.log2_mul_below (Zpos mt) (Zpos ml) ltac:(lia) ltac:(lia)).
      pose proof (digits2_pos_log2 mt). pose proof (Z.log2_nonneg (Zpos ml)). lia. }
    destruct (binary_round_aux_pos false (mt * ml) (et + el) loc_Exact E)
      as [[m [e [H _]]]|[H _]]; rewrite H.
    + left. now exists m, e.
    + now right.
  - right. reflexivity.
Qed.

(** A finite number minus itself is +0. *)
Lemma sub_self t s m e : Prim2SF t = S754_finite s m e -> t - t = 0.
Proof.
  intros H. apply Prim2SF_inj. rewrite sub_spec, H, Prim2SF_zero.
  unfold SF64sub, SFsub. cbv zeta. rewrite Z.sub_diag. reflexivity.
Qed.

(** A buffer whose length equals a positive target passes the tolerance
    test for every positive tolerance. *)
Lemma exact_match_accepted (b : Buffer) t tol :
  getImageSize b = t ->
  (0 <? t) = true ->
  (0 <? tol) = true ->
  isWithinTolerance (getImageSize b) t tol = true.
Proof.
  intros Hb Ht Htol. subst t. revert Ht. unfold getImageSize, of_Z.
  destruct (Z.of_nat (List.length b)) as [|p|p] eqn:E; try lia.
  - discriminate.
  - intros Ht. destruct (of_uint63_pos _ Ht) as [m [e [Hm He]]].
    unfold isWithinTolerance, Math_abs. rewrite (sub_self _ _ _ _ Hm).
    change (abs 0) with 0. exact (mul_pos _ tol m e Hm He Htol).
Qed.

Lemma valid_mantissa x s m e :
  Prim2SF x = S754_finite s m e -> (Zpos m < 2 ^ 53)%Z.
Proof.
  intros H. pose proof (Prim2SF_valid x) as V. rewrite H in V.
  unfold SpecFloat.valid_binary, bounded, canonical_mantissa in V.
  apply andb_true_iff in V. destruct V as [V _]. apply Z.eqb_eq in V.
  change (fexp prec emax (Zpos (digits2_pos m) + e))
    with (Z.max (Zpos (digits2_pos m) + e - 53) (-1074))%Z in V.
  assert (D : (Z.log2 (Zpos m) < 53)%Z) by (pose proof (digits2_pos_log2 m); lia).
  apply Z.log2_lt_pow2 in D; lia.
Qed.

End FloatRounding.

(** * Facts about whole calls *)

Section RunFacts.

Variable W : Type.
Variable Jimp : option (JimpLib W).
Variable config : Config.

Local Abbreviation fmt := (format config).
Local Abbreviation target := (targetSizeBytes config).
Local Abbreviation tol := (tolerance' config).
Local Abbreviation loop := (while_loop W Jimp config).
Local Abbreviation generate := (generateImageWithTargetSize W Jimp config).

(** A call that passes validation is the loop, then the warning, then
    the construction of the outcome; nothing throws after the loop. *)
Lemma generate_exit env r env' :
  generate env = (r, env') ->
  (targetSizeMB config <=? 0) = false ->
  isFormatSupported fmt = true ->
  exists calls,
    renderCalls env' = renderCalls env ++ calls /\
    (List.length calls <= maxIterations' config)%nat /\
    Forall (fun c => exists s, c = renderConfig config (ceilingCheck fmt target s)) calls /\
    match r with
    | inl _ => True
    | inr o =>
        exists st',
          o = outcome config st' /\
          LoopExit Jimp config (initialState config) (maxIterations' config) calls st' /\
          warnings env' =
            (warnings env + if (maxIterations' config <=? iteration st')%nat then 1 else 0)%nat
    end.
Proof.
  unfold generateImageWithTargetSize. intros H T F. rewrite T, F in H. simpl in H.
  unfold bind at 1 in H.
  destruct (loop (maxIterations' config) (initialState config) env) as [[e|st'] env1] eqn:L;
    destruct (while_loop_exit W Jimp config _ _ _ _ _ L) as [Hw [calls [Hc [Hl [Hf Hr]]]]].
  - inversion H; subst. exists calls. auto.
  - exists calls. unfold bind, console_warn, ret in H.
    destruct (maxIterations' config <=? iteration st')%nat eqn:X;
      inversion H; subst; simpl; repeat split; auto;
      exists st'; repeat split; auto; rewrite X; simpl; lia.
Qed.

(** A call that returns has passed both validations. *)
Lemma generate_returns_validated env o env' :
  generate env = (inr o, env') ->
  (targetSizeMB config <=? 0) = false /\ isFormatSupported fmt = true.
Proof.
  unfold generateImageWithTargetSize. intros H.
  destruct (targetSizeMB config <=? 0); [discriminate|].
  destruct (isFormatSupported fmt); [auto|discriminate].
Qed.

(** The reported [iterations] is the number of render calls when the
    last one was accepted, and one more than that when the budget ran
    out. *)
Lemma exhausted_loop_reports_one_more env o env' :
  generate env = (inr o, env') ->
  exists calls,
    renderCalls env' = renderCalls env ++ calls /\
    (List.length calls <= maxIterations' config)%nat /\
    (iterations o = List.length calls \/
     (List.length calls = maxIterations' config /\ iterations o = S (List.length calls))).
Proof.
  intros H. destruct (generate_returns_validated _ _ _ H) as [T F].
  destruct (generate_exit env _ _ H T F) as [calls [Hc [Hl [_ [st' [Ho [Hx _]]]]]]].
  exists calls. split; [exact Hc|]. split; [exact Hl|].
  subst o. simpl.
  destruct Hx as [Hn Hcalls Hst | s1 b1 c0 Hcalls HJ1 HT Hst Hlen Hit
                 | s1 b1 c0 Hcalls HJ1 HT Hst Hlen Hit].
  - right. subst. simpl. split; [congruence|reflexivity].
  - left. rewrite Hit, Hcalls, length_app. simpl. lia.
  - right. split; [exact Hlen|]. rewrite Hit, Hlen. simpl. lia.
Qed.

Lemma adjustQuality_step actual t q : Spec.qualityStep actual t q (adjustQuality actual t q).
Proof.
  unfold Spec.qualityStep, adjustQuality. destruct (actual <? t); [left|right]; auto.
Qed.

Lemma exceedsCeiling_fixpoint f t st :
  exceedsCeiling (cur st) = false -> ceilingCheck f t st = st.
Proof. intros E. unfold ceilingCheck. rewrite E. reflexivity. Qed.

Lemma adjust_atCeiling f t b st :
  atCeiling f (cur st) = true ->
  cur (adjust f t b st) = cur st /\
  quality (adjust f t b st) = adjustQuality (getImageSize b) t (quality st).
Proof. intros C. unfold adjust. rewrite C. split; reflexivity. Qed.

End RunFacts.

Lemma Math_max_floor x c :
  is_nan c = false -> atLeast c (Math_max x c) \/ is_nan (Math_max x c) = true.
Proof.
  intros C. destruct (is_nan x) eqn:X.
  - right. apply Math_max_nan. now left.
  - left. now apply Math_max_ge.
Qed.

Lemma not_gt_atMost_or_nan c x :
  is_nan c = false -> gtb x c = false -> atMost c x \/ is_nan x = true.
Proof.
  intros C H. destruct (is_nan x) eqn:X; [now right|left].
  now apply not_gt_atMost.
Qed.

Lemma checked_state_withinCeiling config f t s :
  withinCeiling (renderConfig config (ceilingCheck f t s)).
Proof.
  pose proof (ceilingCheck_not_exceeds f t s) as H.
  unfold exceedsCeiling in H. apply orb_false_iff in H. destruct H as [Hw Hh].
  unfold withinCeiling. simpl. repeat split; auto;
    apply not_gt_atMost_or_nan; auto.
Qed.

Lemma isFormatSupported_spec fmt :
  isFormatSupported fmt = true <-> Spec.formatSupported fmt.
Proof.
  unfold isFormatSupported, includes, supportedFormats, Spec.formatSupported. simpl.
  rewrite !orb_true_iff, !String.eqb_eq. intuition discriminate.
Qed.

(** The factor lookup agrees with the specification's table for every
    format whose lower-cased name is not a member of [Object.prototype]. *)
Lemma compressionFactor_lookup fmt :
  includes Object_prototype_keys (toLowerCase fmt) = false ->
  toNumber (or_default (get_property compressionFactors (toLowerCase fmt)) 1.5)
  = Spec.compressionFactor fmt.
Proof.
  intros P. unfold Spec.compressionFactor, get_property, compressionFactors, own_property.
  rewrite (String.eqb_sym "jpg"), (String.eqb_sym "jpeg"), (String.eqb_sym "png").
  destruct (toLowerCase fmt =? "jpg")%string; [reflexivity|].
  destruct (toLowerCase fmt =? "jpeg")%string; [reflexivity|].
  destruct (toLowerCase fmt =? "png")%string; [reflexivity|].
  rewrite P. reflexivity.
Qed.

(** For those formats the estimator is the specification's estimator. *)
Lemma estimate_agrees_off_prototype t fmt :
  includes Object_prototype_keys (toLowerCase fmt) = false ->
  estimateInitialDimensions t fmt = Spec.estimate t fmt.
Proof.
  intros P. unfold estimateInitialDimensions, Spec.estimate.
  rewrite (compressionFactor_lookup fmt P). unfold Spec.pixelCeiling, maxDimension.
  set (p := t / Spec.compressionFactor fmt).
  set (w := Math_sqrt (p * (16 / 9))).
  set (h := p / w).
  destruct (gtb w 32767 || gtb h 32767); [|reflexivity].
  destruct (gtb w h); reflexivity.
Qed.

(** * The values of the dimensions

    Each operation on positive normal numbers is within a few units in
    the last place of the exact result, as long as the result stays in
    the normal range.  With these bounds the dimensions can be followed
    through the estimator, the adjustment and the ceiling rescale. *)

Section RealValues.

Local Open Scope R_scope.

Lemma pow2_pos e : 0 < pow2 e.
Proof. apply powerRZ_lt; lra. Qed.

Lemma pow2_add a b : pow2 (a + b) = pow2 a * pow2 b.
Proof. apply powerRZ_add; lra. Qed.

Lemma pow2_0 : pow2 0 = 1.
Proof. reflexivity. Qed.

Lemma pow2_1 : pow2 1 = 2.
Proof. unfold pow2. simpl. lra. Qed.

Lemma pow2_ge_1 k : (0 <= k)%Z -> 1 <= pow2 k.
Proof.
  intros H. unfold pow2. destruct k as [|p|p]; simpl; [lra| |lia].
  apply pow_R1_Rle. lra.
Qed.

Lemma pow2_le a b : (a <= b)%Z -> pow2 a <= pow2 b.
Proof.
  intros H. replace b with (a + (b - a))%Z by lia. rewrite pow2_add.
  pose proof (pow2_pos a). pose proof (pow2_ge_1 (b - a) ltac:(lia)). nra.
Qed.

Lemma pow2_lt a b : (a < b)%Z -> pow2 a < pow2 b.
Proof.
  intros H. replace b with (a + 1 + (b - a - 1))%Z by lia. rewrite !pow2_add, pow2_1.
  pose proof (pow2_pos a). pose proof (pow2_ge_1 (b - a - 1) ltac:(lia)). nra.
Qed.

Lemma pow2_lt_inv a b : pow2 a < pow2 b -> (a < b)%Z.
Proof.
  intros H. destruct (Z_lt_le_dec a b) as [L|L]; [exact L|].
  apply pow2_le in L. lra.
Qed.

Lemma pow2_IZR k : (0 <= k)%Z -> IZR (2 ^ k) = pow2 k.
Proof.
  intros H. destruct k as [|p|p]; [reflexivity| |lia].
  unfold pow2. rewrite <- Zpower_pos_powerRZ. reflexivity.
Qed.

Lemma pow2_neg k : pow2 (- k) = / pow2 k.
Proof. apply powerRZ_neg'. Qed.

Lemma pow2_inv_l k : pow2 (- k) * pow2 k = 1.
Proof. rewrite <- pow2_add. replace (- k + k)%Z with 0%Z by lia. reflexivity. Qed.

(** The number of binary digits of a mantissa brackets it. *)
Lemma digits_bounds m :
  pow2 (Zpos (digits2_pos m) - 1) <= IZR (Zpos m) < pow2 (Zpos (digits2_pos m)).
Proof.
  rewrite digits2_pos_log2.
  pose proof (Z.log2_spec (Zpos m) ltac:(lia)) as [L U].
  pose proof (Z.log2_nonneg (Zpos m)) as N.
  replace (Z.log2 (Zpos m) + 1 - 1)%Z with (Z.log2 (Zpos m)) by lia.
  rewrite <- !pow2_IZR by lia. split; [apply IZR_le; exact L|apply IZR_lt].
  replace (Z.log2 (Zpos m) + 1)%Z with (Z.succ (Z.log2 (Zpos m))) by lia. exact U.
Qed.

Lemma positiveNormal_pos x : positiveNormal x -> 0 < toReal x.
Proof.
  intros [m [e [H _]]]. unfold toReal. rewrite H. simpl.
  apply Rmult_lt_0_compat; [apply IZR_lt; lia|apply pow2_pos].
Qed.

Lemma positiveNormal_bounds x m e :
  Prim2SF x = S754_finite false m e -> Zpos (digits2_pos m) = 53%Z ->
  pow2 (e + 52) <= toReal x < pow2 (e + 53).
Proof.
  intros H D. unfold toReal. rewrite H. simpl.
  pose proof (digits_bounds m) as [L U]. rewrite D in L, U.
  change (53 - 1)%Z with 52%Z in L.
  rewrite (Z.add_comm e 52), (Z.add_comm e 53), !pow2_add.
  pose proof (pow2_pos e). split; nra.
Qed.

(** Comparison of positive normal doubles is comparison of their values. *)
Lemma ltb_toReal x y :
  positiveNormal x -> positiveNormal y ->
  ((x <? y)%float = true <-> toReal x < toReal y).
Proof.
  intros [mx [ex [Hx Dx]]] [my [ey [Hy Dy]]].
  pose proof (positiveNormal_bounds x mx ex Hx Dx) as Bx.
  pose proof (positiveNormal_bounds y my ey Hy Dy) as By.
  rewrite FloatAxioms.ltb_spec. unfold SFltb. rewrite Hx, Hy. simpl.
  destruct (Z.compare_spec ex ey) as [E|E|E].
  - subst ey. rewrite Pos.compare_cont_spec. simpl. unfold toReal. rewrite Hx, Hy. simpl.
    pose proof (pow2_pos ex) as P.
    destruct (Pos.compare_spec mx my) as [C|C|C].
    + subst. split; [discriminate|lra].
    + split; [intros _|reflexivity].
      apply Rmult_lt_compat_r; [exact P|apply IZR_lt; lia].
    + split; [discriminate|]. intros L. exfalso.
      assert (IZR (Zpos my) < IZR (Zpos mx)) by (apply IZR_lt; lia). nra.
  - split; [intros _|reflexivity].
    assert (pow2 (ex + 53) <= pow2 (ey + 52)) by (apply pow2_le; lia). lra.
  - split; [discriminate|]. intros L. exfalso.
    assert (pow2 (ey + 53) <= pow2 (ex + 52)) by (apply pow2_le; lia). lra.
Qed.

Lemma positiveNormal_not_nan x : positiveNormal x -> is_nan x = false.
Proof.
  intros [m [e [H _]]]. destruct (is_nan x) eqn:N; [|reflexivity].
  apply is_nan_spec in N. congruence.
Qed.

Lemma leb_toReal x y :
  positiveNormal x -> positiveNormal y ->
  ((x <=? y)%float = true <-> toReal x <= toReal y).
Proof.
  intros Px Py. pose proof (ltb_toReal y x Py Px) as L.
  split.
  - intros H. destruct (Rle_lt_dec (toReal x) (toReal y)) as [A|A]; [exact A|].
    apply L in A. exfalso. revert H A.
    rewrite FloatAxioms.leb_spec, FloatAxioms.ltb_spec. unfold SFleb, SFltb.
    rewrite (SFcompare_antisym (Prim2SF x) (Prim2SF y)).
    destruct (SFcompare (Prim2SF x) (Prim2SF y)) as [[]|]; simpl; congruence.
  - intros H. apply not_ltb_leb; try (apply positiveNormal_not_nan; assumption).
    case_eq (y <? x)%float; [|reflexivity]. intros E. apply L in E. lra.
Qed.

End RealValues.

Section Rounding.

Local Open Scope R_scope.

Lemma binary_round_aux_value sx p ex lx :
  (53 <= Zpos (digits2_pos p))%Z ->
  (-1021 <= Zpos (digits2_pos p) + ex <= 1023)%Z ->
  exists m e,
    binary_round_aux prec emax sx (Zpos p) ex lx = S754_finite sx m e /\
    Zpos (digits2_pos m) = 53%Z /\
    IZR (Zpos p) * pow2 ex * (1 - pow2 (-52)) <= IZR (Zpos m) * pow2 e
      <= IZR (Zpos p) * pow2 ex * (1 + pow2 (-52)).
Proof.
  intros Hd HE. unfold binary_round_aux.
  destruct (shr_fexp_spec (Zpos p) ex lx ltac:(lia)) as [k1 [Dk1 [He1 Hm1]]].
  destruct (shr_fexp prec emax (Zpos p) ex lx) as [mrs1 e1]. cbn [fst snd] in He1, Hm1.
  change (Zdigits2 (Zpos p)) with (Zpos (digits2_pos p)) in Dk1.
  set (m1 := shr_m mrs1) in *.
  pose proof (digits2_pos_log2 p) as Hl.
  assert (Hk1 : (k1 = Z.log2 (Zpos p) - 52)%Z) by lia.
  assert (Hm1pos : (0 < m1)%Z) by (rewrite Hm1; apply shiftr_pos; lia).
  assert (Hl1 : Z.log2 m1 = 52%Z) by (rewrite Hm1, Z.log2_shiftr by lia; lia).
  assert (Hpk : (0 < 2 ^ k1)%Z) by (apply Z.pow_pos_nonneg; lia).
  assert (Hdiv : (m1 * 2 ^ k1 <= Zpos p < (m1 + 1) * 2 ^ k1)%Z).
  { rewrite Hm1, Z.shiftr_div_pow2 by lia. split.
    - rewrite Z.mul_comm. apply Z.mul_div_le. exact Hpk.
    - rewrite Z.mul_comm. apply Z.mul_succ_div_gt. exact Hpk. }
  assert (Hp52 : (2 ^ k1 * 2 ^ 52 <= Zpos p)%Z).
  { rewrite <- Z.pow_add_r by lia. replace (k1 + 52)%Z with (Z.log2 (Zpos p)) by lia.
    apply Z.log2_spec. lia. }
  assert (Hm1lt : (m1 < 2 ^ 53)%Z) by (apply Z.log2_lt_pow2; lia).
  pose proof (round_nearest_even_bounds m1 (loc_of_shr_record mrs1)) as Hr.
  set (m2 := round_nearest_even m1 (loc_of_shr_record mrs1)) in *.
  assert (Hl2 : (52 <= Z.log2 m2)%Z) by (rewrite <- Hl1; apply Z.log2_le_mono; lia).
  destruct (shr_fexp_spec m2 e1 loc_Exact ltac:(lia)) as [k2 [Dk2 [He2 Hm2]]].
  destruct (shr_fexp prec emax m2 e1 loc_Exact) as [mrs2 e2]. cbn [fst snd] in He2, Hm2.
  rewrite (Zdigits2_log2 m2) in Dk2 by lia.
  assert (V : exists m3, shr_m mrs2 = Zpos m3 /\ Z.log2 (Zpos m3) = 52%Z /\
                         (e2 <= 971)%Z /\ IZR (Zpos m3) * pow2 e2 = IZR m2 * pow2 e1).
  { destruct (Z_lt_le_dec m2 (2 ^ 53)) as [L|L].
    - assert (Z.log2 m2 < 53)%Z by (apply Z.log2_lt_pow2; lia).
      assert (K : k2 = 0%Z) by lia. clear Dk2. subst k2. rewrite Z.shiftr_0_r in Hm2.
      destruct m2 as [|m3|m3] eqn:E2; try lia.
      exists m3. rewrite Hm2. repeat split; try lia.
      replace e2 with e1 by lia. reflexivity.
    - assert (E2 : m2 = (2 ^ 53)%Z) by lia.
      rewrite E2 in Dk2, Hm2. change (Z.log2 (2 ^ 53)) with 53%Z in Dk2.
      assert (K : k2 = 1%Z) by lia. clear Dk2. subst k2.
      change (Z.shiftr (2 ^ 53) 1) with (Zpos (2 ^ 52)) in Hm2.
      exists (2 ^ 52)%positive. rewrite Hm2. repeat split; try lia.
      rewrite E2, He2, pow2_add, pow2_1.
      change (Zpos (2 ^ 52)) with (2 ^ 52)%Z. rewrite !pow2_IZR by lia.
      change 53%Z with (52 + 1)%Z. rewrite pow2_add, pow2_1. ring. }
  destruct V as [m3 [E3 [L3 [B3 V3]]]]. rewrite E3.
  assert (Le : (e2 <=? emax - prec)%Z = true) by (apply Z.leb_le; exact B3).
  rewrite Le. exists m3, e2. split; [reflexivity|].
  split; [rewrite digits2_pos_log2; lia|].
  rewrite V3, He1, pow2_add.
  pose proof (pow2_pos ex) as Px. pose proof (pow2_pos k1) as Pk.
  assert (A1 : IZR m1 * pow2 k1 <= IZR (Zpos p)).
  { rewrite <- pow2_IZR, <- mult_IZR by lia. apply IZR_le. lia. }
  assert (A2 : IZR (Zpos p) < (IZR m1 + 1) * pow2 k1).
  { rewrite <- pow2_IZR by lia. rewrite <- (plus_IZR m1 1), <- mult_IZR. apply IZR_lt. lia. }
  assert (A3 : pow2 k1 <= IZR (Zpos p) * pow2 (-52)).
  { assert (pow2 k1 * pow2 52 <= IZR (Zpos p)).
    { rewrite <- !pow2_IZR, <- mult_IZR by lia. apply IZR_le. lia. }
    replace (pow2 k1) with (pow2 k1 * pow2 52 * pow2 (-52)).
    - apply Rmult_le_compat_r; [apply Rlt_le, pow2_pos|assumption].
    - rewrite Rmult_assoc, <- pow2_add. change (52 + -52)%Z with 0%Z. rewrite pow2_0. ring. }
  assert (A4 : IZR m1 <= IZR m2 <= IZR m1 + 1).
  { rewrite <- (plus_IZR m1 1). split; apply IZR_le; lia. }
  assert (B1 : IZR m1 * pow2 k1 <= IZR m2 * pow2 k1)
    by (apply Rmult_le_compat_r; lra).
  assert (B2 : IZR m2 * pow2 k1 <= (IZR m1 + 1) * pow2 k1)
    by (apply Rmult_le_compat_r; lra).
  replace (IZR m2 * (pow2 ex * pow2 k1)) with (IZR m2 * pow2 k1 * pow2 ex) by ring.
  replace (IZR (Zpos p) * pow2 ex * (1 - pow2 (-52)))
    with (IZR (Zpos p) * (1 - pow2 (-52)) * pow2 ex) by ring.
  replace (IZR (Zpos p) * pow2 ex * (1 + pow2 (-52)))
    with (IZR (Zpos p) * (1 + pow2 (-52)) * pow2 ex) by ring.
  split; apply Rmult_le_compat_r; lra.
Qed.


(** A 53-bit mantissa within the exponent range is not rounded at all. *)
Lemma binary_round_aux_exact sx p ex :
  Zpos (digits2_pos p) = 53%Z -> (-1074 <= ex <= 971)%Z ->
  binary_round_aux prec emax sx (Zpos p) ex loc_Exact = S754_finite sx p ex.
Proof.
  intros D E. unfold binary_round_aux, shr_fexp.
  change (Zdigits2 (Zpos p)) with (Zpos (digits2_pos p)). rewrite D.
  change (fexp prec emax (53 + ex)) with (Z.max (53 + ex - 53) (-1074)).
  replace (Z.max (53 + ex - 53) (-1074) - ex)%Z with 0%Z by lia.
  cbn [shr shr_record_of_loc loc_of_shr_record shr_m round_nearest_even].
  change (Zdigits2 (Zpos p)) with (Zpos (digits2_pos p)). rewrite D.
  change (fexp prec emax (53 + ex)) with (Z.max (53 + ex - 53) (-1074)).
  replace (Z.max (53 + ex - 53) (-1074) - ex)%Z with 0%Z by lia.
  cbn [shr shr_m].
  replace (ex <=? emax - prec)%Z with true; [reflexivity|].
  symmetry. apply Z.leb_le. change (emax - prec)%Z with 971%Z. lia.
Qed.

Lemma iter_xO_value q d : Zpos (Pos.iter xO q d) = (Zpos q * 2 ^ Zpos d)%Z.
Proof.
  induction d as [|d IH] using Pos.peano_ind.
  - simpl. lia.
  - rewrite Pos.iter_succ, Pos2Z.inj_xO, IH, Pos2Z.inj_succ, Z.pow_succ_r by lia. ring.
Qed.

(** An integer below 2^53 converts exactly. *)
Lemma of_Z_value n :
  (0 < n < 2 ^ 53)%Z -> positiveNormal (of_Z n) /\ toReal (of_Z n) = IZR n.
Proof.
  intros [N0 N1]. destruct n as [|q|q]; try lia.
  unfold positiveNormal, toReal, of_Z. rewrite of_uint63_spec, Uint63.of_Z_spec.
  rewrite Z.mod_small by (change Uint63.wB with (2 ^ 63)%Z; lia).
  unfold binary_normalize, binary_round.
  assert (Dq : (1 <= Zpos (digits2_pos q) <= 53)%Z).
  { rewrite digits2_pos_log2. pose proof (Z.log2_nonneg (Zpos q)).
    assert (Z.log2 (Zpos q) < 53)%Z by (apply Z.log2_lt_pow2; lia). lia. }
  change (fexp prec emax (Zpos (digits2_pos q) + 0))
    with (Z.max (Zpos (digits2_pos q) + 0 - 53) (-1074)).
  unfold shl_align.
  destruct (Z.max (Zpos (digits2_pos q) + 0 - 53) (-1074) - 0)%Z as [|d|d] eqn:E; try lia.
  - rewrite binary_round_aux_exact by lia.
    split; [exists q, 0%Z; split; [reflexivity|lia]|].
    cbn [SF2R cond_Zopp]. rewrite pow2_0. ring.
  - assert (D : Zpos (digits2_pos (Pos.iter xO q d)) = 53%Z)
      by (rewrite digits2_pos_iter_xO; lia).
    rewrite binary_round_aux_exact by lia.
    split; [eexists _, _; split; [reflexivity|exact D]|].
    cbn [SF2R cond_Zopp]. rewrite iter_xO_value, mult_IZR, pow2_IZR by lia.
    replace (Z.max (Zpos (digits2_pos q) + 0 - 53) (-1074)) with (- Zpos d)%Z by lia.
    rewrite Rmult_assoc, (Rmult_comm (pow2 (Zpos d))), pow2_inv_l. ring.
Qed.

End Rounding.

Section Operations.

Local Open Scope R_scope.

Lemma pow2_le_inv a b : pow2 a <= pow2 b -> (a <= b)%Z.
Proof.
  intros H. destruct (Z_le_gt_dec a b) as [L|L]; [exact L|].
  assert (pow2 b < pow2 a) by (apply pow2_lt; lia). lra.
Qed.

Lemma toReal_finite x m e :
  Prim2SF x = S754_finite false m e -> toReal x = IZR (Zpos m) * pow2 e.
Proof. intros H. unfold toReal. rewrite H. reflexivity. Qed.

(** A product of positive normal numbers that stays in the normal range
    is within one unit in the last place of the exact product. *)
Lemma mul_value x y :
  positiveNormal x -> positiveNormal y ->
  pow2 (-1021) <= toReal x * toReal y <= pow2 1022 ->
  positiveNormal (x * y)%float /\
  toReal x * toReal y * (1 - pow2 (-52)) <= toReal (x * y)%float
    <= toReal x * toReal y * (1 + pow2 (-52)).
Proof.
  intros [mx [ex [Hx Dx]]] [my [ey [Hy Dy]]].
  rewrite (toReal_finite x mx ex Hx), (toReal_finite y my ey Hy).
  intros [Lo Hi].
  assert (V : IZR (Zpos mx) * pow2 ex * (IZR (Zpos my) * pow2 ey)
              = IZR (Zpos (mx * my)) * pow2 (ex + ey)).
  { rewrite Pos2Z.inj_mul, mult_IZR, pow2_add. ring. }
  rewrite V in *.
  pose proof (digits_bounds (mx * my)) as [DL DU].
  pose proof (pow2_pos (ex + ey)) as Pe.
  assert (D53 : (53 <= Zpos (digits2_pos (mx * my)))%Z).
  { rewrite digits2_pos_log2, Pos2Z.inj_mul.
    pose proof (Z.log2_mul_below (Zpos mx) (Zpos my) ltac:(lia) ltac:(lia)).
    pose proof (digits2_pos_log2 mx). pose proof (digits2_pos_log2 my). lia. }
  assert (E : (-1021 <= Zpos (digits2_pos (mx * my)) + (ex + ey) <= 1023)%Z).
  { split.
    - assert (pow2 (-1021) < pow2 (Zpos (digits2_pos (mx * my)) + (ex + ey))).
      { rewrite pow2_add. nra. }
      apply pow2_lt_inv in H. lia.
    - assert (pow2 (Zpos (digits2_pos (mx * my)) - 1 + (ex + ey)) <= pow2 1022).
      { rewrite pow2_add. nra. }
      apply pow2_le_inv in H. lia. }
  destruct (binary_round_aux_value false (mx * my) (ex + ey) loc_Exact D53 E)
    as [m [e [H [D B]]]].
  assert (P : Prim2SF (x * y)%float = S754_finite false m e).
  { rewrite mul_spec, Hx, Hy. exact H. }
  split; [exists m, e; split; assumption|].
  rewrite (toReal_finite _ m e P). exact B.
Qed.


Lemma div_value x y :
  positiveNormal x -> positiveNormal y ->
  pow2 (-1020) <= toReal x / toReal y <= pow2 1021 ->
  positiveNormal (x / y)%float /\
  toReal x / toReal y * (1 - pow2 (-51)) <= toReal (x / y)%float
    <= toReal x / toReal y * (1 + pow2 (-52)).
Proof.
  intros [mx [ex [Hx Dx]]] [my [ey [Hy Dy]]].
  pose proof (positiveNormal_bounds x mx ex Hx Dx) as Bx.
  pose proof (positiveNormal_bounds y my ey Hy Dy) as By.
  pose proof (digits_bounds mx) as Mx. rewrite Dx in Mx.
  pose proof (digits_bounds my) as My. rewrite Dy in My.
  rewrite (toReal_finite x mx ex Hx), (toReal_finite y my ey Hy) in *.
  set (X := IZR (Zpos mx) * pow2 ex) in *. set (Y := IZR (Zpos my) * pow2 ey) in *.
  intros [Lo Hi].
  assert (Ypos : 0 < Y) by (pose proof (pow2_pos (ey + 52)); lra).
  assert (Xpos : 0 < X) by (pose proof (pow2_pos (ex + 52)); lra).
  (* the exponents are far from the ends of the range *)
  assert (Q1 : X / Y < pow2 (ex - ey + 1)).
  { apply Rmult_lt_reg_r with Y; [exact Ypos|].
    replace (X / Y * Y) with X by (field; lra).
    apply Rlt_le_trans with (pow2 (ex + 53)); [lra|].
    replace (ex + 53)%Z with ((ex - ey + 1) + (ey + 52))%Z by lia. rewrite pow2_add.
    apply Rmult_le_compat_l; [apply Rlt_le, pow2_pos|lra]. }
  assert (Q2 : pow2 (ex - ey - 1) < X / Y).
  { apply Rmult_lt_reg_r with Y; [exact Ypos|].
    replace (X / Y * Y) with X by (field; lra).
    apply Rlt_le_trans with (pow2 (ex + 52)); [|lra].
    replace (ex + 52)%Z with ((ex - ey - 1) + (ey + 53))%Z by lia. rewrite pow2_add.
    apply Rmult_lt_compat_l; [apply pow2_pos|lra]. }
  assert (E1 : (-1020 <= ex - ey)%Z).
  { assert (H : pow2 (-1020) < pow2 (ex - ey + 1)) by lra. apply pow2_lt_inv in H. lia. }
  assert (E2 : (ex - ey <= 1021)%Z).
  { assert (H : pow2 (ex - ey - 1) < pow2 1021) by lra. apply pow2_lt_inv in H. lia. }
  (* the integer quotient *)
  assert (Zx : (2 ^ 52 <= Zpos mx < 2 ^ 53)%Z).
  { pose proof (digits2_pos_log2 mx). pose proof (Z.log2_spec (Zpos mx) ltac:(lia)).
    replace (Z.log2 (Zpos mx)) with 52%Z in * by lia. exact H0. }
  assert (Zy : (2 ^ 52 <= Zpos my < 2 ^ 53)%Z).
  { pose proof (digits2_pos_log2 my). pose proof (Z.log2_spec (Zpos my) ltac:(lia)).
    replace (Z.log2 (Zpos my)) with 52%Z in * by lia. exact H0. }
  assert (C : SFdiv_core_binary prec emax (Zpos mx) ex (Zpos my) ey
              = (Zpos mx * 2 ^ 53 / Zpos my, ex - ey - 53, 
                 new_location (Zpos my) (Zpos mx * 2 ^ 53 mod Zpos my))%Z).
  { unfold SFdiv_core_binary.
    change (Zdigits2 (Zpos mx)) with (Zpos (digits2_pos mx)).
    change (Zdigits2 (Zpos my)) with (Zpos (digits2_pos my)). rewrite Dx, Dy.
    change (fexp prec emax (53 + ex - (53 + ey)))
      with (Z.max (53 + ex - (53 + ey) - 53) (-1074)).
    replace (Z.min (Z.max (53 + ex - (53 + ey) - 53) (-1074)) (ex - ey))
      with (ex - ey - 53)%Z by lia.
    cbv zeta. replace (ex - ey - (ex - ey - 53))%Z with 53%Z by lia.
    rewrite Z.shiftl_mul_pow2 by lia. unfold Z.div, Z.modulo.
    destruct (Z.div_eucl (Zpos mx * 2 ^ 53) (Zpos my)) as [q r]. reflexivity. }
  set (q := (Zpos mx * 2 ^ 53 / Zpos my)%Z) in *.
  assert (Hq : (q * Zpos my <= Zpos mx * 2 ^ 53 < (q + 1) * Zpos my)%Z).
  { pose proof (Z.mul_div_le (Zpos mx * 2 ^ 53) (Zpos my) ltac:(lia)) as H1.
    pose proof (Z.mul_succ_div_gt (Zpos mx * 2 ^ 53) (Zpos my) ltac:(lia)) as H2.
    fold q in H1, H2. lia. }
  assert (Bq : (2 ^ 52 <= q < 2 ^ 54)%Z).
  { change (2 ^ 52)%Z with 4503599627370496%Z in *.
    change (2 ^ 53)%Z with 9007199254740992%Z in *.
    change (2 ^ 54)%Z with 18014398509481984%Z. split; nia. }
  destruct q as [|qp|qp] eqn:Eq; try lia.
  assert (Dq : (53 <= Zpos (digits2_pos qp) <= 54)%Z).
  { rewrite digits2_pos_log2.
    assert (52 <= Z.log2 (Zpos qp))%Z by (apply Z.log2_le_pow2; lia).
    assert (Z.log2 (Zpos qp) < 54)%Z by (apply Z.log2_lt_pow2; lia). lia. }
  destruct (binary_round_aux_value false qp (ex - ey - 53)
              (new_location (Zpos my) (Zpos mx * 2 ^ 53 mod Zpos my))
              ltac:(lia) ltac:(lia)) as [m [e [H [D B]]]].
  assert (P : Prim2SF (x / y)%float = S754_finite false m e).
  { rewrite div_spec, Hx, Hy. unfold SF64div, SFdiv. rewrite C. exact H. }
  split; [exists m, e; split; assumption|].
  rewrite (toReal_finite _ m e P).
  set (A := IZR (Zpos qp) * pow2 (ex - ey - 53)) in *.
  (* A <= X / Y < A * (1 + 2^-52) *)
  assert (Pd : 0 < pow2 (ex - ey - 53)) by apply pow2_pos.
  assert (My0 : 0 < IZR (Zpos my)) by (apply IZR_lt; lia).
  assert (XY : X / Y = IZR (Zpos mx) * pow2 53 / IZR (Zpos my) * pow2 (ex - ey - 53)).
  { unfold X, Y. replace (ex - ey - 53)%Z with (ex + (- ey + - 53))%Z by lia.
    rewrite !pow2_add, pow2_neg.
    replace (pow2 (-53)) with (/ pow2 53) by (symmetry; apply (pow2_neg 53)).
    field. pose proof (pow2_pos ey). pose proof (pow2_pos 53). lra. }
  assert (A1 : IZR (Zpos qp) <= IZR (Zpos mx) * pow2 53 / IZR (Zpos my)).
  { apply Rmult_le_reg_r with (IZR (Zpos my)); [exact My0|].
    replace (IZR (Zpos mx) * pow2 53 / IZR (Zpos my) * IZR (Zpos my))
      with (IZR (Zpos mx) * pow2 53) by (field; lra).
    rewrite <- pow2_IZR, <- !mult_IZR by lia. apply IZR_le. lia. }
  assert (A2 : IZR (Zpos mx) * pow2 53 / IZR (Zpos my) < IZR (Zpos qp) + 1).
  { apply Rmult_lt_reg_r with (IZR (Zpos my)); [exact My0|].
    replace (IZR (Zpos mx) * pow2 53 / IZR (Zpos my) * IZR (Zpos my))
      with (IZR (Zpos mx) * pow2 53) by (field; lra).
    rewrite <- pow2_IZR by lia. rewrite <- (plus_IZR (Zpos qp) 1), <- !mult_IZR.
    apply IZR_lt. lia. }
  assert (A3 : 1 <= IZR (Zpos qp) * pow2 (-52)).
  { replace 1 with (pow2 52 * pow2 (-52)).
    - apply Rmult_le_compat_r; [apply Rlt_le, pow2_pos|].
      rewrite <- pow2_IZR by lia. apply IZR_le. lia.
    - rewrite <- pow2_add. reflexivity. }
  set (eps := pow2 (-52)) in *.
  assert (Heps : 0 < eps) by apply pow2_pos.
  assert (Heps2 : pow2 (-51) = 2 * eps).
  { unfold eps. change (-51)%Z with (1 + -52)%Z. rewrite pow2_add, pow2_1. ring. }
  rewrite Heps2, XY.
  set (T := IZR (Zpos mx) * pow2 53 / IZR (Zpos my)) in *.
  set (d := pow2 (ex - ey - 53)) in *.
  fold A in B. unfold A in *. clear A.
  set (Q := IZR (Zpos qp)) in *.
  assert (Qpos : 0 < Q) by (apply IZR_lt; lia).
  assert (U : Q * d <= T * d) by (apply Rmult_le_compat_r; lra).
  assert (L : T * d <= Q * d * (1 + eps)).
  { replace (Q * d * (1 + eps)) with (Q * (1 + eps) * d) by ring.
    apply Rmult_le_compat_r; lra. }
  assert (Qd : 0 < Q * d) by (apply Rmult_lt_0_compat; assumption).
  split.
  - apply Rle_trans with (Q * d * (1 - eps)); [|lra].
    apply Rle_trans with (Q * d * (1 + eps) * (1 - 2 * eps)).
    + apply Rmult_le_compat_r; [|exact L].
      assert (eps <= / 4); [|lra].
      unfold eps. change (/ 4) with (/ (2 * 2)).
      replace (/ (2 * 2)) with (pow2 (-2)) by (unfold pow2; simpl; field).
      apply pow2_le. lia.
    + replace (Q * d * (1 + eps) * (1 - 2 * eps))
        with (Q * d * ((1 + eps) * (1 - 2 * eps))) by ring.
      apply Rmult_le_compat_l; [lra|]. nra.
  - apply Rle_trans with (Q * d * (1 + eps)); [lra|].
    apply Rmult_le_compat_r; lra.
Qed.


Lemma sqrt_value x :
  positiveNormal x ->
  positiveNormal (sqrt x) /\
  toReal x * (1 - pow2 (-50)) <= toReal (sqrt x) * toReal (sqrt x)
    <= toReal x * (1 + pow2 (-50)).
Proof.
  intros [m [e [Hx Dx]]].
  pose proof (valid_exponent x _ _ _ Hx) as Ve.
  pose proof (Prim2SF_valid x) as Vx. rewrite Hx in Vx.
  assert (Ve2 : (e <= 971)%Z).
  { unfold SpecFloat.valid_binary, bounded in Vx. apply andb_true_iff in Vx.
    destruct Vx as [_ V]. apply Z.leb_le in V. exact V. }
  rewrite (toReal_finite x m e Hx).
  assert (Zm : (2 ^ 52 <= Zpos m < 2 ^ 53)%Z).
  { pose proof (digits2_pos_log2 m). pose proof (Z.log2_spec (Zpos m) ltac:(lia)).
    replace (Z.log2 (Zpos m)) with 52%Z in * by lia. exact H0. }
  assert (Hh : (2 * (e / 2) <= e <= 2 * (e / 2) + 1)%Z).
  { pose proof (Z.div_mod e 2 ltac:(lia)). pose proof (Z.mod_pos_bound e 2 ltac:(lia)). lia. }
  assert (Hh' : ((53 + e + 1) / 2 = e / 2 + 27)%Z).
  { replace (53 + e + 1)%Z with (e + 27 * 2)%Z by lia. apply Z.div_add. lia. }
  set (h := (e / 2)%Z) in *.
  set (s := (e - 2 * (h - 26))%Z).
  assert (Hs : (52 <= s <= 53)%Z) by (unfold s; lia).
  assert (C : exists l, SFsqrt_core_binary prec emax (Zpos m) e
                        = (Z.sqrt (Zpos m * 2 ^ s), (h - 26)%Z, l)).
  { unfold SFsqrt_core_binary.
    change (Zdigits2 (Zpos m)) with (Zpos (digits2_pos m)). rewrite Dx.
    change (fexp prec emax (Z.div2 (53 + e + 1)))
      with (Z.max (Z.div2 (53 + e + 1) - 53) (-1074)).
    rewrite !Z.div2_div. fold h.
    rewrite Hh'.
    replace (Z.min (Z.max (h + 27 - 53) (-1074)) h) with (h - 26)%Z by lia.
    cbv zeta. fold s.
    destruct s as [|sp|sp] eqn:Es; try lia.
    rewrite Z.shiftl_mul_pow2 by lia.
    pose proof (Z.sqrtrem_sqrt (Zpos m * 2 ^ Zpos sp)) as Q.
    destruct (Z.sqrtrem (Zpos m * 2 ^ Zpos sp)) as [q r]. simpl in Q. subst q.
    eexists. reflexivity. }
  destruct C as [l C].
  set (q := Z.sqrt (Zpos m * 2 ^ s)) in *.
  assert (P2s : (2 ^ 52 <= 2 ^ s <= 2 ^ 53)%Z) by (split; apply Z.pow_le_mono_r; lia).
  assert (Hm' : (2 ^ 52 * 2 ^ 52 <= Zpos m * 2 ^ s < 2 ^ 53 * 2 ^ 53)%Z).
  { change (2 ^ 52)%Z with 4503599627370496%Z in *.
    change (2 ^ 53)%Z with 9007199254740992%Z in *. split; nia. }
  assert (Hq : (q * q <= Zpos m * 2 ^ s < (q + 1) * (q + 1))%Z).
  { pose proof (Z.sqrt_spec (Zpos m * 2 ^ s) ltac:(lia)) as H. cbv zeta in H. fold q in H. unfold Z.succ in H. lia. }
  assert (Bq : (2 ^ 52 <= q < 2 ^ 53)%Z).
  { assert (0 <= q)%Z by apply Z.sqrt_nonneg.
    change (2 ^ 52)%Z with 4503599627370496%Z in *.
    change (2 ^ 53)%Z with 9007199254740992%Z in *. split; nia. }
  destruct q as [|qp|qp] eqn:Eq; try lia.
  assert (Dq : Zpos (digits2_pos qp) = 53%Z).
  { rewrite digits2_pos_log2.
    assert (52 <= Z.log2 (Zpos qp))%Z by (apply Z.log2_le_pow2; lia).
    assert (Z.log2 (Zpos qp) < 53)%Z by (apply Z.log2_lt_pow2; lia). lia. }
  destruct (binary_round_aux_value false qp (h - 26) l ltac:(lia) ltac:(lia))
    as [mr [er [H [D B]]]].
  assert (P : Prim2SF (sqrt x) = S754_finite false mr er).
  { rewrite sqrt_spec, Hx. unfold SF64sqrt, SFsqrt. rewrite C. exact H. }
  split; [exists mr, er; split; assumption|].
  rewrite (toReal_finite _ mr er P).
  set (R := IZR (Zpos mr) * pow2 er) in *.
  set (d := pow2 (h - 26)) in *.
  set (Q := IZR (Zpos qp)) in *.
  set (eps := pow2 (-52)) in *.
  assert (Heps : 0 < eps) by apply pow2_pos.
  assert (Heps4 : pow2 (-50) = 4 * eps).
  { unfold eps. change (-50)%Z with (1 + (1 + -52))%Z. rewrite !pow2_add, pow2_1. ring. }
  assert (Hepss : eps <= / 8).
  { unfold eps. replace (/ 8) with (pow2 (-3)) by (unfold pow2; simpl; field).
    apply pow2_le. lia. }
  assert (Pd : 0 < d) by apply pow2_pos.
  assert (Qpos : 0 < Q) by (apply IZR_lt; lia).
  assert (X : IZR (Zpos m) * pow2 e = IZR (Zpos m) * pow2 s * (d * d)).
  { unfold d. rewrite <- pow2_add, Rmult_assoc, <- pow2_add. f_equal. f_equal. unfold s. lia. }
  assert (A1 : Q * Q <= IZR (Zpos m) * pow2 s).
  { unfold Q. rewrite <- pow2_IZR, <- !mult_IZR by lia. apply IZR_le. lia. }
  assert (A2 : IZR (Zpos m) * pow2 s < (Q + 1) * (Q + 1)).
  { unfold Q. rewrite <- pow2_IZR by lia. rewrite <- (plus_IZR (Zpos qp) 1), <- !mult_IZR.
    apply IZR_lt. lia. }
  assert (A3 : 1 <= Q * eps).
  { replace 1 with (pow2 52 * pow2 (-52)).
    - apply Rmult_le_compat_r; [apply Rlt_le, pow2_pos|].
      unfold Q. rewrite <- pow2_IZR by lia. apply IZR_le. lia.
    - rewrite <- pow2_add. reflexivity. }
  rewrite Heps4, X.
  set (T := IZR (Zpos m) * pow2 s) in *.
  assert (Tpos : 0 < T) by nra.
  assert (A4 : T <= Q * Q * ((1 + eps) * (1 + eps))).
  { apply Rle_trans with ((Q + 1) * (Q + 1)); [lra|].
    replace (Q * Q * ((1 + eps) * (1 + eps))) with ((Q * (1 + eps)) * (Q * (1 + eps))) by ring.
    apply Rmult_le_compat; lra. }
  assert (dd : 0 < d * d) by (apply Rmult_lt_0_compat; assumption).
  assert (Rlo : Q * d * (1 - eps) * (Q * d * (1 - eps)) <= R * R).
  { apply Rmult_le_compat; try lra;
      apply Rmult_le_pos; try lra; apply Rmult_le_pos; lra. }
  assert (Rhi : R * R <= Q * d * (1 + eps) * (Q * d * (1 + eps))).
  { assert (0 <= Q * d * (1 - eps)).
    { apply Rmult_le_pos; try lra; apply Rmult_le_pos; lra. }
    apply Rmult_le_compat; lra. }
  split.
  - apply Rle_trans with (Q * d * (1 - eps) * (Q * d * (1 - eps))); [|exact Rlo].
    replace (Q * d * (1 - eps) * (Q * d * (1 - eps)))
      with (Q * Q * ((1 - eps) * (1 - eps)) * (d * d)) by ring.
    replace (T * (d * d) * (1 - 4 * eps)) with (T * (1 - 4 * eps) * (d * d)) by ring.
    apply Rmult_le_compat_r; [lra|].
    apply Rle_trans with (Q * Q * ((1 + eps) * (1 + eps)) * (1 - 4 * eps)).
    + apply Rmult_le_compat_r; lra.
    + rewrite Rmult_assoc. apply Rmult_le_compat_l; [nra|]. nra.
  - apply Rle_trans with (Q * d * (1 + eps) * (Q * d * (1 + eps))); [exact Rhi|].
    replace (Q * d * (1 + eps) * (Q * d * (1 + eps)))
      with (Q * Q * (d * d) * ((1 + eps) * (1 + eps))) by ring.
    apply Rle_trans with (T * (d * d) * ((1 + eps) * (1 + eps))).
    + apply Rmult_le_compat_r; [nra|]. apply Rmult_le_compat_r; lra.
    + apply Rmult_le_compat_l; [nra|]. nra.
Qed.

End Operations.

Section BuiltIns.

Local Open Scope R_scope.

(** [Math.round] of a positive normal number [x] is the integer [n] with
    [n <= x + 1/2 < n + 1]: the number +0 when [n] is zero, a positive
    normal number otherwise. *)
Lemma Math_round_value x :
  positiveNormal x ->
  exists n : Z,
    IZR n <= toReal x + / 2 < IZR n + 1 /\
    ((n = 0%Z /\ Math_round x = 0%float) \/
     ((0 < n)%Z /\ positiveNormal (Math_round x) /\ toReal (Math_round x) = IZR n)).
Proof.
  intros Px. pose proof Px as [m [e [Hx Dx]]].
  rewrite (toReal_finite x m e Hx).
  unfold Math_round. rewrite Hx.
  destruct (0 <=? e)%Z eqn:Ee.
  { apply Z.leb_le in Ee. exists (Zpos m * 2 ^ e)%Z.
    assert (V : IZR (Zpos m * 2 ^ e) = IZR (Zpos m) * pow2 e)
      by (rewrite mult_IZR, pow2_IZR by lia; reflexivity).
    rewrite V. split; [lra|]. right.
    split; [apply Z.mul_pos_pos; [lia|apply Z.pow_pos_nonneg; lia]|].
    split; [exact Px|]. apply (toReal_finite x m e Hx). }
  apply Z.leb_gt in Ee. cbv zeta. cbn [cond_Zopp].
  pose proof (valid_mantissa x _ _ _ Hx) as Vm.
  rewrite Z.shiftr_div_pow2, Z.shiftl_mul_pow2, Z.mul_1_l by lia.
  set (h := (2 ^ (- e - 1))%Z).
  assert (Hh : (0 < h)%Z) by (apply Z.pow_pos_nonneg; lia).
  assert (Hk : (2 ^ (- e) = 2 * h)%Z).
  { unfold h. rewrite <- Z.pow_succ_r by lia. f_equal. lia. }
  rewrite Hk.
  pose proof (Z.mul_div_le (Zpos m + h) (2 * h) ltac:(lia)) as D1.
  pose proof (Z.mul_succ_div_gt (Zpos m + h) (2 * h) ltac:(lia)) as D2.
  set (n := ((Zpos m + h) / (2 * h))%Z) in *.
  assert (N0 : (0 <= n)%Z) by (apply Z.div_pos; lia).
  assert (He : pow2 e * IZR (2 * h) = 1).
  { rewrite <- Hk, pow2_IZR by lia. rewrite <- pow2_add.
    replace (e + - e)%Z with 0%Z by lia. reflexivity. }
  pose proof (pow2_pos e) as Pe.
  rewrite mult_IZR in He.
  assert (IH : 0 < IZR h) by (apply IZR_lt; exact Hh).
  assert (B1 : IZR n * (2 * IZR h) <= IZR (Zpos m) + IZR h).
  { rewrite <- (mult_IZR 2 h), <- mult_IZR, <- plus_IZR. apply IZR_le. lia. }
  assert (B2 : IZR (Zpos m) + IZR h < (IZR n + 1) * (2 * IZR h)).
  { rewrite <- (mult_IZR 2 h), <- (plus_IZR n 1), <- mult_IZR, <- plus_IZR.
    apply IZR_lt. lia. }
  assert (He' : 2 * IZR h * pow2 e = 1) by lra.
  assert (Half : IZR h * pow2 e = / 2) by lra.
  assert (V1 : IZR n <= IZR (Zpos m) * pow2 e + / 2).
  { replace (IZR n) with (IZR n * (2 * IZR h) * pow2 e)
      by (rewrite Rmult_assoc, He'; ring).
    replace (IZR (Zpos m) * pow2 e + / 2) with ((IZR (Zpos m) + IZR h) * pow2 e)
      by (rewrite <- Half; ring).
    apply Rmult_le_compat_r; lra. }
  assert (V2 : IZR (Zpos m) * pow2 e + / 2 < IZR n + 1).
  { replace (IZR n + 1) with ((IZR n + 1) * (2 * IZR h) * pow2 e)
      by (rewrite Rmult_assoc, He'; ring).
    replace (IZR (Zpos m) * pow2 e + / 2) with ((IZR (Zpos m) + IZR h) * pow2 e)
      by (rewrite <- Half; ring).
    apply Rmult_lt_compat_r; lra. }
  exists n. split; [split; assumption|].
  destruct (n =? 0)%Z eqn:En.
  - apply Z.eqb_eq in En. left. split; [exact En|reflexivity].
  - apply Z.eqb_neq in En. right.
    destruct (of_Z_value n) as [Pn Vn].
    { split; [lia|]. change (2 ^ 53)%Z with 9007199254740992%Z in *. nia. }
    split; [lia|]. split; [exact Pn|exact Vn].
Qed.

Lemma Math_max_value x y :
  positiveNormal x -> positiveNormal y ->
  positiveNormal (Math_max x y) /\ toReal (Math_max x y) = Rmax (toReal x) (toReal y).
Proof.
  intros Px Py. unfold Math_max.
  rewrite (positiveNormal_not_nan x Px), (positiveNormal_not_nan y Py). simpl.
  pose proof (ltb_toReal x y Px Py) as L1. pose proof (ltb_toReal y x Py Px) as L2.
  destruct (x <? y)%float.
  { split; [exact Py|]. rewrite Rmax_right; [reflexivity|]. apply Rlt_le, L1. reflexivity. }
  destruct (y <? x)%float.
  { split; [exact Px|]. rewrite Rmax_left; [reflexivity|]. apply Rlt_le, L2. reflexivity. }
  assert (E : toReal x = toReal y).
  { apply Rle_antisym; apply Rnot_lt_le; intros A; [apply L2 in A|apply L1 in A]; discriminate. }
  destruct (get_sign x); (split; [assumption|]); rewrite E, Rmax_left; lra.
Qed.

Lemma Math_min_value x y :
  positiveNormal x -> positiveNormal y ->
  positiveNormal (Math_min x y) /\ toReal (Math_min x y) = Rmin (toReal x) (toReal y).
Proof.
  intros Px Py. unfold Math_min.
  rewrite (positiveNormal_not_nan x Px), (positiveNormal_not_nan y Py). simpl.
  pose proof (ltb_toReal x y Px Py) as L1. pose proof (ltb_toReal y x Py Px) as L2.
  destruct (x <? y)%float.
  { split; [exact Px|]. rewrite Rmin_left; [reflexivity|]. apply Rlt_le, L1. reflexivity. }
  destruct (y <? x)%float.
  { split; [exact Py|]. rewrite Rmin_right; [reflexivity|]. apply Rlt_le, L2. reflexivity. }
  assert (E : toReal x = toReal y).
  { apply Rle_antisym; apply Rnot_lt_le; intros A; [apply L2 in A|apply L1 in A]; discriminate. }
  destruct (get_sign x); (split; [assumption|]); rewrite E, Rmin_left; lra.
Qed.

(** [Math.max(0, c)] is [c] for a positive [c]. *)
Lemma Math_max_zero c : positiveNormal c -> Math_max 0 c = c.
Proof.
  intros Pc. unfold Math_max. rewrite (positiveNormal_not_nan c Pc).
  change (is_nan 0) with false. simpl.
  replace (0 <? c)%float with true; [reflexivity|].
  symmetry. apply positive_of_cases. left. destruct Pc as [m [e [H _]]]. now exists m, e.
Qed.

(** A number between two positive normal numbers is one. *)
Lemma positiveNormal_between lo hi t :
  positiveNormal lo -> positiveNormal hi ->
  (lo <=? t)%float = true -> (t <=? hi)%float = true ->
  positiveNormal t /\ toReal lo <= toReal t <= toReal hi.
Proof.
  intros Plo Phi L H.
  assert (Pt : positiveNormal t).
  { destruct Plo as [ml [el [Hlo Dlo]]]. destruct Phi as [mh [eh [Hhi Dhi]]].
    pose proof (Prim2SF_valid t) as V.
    rewrite FloatAxioms.leb_spec in L, H. unfold SFleb in L, H. rewrite Hlo in L. rewrite Hhi in H.
    pose proof (valid_exponent lo _ _ _ Hlo) as Vlo.
    destruct (Prim2SF t) as [s|s| |s m e] eqn:E; simpl in L, H; try discriminate.
    - destruct s; discriminate.
    - destruct s; [discriminate|].
      exists m, e. split; [exact E|].
      unfold SpecFloat.valid_binary, bounded, canonical_mantissa in V.
      apply andb_true_iff in V. destruct V as [V _]. apply Z.eqb_eq in V.
      change (fexp prec emax (Zpos (digits2_pos m) + e))
        with (Z.max (Zpos (digits2_pos m) + e - 53) (-1074))%Z in V.
      destruct (Z.compare_spec el e) as [C|C|C]; try discriminate; [|lia].
      subst e. rewrite Pos.compare_cont_spec in L. simpl in L.
      assert (ml <= m)%positive.
      { destruct (Pos.compare_spec ml m); try discriminate; lia. }
      assert (Z.log2 (Zpos ml) <= Z.log2 (Zpos m))%Z by (apply Z.log2_le_mono; lia).
      pose proof (digits2_pos_log2 ml). pose proof (digits2_pos_log2 m). lia. }
  split; [exact Pt|]. split; apply leb_toReal; assumption.
Qed.

End BuiltIns.

Section Dimensions.

Local Open Scope R_scope.

Lemma literal_value n c :
  of_Z n = c -> (0 < n < 2 ^ 53)%Z -> positiveNormal c /\ toReal c = IZR n.
Proof. intros <- H. now apply of_Z_value. Qed.

Lemma value_50 : positiveNormal 50 /\ toReal 50 = 50.
Proof. apply (literal_value 50); [reflexivity|lia]. Qed.

Lemma value_maxDimension : positiveNormal maxDimension /\ toReal maxDimension = 32767.
Proof. apply (literal_value 32767); [reflexivity|lia]. Qed.

(** Targets from one byte to 1e300 bytes. *)
Lemma bounded_target t :
  (1 <=? t)%float = true -> (t <=? 1e300)%float = true ->
  positiveNormal t /\ 1 <= toReal t <= pow2 997.
Proof.
  intros L U.
  assert (P1 : positiveNormal 1 /\ toReal 1 = 1)
    by (apply (literal_value 1); [reflexivity|lia]).
  assert (P300 : positiveNormal 1e300 /\ toReal 1e300 <= pow2 997).
  { assert (E : exists m, Prim2SF 1e300 = S754_finite false m 944 /\
                            Zpos (digits2_pos m) = 53%Z) by (eexists; split; reflexivity).
    destruct E as [m [E D]]. split; [now exists m, 944%Z|].
    apply Rlt_le. exact (proj2 (positiveNormal_bounds _ _ _ E D)). }
  destruct (positiveNormal_between 1 1e300 t (proj1 P1) (proj1 P300) L U) as [Pt [Lt Ut]].
  rewrite (proj2 P1) in Lt. split; [exact Pt|]. destruct P300. lra.
Qed.

Lemma ulp_small : pow2 (-52) <= / 1000000000.
Proof.
  apply Rle_trans with (pow2 (-30)); [apply pow2_le; lia|].
  unfold pow2. simpl. lra.
Qed.

Lemma pow2_15 : pow2 15 = 32768.
Proof. unfold pow2. simpl. lra. Qed.

(** One rescaled dimension, [Math.max(Math.round(old * scale), 50)]. *)
Lemma rescaled_value w0 s :
  dimensionInRange w0 -> positiveNormal s -> pow2 (-900) <= toReal s <= pow2 900 ->
  let w := Math_max (Math_round (w0 * s)) 50 in
  positiveNormal w /\ 50 <= toReal w /\
  toReal w0 * toReal s * (1 - pow2 (-52)) - / 2 <= toReal w /\
  (toReal w = 50 \/ toReal w <= toReal w0 * toReal s * (1 + pow2 (-52)) + / 2).
Proof.
  intros [Pw [W1 W2]] Ps [S1 S2] w.
  pose proof (pow2_pos (-900)) as P900.
  assert (M : pow2 (-1021) <= toReal w0 * toReal s <= pow2 1022).
  { split.
    - apply Rle_trans with (1 * pow2 (-900)).
      + rewrite Rmult_1_l. apply pow2_le. lia.
      + apply Rmult_le_compat; lra.
    - apply Rle_trans with (pow2 15 * pow2 900).
      + apply Rmult_le_compat; try lra. rewrite pow2_15. lra.
      + rewrite <- pow2_add. apply pow2_le. lia. }
  destruct (mul_value w0 s Pw Ps M) as [Pu [U1 U2]].
  destruct (Math_round_value _ Pu) as [n [[N1 N2] [[N0 R0]|[N0 [Pr Vr]]]]].
  - unfold w. rewrite R0, (Math_max_zero _ (proj1 value_50)).
    destruct value_50 as [P50 V50]. rewrite V50. subst n.
    split; [exact P50|]. split; [lra|]. split; [lra|]. left. reflexivity.
  - destruct value_50 as [P50 V50].
    destruct (Math_max_value _ _ Pr P50) as [Pm Vm]. fold w in Pm, Vm.
    rewrite Vr, V50 in Vm. rewrite Vm.
    split; [exact Pm|]. split; [apply Rmax_r|].
    split.
    + apply Rle_trans with (IZR n); [lra|apply Rmax_l].
    + unfold Rmax. destruct (Rle_dec (IZR n) 50); [left; reflexivity|right; lra].
Qed.

(** The arithmetic behind the ceiling rescale: when the larger of two
    rescaled dimensions is above 32767, the smaller one is large enough
    for the rescaled pair to stay above 49.5. *)
Lemma floor_survives u L G eps :
  0 < u -> 0 <= eps <= / 1000000000 ->
  50 <= L -> 50 * u * (1 - eps) - / 2 <= L ->
  G = 50 \/ G <= 32767 * u * (1 + eps) + / 2 ->
  32767 < G ->
  (99 / 2) * G * (1 + eps) <= 32767 * L * ((1 - 2 * eps) * (1 - eps)).
Proof.
  intros Hu [E0 E1] L50 Ll [HG|HG] G1; [lra|].
  set (c := / 1000000000) in *.
  assert (C : c = / 1000000000) by reflexivity.
  assert (A1 : u * (1 + eps) <= u * (1 + c)) by (apply Rmult_le_compat_l; lra).
  assert (A2 : u * (1 - c) <= u * (1 - eps)) by (apply Rmult_le_compat_l; lra).
  assert (A3 : G * (1 + eps) <= G * (1 + c)) by (apply Rmult_le_compat_l; lra).
  assert (A4 : 1 - 3 * c <= (1 - 2 * eps) * (1 - eps)) by nra.
  assert (A5 : L * (1 - 3 * c) <= L * ((1 - 2 * eps) * (1 - eps)))
    by (apply Rmult_le_compat_l; lra).
  apply Rle_trans with ((99 / 2) * (G * (1 + c))); [lra|].
  apply Rle_trans with (32767 * (L * (1 - 3 * c))); [|lra].
  assert (G2 : G <= 32767 * (u * (1 + c)) + / 2) by lra.
  assert (L2 : 50 * (u * (1 - c)) - / 2 <= L) by lra.
  clear A1 A2 A3 A4 A5 HG Ll.
  destruct (Rle_dec u (101 / 100)) as [U|U]; unfold c in *; clear C; lra.
Qed.


(** An integer above 49.5 - 1 is at least 50. *)
Lemma round_at_least_50 n v :
  IZR n <= v + / 2 < IZR n + 1 -> 99 / 2 <= v -> (0 < n)%Z /\ 50 <= IZR n.
Proof.
  intros [N1 N2] V.
  assert (H : (49 < n)%Z) by (apply lt_IZR; lra).
  split; [lia|]. apply IZR_le. lia.
Qed.

(** The side of the ceiling rescale computed as
    [Math.round(maxDimension / aspectRatio)], where the width is the
    larger dimension. *)
Lemma clamp_by_quotient w h :
  positiveNormal w -> positiveNormal h ->
  50 <= toReal h -> toReal h <= toReal w -> toReal w <= pow2 1000 ->
  (99 / 2) * toReal w * (1 + pow2 (-52))
    <= 32767 * toReal h * ((1 - 2 * pow2 (-52)) * (1 - pow2 (-52))) ->
  dimensionInRange (Math_min (Math_round (maxDimension / (w / h))) maxDimension).
Proof.
  intros Pw Ph H50 HW W1000 K.
  destruct value_maxDimension as [Pmax Vmax].
  pose proof ulp_small as Eps. pose proof (pow2_pos (-52)) as Eps0.
  set (eps := pow2 (-52)) in *.
  assert (E2 : pow2 (-51) = 2 * eps).
  { unfold eps. change (-51)%Z with (1 + -52)%Z. rewrite pow2_add, pow2_1. ring. }
  set (W := toReal w) in *. set (H := toReal h) in *.
  assert (Q : 1 <= W / H <= pow2 1000).
  { split.
    - apply Rmult_le_reg_r with H; [lra|]. replace (W / H * H) with W by (field; lra). lra.
    - apply Rmult_le_reg_r with H; [lra|]. replace (W / H * H) with W by (field; lra).
      pose proof (pow2_pos 1000). nra. }
  assert (M1 : pow2 (-1020) <= W / H <= pow2 1021).
  { split.
    - apply Rle_trans with (pow2 0); [apply pow2_le; lia|rewrite pow2_0; lra].
    - apply Rle_trans with (pow2 1000); [lra|apply pow2_le; lia]. }
  destruct (div_value w h Pw Ph M1) as [Pa [A1 A2]]. fold W H in A1, A2.
  rewrite E2 in A1. fold eps in A2.
  set (AR := toReal (w / h)%float) in *.
  assert (AR1 : / 2 <= AR) by nra.
  assert (AR2 : AR <= pow2 1001).
  { apply Rle_trans with (pow2 1000 * 2).
    - apply Rle_trans with (W / H * (1 + eps)); [exact A2|].
      apply Rmult_le_compat; lra.
    - change 1001%Z with (1000 + 1)%Z. rewrite pow2_add, pow2_1. lra. }
  assert (M2 : pow2 (-1020) <= toReal maxDimension / AR <= pow2 1021).
  { rewrite Vmax. split.
    - apply Rle_trans with (1 / pow2 1001).
      + replace (1 / pow2 1001) with (pow2 (-1001))
          by (change (-1001)%Z with (- (1001))%Z; rewrite pow2_neg; field;
              pose proof (pow2_pos 1001); lra).
        apply pow2_le. lia.
      + pose proof (pow2_pos 1001).
        apply Rmult_le_reg_r with (pow2 1001 * AR); [nra|].
        replace (1 / pow2 1001 * (pow2 1001 * AR)) with AR by (field; lra).
        replace (32767 / AR * (pow2 1001 * AR)) with (32767 * pow2 1001) by (field; lra).
        nra.
    - apply Rle_trans with (pow2 16); [|apply pow2_le; lia].
      replace (pow2 16) with 65536 by (unfold pow2; simpl; lra).
      apply Rmult_le_reg_r with AR; [lra|].
      replace (32767 / AR * AR) with 32767 by (field; lra). lra. }
  destruct (div_value maxDimension (w / h) Pmax Pa M2) as [Pv [V1 _]].
  fold AR in V1. rewrite Vmax, E2 in V1.
  set (V := toReal (maxDimension / (w / h))%float) in *.
  assert (V50 : 99 / 2 <= V).
  { apply Rle_trans with (32767 / AR * (1 - 2 * eps)); [|exact V1].
    apply Rmult_le_reg_r with AR; [lra|].
    replace (32767 / AR * (1 - 2 * eps) * AR) with (32767 * (1 - 2 * eps)) by (field; lra).
    apply Rle_trans with (99 / 2 * (W / H * (1 + eps))).
    - apply Rmult_le_compat_l; lra.
    - apply Rmult_le_reg_r with H; [lra|].
      replace (99 / 2 * (W / H * (1 + eps)) * H) with (99 / 2 * W * (1 + eps)) by (field; lra).
      apply Rle_trans with (32767 * H * ((1 - 2 * eps) * (1 - eps))); [exact K|].
      assert (0 <= 32767 * H * (1 - 2 * eps) * eps).
      { apply Rmult_le_pos; [|lra]. apply Rmult_le_pos; lra. }
      nra. }
  destruct (Math_round_value _ Pv) as [n [N [[N0 _]|[N0 [Pr Vr]]]]];
    destruct (round_at_least_50 n V N V50) as [Np N50]; [lia|].
  destruct (Math_min_value _ _ Pr Pmax) as [Pm Vm].
  split; [exact Pm|]. rewrite Vm, Vr, Vmax.
  split; [apply Rmin_glb; lra|apply Rmin_r].
Qed.

(** The side computed as [Math.round(maxDimension * aspectRatio)], where
    the height is the larger dimension. *)
Lemma clamp_by_product w h :
  positiveNormal w -> positiveNormal h ->
  50 <= toReal w -> toReal w <= toReal h -> toReal h <= pow2 1000 ->
  (99 / 2) * toReal h * (1 + pow2 (-52))
    <= 32767 * toReal w * ((1 - 2 * pow2 (-52)) * (1 - pow2 (-52))) ->
  dimensionInRange (Math_min (Math_round (maxDimension * (w / h))) maxDimension).
Proof.
  intros Pw Ph H50 HW W1000 K.
  destruct value_maxDimension as [Pmax Vmax].
  pose proof ulp_small as Eps. pose proof (pow2_pos (-52)) as Eps0.
  set (eps := pow2 (-52)) in *.
  assert (E2 : pow2 (-51) = 2 * eps).
  { unfold eps. change (-51)%Z with (1 + -52)%Z. rewrite pow2_add, pow2_1. ring. }
  set (W := toReal w) in *. set (H := toReal h) in *.
  pose proof (pow2_pos 1000) as P1000.
  assert (Q : pow2 (-1000) <= W / H <= 1).
  { split.
    - apply Rmult_le_reg_r with H; [lra|]. replace (W / H * H) with W by (field; lra).
      apply Rle_trans with (pow2 (-1000) * pow2 1000).
      + apply Rmult_le_compat_l; [apply Rlt_le, pow2_pos|lra].
      + rewrite <- pow2_add. change (-1000 + 1000)%Z with 0%Z. rewrite pow2_0. lra.
    - apply Rmult_le_reg_r with H; [lra|]. replace (W / H * H) with W by (field; lra). lra. }
  assert (M1 : pow2 (-1020) <= W / H <= pow2 1021).
  { split.
    - apply Rle_trans with (pow2 (-1000)); [apply pow2_le; lia|lra].
    - apply Rle_trans with (pow2 0); [rewrite pow2_0; lra|apply pow2_le; lia]. }
  destruct (div_value w h Pw Ph M1) as [Pa [A1 A2]]. fold W H in A1, A2.
  rewrite E2 in A1. fold eps in A2.
  set (AR := toReal (w / h)%float) in *.
  pose proof (pow2_pos (-1000)) as Pm1000.
  assert (AR1 : pow2 (-1001) <= AR).
  { apply Rle_trans with (pow2 (-1000) * / 2).
    - change (-1000)%Z with (1 + -1001)%Z. rewrite pow2_add, pow2_1. lra.
    - apply Rle_trans with (W / H * (1 - 2 * eps)); [|exact A1].
      apply Rmult_le_compat; lra. }
  assert (AR2 : AR <= 2).
  { apply Rle_trans with (W / H * (1 + eps)); [exact A2|].
    apply Rle_trans with (1 * (1 + eps)); [apply Rmult_le_compat_r; lra|lra]. }
  pose proof (pow2_pos (-1001)) as Pm1001.
  assert (M2 : pow2 (-1021) <= toReal maxDimension * AR <= pow2 1022).
  { rewrite Vmax. split.
    - apply Rle_trans with (1 * pow2 (-1001)).
      + rewrite Rmult_1_l. apply pow2_le. lia.
      + apply Rmult_le_compat; lra.
    - apply Rle_trans with (pow2 16); [|apply pow2_le; lia].
      replace (pow2 16) with 65536 by (unfold pow2; simpl; lra). lra. }
  destruct (mul_value maxDimension (w / h) Pmax Pa M2) as [Pv [V1 _]].
  fold AR in V1. rewrite Vmax in V1. fold eps in V1.
  set (V := toReal (maxDimension * (w / h))%float) in *.
  assert (V50 : 99 / 2 <= V).
  { apply Rle_trans with (32767 * AR * (1 - eps)); [|exact V1].
    apply Rle_trans with (32767 * (W / H * (1 - 2 * eps)) * (1 - eps)).
    - apply Rmult_le_reg_r with H; [lra|].
      replace (32767 * (W / H * (1 - 2 * eps)) * (1 - eps) * H)
        with (32767 * W * ((1 - 2 * eps) * (1 - eps))) by (field; lra).
      apply Rle_trans with (99 / 2 * H * (1 + eps)); [|exact K].
      assert (0 <= 99 / 2 * H * eps) by (apply Rmult_le_pos; lra). lra.
    - apply Rmult_le_compat_r; [lra|]. apply Rmult_le_compat_l; lra. }
  destruct (Math_round_value _ Pv) as [n [N [[N0 _]|[N0 [Pr Vr]]]]];
    destruct (round_at_least_50 n V N V50) as [Np N50]; [lia|].
  destruct (Math_min_value _ _ Pr Pmax) as [Pm Vm].
  split; [exact Pm|]. rewrite Vm, Vr, Vmax.
  split; [apply Rmin_glb; lra|apply Rmin_r].
Qed.

End Dimensions.

(** ** Nothing the estimator returns is above the ceiling *)

Section Ceiling.

Lemma Prim2SF_maxDimension :
  Prim2SF maxDimension = S754_finite false 9006924376834048 (-38).
Proof. reflexivity. Qed.

(** Integers up to the ceiling convert to numbers up to the ceiling, and
    negative ones to negative numbers. *)
Lemma of_Z_small k : (0 <= k <= 32767)%Z -> gtb (of_Z k) maxDimension = false.
Proof.
  intros H. destruct (Z.eq_dec k 0) as [->|N]; [reflexivity|].
  destruct (of_Z_value k ltac:(lia)) as [P V]. destruct value_maxDimension as [Pm Vm].
  apply not_true_is_false. intros G. apply (ltb_toReal _ _ Pm P) in G.
  rewrite V, Vm in G. apply lt_IZR in G. lia.
Qed.

Lemma of_Z_negative p : gtb (of_Z (Zneg p)) maxDimension = false.
Proof.
  unfold gtb, of_Z. rewrite FloatAxioms.ltb_spec, opp_spec, of_uint63_spec, Prim2SF_maxDimension.
  pose proof (Uint63.to_Z_bounded (Uint63.of_Z (Zpos p))) as B.
  destruct (Uint63.to_Z (Uint63.of_Z (Zpos p))) as [|q|q]; try lia.
  - reflexivity.
  - unfold binary_normalize.
    assert (D : (1 <= Zpos (digits2_pos q))%Z) by lia.
    destruct (binary_round_pos false q 0 ltac:(lia)) as [[m [e [H1 _]]]|[H1 _]];
      rewrite H1; reflexivity.
Qed.

(** Rounding to an integer does not pass the ceiling. *)
Lemma Math_round_not_gt x :
  gtb x maxDimension = false -> gtb (Math_round x) maxDimension = false.
Proof.
  intros H. unfold Math_round.
  destruct (Prim2SF x) as [s0|s0| |s m e] eqn:E; try exact H.
  destruct (0 <=? e)%Z eqn:Ee; [exact H|]. apply Z.leb_gt in Ee.
  cbv zeta.
  set (n := Z.shiftr (cond_Zopp s (Zpos m) + Z.shiftl 1 (- e - 1)) (- e)).
  destruct (n =? 0)%Z eqn:N0.
  { destruct s; reflexivity. }
  apply Z.eqb_neq in N0.
  destruct n as [|q|q] eqn:En; [lia| |apply of_Z_negative].
  apply of_Z_small.
  (* a positive rounded value comes from a positive argument below the ceiling *)
  assert (Hn : n = Zpos q) by exact En. clear En. unfold n in Hn.
  pose proof (valid_mantissa x s m e E) as Vm.
  rewrite Z.shiftr_div_pow2 in Hn by lia.
  rewrite Z.shiftl_mul_pow2 in Hn by lia. rewrite Z.mul_1_l in Hn.
  destruct s.
  { (* negative argument: the rounded value is not positive *)
    exfalso. cbn [cond_Zopp] in Hn.
    assert (Hp : (0 < 2 ^ (- e))%Z) by (apply Z.pow_pos_nonneg; lia).
    assert (Hh : (2 * 2 ^ (- e - 1) = 2 ^ (- e))%Z).
    { rewrite <- Z.pow_succ_r by lia. f_equal. lia. }
    assert ((- Zpos m + 2 ^ (- e - 1)) / 2 ^ (- e) < 1)%Z; [|lia].
    apply Z.div_lt_upper_bound; lia. }
  cbn [cond_Zopp] in Hn.
  unfold gtb in H. rewrite FloatAxioms.ltb_spec, Prim2SF_maxDimension, E in H.
  unfold SFltb, SFcompare in H.
  assert (Hp : (0 < 2 ^ (- e))%Z) by (apply Z.pow_pos_nonneg; lia).
  assert (Hh : (2 * 2 ^ (- e - 1) = 2 ^ (- e))%Z).
  { rewrite <- Z.pow_succ_r by lia. f_equal. lia. }
  split; [lia|]. rewrite <- Hn. clear Hn N0 n.
  assert (G : forall a b, (0 < b -> a < b * 32768 -> a / b <= 32767)%Z).
  { intros a b Hb Ha. assert (a / b < 32768)%Z; [|lia].
    apply Z.div_lt_upper_bound; assumption. }
  apply G; [exact Hp|].
  destruct (Z.compare_spec (-38) e) as [He|He|He].
  - subst e. rewrite Pos.compare_cont_spec in H. cbn [Pos.switch_Eq] in H.
    change (- -38)%Z with 38%Z. change (38 - 1)%Z with 37%Z.
    change (2 ^ 38)%Z with 274877906944%Z. change (2 ^ 37)%Z with 137438953472%Z.
    clear Hp Hh Vm E Ee G.
    rewrite Pos2Z.inj_compare in H.
    destruct (Z.compare_spec 9006924376834048 (Zpos m)) as [Cm|Cm|Cm]; try discriminate.
    + rewrite <- Cm. reflexivity.
    + clear H. lia.
  - discriminate.
  - assert (B : (2 ^ 53 <= 2 ^ 14 * 2 ^ (- e))%Z).
    { rewrite <- Z.pow_add_r by lia. apply Z.pow_le_mono_r; lia. }
    clear H E G. change (2 ^ 53)%Z with 9007199254740992%Z in *.
    change (2 ^ 14)%Z with 16384%Z in B.
    generalize dependent (2 ^ (- e))%Z. generalize (2 ^ (- e - 1))%Z.
    intros h k Hk Hh B. lia.
Qed.

Lemma Math_max_not_gt x y c :
  gtb x c = false -> gtb y c = false -> gtb (Math_max x y) c = false.
Proof.
  intros X Y. unfold Math_max.
  destruct (is_nan x || is_nan y); [apply ltb_nan_r; reflexivity|].
  destruct (x <? y); [exact Y|].
  destruct (y <? x); [exact X|].
  destruct (get_sign x); assumption.
Qed.

(** The estimator never returns a dimension above the ceiling. *)
Lemma estimate_within_ceiling t fmt :
  exceedsCeiling (estimateInitialDimensions t fmt) = false.
Proof.
  unfold estimateInitialDimensions, exceedsCeiling.
  set (p := t / toNumber (or_default (get_property compressionFactors (toLowerCase fmt)) 1.5)).
  set (w := Math_sqrt (p * (16 / 9))).
  set (h := p / w).
  destruct (gtb w maxDimension || gtb h maxDimension) eqn:E.
  - destruct (gtb w h); cbn [width height];
      rewrite !Math_max_not_gt; try reflexivity;
      apply Math_round_not_gt; apply Math_min_not_gt.
  - apply orb_false_iff in E. destruct E as [Ew Eh]. cbn [width height].
    rewrite !Math_max_not_gt; try reflexivity; apply Math_round_not_gt; assumption.
Qed.

End Ceiling.

Section Steps.

Local Open Scope R_scope.

Lemma square_le a b : 0 <= a -> 0 < b -> a * a <= b * b -> a <= b.
Proof. intros. nra. Qed.

Lemma gtb_toReal x y :
  positiveNormal x -> positiveNormal y -> (gtb x y = true <-> toReal y < toReal x).
Proof. intros Px Py. unfold gtb. apply ltb_toReal; assumption. Qed.

Lemma gtb_false_toReal x y :
  positiveNormal x -> positiveNormal y -> gtb x y = false -> toReal x <= toReal y.
Proof.
  intros Px Py H. apply Rnot_lt_le. intros A. apply (gtb_toReal x y Px Py) in A. congruence.
Qed.

Lemma min_maxDimension : dimensionInRange (Math_min maxDimension maxDimension).
Proof.
  destruct value_maxDimension as [P V].
  destruct (Math_min_value _ _ P P) as [Pm Vm].
  split; [exact Pm|]. rewrite Vm, V, Rmin_left; lra.
Qed.

(** The scale factor [Math.sqrt(targetSize / currentSize)] for a target
    and a size of at least one byte. *)
Lemma scaleFactor_value a t :
  positiveNormal a -> 1 <= toReal a <= pow2 53 ->
  positiveNormal t -> 1 <= toReal t <= pow2 997 ->
  positiveNormal (Math_sqrt (t / a)) /\
  pow2 (-900) <= toReal (Math_sqrt (t / a)) <= pow2 900.
Proof.
  intros Pa [A1 A2] Pt [T1 T2].
  pose proof ulp_small as Eps. pose proof (pow2_pos (-52)) as Eps0.
  set (eps := pow2 (-52)) in *.
  assert (E2 : pow2 (-51) = 2 * eps).
  { unfold eps. change (-51)%Z with (1 + -52)%Z. rewrite pow2_add, pow2_1. ring. }
  assert (E4 : pow2 (-50) = 4 * eps).
  { unfold eps. change (-50)%Z with (1 + (1 + -52))%Z. rewrite !pow2_add, pow2_1. ring. }
  set (A := toReal a) in *. set (T := toReal t) in *.
  pose proof (pow2_pos 53) as P53. pose proof (pow2_pos 997) as P997.
  assert (Q : pow2 (-53) <= T / A <= pow2 997).
  { split.
    - apply Rmult_le_reg_r with A; [lra|]. replace (T / A * A) with T by (field; lra).
      apply Rle_trans with (pow2 (-53) * pow2 53).
      + apply Rmult_le_compat_l; [apply Rlt_le, pow2_pos|lra].
      + rewrite <- pow2_add. change (-53 + 53)%Z with 0%Z. rewrite pow2_0. lra.
    - apply Rmult_le_reg_r with A; [lra|]. replace (T / A * A) with T by (field; lra). nra. }
  assert (M : pow2 (-1020) <= T / A <= pow2 1021).
  { split.
    - apply Rle_trans with (pow2 (-53)); [apply pow2_le; lia|lra].
    - apply Rle_trans with (pow2 997); [lra|apply pow2_le; lia]. }
  destruct (div_value t a Pt Pa M) as [Pr [R1 R2]]. fold T A in R1, R2.
  rewrite E2 in R1. fold eps in R2.
  destruct (sqrt_value _ Pr) as [Ps [S1 S2]]. rewrite E4 in S1, S2.
  split; [exact Ps|].
  set (r := toReal (t / a)%float) in *. set (s := toReal (sqrt (t / a))) in *.
  unfold Math_sqrt. fold s.
  pose proof (positiveNormal_pos _ Ps) as S0. fold s in S0.
  pose proof (pow2_pos (-53)) as Pm53.
  assert (r1 : pow2 (-54) <= r).
  { apply Rle_trans with (pow2 (-53) * / 2).
    - change (-53)%Z with (1 + -54)%Z. rewrite pow2_add, pow2_1. pose proof (pow2_pos (-54)). lra.
    - apply Rle_trans with (T / A * (1 - 2 * eps)); [|exact R1]. apply Rmult_le_compat; lra. }
  assert (r2 : r <= pow2 998).
  { apply Rle_trans with (pow2 997 * 2).
    - apply Rle_trans with (T / A * (1 + eps)); [exact R2|]. apply Rmult_le_compat; lra.
    - change 998%Z with (997 + 1)%Z. rewrite pow2_add, pow2_1. lra. }
  pose proof (pow2_pos (-54)) as Pm54.
  split.
  - apply Rle_trans with (pow2 (-28)); [apply pow2_le; lia|].
    apply square_le; [apply Rlt_le, pow2_pos|exact S0|].
    rewrite <- pow2_add. change (-28 + -28)%Z with (-56)%Z.
    apply Rle_trans with (r * (1 - 4 * eps)); [|exact S1].
    apply Rle_trans with (pow2 (-54) * / 4).
    + change (-54)%Z with (1 + (1 + -56))%Z. rewrite !pow2_add, pow2_1.
      pose proof (pow2_pos (-56)). lra.
    + apply Rmult_le_compat; lra.
  - apply Rle_trans with (pow2 500); [|apply pow2_le; lia].
    apply square_le; [lra|apply pow2_pos|].
    rewrite <- pow2_add. change (500 + 500)%Z with 1000%Z.
    apply Rle_trans with (r * (1 + 4 * eps)); [exact S2|].
    apply Rle_trans with (pow2 998 * 2).
    + apply Rmult_le_compat; lra.
    + apply Rle_trans with (pow2 999); [|apply pow2_le; lia].
      change 999%Z with (998 + 1)%Z. rewrite pow2_add, pow2_1. lra.
Qed.

(** One adjustment followed by the ceiling check of the next iteration:
    from dimensions between 50 and 32767, a rendered size and a target of
    at least one byte give dimensions of at least 50, and between 50 and
    32767 once checked. *)
Lemma adjustDimensions_checked a t w0 h0 :
  positiveNormal a -> 1 <= toReal a <= pow2 53 ->
  positiveNormal t -> 1 <= toReal t <= pow2 997 ->
  dimensionInRange w0 -> dimensionInRange h0 ->
  let d := adjustDimensions a t w0 h0 in
  aboveFloor d /\ dimensionsInRange (if exceedsCeiling d then clampDimensions d else d).
Proof.
  intros Pa Ha Pt Ht Gw Gh.
  destruct (scaleFactor_value a t Pa Ha Pt Ht) as [Ps Hs].
  unfold adjustDimensions. cbv zeta.
  set (s := Math_sqrt (t / a)) in *.
  destruct (rescaled_value w0 s Gw Ps Hs) as [Pw [W50 [Wlo Whi]]].
  destruct (rescaled_value h0 s Gh Ps Hs) as [Ph [H50 [Hlo Hhi]]].
  set (w := Math_max (Math_round (w0 * s)) 50) in *.
  set (h := Math_max (Math_round (h0 * s)) 50) in *.
  split; [split; split; assumption|].
  destruct value_maxDimension as [Pmax Vmax].
  pose proof ulp_small as Eps. pose proof (pow2_pos (-52)) as Eps0.
  pose proof (positiveNormal_pos _ Ps) as S0.
  destruct Gw as [Pw0 [Gw1 Gw2]]. destruct Gh as [Ph0 [Gh1 Gh2]].
  set (eps := pow2 (-52)) in *. set (S := toReal s) in *.
  set (W := toReal w) in *. set (H := toReal h) in *.
  set (W0 := toReal w0) in *. set (H0 := toReal h0) in *.
  (* bounds in terms of the scale factor alone *)
  assert (B : forall X0 X, 50 <= X0 <= 32767 ->
                X0 * S * (1 - eps) - / 2 <= X ->
                (X = 50 \/ X <= X0 * S * (1 + eps) + / 2) ->
                50 * S * (1 - eps) - / 2 <= X /\
                (X = 50 \/ X <= 32767 * S * (1 + eps) + / 2)).
  { intros X0 X [X1 X2] Xlo Xhi. split.
    - apply Rle_trans with (X0 * S * (1 - eps) - / 2); [|exact Xlo].
      assert (50 * S * (1 - eps) <= X0 * S * (1 - eps)); [|lra].
      apply Rmult_le_compat_r; [lra|]. apply Rmult_le_compat_r; lra.
    - destruct Xhi as [Xhi|Xhi]; [left; exact Xhi|right].
      apply Rle_trans with (X0 * S * (1 + eps) + / 2); [exact Xhi|].
      assert (X0 * S * (1 + eps) <= 32767 * S * (1 + eps)); [|lra].
      apply Rmult_le_compat_r; [lra|]. apply Rmult_le_compat_r; lra. }
  destruct (B W0 W (conj Gw1 Gw2) Wlo Whi) as [Wl Wh].
  destruct (B H0 H (conj Gh1 Gh2) Hlo Hhi) as [Hl Hh].
  assert (Big : forall X, (X = 50 \/ X <= 32767 * S * (1 + eps) + / 2) -> X <= pow2 1000).
  { intros X [->|HX].
    - apply Rle_trans with (pow2 15); [rewrite pow2_15; lra|apply pow2_le; lia].
    - apply Rle_trans with (32767 * S * (1 + eps) + / 2); [exact HX|].
      apply Rle_trans with (pow2 15 * pow2 900 * 2 + pow2 0).
      + rewrite pow2_15, pow2_0.
        assert (32767 * S * (1 + eps) <= 32768 * pow2 900 * 2); [|lra].
        apply Rmult_le_compat; lra.
      + pose proof (pow2_pos 916) as P916.
        apply Rle_trans with (pow2 916 + pow2 916).
        * apply Rplus_le_compat.
          -- rewrite <- pow2_add. change (15 + 900)%Z with 915%Z.
             change 916%Z with (915 + 1)%Z. rewrite pow2_add, pow2_1. lra.
          -- apply pow2_le. lia.
        * apply Rle_trans with (pow2 917); [|apply pow2_le; lia].
          change 917%Z with (916 + 1)%Z. rewrite pow2_add, pow2_1. lra. }
  assert (E0 : 0 <= eps <= / 1000000000) by lra.
  destruct (exceedsCeiling {| width := w; height := h |}) eqn:Ex.
  - unfold exceedsCeiling in Ex. cbn [width height] in Ex.
    assert (Ex' : 32767 < W \/ 32767 < H).
    { apply orb_true_iff in Ex. rewrite <- Vmax.
      destruct Ex as [Ex|Ex]; [left|right]; apply gtb_toReal in Ex; assumption. }
    unfold clampDimensions, dimensionsInRange. cbn [width height].
    destruct (gtb w h) eqn:Gt.
    + apply gtb_toReal in Gt; [|assumption..]. fold W H in Gt.
      cbn [width height]. split; [apply min_maxDimension|].
      apply clamp_by_quotient; try assumption; fold W H; try lra.
      * apply Big. exact Wh.
      * apply (floor_survives S H W eps); try assumption. lra.
    + apply gtb_false_toReal in Gt; [|assumption..]. fold W H in Gt.
      cbn [width height]. split; [|apply min_maxDimension].
      apply clamp_by_product; try assumption; fold W H; try lra.
      * apply Big. exact Hh.
      * apply (floor_survives S W H eps); try assumption. lra.
  - unfold exceedsCeiling in Ex. cbn [width height] in Ex.
    apply orb_false_iff in Ex. destruct Ex as [Ew Eh].
    apply gtb_false_toReal in Ew; [|assumption..].
    apply gtb_false_toReal in Eh; [|assumption..]. rewrite Vmax in Ew, Eh.
    split; (split; [assumption|split; assumption]).
Qed.

End Steps.

Section Estimator.

Local Open Scope R_scope.

Lemma value_100 : positiveNormal 100 /\ toReal 100 = 100.
Proof. apply (literal_value 100); [reflexivity|lia]. Qed.

Lemma value_56 : positiveNormal 56 /\ toReal 56 = 56.
Proof. apply (literal_value 56); [reflexivity|lia]. Qed.

Lemma value_18431 : positiveNormal 18431 /\ toReal 18431 = 18431.
Proof. apply (literal_value 18431); [reflexivity|lia]. Qed.

(** A factor or ratio between 1 and 2. *)
Lemma value_unit_binade x m :
  Prim2SF x = S754_finite false m (-52) -> Zpos (digits2_pos m) = 53%Z ->
  positiveNormal x /\ 1 <= toReal x <= 2.
Proof.
  intros H D. split; [now exists m, (-52)%Z|].
  pose proof (positiveNormal_bounds x m (-52) H D) as [L U].
  change (-52 + 52)%Z with 0%Z in L. change (-52 + 53)%Z with 1%Z in U.
  rewrite pow2_0 in L. rewrite pow2_1 in U. lra.
Qed.

Lemma supported_factor fmt :
  isFormatSupported fmt = true ->
  let f := toNumber (or_default (get_property compressionFactors (toLowerCase fmt)) 1.5) in
  positiveNormal f /\ 1 <= toReal f <= 2.
Proof.
  intros S. apply isFormatSupported_spec in S. unfold Spec.formatSupported in S.
  cbv zeta in *.
  destruct S as [-> | [-> | ->]]; eapply value_unit_binade; reflexivity.
Qed.

(** A rounded estimate floored at [c]: between [c] and the ceiling when
    the estimate is at most the ceiling. *)
Lemma floored_estimate x c k :
  positiveNormal x -> toReal x <= 32767 ->
  positiveNormal c -> toReal c = IZR k -> (50 <= k <= 32767)%Z ->
  dimensionInRange (Math_max (Math_round x) c).
Proof.
  intros Px X Pc Vc K.
  assert (K1 : 50 <= IZR k <= 32767) by (split; apply IZR_le; lia).
  destruct (Math_round_value x Px) as [n [[N1 N2] [[N0 R0]|[N0 [Pr Vr]]]]].
  - rewrite R0, (Math_max_zero c Pc). split; [exact Pc|]. rewrite Vc. exact K1.
  - destruct (Math_max_value _ _ Pr Pc) as [Pm Vm].
    split; [exact Pm|]. rewrite Vm, Vr, Vc.
    assert (H : (n < 32768)%Z) by (apply lt_IZR; lra).
    assert (IZR n <= 32767) by (apply IZR_le; lia).
    split; [apply Rle_trans with (IZR k); [lra|apply Rmax_r]|apply Rmax_lub; lra].
Qed.

(** The estimate for a supported format and a target of at least one
    byte is a pair of dimensions between 50 and 32767. *)
Lemma estimate_in_range t fmt :
  isFormatSupported fmt = true ->
  positiveNormal t -> 1 <= toReal t <= pow2 997 ->
  dimensionsInRange (estimateInitialDimensions t fmt).
Proof.
  intros S Pt [T1 T2].
  destruct (supported_factor fmt S) as [Pf [F1 F2]].
  unfold estimateInitialDimensions.
  set (f := toNumber (or_default (get_property compressionFactors (toLowerCase fmt)) 1.5)) in *.
  cbv zeta.
  assert (Hr : positiveNormal (16 / 9)%float /\ 1 <= toReal (16 / 9)%float <= 2)
    by (eapply value_unit_binade; reflexivity).
  destruct Hr as [Pr [R1 R2]].
  set (r := (16 / 9)%float) in *.
  pose proof ulp_small as Eps. pose proof (pow2_pos (-52)) as Eps0.
  set (eps := pow2 (-52)) in *.
  assert (E2 : pow2 (-51) = 2 * eps).
  { unfold eps. change (-51)%Z with (1 + -52)%Z. rewrite pow2_add, pow2_1. ring. }
  assert (E4 : pow2 (-50) = 4 * eps).
  { unfold eps. change (-50)%Z with (1 + (1 + -52))%Z. rewrite !pow2_add, pow2_1. ring. }
  set (T := toReal t) in *. set (F := toReal f) in *. set (R := toReal r) in *.
  pose proof (pow2_pos 997) as P997.
  (* estimatedPixels *)
  assert (Q : / 2 <= T / F <= pow2 997).
  { split.
    - apply Rmult_le_reg_r with F; [lra|]. replace (T / F * F) with T by (field; lra). lra.
    - apply Rmult_le_reg_r with F; [lra|]. replace (T / F * F) with T by (field; lra). nra. }
  assert (M1 : pow2 (-1020) <= T / F <= pow2 1021).
  { split.
    - apply Rle_trans with (pow2 (-1)); [apply pow2_le; lia|].
      replace (pow2 (-1)) with (/ 2) by (unfold pow2; simpl; lra). lra.
    - apply Rle_trans with (pow2 997); [lra|apply pow2_le; lia]. }
  destruct (div_value t f Pt Pf M1) as [Pp [P1 P2]]. fold T F in P1, P2.
  rewrite E2 in P1. fold eps in P2.
  set (p := (t / f)%float) in *. set (P := toReal p) in *.
  assert (p1 : / 4 <= P).
  { apply Rle_trans with (/ 2 * / 2); [lra|].
    apply Rle_trans with (T / F * (1 - 2 * eps)); [|exact P1]. apply Rmult_le_compat; lra. }
  assert (p2 : P <= pow2 998).
  { apply Rle_trans with (pow2 997 * 2).
    - apply Rle_trans with (T / F * (1 + eps)); [exact P2|]. apply Rmult_le_compat; lra.
    - change 998%Z with (997 + 1)%Z. rewrite pow2_add, pow2_1. lra. }
  pose proof (pow2_pos 998) as P998.
  (* estimatedPixels * aspectRatio *)
  assert (M2 : pow2 (-1021) <= P * R <= pow2 1022).
  { split.
    - apply Rle_trans with (pow2 (-2)); [apply pow2_le; lia|].
      replace (pow2 (-2)) with (/ 4) by (unfold pow2; simpl; lra). nra.
    - apply Rle_trans with (pow2 998 * 2); [apply Rmult_le_compat; lra|].
      apply Rle_trans with (pow2 999); [|apply pow2_le; lia].
      change 999%Z with (998 + 1)%Z. rewrite pow2_add, pow2_1. lra. }
  destruct (mul_value p r Pp Pr M2) as [Pa [A1 A2]]. fold P R eps in A1, A2.
  set (a := (p * r)%float) in *. set (A := toReal a) in *.
  assert (a1 : / 8 <= A).
  { apply Rle_trans with (/ 4 * / 2); [lra|].
    apply Rle_trans with (P * R * (1 - eps)); [|exact A1].
    apply Rmult_le_compat; try lra. nra. }
  assert (a2 : A <= pow2 1000).
  { apply Rle_trans with (pow2 998 * 2 * 2).
    - apply Rle_trans with (P * R * (1 + eps)); [exact A2|].
      apply Rmult_le_compat; try lra; [nra|]. apply Rmult_le_compat; lra.
    - change 1000%Z with (998 + (1 + 1))%Z. rewrite !pow2_add, pow2_1. lra. }
  (* width *)
  destruct (sqrt_value a Pa) as [Pw [W1 W2]]. fold A in W1, W2. rewrite E4 in W1, W2.
  unfold Math_sqrt.
  set (w := sqrt a) in *. set (W := toReal w) in *.
  pose proof (positiveNormal_pos _ Pw) as W0. fold W in W0.
  pose proof (pow2_pos 1000) as P1000.
  assert (w1 : / 4 <= W).
  { apply square_le; [lra|exact W0|].
    apply Rle_trans with (A * (1 - 4 * eps)); [|exact W1].
    apply Rle_trans with (/ 8 * / 2); [lra|]. apply Rmult_le_compat; lra. }
  assert (w2 : W <= pow2 501).
  { apply square_le; [lra|apply pow2_pos|].
    rewrite <- pow2_add. change (501 + 501)%Z with (1000 + (1 + 1))%Z.
    rewrite !pow2_add, pow2_1.
    apply Rle_trans with (A * (1 + 4 * eps)); [exact W2|].
    apply Rle_trans with (pow2 1000 * 2); [apply Rmult_le_compat; lra|lra]. }
  pose proof (pow2_pos 501) as P501.
  (* height *)
  assert (M3 : pow2 (-1020) <= P / W <= pow2 1021).
  { split.
    - apply Rmult_le_reg_r with W; [lra|]. replace (P / W * W) with P by (field; lra).
      apply Rle_trans with (pow2 (-1020) * pow2 501).
      + apply Rmult_le_compat_l; [apply Rlt_le, pow2_pos|lra].
      + rewrite <- pow2_add. apply Rle_trans with (pow2 (-2)); [apply pow2_le; lia|].
        replace (pow2 (-2)) with (/ 4) by (unfold pow2; simpl; lra). lra.
    - apply Rmult_le_reg_r with W; [lra|]. replace (P / W * W) with P by (field; lra).
      apply Rle_trans with (pow2 1021 * / 4); [|apply Rmult_le_compat_l; [apply Rlt_le, pow2_pos|lra]].
      apply Rle_trans with (pow2 998); [lra|].
      change 1021%Z with (1019 + (1 + 1))%Z. rewrite !pow2_add, pow2_1.
      replace (pow2 1019 * (2 * 2) * / 4) with (pow2 1019) by field.
      apply pow2_le. lia. }
  destruct (div_value p w Pp Pw M3) as [Ph _].
  set (h := (p / w)%float) in *.
  destruct value_maxDimension as [Pmax Vmax].
  destruct (gtb w maxDimension || gtb h maxDimension) eqn:Ex.
  - destruct (gtb w h).
    + assert (E : {| width := Math_max (Math_round (Math_min maxDimension maxDimension)) 100;
                     height := Math_max (Math_round (Math_min (maxDimension / r) maxDimension)) 56 |}
                  = {| width := 32767; height := 18431 |}) by reflexivity.
      rewrite E. split; cbn [width height].
      * split; [exact Pmax|]. fold maxDimension. rewrite Vmax. lra.
      * destruct value_18431 as [Pc Vc]. split; [exact Pc|]. rewrite Vc. lra.
    + assert (E : {| width := Math_max (Math_round (Math_min (maxDimension * r) maxDimension)) 100;
                     height := Math_max (Math_round (Math_min maxDimension maxDimension)) 56 |}
                  = {| width := 32767; height := 32767 |}) by reflexivity.
      rewrite E. split; cbn [width height];
        (split; [exact Pmax|]; fold maxDimension; rewrite Vmax; lra).
  - apply orb_false_iff in Ex. destruct Ex as [Ew Eh].
    apply gtb_false_toReal in Ew; [|assumption..].
    apply gtb_false_toReal in Eh; [|assumption..]. rewrite Vmax in Ew, Eh.
    split; cbn [width height].
    + destruct value_100 as [Pc Vc]. apply (floored_estimate w 100 100); auto. lia.
    + destruct value_56 as [Pc Vc]. apply (floored_estimate h 56 56); auto. lia.
Qed.

End Estimator.

Section BoundedRuns.

Variable W : Type.
Variable Jimp : option (JimpLib W).
Variable config : Config.

Local Abbreviation fmt := (format config).
Local Abbreviation target := (targetSizeBytes config).
Local Abbreviation tol := (tolerance' config).
Local Abbreviation render := (generateImageWithText W Jimp).
Local Abbreviation loop := (while_loop W Jimp config).
Local Abbreviation generate := (generateImageWithTargetSize W Jimp config).

Local Open Scope R_scope.

Lemma ceilingCheck_cur f t st :
  cur (ceilingCheck f t st)
  = if exceedsCeiling (cur st) then clampDimensions (cur st) else cur st.
Proof. unfold ceilingCheck. destruct (exceedsCeiling (cur st)); reflexivity. Qed.

Lemma dimensionsInRange_not_exceeds d : dimensionsInRange d -> exceedsCeiling d = false.
Proof.
  intros [[Pw [_ Hw]] [Ph [_ Hh]]]. destruct value_maxDimension as [Pmax Vmax].
  unfold exceedsCeiling. apply orb_false_iff.
  split; apply not_true_is_false; intros G; apply gtb_toReal in G; try assumption; lra.
Qed.

Lemma dimensionsInRange_aboveFloor d : dimensionsInRange d -> aboveFloor d.
Proof. intros [[Pw [Hw _]] [Ph [Hh _]]]. repeat split; assumption. Qed.

Lemma getImageSize_value (b : Buffer) :
  (0 < Z.of_nat (List.length b) < 2 ^ 53)%Z ->
  positiveNormal (getImageSize b) /\ 1 <= toReal (getImageSize b) <= pow2 53.
Proof.
  intros H. destruct (of_Z_value _ H) as [P V]. unfold getImageSize.
  split; [exact P|]. rewrite V. split.
  - apply IZR_le. lia.
  - rewrite <- pow2_IZR by lia. apply IZR_le. lia.
Qed.

Lemma dimensionInRange_bounds x : dimensionInRange x -> atLeast 50 x /\ atMost maxDimension x.
Proof.
  intros [P [L U]]. destruct value_50 as [P50 V50]. destruct value_maxDimension as [Pm Vm].
  split; apply leb_toReal; try assumption; lra.
Qed.

End BoundedRuns.

(** ** The two estimates compared *)

Section Areas.

Local Open Scope R_scope.

Lemma ulp_tiny : pow2 (-52) <= / 1000000000000000.
Proof.
  apply Rle_trans with (pow2 (-50)); [apply pow2_le; lia|].
  unfold pow2. simpl. lra.
Qed.

(** [Math.max(Math.round(x), c)] for a positive normal [x] and an integer
    [c]: an integer that is at least [c], within one half of [x] unless it
    is [c]. *)
Lemma floored_round_value x c k :
  positiveNormal x -> positiveNormal c -> toReal c = IZR k ->
  let v := Math_max (Math_round x) c in
  positiveNormal v /\
  exists n : Z,
    toReal v = IZR n /\ (k <= n)%Z /\ toReal x - / 2 <= IZR n /\
    (n = k \/ IZR n <= toReal x + / 2).
Proof.
  intros Px Pc Vc v.
  pose proof (positiveNormal_pos _ Pc) as C0. rewrite Vc in C0.
  destruct (Math_round_value _ Px) as [n [[N1 N2] [[N0 R0]|[N0 [Pr Vr]]]]].
  - unfold v. rewrite R0, (Math_max_zero _ Pc). subst n.
    split; [exact Pc|]. exists k. split; [exact Vc|]. split; [lia|].
    split; [lra|left; reflexivity].
  - destruct (Math_max_value _ _ Pr Pc) as [Pm Vm]. fold v in Pm, Vm.
    rewrite Vr, Vc in Vm. split; [exact Pm|].
    destruct (Z_le_gt_dec n k) as [L|L].
    + exists k. rewrite Vm, Rmax_right by (apply IZR_le; exact L).
      split; [reflexivity|]. split; [lia|]. split; [|left; reflexivity].
      apply Rle_trans with (IZR n); [lra|apply IZR_le; exact L].
    + exists n. rewrite Vm, Rmax_left by (apply IZR_le; lia).
      split; [reflexivity|]. split; [lia|]. split; [lra|right; lra].
Qed.

(** Positive normal numbers with the same value are the same number. *)
Lemma toReal_inj x y :
  positiveNormal x -> positiveNormal y -> toReal x = toReal y -> x = y.
Proof.
  intros [mx [ex [Hx Dx]]] [my [ey [Hy Dy]]] E.
  pose proof (positiveNormal_bounds x mx ex Hx Dx) as Bx.
  pose proof (positiveNormal_bounds y my ey Hy Dy) as By.
  apply Prim2SF_inj. rewrite Hx, Hy.
  assert (Ee : ex = ey).
  { destruct (Z.compare_spec ex ey) as [C|C|C]; [exact C| |]; exfalso.
    - assert (pow2 (ex + 53) <= pow2 (ey + 52)) by (apply pow2_le; lia). lra.
    - assert (pow2 (ey + 53) <= pow2 (ex + 52)) by (apply pow2_le; lia). lra. }
  subst ey. rewrite (toReal_finite x mx ex Hx), (toReal_finite y my ex Hy) in E.
  apply Rmult_eq_reg_r in E; [|pose proof (pow2_pos ex); lra].
  apply eq_IZR in E. congruence.
Qed.

Lemma estimate_unfold t fmt :
  let f := toNumber (or_default (get_property compressionFactors (toLowerCase fmt)) 1.5) in
  let p := (t / f)%float in
  let w := Math_sqrt (p * (16 / 9)) in
  let h := (p / w)%float in
  gtb w maxDimension = false -> gtb h maxDimension = false ->
  estimateInitialDimensions t fmt
  = {| width := Math_max (Math_round w) 100; height := Math_max (Math_round h) 56 |}.
Proof.
  intros f p w h Hw Hh. unfold estimateInitialDimensions.
  fold f. fold p. fold w. fold h. rewrite Hw, Hh. reflexivity.
Qed.


(** When the unrounded estimate is wider than tall and above the
    ceiling, the estimate is the ceiling at 16:9. *)
Lemma estimate_unfold_clamped t fmt :
  let f := toNumber (or_default (get_property compressionFactors (toLowerCase fmt)) 1.5) in
  let p := (t / f)%float in
  let w := Math_sqrt (p * (16 / 9)) in
  let h := (p / w)%float in
  gtb w maxDimension || gtb h maxDimension = true -> gtb w h = true ->
  estimateInitialDimensions t fmt = {| width := 32767; height := 18431 |}.
Proof.
  intros f p w h He Hg. unfold estimateInitialDimensions.
  fold f. fold p. fold w. fold h. rewrite He, Hg. reflexivity.
Qed.

Lemma pow2_m52 : pow2 (-52) = / 4503599627370496.
Proof. unfold pow2. simpl. lra. Qed.

(** The aspect ratio [16 / 9] as computed. *)
Lemma aspectRatio_value :
  positiveNormal (16 / 9)%float /\
  16 / 9 * (1 - / 1000000000) <= toReal (16 / 9)%float <= 16 / 9 * (1 + / 1000000000).
Proof.
  assert (E : Prim2SF (16 / 9)%float = S754_finite false 8006399337547548 (-52))
    by reflexivity.
  split; [eexists _, _; split; [exact E|reflexivity]|].
  rewrite (toReal_finite _ _ _ E), pow2_m52. lra.
Qed.

(** The two compression factors as computed. *)
Lemma factor_jpg_value : positiveNormal 1.5 /\ toReal 1.5 = 3 / 2.
Proof.
  assert (E : Prim2SF 1.5 = S754_finite false 6755399441055744 (-52)) by reflexivity.
  split; [eexists _, _; split; [exact E|reflexivity]|].
  rewrite (toReal_finite _ _ _ E), pow2_m52. lra.
Qed.

Lemma factor_png_value :
  positiveNormal 1.2 /\
  6 / 5 * (1 - / 1000000000) <= toReal 1.2 <= 6 / 5 * (1 + / 1000000000).
Proof.
  assert (E : Prim2SF 1.2 = S754_finite false 5404319552844595 (-52)) by reflexivity.
  split; [eexists _, _; split; [exact E|reflexivity]|].
  rewrite (toReal_finite _ _ _ E), pow2_m52. lra.
Qed.

Lemma product_above a b x y :
  0 <= x <= 1 -> 0 <= y <= 1 -> 1 - x <= a <= 1 -> 1 - y <= b <= 1 ->
  1 - (x + y) <= a * b <= 1.
Proof. intros. split; nra. Qed.

Lemma product_below a b x y :
  0 <= x <= 1 -> 0 <= y <= 1 -> 1 <= a <= 1 + x -> 1 <= b <= 1 + y ->
  1 <= a * b <= 1 + (x + 2 * y).
Proof. intros. split; nra. Qed.

(** The unrounded estimate for a target of at least one byte: the width
    squared is the pixel count times 16/9 and the height is 9/16 of the
    width, each up to a relative error of 10^-8. *)
Lemma estimate_values t f :
  positiveNormal t -> 1 <= toReal t <= pow2 997 ->
  positiveNormal f -> 1 <= toReal f <= 2 ->
  let p := (t / f)%float in
  let w := Math_sqrt (p * (16 / 9)) in
  let h := (p / w)%float in
  let D := toReal t / toReal f in
  positiveNormal w /\ positiveNormal h /\
  D * (16 / 9) * (1 - / 100000000) <= toReal w * toReal w
    <= D * (16 / 9) * (1 + / 100000000) /\
  toReal w * (9 / 16) * (1 - / 100000000) <= toReal h
    <= toReal w * (9 / 16) * (1 + / 100000000).
Proof.
  intros Pt [T1 T2] Pf [F1 F2] p w h D.
  destruct aspectRatio_value as [Pr [R1 R2]].
  set (r := (16 / 9)%float) in *.
  pose proof ulp_tiny as Eps. pose proof (pow2_pos (-52)) as Eps0.
  set (eps := pow2 (-52)) in *.
  assert (Lo : 1 - / 500000000 <= (1 - / 1000000000) * ((1 - eps) * (1 - 4 * eps)) <= 1).
  { assert (1 - (eps + 4 * eps) <= (1 - eps) * (1 - 4 * eps) <= 1)
      by (apply product_above; lra).
    pose proof (product_above (1 - / 1000000000) ((1 - eps) * (1 - 4 * eps))
                  (/ 1000000000) (5 * eps)). lra. }
  assert (Hi : 1 <= (1 + / 1000000000) * ((1 + eps) * (1 + 4 * eps)) <= 1 + / 500000000).
  { assert (1 <= (1 + eps) * (1 + 4 * eps) <= 1 + (eps + 2 * (4 * eps)))
      by (apply product_below; lra).
    pose proof (product_below (1 + / 1000000000) ((1 + eps) * (1 + 4 * eps))
                  (/ 1000000000) (9 * eps)). lra. }
  assert (Lo4 : 1 - / 100000000
                <= (1 - 2 * eps) * ((1 - / 1000000000) * ((1 - eps) * (1 - 4 * eps)))).
  { pose proof (product_above (1 - 2 * eps)
                  ((1 - / 1000000000) * ((1 - eps) * (1 - 4 * eps)))
                  (2 * eps) (/ 500000000)). lra. }
  assert (Hi4 : (1 + eps) * ((1 + / 1000000000) * ((1 + eps) * (1 + 4 * eps)))
                <= 1 + / 100000000).
  { pose proof (product_below (1 + eps)
                  ((1 + / 1000000000) * ((1 + eps) * (1 + 4 * eps)))
                  eps (/ 500000000)). lra. }
  assert (E2 : pow2 (-51) = 2 * eps).
  { unfold eps. change (-51)%Z with (1 + -52)%Z. rewrite pow2_add, pow2_1. ring. }
  assert (E4 : pow2 (-50) = 4 * eps).
  { unfold eps. change (-50)%Z with (1 + (1 + -52))%Z. rewrite !pow2_add, pow2_1. ring. }
  set (T := toReal t) in *. set (F := toReal f) in *. set (R := toReal r) in *.
  pose proof (pow2_pos 997) as P997.
  assert (DF : D * F = T) by (unfold D; field; lra).
  assert (D0 : 0 < D) by (unfold D; apply Rdiv_lt_0_compat; lra).
  assert (D1 : / 2 <= D) by nra.
  assert (D2 : D <= pow2 997) by nra.
  assert (Q4 : pow2 (-2) = / 4) by (unfold pow2; simpl; lra).
  assert (S998 : pow2 998 = pow2 997 * 2)
    by (change 998%Z with (997 + 1)%Z; rewrite pow2_add, pow2_1; ring).
  assert (S999 : pow2 999 = pow2 998 * 2)
    by (change 999%Z with (998 + 1)%Z; rewrite pow2_add, pow2_1; ring).
  (* estimatedPixels *)
  assert (M1 : pow2 (-1020) <= T / F <= pow2 1021).
  { fold D. split.
    - apply Rle_trans with (pow2 (-2)); [apply pow2_le; lia|lra].
    - apply Rle_trans with (pow2 997); [lra|apply pow2_le; lia]. }
  destruct (div_value t f Pt Pf M1) as [Pp [P1 P2]]. fold T F D in P1, P2.
  rewrite E2 in P1. fold eps in P2. fold p in Pp, P1, P2.
  set (P := toReal p) in *.
  assert (P3 : / 4 <= P <= pow2 998).
  { split.
    - apply Rle_trans with (D * (1 - 2 * eps)); [|exact P1].
      apply Rle_trans with (/ 2 * / 2); [lra|]. apply Rmult_le_compat; lra.
    - apply Rle_trans with (D * (1 + eps)); [exact P2|].
      rewrite S998. apply Rmult_le_compat; lra. }
  pose proof (pow2_pos 998) as P998.
  (* estimatedPixels * aspectRatio *)
  assert (M2 : pow2 (-1021) <= P * R <= pow2 1022).
  { split.
    - apply Rle_trans with (pow2 (-2)); [apply pow2_le; lia|].
      rewrite Q4. apply Rle_trans with (/ 4 * 1); [lra|]. apply Rmult_le_compat; lra.
    - apply Rle_trans with (pow2 999); [|apply pow2_le; lia].
      rewrite S999. apply Rmult_le_compat; lra. }
  destruct (mul_value p r Pp Pr M2) as [Pa [A1 A2]]. fold P R eps in A1, A2.
  set (a := (p * r)%float) in *. set (A := toReal a) in *.
  assert (A3 : 0 < A) by (apply positiveNormal_pos; exact Pa).
  (* width *)
  destruct (sqrt_value a Pa) as [Pw [W1 W2]]. fold A in W1, W2. rewrite E4 in W1, W2.
  change (sqrt a) with w in Pw, W1, W2.
  set (W := toReal w) in *.
  pose proof (positiveNormal_pos _ Pw) as W0. fold W in W0.
  (* the chain of relative errors *)
  assert (C1 : D * (16 / 9) * (1 - / 100000000) <= P * R * (1 - eps) * (1 - 4 * eps)).
  { apply Rle_trans with (D * (1 - 2 * eps) * (16 / 9 * (1 - / 1000000000))
                          * (1 - eps) * (1 - 4 * eps)).
    - replace (D * (1 - 2 * eps) * (16 / 9 * (1 - / 1000000000)) * (1 - eps) * (1 - 4 * eps))
        with (D * (16 / 9) * ((1 - 2 * eps) * ((1 - / 1000000000) * ((1 - eps) * (1 - 4 * eps)))))
        by ring.
      apply Rmult_le_compat_l; [lra|]. exact Lo4.
    - apply Rmult_le_compat_r; [lra|]. apply Rmult_le_compat_r; [lra|].
      apply Rmult_le_compat; try lra. apply Rmult_le_pos; lra. }
  assert (C2 : P * R * (1 + eps) * (1 + 4 * eps) <= D * (16 / 9) * (1 + / 100000000)).
  { apply Rle_trans with (D * (1 + eps) * (16 / 9 * (1 + / 1000000000))
                          * (1 + eps) * (1 + 4 * eps)).
    - apply Rmult_le_compat_r; [lra|]. apply Rmult_le_compat_r; [lra|].
      apply Rmult_le_compat; lra.
    - replace (D * (1 + eps) * (16 / 9 * (1 + / 1000000000)) * (1 + eps) * (1 + 4 * eps))
        with (D * (16 / 9) * ((1 + eps) * ((1 + / 1000000000) * ((1 + eps) * (1 + 4 * eps)))))
        by ring.
      apply Rmult_le_compat_l; [lra|]. exact Hi4. }
  assert (WW1 : D * (16 / 9) * (1 - / 100000000) <= W * W).
  { apply Rle_trans with (A * (1 - 4 * eps)); [|exact W1].
    apply Rle_trans with (P * R * (1 - eps) * (1 - 4 * eps)); [exact C1|].
    apply Rmult_le_compat_r; lra. }
  assert (WW2 : W * W <= D * (16 / 9) * (1 + / 100000000)).
  { apply Rle_trans with (A * (1 + 4 * eps)); [exact W2|].
    apply Rle_trans with (P * R * (1 + eps) * (1 + 4 * eps)); [|exact C2].
    apply Rmult_le_compat_r; lra. }
  assert (W3 : / 4 <= W <= pow2 501).
  { split.
    - apply square_le; [lra|exact W0|].
      apply Rle_trans with (D * (16 / 9) * (1 - / 100000000)); [|exact WW1].
      apply Rle_trans with (/ 2 * (16 / 9) * (1 - / 100000000)); [lra|].
      apply Rmult_le_compat_r; [lra|]. apply Rmult_le_compat_r; lra.
    - apply square_le; [lra|apply pow2_pos|].
      rewrite <- pow2_add. change (501 + 501)%Z with (997 + (1 + 4))%Z.
      rewrite !pow2_add, pow2_1.
      apply Rle_trans with (D * (16 / 9) * (1 + / 100000000)); [exact WW2|].
      replace (pow2 4) with 16 by (unfold pow2; simpl; lra).
      apply Rle_trans with (pow2 997 * (16 / 9) * (1 + / 100000000)).
      + apply Rmult_le_compat_r; [lra|]. apply Rmult_le_compat_r; lra.
      + lra. }
  pose proof (pow2_pos 501) as P501.
  (* height *)
  assert (M3 : pow2 (-1020) <= P / W <= pow2 1021).
  { split.
    - apply Rmult_le_reg_r with W; [lra|]. replace (P / W * W) with P by (field; lra).
      apply Rle_trans with (pow2 (-1020) * pow2 501).
      + apply Rmult_le_compat_l; [apply Rlt_le, pow2_pos|lra].
      + rewrite <- pow2_add. apply Rle_trans with (pow2 (-2)); [apply pow2_le; lia|lra].
    - apply Rmult_le_reg_r with W; [lra|]. replace (P / W * W) with P by (field; lra).
      apply Rle_trans with (pow2 1021 * / 4);
        [|apply Rmult_le_compat_l; [apply Rlt_le, pow2_pos|lra]].
      apply Rle_trans with (pow2 998); [lra|].
      change 1021%Z with (1019 + (1 + 1))%Z. rewrite !pow2_add, pow2_1.
      replace (pow2 1019 * (2 * 2) * / 4) with (pow2 1019) by field.
      apply pow2_le. lia. }
  destruct (div_value p w Pp Pw M3) as [Ph [H1 H2]]. fold P W in H1, H2.
  rewrite E2 in H1. fold eps in H2. fold h in Ph, H1, H2.
  set (H := toReal h) in *.
  split; [exact Pw|]. split; [exact Ph|]. split; [split; assumption|].
  assert (HW1 : P * (1 - 2 * eps) <= H * W).
  { replace (P * (1 - 2 * eps)) with (P / W * (1 - 2 * eps) * W) by (field; lra).
    apply Rmult_le_compat_r; lra. }
  assert (HW2 : H * W <= P * (1 + eps)).
  { replace (P * (1 + eps)) with (P / W * (1 + eps) * W) by (field; lra).
    apply Rmult_le_compat_r; lra. }
  (* W * W is P * 16/9 up to the errors of the product and the root *)
  assert (K1 : P * (16 / 9) * (1 - / 500000000) <= W * W).
  { apply Rle_trans with (A * (1 - 4 * eps)); [|exact W1].
    apply Rle_trans with (P * (16 / 9 * (1 - / 1000000000)) * (1 - eps) * (1 - 4 * eps)).
    - replace (P * (16 / 9 * (1 - / 1000000000)) * (1 - eps) * (1 - 4 * eps))
        with (P * (16 / 9) * ((1 - / 1000000000) * ((1 - eps) * (1 - 4 * eps)))) by ring.
      apply Rmult_le_compat_l; lra.
    - apply Rmult_le_compat_r; [lra|].
      apply Rle_trans with (P * R * (1 - eps)); [|exact A1].
      apply Rmult_le_compat_r; [lra|]. apply Rmult_le_compat_l; lra. }
  assert (K2 : W * W <= P * (16 / 9) * (1 + / 500000000)).
  { apply Rle_trans with (A * (1 + 4 * eps)); [exact W2|].
    apply Rle_trans with (P * (16 / 9 * (1 + / 1000000000)) * (1 + eps) * (1 + 4 * eps)).
    - apply Rmult_le_compat_r; [lra|].
      apply Rle_trans with (P * R * (1 + eps)); [exact A2|].
      apply Rmult_le_compat_r; [lra|]. apply Rmult_le_compat_l; lra.
    - replace (P * (16 / 9 * (1 + / 1000000000)) * (1 + eps) * (1 + 4 * eps))
        with (P * (16 / 9) * ((1 + / 1000000000) * ((1 + eps) * (1 + 4 * eps)))) by ring.
      apply Rmult_le_compat_l; lra. }
  split.
  - apply Rmult_le_reg_r with W; [lra|].
    apply Rle_trans with (P * (1 - 2 * eps)); [|exact HW1].
    replace (W * (9 / 16) * (1 - / 100000000) * W)
      with (W * W * (9 / 16 * (1 - / 100000000))) by ring.
    apply Rle_trans with (P * (16 / 9) * (1 + / 500000000) * (9 / 16 * (1 - / 100000000))).
    + apply Rmult_le_compat_r; lra.
    + replace (P * (16 / 9) * (1 + / 500000000) * (9 / 16 * (1 - / 100000000)))
        with (P * ((1 + / 500000000) * (1 - / 100000000))) by field.
      apply Rmult_le_compat_l; lra.
  - apply Rmult_le_reg_r with W; [lra|].
    apply Rle_trans with (P * (1 + eps)); [exact HW2|].
    replace (W * (9 / 16) * (1 + / 100000000) * W)
      with (W * W * (9 / 16 * (1 + / 100000000))) by ring.
    apply Rle_trans with (P * (16 / 9) * (1 - / 500000000) * (9 / 16 * (1 + / 100000000))).
    + replace (P * (16 / 9) * (1 - / 500000000) * (9 / 16 * (1 + / 100000000)))
        with (P * ((1 - / 500000000) * (1 + / 100000000))) by field.
      apply Rmult_le_compat_l; lra.
    + apply Rmult_le_compat_r; lra.
Qed.


(** The unrounded estimates for jpg and png of the same target: each is
    wider than tall, and the png one is larger by the factor
    [sqrt (1.5 / 1.2)], about 1.118, in each dimension. *)
Lemma estimates_related t :
  positiveNormal t -> 1 <= toReal t <= pow2 997 ->
  let wj := Math_sqrt (t / 1.5 * (16 / 9)) in
  let hj := (t / 1.5 / wj)%float in
  let wp := Math_sqrt (t / 1.2 * (16 / 9)) in
  let hp := (t / 1.2 / wp)%float in
  (positiveNormal wj /\ positiveNormal hj /\ positiveNormal wp /\ positiveNormal hp) /\
  (toReal t * (32 / 27) * (1 - / 100000000) <= toReal wj * toReal wj /\
   toReal wp * toReal wp <= toReal t * (40 / 27) * (1 + / 50000000)) /\
  (toReal wj * (9 / 16) * (1 - / 100000000) <= toReal hj <= toReal wj * (9 / 16) * (1 + / 100000000) /\
   toReal wp * (9 / 16) * (1 - / 100000000) <= toReal hp <= toReal wp * (9 / 16) * (1 + / 100000000)) /\
  (11179 / 10000 * toReal wj <= toReal wp /\ 11178 / 10000 * toReal hj <= toReal hp).
Proof.
  intros Pt Ht wj hj wp hp.
  destruct factor_jpg_value as [Pfj Vfj]. destruct factor_png_value as [Pfp [Fp1 Fp2]].
  destruct (estimate_values t 1.5 Pt Ht Pfj ltac:(lra)) as [Pwj [Phj [[Wj1 Wj2] [Hj1 Hj2]]]].
  destruct (estimate_values t 1.2 Pt Ht Pfp ltac:(lra)) as [Pwp [Php [[Wp1 Wp2] [Hp1 Hp2]]]].
  fold wj in Pwj, Phj, Wj1, Wj2, Hj1, Hj2. fold hj in Phj, Hj1, Hj2.
  fold wp in Pwp, Php, Wp1, Wp2, Hp1, Hp2. fold hp in Php, Hp1, Hp2.
  destruct Ht as [T1 T2]. rewrite Vfj in Wj1, Wj2.
  set (T := toReal t) in *. set (Fp := toReal 1.2) in *.
  pose proof (positiveNormal_pos _ Pwj) as Wj0. pose proof (positiveNormal_pos _ Pwp) as Wp0.
  set (Wj := toReal wj) in *. set (Hj := toReal hj) in *.
  set (Wp := toReal wp) in *. set (Hp := toReal hp) in *.
  set (Dp := T / Fp) in *.
  assert (DF : Dp * Fp = T) by (unfold Dp; field; lra).
  assert (Dp0 : 0 <= Dp) by nra.
  assert (Dp1 : T <= Dp * (6 / 5 * (1 + / 1000000000))).
  { rewrite <- DF. apply Rmult_le_compat_l; lra. }
  assert (Dp2 : Dp * (6 / 5 * (1 - / 1000000000)) <= T).
  { rewrite <- DF. apply Rmult_le_compat_l; lra. }
  assert (Wpj : 11179 / 10000 * Wj <= Wp).
  { apply square_le; [lra|lra|].
    replace (11179 / 10000 * Wj * (11179 / 10000 * Wj))
      with (11179 / 10000 * (11179 / 10000) * (Wj * Wj)) by ring. lra. }
  split; [repeat split; assumption|].
  split; [split; lra|].
  split; [repeat split; assumption|].
  split; [exact Wpj|lra].
Qed.

(** The two estimates are pairs of integers between 56 and 32767, the
    png one at least as large in each dimension, and larger in both for a
    target between 7 KiB and 512 MiB. *)
Lemma estimate_dimensions t :
  positiveNormal t -> 1 <= toReal t <= pow2 997 ->
  let dj := estimateInitialDimensions t "jpg" in
  let dp := estimateInitialDimensions t "png" in
  (positiveNormal (width dj) /\ positiveNormal (height dj) /\
   positiveNormal (width dp) /\ positiveNormal (height dp)) /\
  exists a b a' b' : Z,
    (toReal (width dj) = IZR a /\ toReal (height dj) = IZR b /\
     toReal (width dp) = IZR a' /\ toReal (height dp) = IZR b') /\
    (56 <= a <= a' /\ a' <= 32767 /\ 56 <= b <= b' /\ b' <= 32767)%Z /\
    (7168 <= toReal t <= 536870912 -> (a < a' /\ b < b')%Z).
Proof.
  intros Pt Ht dj dp.
  destruct (estimates_related t Pt Ht)
    as [[Pwj [Phj [Pwp Php]]] [[Wj1 Wp2] [[[Hj1 Hj2] [Hp1 Hp2]] [Wpj Hpj]]]].
  destruct Ht as [T1 T2].
  set (wj := Math_sqrt (t / 1.5 * (16 / 9))) in *.
  set (hj := (t / 1.5 / wj)%float) in *.
  set (wp := Math_sqrt (t / 1.2 * (16 / 9))) in *.
  set (hp := (t / 1.2 / wp)%float) in *.
  pose proof (positiveNormal_pos _ Pwj) as Wj0. pose proof (positiveNormal_pos _ Pwp) as Wp0.
  pose proof (positiveNormal_pos _ Phj) as Hj0. pose proof (positiveNormal_pos _ Php) as Hp0.
  set (T := toReal t) in *.
  set (Wj := toReal wj) in *. set (Hj := toReal hj) in *.
  set (Wp := toReal wp) in *. set (Hp := toReal hp) in *.
  destruct value_maxDimension as [Pmax Vmax].
  destruct value_100 as [P100 V100]. destruct value_56 as [P56 V56].
  destruct value_18431 as [P18431 V18431].
  assert (G : forall x, positiveNormal x -> toReal x <= 32767 -> gtb x maxDimension = false).
  { intros x Px Hx. apply not_true_is_false. intros A.
    apply gtb_toReal in A; try assumption. lra. }
  assert (G' : forall x, positiveNormal x -> gtb x maxDimension = false -> toReal x <= 32767).
  { intros x Px Hx. rewrite <- Vmax. apply gtb_false_toReal; assumption. }
  destruct (floored_round_value wj 100 100 Pwj P100 V100) as [Pxj [a [Va [A1 [A2 A3]]]]].
  destruct (floored_round_value hj 56 56 Phj P56 V56) as [Pyj [b [Vb [B1 [B2 B3]]]]].
  destruct (floored_round_value wp 100 100 Pwp P100 V100) as [Pxp [a' [Va' [A1' [A2' A3']]]]].
  destruct (floored_round_value hp 56 56 Php P56 V56) as [Pyp [b' [Vb' [B1' [B2' B3']]]]].
  fold Wj in A2, A3. fold Hj in B2, B3. fold Wp in A2', A3'. fold Hp in B2', B3'.
  assert (Ia : 100 <= IZR a) by (apply IZR_le; exact A1).
  assert (Ib : 56 <= IZR b) by (apply IZR_le; exact B1).
  assert (Ia' : 100 <= IZR a') by (apply IZR_le; exact A1').
  assert (Ib' : 56 <= IZR b') by (apply IZR_le; exact B1').
  destruct (gtb wp maxDimension || gtb hp maxDimension) eqn:Ep.
  - (* the png estimate is cut at the ceiling *)
    assert (Wp3 : 32767 < Wp).
    { apply orb_true_iff in Ep. destruct Ep as [E|E];
        apply gtb_toReal in E; try assumption; fold Wp in E; fold Hp in E; lra. }
    assert (Edp : dp = {| width := 32767; height := 18431 |}).
    { assert (Gt : gtb wp hp = true) by (apply gtb_toReal; try assumption; fold Wp Hp; lra).
      apply (estimate_unfold_clamped t "png"); [exact Ep|exact Gt]. }
    assert (Big : ~ T <= 536870912) by (intros B; nra).
    destruct (gtb wj maxDimension || gtb hj maxDimension) eqn:Ej.
    + assert (Wj3 : 32767 < Wj).
      { apply orb_true_iff in Ej. destruct Ej as [E|E];
          apply gtb_toReal in E; try assumption; fold Wj in E; fold Hj in E; lra. }
      assert (Edj : dj = {| width := 32767; height := 18431 |}).
      { assert (Gt : gtb wj hj = true)
          by (apply gtb_toReal; try assumption; fold Wj Hj; lra).
        apply (estimate_unfold_clamped t "jpg"); [exact Ej|exact Gt]. }
      rewrite Edj, Edp. cbn [width height].
      split; [repeat split; assumption|].
      exists 32767%Z, 18431%Z, 32767%Z, 18431%Z.
      split; [repeat split; assumption|]. split; [lia|]. intros [_ B]. tauto.
    + apply orb_false_iff in Ej. destruct Ej as [Ew Eh].
      assert (Edj : dj = {| width := Math_max (Math_round wj) 100;
                            height := Math_max (Math_round hj) 56 |}).
      { apply (estimate_unfold t "jpg"); [exact Ew|exact Eh]. }
      apply G' in Ew; [|assumption]. fold Wj in Ew.
      rewrite Edj, Edp. cbn [width height].
      split; [repeat split; assumption|].
      exists a, b, 32767%Z, 18431%Z.
      split; [repeat split; assumption|].
      assert (a <= 32767)%Z.
      { destruct A3 as [->|A3]; [lia|].
        assert (a < 32768)%Z by (apply lt_IZR; lra). lia. }
      assert (b <= 18431)%Z.
      { destruct B3 as [->|B3]; [lia|].
        assert (b < 18432)%Z by (apply lt_IZR; lra). lia. }
      split; [lia|]. intros [_ B]. tauto.
  - (* neither estimate is above the ceiling *)
    apply orb_false_iff in Ep. destruct Ep as [Ew' Eh'].
    pose proof (G' _ Pwp Ew') as Wp3. pose proof (G' _ Php Eh') as Hp3.
    fold Wp in Wp3. fold Hp in Hp3.
    assert (Edp : dp = {| width := Math_max (Math_round wp) 100;
                          height := Math_max (Math_round hp) 56 |}).
    { apply (estimate_unfold t "png"); [exact Ew'|exact Eh']. }
    assert (Edj : dj = {| width := Math_max (Math_round wj) 100;
                          height := Math_max (Math_round hj) 56 |}).
    { assert (Gw : gtb wj maxDimension = false) by (apply G; [assumption|fold Wj; lra]).
      assert (Gh : gtb hj maxDimension = false) by (apply G; [assumption|fold Hj; lra]).
      apply (estimate_unfold t "jpg"); [exact Gw|exact Gh]. }
    rewrite Edj, Edp. cbn [width height].
    split; [repeat split; assumption|].
    exists a, b, a', b'.
    split; [repeat split; assumption|].
    assert (La : (a <= a')%Z).
    { destruct A3 as [->|A3]; [lia|]. apply le_IZR. lra. }
    assert (Lb : (b <= b')%Z).
    { destruct B3 as [->|B3]; [lia|]. apply le_IZR. lra. }
    assert (Ua : (a' <= 32767)%Z).
    { destruct A3' as [->|A3']; [lia|].
      assert (a' < 32768)%Z by (apply lt_IZR; lra). lia. }
    assert (Ub : (b' <= 32767)%Z).
    { destruct B3' as [->|B3']; [lia|].
      assert (b' < 32768)%Z by (apply lt_IZR; lra). lia. }
    split; [lia|]. intros [T7 _].
    assert (Wj4 : 92 <= Wj) by (apply square_le; lra).
    split.
    + destruct A3 as [->|A3]; apply lt_IZR; lra.
    + destruct B3 as [->|B3]; apply lt_IZR; lra.
Qed.

(** The product of two dimensions, as computed. *)
Lemma area_value x y :
  positiveNormal x -> positiveNormal y ->
  56 <= toReal x <= 32768 -> 56 <= toReal y <= 32768 ->
  positiveNormal (x * y)%float /\
  toReal x * toReal y * (1 - pow2 (-52)) <= toReal (x * y)%float
    <= toReal x * toReal y * (1 + pow2 (-52)).
Proof.
  intros Px Py [X1 X2] [Y1 Y2]. apply mul_value; try assumption. split.
  - apply Rle_trans with (pow2 0); [apply pow2_le; lia|]. rewrite pow2_0. nra.
  - apply Rle_trans with (pow2 30); [|apply pow2_le; lia].
    replace (pow2 30) with (32768 * 32768) by (unfold pow2; simpl; lra).
    apply Rmult_le_compat; lra.
Qed.

(** Areas of integer dimensions: the product computed for the larger
    pair is not smaller, and it is larger when the pairs differ. *)
Lemma areas_compared x y x' y' (a b a' b' : Z) :
  positiveNormal x -> positiveNormal y -> positiveNormal x' -> positiveNormal y' ->
  toReal x = IZR a -> toReal y = IZR b -> toReal x' = IZR a' -> toReal y' = IZR b' ->
  (56 <= a <= a')%Z -> (a' <= 32767)%Z -> (56 <= b <= b')%Z -> (b' <= 32767)%Z ->
  ((x * y)%float <=? (x' * y')%float)%float = true /\
  ((a < a' \/ b < b')%Z -> ((x * y)%float <? (x' * y')%float)%float = true).
Proof.
  intros Px Py Px' Py' Vx Vy Vx' Vy' Ha Ha' Hb Hb'.
  assert (Ia : 56 <= IZR a <= 32767) by (split; apply IZR_le; lia).
  assert (Ib : 56 <= IZR b <= 32767) by (split; apply IZR_le; lia).
  assert (Ia' : 56 <= IZR a' <= 32767) by (split; apply IZR_le; lia).
  assert (Ib' : 56 <= IZR b' <= 32767) by (split; apply IZR_le; lia).
  destruct (area_value x y Px Py ltac:(rewrite Vx; lra) ltac:(rewrite Vy; lra))
    as [Pa [_ A]].
  destruct (area_value x' y' Px' Py' ltac:(rewrite Vx'; lra) ltac:(rewrite Vy'; lra))
    as [Pa' [A' _]].
  rewrite Vx, Vy in A. rewrite Vx', Vy' in A'.
  assert (Strict : (a < a' \/ b < b')%Z -> ((x * y)%float <? (x' * y')%float)%float = true).
  { intros S. apply ltb_toReal; try assumption.
    pose proof ulp_tiny as Eps. pose proof (pow2_pos (-52)) as Eps0.
    set (eps := pow2 (-52)) in *.
    assert (Z56 : (a * b + 56 <= a' * b')%Z) by nia.
    assert (R56 : IZR a * IZR b + 56 <= IZR a' * IZR b').
    { rewrite <- !mult_IZR, <- plus_IZR. apply IZR_le. exact Z56. }
    assert (U : IZR a' * IZR b' <= 32767 * 32767) by (apply Rmult_le_compat; lra).
    assert (E1 : eps * (IZR a' * IZR b') <= / 100000).
    { apply Rle_trans with (/ 1000000000000000 * (32767 * 32767)); [|lra].
      apply Rmult_le_compat; try lra. nra. }
    assert (E0 : 0 <= IZR a * IZR b) by nra.
    assert (E2 : eps * (IZR a * IZR b) <= / 100000).
    { apply Rle_trans with (eps * (IZR a' * IZR b')); [|exact E1].
      apply Rmult_le_compat_l; lra. }
    apply Rle_lt_trans with (IZR a * IZR b * (1 + eps)); [exact A|].
    apply Rlt_le_trans with (IZR a' * IZR b' * (1 - eps)); [|exact A'].
    lra. }
  split; [|exact Strict].
  destruct (Z.eq_dec a a') as [Ea|Na]; [destruct (Z.eq_dec b b') as [Eb|Nb]|].
  - subst a' b'.
    assert (x = x') by (apply toReal_inj; try assumption; congruence).
    assert (y = y') by (apply toReal_inj; try assumption; congruence).
    subst x' y'. apply leb_refl. apply positiveNormal_not_nan. exact Pa.
  - apply ltb_leb, Strict. lia.
  - apply ltb_leb, Strict. lia.
Qed.

(** For every target from one byte on, the png estimate covers at least
    as many pixels as the jpg estimate. *)
Lemma png_area_not_smaller t :
  (1 <=? t)%float = true -> (t <=? 1e300)%float = true ->
  pngAreaNotSmaller t = true.
Proof.
  intros L U.
  destruct (bounded_target _ L U) as [Pt Ht].
  destruct (estimate_dimensions t Pt Ht)
    as [[Pxj [Pyj [Pxp Pyp]]] [a [b [a' [b' [[Va [Vb [Va' Vb']]] [[Ha [Ha' [Hb Hb']]] _]]]]]]].
  unfold pngAreaNotSmaller, Spec.area.
  exact (proj1 (areas_compared _ _ _ _ a b a' b' Pxj Pyj Pxp Pyp Va Vb Va' Vb' Ha Ha' Hb Hb')).
Qed.

(** For every target from 7 KiB to 512 MiB it covers strictly more. *)
Lemma png_area_larger t :
  (7168 <=? t)%float = true -> (t <=? 536870912)%float = true ->
  pngAreaLarger t = true.
Proof.
  intros L U.
  assert (Plo : positiveNormal 7168 /\ toReal 7168 = 7168)
    by (apply (literal_value 7168); [reflexivity|lia]).
  assert (Phi : positiveNormal 536870912 /\ toReal 536870912 = 536870912)
    by (apply (literal_value 536870912); [reflexivity|lia]).
  destruct (positiveNormal_between _ _ t (proj1 Plo) (proj1 Phi) L U) as [Pt Ht].
  rewrite (proj2 Plo), (proj2 Phi) in Ht.
  assert (Ht' : 1 <= toReal t <= pow2 997).
  { split; [lra|]. apply Rle_trans with (pow2 29); [|apply pow2_le; lia].
    replace (pow2 29) with 536870912 by (unfold pow2; simpl; lra). lra. }
  destruct (estimate_dimensions t Pt Ht')
    as [[Pxj [Pyj [Pxp Pyp]]] [a [b [a' [b' [[Va [Vb [Va' Vb']]] [[Ha [Ha' [Hb Hb']]] S]]]]]]].
  unfold pngAreaLarger, Spec.area.
  apply (proj2 (areas_compared _ _ _ _ a b a' b' Pxj Pyj Pxp Pyp Va Vb Va' Vb' Ha Ha' Hb Hb')).
  left. exact (proj1 (S Ht)).
Qed.

End Areas.

(** ** The tolerance test on exact quantities *)

Section Tolerance.

Local Open Scope R_scope.

(** Rounding a mantissa of any length in the normal range. *)
Lemma binary_round_value sx p ex :
  (-1021 <= Zpos (digits2_pos p) + ex <= 1023)%Z ->
  exists m e,
    binary_round prec emax sx p ex = S754_finite sx m e /\
    Zpos (digits2_pos m) = 53%Z /\
    IZR (Zpos p) * pow2 ex * (1 - pow2 (-52)) <= IZR (Zpos m) * pow2 e
      <= IZR (Zpos p) * pow2 ex * (1 + pow2 (-52)).
Proof.
  intros E. unfold binary_round.
  change (fexp prec emax (Zpos (digits2_pos p) + ex))
    with (Z.max (Zpos (digits2_pos p) + ex - 53) (-1074)).
  unfold shl_align.
  destruct (Z.max (Zpos (digits2_pos p) + ex - 53) (-1074) - ex)%Z as [|d|d] eqn:K.
  - apply binary_round_aux_value; lia.
  - apply binary_round_aux_value; lia.
  - assert (D : Zpos (digits2_pos (Pos.iter xO p d)) = 53%Z)
      by (rewrite digits2_pos_iter_xO; lia).
    rewrite binary_round_aux_exact by lia.
    eexists _, _. split; [reflexivity|]. split; [exact D|].
    rewrite iter_xO_value, mult_IZR, pow2_IZR by lia.
    replace (Z.max (Zpos (digits2_pos p) + ex - 53) (-1074)) with (ex + - Zpos d)%Z by lia.
    rewrite pow2_add.
    replace (IZR (Zpos p) * pow2 (Zpos d) * (pow2 ex * pow2 (- Zpos d)))
      with (IZR (Zpos p) * pow2 ex * (pow2 (- Zpos d) * pow2 (Zpos d))) by ring.
    rewrite pow2_inv_l, Rmult_1_r.
    pose proof (pow2_pos (-52)). pose proof (pow2_pos ex).
    assert (0 < IZR (Zpos p)) by (apply IZR_lt; lia).
    assert (0 < IZR (Zpos p) * pow2 ex) by (apply Rmult_lt_0_compat; assumption).
    split; nra.
Qed.

Lemma shl_align_value m e ez :
  (ez <= e)%Z -> Zpos (fst (shl_align m e ez)) = (Zpos m * 2 ^ (e - ez))%Z.
Proof.
  intros H. unfold shl_align.
  destruct (ez - e)%Z as [|d|d] eqn:K; cbn [fst]; try lia.
  - replace (e - ez)%Z with 0%Z by lia. lia.
  - rewrite iter_xO_value. f_equal. f_equal. lia.
Qed.

(** [Math.abs(x - y)] for numbers of at least 1: zero when they are
    equal, and otherwise within one unit in the last place of the
    distance between them. *)
Lemma abs_sub_value x y :
  positiveNormal x -> positiveNormal y ->
  1 <= toReal x <= pow2 997 -> 1 <= toReal y <= pow2 997 ->
  (toReal x = toReal y /\ abs (x - y) = 0%float) \/
  (positiveNormal (abs (x - y)) /\
   Rabs (toReal x - toReal y) * (1 - pow2 (-52)) <= toReal (abs (x - y))
     <= Rabs (toReal x - toReal y) * (1 + pow2 (-52))).
Proof.
  intros [mx [ex [Hx Dx]]] [my [ey [Hy Dy]]] [X1 X2] [Y1 Y2].
  pose proof (positiveNormal_bounds x mx ex Hx Dx) as Bx.
  pose proof (positiveNormal_bounds y my ey Hy Dy) as By.
  rewrite (toReal_finite x mx ex Hx) in *. rewrite (toReal_finite y my ey Hy) in *.
  assert (Ex : (-52 <= ex)%Z).
  { assert (H : pow2 0 < pow2 (ex + 53)) by (rewrite pow2_0; lra).
    apply pow2_lt_inv in H. lia. }
  assert (Ey : (-52 <= ey)%Z).
  { assert (H : pow2 0 < pow2 (ey + 53)) by (rewrite pow2_0; lra).
    apply pow2_lt_inv in H. lia. }
  set (ez := Z.min ex ey).
  assert (S : Prim2SF (abs (x - y))
              = SFabs (binary_normalize prec emax
                         (Zpos mx * 2 ^ (ex - ez) - Zpos my * 2 ^ (ey - ez)) ez false)).
  { rewrite abs_spec, sub_spec, Hx, Hy. unfold SF64sub, SFsub. cbv zeta. fold ez.
    cbn [cond_Zopp]. rewrite !shl_align_value by (unfold ez; lia). reflexivity. }
  set (m := (Zpos mx * 2 ^ (ex - ez) - Zpos my * 2 ^ (ey - ez))%Z) in *.
  assert (V : IZR m * pow2 ez = IZR (Zpos mx) * pow2 ex - IZR (Zpos my) * pow2 ey).
  { unfold m. rewrite minus_IZR, !mult_IZR, !pow2_IZR by (unfold ez; lia).
    rewrite Rmult_minus_distr_r, !Rmult_assoc, <- !pow2_add.
    replace (ex - ez + ez)%Z with ex by lia. replace (ey - ez + ez)%Z with ey by lia.
    reflexivity. }
  set (X := IZR (Zpos mx) * pow2 ex) in *. set (Y := IZR (Zpos my) * pow2 ey) in *.
  pose proof (pow2_pos ez) as Pz.
  assert (R : forall s q, (Rabs (X - Y) = IZR (Zpos q) * pow2 ez) ->
              Prim2SF (abs (x - y)) = SFabs (binary_round prec emax s q ez) ->
              positiveNormal (abs (x - y)) /\
              Rabs (X - Y) * (1 - pow2 (-52)) <= toReal (abs (x - y))
                <= Rabs (X - Y) * (1 + pow2 (-52))).
  { intros s q Hq Hs.
    assert (E : (-1021 <= Zpos (digits2_pos q) + ez <= 1023)%Z).
    { pose proof (digits_bounds q) as [DL DU]. split; [unfold ez; lia|].
      assert (A : Rabs (X - Y) < pow2 997).
      { unfold Rabs. destruct (Rcase_abs (X - Y)); lra. }
      assert (H : pow2 (Zpos (digits2_pos q) - 1 + ez) < pow2 997).
      { rewrite pow2_add. rewrite Hq in A. nra. }
      apply pow2_lt_inv in H. lia. }
    destruct (binary_round_value s q ez E) as [m' [e' [B [D' Bd]]]].
    rewrite B in Hs. cbn [SFabs] in Hs.
    split; [exists m', e'; split; assumption|].
    rewrite (toReal_finite _ _ _ Hs), Hq. exact Bd. }
  destruct m as [|q|q] eqn:Em.
  - left. split.
    + rewrite Rmult_0_l in V. lra.
    + apply Prim2SF_inj. rewrite S. reflexivity.
  - right. apply (R false q); [|exact S].
    rewrite <- V. apply Rabs_pos_eq.
    apply Rmult_le_pos; [apply IZR_le; lia|lra].
  - right. apply (R true q); [|exact S].
    assert (N : X - Y = - (IZR (Zpos q) * pow2 ez)).
    { rewrite <- V. change (Zneg q) with (- Zpos q)%Z. rewrite opp_IZR. ring. }
    rewrite N, Rabs_Ropp. apply Rabs_pos_eq.
    apply Rmult_le_pos; [apply IZR_le; lia|lra].
Qed.

(** The tolerance test decides by the exact quantities, except within a
    relative margin of 2^-50 of the boundary. *)
Lemma tolerance_band a t tol :
  positiveNormal a -> 1 <= toReal a <= pow2 997 ->
  positiveNormal t -> 1 <= toReal t <= pow2 997 ->
  positiveNormal tol -> pow2 (-30) <= toReal tol <= 1 ->
  (Rabs (toReal a - toReal t) <= toReal t * toReal tol * (1 - pow2 (-50)) ->
   isWithinTolerance a t tol = true) /\
  (toReal t * toReal tol * (1 + pow2 (-50)) <= Rabs (toReal a - toReal t) ->
   isWithinTolerance a t tol = false).
Proof.
  intros Pa Ha Pt Ht Ptol [L1 L2].
  pose proof ulp_small as Eps. pose proof (pow2_pos (-52)) as Eps0.
  set (eps := pow2 (-52)) in *.
  assert (E4 : pow2 (-50) = 4 * eps).
  { unfold eps. change (-50)%Z with (1 + (1 + -52))%Z. rewrite !pow2_add, pow2_1. ring. }
  rewrite E4.
  pose proof (pow2_pos (-30)) as P30. pose proof (pow2_pos 997) as P997.
  assert (M : pow2 (-1021) <= toReal t * toReal tol <= pow2 1022).
  { destruct Ht as [T1 T2]. split.
    - apply Rle_trans with (1 * pow2 (-30)).
      + rewrite Rmult_1_l. apply pow2_le. lia.
      + apply Rmult_le_compat; lra.
    - apply Rle_trans with (pow2 997 * 1); [apply Rmult_le_compat; lra|].
      rewrite Rmult_1_r. apply pow2_le. lia. }
  destruct (mul_value t tol Pt Ptol M) as [Pu [U1 U2]]. fold eps in U1, U2.
  set (U := toReal (t * tol)%float) in *.
  set (B := toReal t * toReal tol) in *.
  assert (B0 : 0 < B) by (unfold B; apply Rmult_lt_0_compat; lra).
  unfold isWithinTolerance, Math_abs.
  destruct (abs_sub_value a t Pa Pt Ha Ht) as [[E Z]|[Pd [D1 D2]]].
  - rewrite Z, E, Rminus_diag, Rabs_R0. split.
    + intros _. apply positive_of_cases. left.
      destruct Pu as [m [e [H _]]]. now exists m, e.
    + intros H. exfalso.
      assert (0 < B * (1 + 4 * eps)) by (apply Rmult_lt_0_compat; lra). lra.
  - fold eps in D1, D2. set (D := toReal (abs (a - t))) in *.
    set (d := Rabs (toReal a - toReal t)) in *.
    assert (d0 : 0 <= d) by apply Rabs_pos.
    pose proof (ltb_toReal _ _ Pd Pu) as LT. fold D U in LT.
    split.
    + intros H. apply LT.
      apply Rle_lt_trans with (d * (1 + eps)); [exact D2|].
      apply Rlt_le_trans with (B * (1 - eps)); [|exact U1].
      apply Rle_lt_trans with (B * (1 - 4 * eps) * (1 + eps)).
      * apply Rmult_le_compat_r; lra.
      * rewrite Rmult_assoc. apply Rmult_lt_compat_l; [exact B0|]. nra.
    + intros H. apply not_true_is_false. intros A. apply LT in A.
      assert (B * (1 + eps) <= d * (1 - eps)); [|lra].
      apply Rle_trans with (B * (1 + 4 * eps) * (1 - eps)).
      * rewrite Rmult_assoc. apply Rmult_le_compat_l; [lra|]. nra.
      * apply Rmult_le_compat_r; lra.
Qed.

(** Tolerances from 1e-9 to 1. *)
Lemma bounded_tolerance tol :
  (1e-9 <=? tol)%float = true -> (tol <=? 1)%float = true ->
  positiveNormal tol /\ pow2 (-30) <= toReal tol <= 1.
Proof.
  intros L U.
  assert (P1 : positiveNormal 1 /\ toReal 1 = 1)
    by (apply (literal_value 1); [reflexivity|lia]).
  assert (P9 : positiveNormal 1e-9 /\ pow2 (-30) <= toReal 1e-9).
  { assert (E : exists m, Prim2SF 1e-9 = S754_finite false m (-82) /\
                            Zpos (digits2_pos m) = 53%Z) by (eexists; split; reflexivity).
    destruct E as [m [E D]]. split; [now exists m, (-82)%Z|].
    exact (proj1 (positiveNormal_bounds _ _ _ E D)). }
  destruct (positiveNormal_between 1e-9 1 tol (proj1 P9) (proj1 P1) L U) as [Pt [Lt Ut]].
  rewrite (proj2 P1) in Ut. split; [exact Pt|]. destruct P9. lra.
Qed.

End Tolerance.

(** ** The quality regime *)

Section QualityRegime.

Variable W : Type.
Variable Jimp : option (JimpLib W).
Variable config : Config.

Local Abbreviation fmt := (format config).
Local Abbreviation target := (targetSizeBytes config).
Local Abbreviation tol := (tolerance' config).
Local Abbreviation loop := (while_loop W Jimp config).
Local Abbreviation search := (qualitySearch W Jimp config).

(** The ceiling check does nothing to a state it has checked. *)
Lemma ceilingCheck_idempotent f t st :
  ceilingCheck f t (ceilingCheck f t st) = ceilingCheck f t st.
Proof. apply exceedsCeiling_fixpoint. apply ceilingCheck_not_exceeds. Qed.

Lemma while_loop_checked n st env :
  loop (S n) st env = loop (S n) (ceilingCheck fmt target st) env.
Proof. cbn [while_loop]. rewrite ceilingCheck_idempotent. reflexivity. Qed.

(** At the ceiling for a JPEG format, an adjustment keeps the dimensions,
    moves the quality by the size of the buffer, and leaves a state that
    is at the ceiling again and passes the next ceiling check untouched. *)
Lemma adjust_stays_atCeiling b st :
  exceedsCeiling (cur st) = false ->
  atCeiling fmt (cur st) = true ->
  let st2 := adjust fmt target b st in
  cur st2 = cur st /\
  Spec.qualityStep (getImageSize b) target (quality st) (quality st2) /\
  ceilingCheck fmt target st2 = st2 /\
  atCeiling fmt (cur st2) = true.
Proof.
  intros E C st2. destruct (adjust_atCeiling fmt target b st C) as [Hc Hq].
  fold st2 in Hc, Hq. split; [exact Hc|]. split.
  - rewrite Hq. apply adjustQuality_step.
  - split; [apply exceedsCeiling_fixpoint|]; rewrite Hc; assumption.
Qed.

(** From a state at the ceiling, the loop is the quality search. *)
Lemma while_loop_quality_search n : forall st env,
  exceedsCeiling (cur st) = false ->
  atCeiling fmt (cur st) = true ->
  loop n st env = search n st env.
Proof.
  induction n as [|n IH]; intros st env E C; [reflexivity|].
  cbn [while_loop qualitySearch].
  rewrite (exceedsCeiling_fixpoint fmt target st E).
  unfold bind.
  destruct (generateImageWithText W Jimp (renderConfig config st) env) as [[e|b] env1];
    [reflexivity|].
  destruct (isWithinTolerance (getImageSize b) target tol); [reflexivity|].
  destruct (adjust_stays_atCeiling b st E C) as [Hc [_ [_ C2]]].
  rewrite IH by (try rewrite Hc; assumption).
  unfold adjust. rewrite C. reflexivity.
Qed.

(** The quality search renders at the dimensions it started with, and
    returns them. *)
Lemma qualitySearch_dimensions n : forall st env r env',
  search n st env = (r, env') ->
  exists calls,
    renderCalls env' = renderCalls env ++ calls /\
    Forall (sameDimensions (cur st)) calls /\
    (forall st', r = inr st' -> cur st' = cur st).
Proof.
  induction n as [|n IH]; intros st env r env' H.
  - cbn in H. unfold ret in H. inversion H; subst.
    exists []. rewrite app_nil_r. repeat split; auto. intros st' E. now inversion E.
  - cbn [qualitySearch] in H. unfold bind in H.
    destruct (generateImageWithText_log W Jimp (renderConfig config st) env) as [Hc _].
    destruct (generateImageWithText W Jimp (renderConfig config st) env) as [[e|b] env1];
      cbn [snd] in Hc.
    + inversion H; subst. exists [renderConfig config st].
      repeat split; auto; [constructor; [split; reflexivity|constructor]|discriminate].
    + destruct (isWithinTolerance (getImageSize b) target tol).
      * unfold ret in H. inversion H; subst. exists [renderConfig config st].
        repeat split; auto; [constructor; [split; reflexivity|constructor]|].
        intros st' E. inversion E; subst. reflexivity.
      * destruct (IH _ _ _ _ H) as [calls [Hc' [Hf Hr]]]. cbn [cur] in Hf, Hr.
        exists (renderConfig config st :: calls). repeat split.
        -- rewrite Hc', Hc, <- app_assoc. reflexivity.
        -- constructor; [split; reflexivity|exact Hf].
        -- exact Hr.
Qed.

(** Clamped dimensions have a side that equals the ceiling. *)
Lemma clampDimensions_atCeiling f d :
  isJpeg f = true -> atCeiling f (clampDimensions d) = true.
Proof.
  intros J. unfold atCeiling. rewrite J, andb_true_r.
  unfold clampDimensions.
  assert (E : Math_min maxDimension maxDimension = maxDimension) by reflexivity.
  destruct (gtb (width d) (height d)); cbn [width height]; rewrite E.
  - reflexivity.
  - apply orb_true_r.
Qed.

End QualityRegime.

(** * Sizes of results by their exponents

    Targets below one byte take the intermediate results of the estimator
    and of the adjustment into the subnormal range, where the relative
    error of an operation is not bounded.  What is needed there is only
    how large a result can be, and that it does not vanish: both are read
    off the exponents. *)

Section Magnitudes.

Local Open Scope Z_scope.

Lemma canonical_exponent x s m e :
  Prim2SF x = S754_finite s m e ->
  e = Z.max (Zpos (digits2_pos m) + e - 53) (-1074) /\ e <= 971.
Proof.
  intros H. pose proof (Prim2SF_valid x) as V. rewrite H in V.
  unfold SpecFloat.valid_binary, bounded, canonical_mantissa in V.
  apply andb_true_iff in V. destruct V as [V1 V2].
  apply Z.eqb_eq in V1. apply Z.leb_le in V2.
  change (fexp prec emax (Zpos (digits2_pos m) + e))
    with (Z.max (Zpos (digits2_pos m) + e - 53) (-1074)) in V1.
  change (emax - prec) with 971 in V2. split; [lia|exact V2].
Qed.

Lemma Zdigits2_nonneg m : 0 <= m -> 0 <= Zdigits2 m.
Proof. destruct m; simpl; lia. Qed.

Lemma Zdigits2_shiftr m k :
  0 <= m -> 0 <= k -> Zdigits2 (Z.shiftr m k) = Z.max 0 (Zdigits2 m - k).
Proof.
  intros Hm Hk.
  assert (N : 0 <= Z.shiftr m k) by (apply Z.shiftr_nonneg; exact Hm).
  destruct (Z.eq_dec m 0) as [->|M0]; [rewrite Z.shiftr_0_l; simpl; lia|].
  rewrite (Zdigits2_log2 m) by lia.
  destruct (Z.eq_dec (Z.shiftr m k) 0) as [E|E].
  - rewrite E. simpl. apply Z.shiftr_eq_0_iff in E.
    destruct E as [E|[_ E]]; lia.
  - rewrite Zdigits2_log2 by lia. rewrite Z.log2_shiftr by lia.
    assert (k <= Z.log2 m); [|lia].
    destruct (Z_le_gt_dec k (Z.log2 m)) as [L|L]; [exact L|].
    exfalso. apply E. apply Z.shiftr_eq_0; lia.
Qed.

Lemma Zdigits2_succ m : 0 <= m -> Zdigits2 (m + 1) <= Zdigits2 m + 1.
Proof.
  intros Hm. destruct (Z.eq_dec m 0) as [->|M0]; [simpl; lia|].
  rewrite !Zdigits2_log2 by lia.
  pose proof (Z.log2_succ_le m). unfold Z.succ in *. lia.
Qed.

Lemma Zdigits2_le a b : 0 <= a <= b -> Zdigits2 a <= Zdigits2 b.
Proof.
  intros [Ha Hb]. destruct (Z.eq_dec a 0) as [->|A0].
  - simpl. apply Zdigits2_nonneg. lia.
  - rewrite !Zdigits2_log2 by lia. pose proof (Z.log2_le_mono a b Hb). lia.
Qed.

(** The digits of a bounded integer. *)
Lemma Zdigits2_lt_pow2 m k : 0 <= m < 2 ^ k -> 0 <= k -> Zdigits2 m <= k.
Proof.
  intros [H0 H1] Hk. destruct (Z.eq_dec m 0) as [->|M0]; [simpl; lia|].
  rewrite Zdigits2_log2 by lia.
  assert (Z.log2 m < k) by (apply Z.log2_lt_pow2; lia). lia.
Qed.

Lemma Zdigits2_ge_pow2 m k : 2 ^ k <= m -> 0 <= k -> k + 1 <= Zdigits2 m.
Proof.
  intros H Hk. assert (0 < 2 ^ k) by (apply Z.pow_pos_nonneg; lia).
  rewrite Zdigits2_log2 by lia.
  assert (k <= Z.log2 m) by (apply Z.log2_le_pow2; lia). lia.
Qed.

Lemma pos_digits_bounds m :
  2 ^ (Zpos (digits2_pos m) - 1) <= Zpos m < 2 ^ Zpos (digits2_pos m).
Proof.
  rewrite digits2_pos_log2. replace (Z.log2 (Zpos m) + 1 - 1) with (Z.log2 (Zpos m)) by lia.
  pose proof (Z.log2_spec (Zpos m) ltac:(lia)) as H. unfold Z.succ in H. exact H.
Qed.

(** Rounding a quantity below [2^k] gives zero or a finite number below
    [2^(k+1)] (and not below the smallest subnormal's successor bound). *)
Lemma binary_round_aux_below sx mz ez lz k :
  0 <= mz -> Zdigits2 mz + ez <= k -> ez <= 971 -> k <= 1023 ->
  binary_round_aux prec emax sx mz ez lz = S754_zero sx \/
  exists m e,
    binary_round_aux prec emax sx mz ez lz = S754_finite sx m e /\
    Zpos (digits2_pos m) + e <= Z.max (k + 1) (-1073).
Proof.
  intros Hm Hk He Hk'. unfold binary_round_aux.
  destruct (shr_fexp_spec mz ez lz Hm) as [k1 [Dk1 [He1 Hm1]]].
  destruct (shr_fexp prec emax mz ez lz) as [mrs1 e1]. cbn [fst snd] in He1, Hm1.
  set (m1 := shr_m mrs1) in *.
  pose proof (Zdigits2_nonneg mz Hm) as Dz.
  assert (Hk1 : 0 <= k1) by lia.
  assert (Hm1' : 0 <= m1) by (rewrite Hm1; apply Z.shiftr_nonneg; exact Hm).
  assert (D1 : Zdigits2 m1 = Z.max 0 (Zdigits2 mz - k1))
    by (rewrite Hm1; apply Zdigits2_shiftr; assumption).
  pose proof (round_nearest_even_bounds m1 (loc_of_shr_record mrs1)) as Hr.
  set (m2 := round_nearest_even m1 (loc_of_shr_record mrs1)) in *.
  assert (D2 : Zdigits2 m2 <= Zdigits2 m1 + 1).
  { transitivity (Zdigits2 (m1 + 1)); [apply Zdigits2_le; lia|apply Zdigits2_succ; lia]. }
  destruct (shr_fexp_spec m2 e1 loc_Exact ltac:(lia)) as [k2 [Dk2 [He2 Hm2]]].
  destruct (shr_fexp prec emax m2 e1 loc_Exact) as [mrs2 e2]. cbn [fst snd] in He2, Hm2.
  assert (Hk2 : 0 <= k2) by lia.
  assert (D3 : Zdigits2 (shr_m mrs2) = Z.max 0 (Zdigits2 m2 - k2))
    by (rewrite Hm2; apply Zdigits2_shiftr; lia).
  pose proof (Zdigits2_nonneg m2 ltac:(lia)) as Dm2.
  destruct (shr_m mrs2) as [|m3|m3] eqn:E3.
  - left. reflexivity.
  - right. change (Zdigits2 (Zpos m3)) with (Zpos (digits2_pos m3)) in D3.
    assert (Le : (e2 <=? emax - prec) = true).
    { apply Z.leb_le. change (emax - prec) with 971. lia. }
    rewrite Le. exists m3, e2. split; [reflexivity|]. lia.
  - exfalso. assert (0 <= Z.shiftr m2 k2) by (apply Z.shiftr_nonneg; lia). lia.
Qed.

Local Open Scope float_scope.

Lemma zero_of_Prim2SF x : Prim2SF x = S754_zero false -> x = 0.
Proof. intros H. apply Prim2SF_inj. rewrite H. reflexivity. Qed.

(** The product of two positive finite numbers. *)
Lemma mul_magnitude x y gx gy :
  magnitudeBetween gx gx x -> magnitudeBetween gy gy y ->
  (gx + gy <= 1000)%Z ->
  zeroOrBelow (Z.max (gx + gy + 1) (-1073)) (x * y) /\
  ((-1072 <= gx + gy)%Z -> magnitudeBetween (gx + gy - 1) (gx + gy + 1) (x * y)).
Proof.
  intros [mx [ex [Hx Gx]]] [my [ey [Hy Gy]]] B.
  pose proof (canonical_exponent x _ _ _ Hx) as [Cx Ex].
  pose proof (canonical_exponent y _ _ _ Hy) as [Cy Ey].
  pose proof (pos_digits_bounds mx) as Bx. pose proof (pos_digits_bounds my) as By.
  set (dx := Zpos (digits2_pos mx)) in *. set (dy := Zpos (digits2_pos my)) in *.
  assert (Dx : (1 <= dx)%Z) by (unfold dx; lia).
  assert (Dy : (1 <= dy)%Z) by (unfold dy; lia).
  assert (P : Prim2SF (x * y)
              = binary_round_aux prec emax false (Zpos (mx * my)) (ex + ey) loc_Exact).
  { rewrite mul_spec, Hx, Hy. reflexivity. }
  assert (U : (Zpos (mx * my) < 2 ^ (dx + dy))%Z).
  { rewrite Pos2Z.inj_mul, Z.pow_add_r by lia.
    apply Z.mul_lt_mono_nonneg; lia. }
  assert (L : (2 ^ (dx + dy - 2) <= Zpos (mx * my))%Z).
  { rewrite Pos2Z.inj_mul. replace (dx + dy - 2)%Z with ((dx - 1) + (dy - 1))%Z by lia.
    rewrite Z.pow_add_r by lia. apply Z.mul_le_mono_nonneg; try lia;
      apply Z.pow_nonneg; lia. }
  assert (DU : (Zdigits2 (Zpos (mx * my)) <= dx + dy)%Z)
    by (apply Zdigits2_lt_pow2; lia).
  assert (DL : (dx + dy - 1 <= Zdigits2 (Zpos (mx * my)))%Z).
  { pose proof (Zdigits2_ge_pow2 (Zpos (mx * my)) (dx + dy - 2) L ltac:(lia)). lia. }
  assert (Hexp : (ex + ey <= 971)%Z) by lia.
  split.
  - destruct (binary_round_aux_below false (Zpos (mx * my)) (ex + ey) loc_Exact (gx + gy))
      as [Hz|[m [e [F G]]]]; try lia.
    + left. apply zero_of_Prim2SF. rewrite P. exact Hz.
    + right. exists m, e. rewrite P. split; [exact F|].
      pose proof (canonical_exponent (x * y) false m e ltac:(rewrite P; exact F)) as [C _].
      lia.
  - intros Lo.
    assert (DL' : (dx + dy - 1 <= Zpos (digits2_pos (mx * my)))%Z) by exact DL.
    assert (DU' : (Zpos (digits2_pos (mx * my)) <= dx + dy)%Z) by exact DU.
    destruct (binary_round_aux_pos false (mx * my) (ex + ey) loc_Exact ltac:(lia))
      as [[m [e [F [G1 G2]]]]|[_ G]]; [|lia].
    exists m, e. rewrite P. split; [exact F|]. split; [lia|].
    destruct (binary_round_aux_below false (Zpos (mx * my)) (ex + ey) loc_Exact (gx + gy))
      as [Hz|[m' [e' [F' G']]]]; try lia.
    + rewrite F in Hz. discriminate.
    + rewrite F in F'. inversion F'; subst. lia.
Qed.

Local Open Scope Z_scope.

Lemma digits_of_quotient_le q a b :
  0 <= q -> 0 <= a -> 0 <= b -> q * 2 ^ a < 2 ^ b -> Zdigits2 q <= Z.max 0 (b - a).
Proof.
  intros Hq Ha Hb H.
  assert (Pa : 0 < 2 ^ a) by (apply Z.pow_pos_nonneg; lia).
  destruct (Z_le_gt_dec b a) as [L|L].
  - assert (2 ^ b <= 2 ^ a) by (apply Z.pow_le_mono_r; lia).
    assert (q = 0) by nia. subst q. simpl. lia.
  - assert (E : 2 ^ b = 2 ^ (b - a) * 2 ^ a).
    { rewrite <- Z.pow_add_r by lia. f_equal. lia. }
    rewrite E in H.
    assert (q < 2 ^ (b - a)) by nia.
    pose proof (Zdigits2_lt_pow2 q (b - a) ltac:(lia) ltac:(lia)). lia.
Qed.

Lemma digits_of_quotient_ge q a b :
  0 <= q -> 0 <= a <= b -> 2 ^ b < (q + 1) * 2 ^ a -> b - a + 1 <= Zdigits2 q.
Proof.
  intros Hq Hab H.
  assert (Pa : 0 < 2 ^ a) by (apply Z.pow_pos_nonneg; lia).
  assert (E : 2 ^ b = 2 ^ (b - a) * 2 ^ a).
  { rewrite <- Z.pow_add_r by lia. f_equal. lia. }
  rewrite E in H.
  assert (2 ^ (b - a) <= q) by nia.
  apply Zdigits2_ge_pow2; lia.
Qed.

Local Open Scope float_scope.

(** The quotient of two positive finite numbers. *)
Lemma div_magnitude x y gx gy :
  magnitudeBetween gx gx x -> magnitudeBetween gy gy y ->
  (gx - gy <= 1000)%Z ->
  zeroOrBelow (Z.max (gx - gy + 2) (-1073)) (x / y) /\
  ((-1072 <= gx - gy)%Z -> magnitudeBetween (gx - gy) (gx - gy + 2) (x / y)).
Proof.
  intros [mx [ex [Hx Gx]]] [my [ey [Hy Gy]]] B.
  pose proof (canonical_exponent x _ _ _ Hx) as [Cx Ex].
  pose proof (canonical_exponent y _ _ _ Hy) as [Cy Ey].
  pose proof (pos_digits_bounds mx) as Bx. pose proof (pos_digits_bounds my) as By.
  set (dx := Zpos (digits2_pos mx)) in *. set (dy := Zpos (digits2_pos my)) in *.
  assert (Dx : (1 <= dx)%Z) by (unfold dx; lia).
  assert (Dy : (1 <= dy)%Z) by (unfold dy; lia).
  set (e' := Z.min (Z.max (dx + ex - (dy + ey) - 53) (-1074)) (ex - ey)).
  set (s := (ex - ey - e')%Z).
  assert (Hs : (0 <= s)%Z) by (unfold s, e'; lia).
  set (q := (Zpos mx * 2 ^ s / Zpos my)%Z).
  assert (C : SFdiv_core_binary prec emax (Zpos mx) ex (Zpos my) ey
              = (q, e', new_location (Zpos my) (Zpos mx * 2 ^ s mod Zpos my))%Z).
  { unfold SFdiv_core_binary.
    change (Zdigits2 (Zpos mx)) with dx. change (Zdigits2 (Zpos my)) with dy.
    change (fexp prec emax (dx + ex - (dy + ey)))
      with (Z.max (dx + ex - (dy + ey) - 53) (-1074)).
    fold e'. cbv zeta. fold s. unfold q.
    destruct s as [|p|p] eqn:Es; try lia.
    - rewrite Z.pow_0_r, Z.mul_1_r. unfold Z.div, Z.modulo.
      destruct (Z.div_eucl (Zpos mx) (Zpos my)) as [q0 r0]. reflexivity.
    - rewrite Z.shiftl_mul_pow2 by lia. unfold Z.div, Z.modulo.
      destruct (Z.div_eucl (Zpos mx * 2 ^ Zpos p) (Zpos my)) as [q0 r0]. reflexivity. }
  assert (P : Prim2SF (x / y)
              = binary_round_aux prec emax false q e'
                  (new_location (Zpos my) (Zpos mx * 2 ^ s mod Zpos my))%Z).
  { rewrite div_spec, Hx, Hy. unfold SF64div, SFdiv. rewrite C. reflexivity. }
  assert (Ps : (0 < 2 ^ s)%Z) by (apply Z.pow_pos_nonneg; lia).
  assert (Hq : (q * Zpos my <= Zpos mx * 2 ^ s < (q + 1) * Zpos my)%Z).
  { pose proof (Z.mul_div_le (Zpos mx * 2 ^ s) (Zpos my) ltac:(lia)) as H1.
    pose proof (Z.mul_succ_div_gt (Zpos mx * 2 ^ s) (Zpos my) ltac:(lia)) as H2.
    fold q in H1, H2. lia. }
  assert (Q0 : (0 <= q)%Z) by (apply Z.div_pos; lia).
  assert (Pdx : (2 ^ dx * 2 ^ s = 2 ^ (dx + s))%Z) by (rewrite Z.pow_add_r by lia; ring).
  assert (DU : (Zdigits2 q <= Z.max 0 (dx + s - dy + 1))%Z).
  { pose proof (digits_of_quotient_le q (dy - 1) (dx + s) Q0 ltac:(lia) ltac:(lia)) as H.
    replace (dx + s - (dy - 1))%Z with (dx + s - dy + 1)%Z in H by lia. apply H.
    apply Z.le_lt_trans with (q * Zpos my)%Z.
    - apply Z.mul_le_mono_nonneg_l; lia.
    - rewrite <- Pdx. nia. }
  assert (Ee : (e' <= Z.max (gx - gy - 53) (-1074))%Z) by (unfold e'; lia).
  assert (Se : (dx + s - dy + e' = gx - gy)%Z) by (unfold s; lia).
  split.
  - destruct (binary_round_aux_below false q e'
                (new_location (Zpos my) (Zpos mx * 2 ^ s mod Zpos my))
                (Z.max (gx - gy + 1) (-1074)))
      as [Hz|[m [e [F G]]]]; try lia.
    + left. apply zero_of_Prim2SF. rewrite P. exact Hz.
    + right. exists m, e. rewrite P. split; [exact F|].
      pose proof (canonical_exponent (x / y) false m e ltac:(rewrite P; exact F)) as [Cq _].
      lia.
  - intros Lo.
    assert (Pdx' : (2 ^ (dx - 1) * 2 ^ s = 2 ^ (dx - 1 + s))%Z)
      by (rewrite Z.pow_add_r by lia; ring).
    assert (DL : (dx + s - dy <= Zdigits2 q)%Z).
    { pose proof (digits_of_quotient_ge q dy (dx - 1 + s) Q0) as H.
      replace (dx - 1 + s - dy + 1)%Z with (dx + s - dy)%Z in H by lia. apply H.
      - lia.
      - apply Z.le_lt_trans with (Zpos mx * 2 ^ s)%Z; [rewrite <- Pdx'; nia|].
        apply Z.lt_le_trans with ((q + 1) * Zpos my)%Z; [lia|].
        apply Z.mul_le_mono_nonneg_l; lia. }
    destruct q as [|qp|qp] eqn:Eq; [change (Zdigits2 0) with 0%Z in DL; lia| |lia].
    change (Zdigits2 (Zpos qp)) with (Zpos (digits2_pos qp)) in DL, DU.
    destruct (binary_round_aux_pos false qp e'
                (new_location (Zpos my) (Zpos mx * 2 ^ s mod Zpos my)) ltac:(lia))
      as [[m [e [F [G1 G2]]]]|[_ G]]; [|lia].
    exists m, e. rewrite P. split; [exact F|]. split; [lia|].
    destruct (binary_round_aux_below false (Zpos qp) e'
                (new_location (Zpos my) (Zpos mx * 2 ^ s mod Zpos my))
                (gx - gy + 1))
      as [Hz|[m' [e1 [F' G']]]]; try lia.
    + change (Zdigits2 (Zpos qp)) with (Zpos (digits2_pos qp)). lia.
    + rewrite F in Hz. discriminate.
    + rewrite F in F'. inversion F'; subst. lia.
Qed.

Local Open Scope Z_scope.

Lemma sqrt_bounds a q :
  0 <= q -> q * q <= a < (q + 1) * (q + 1) -> 2 ^ 104 <= a < 2 ^ 106 ->
  2 ^ 52 <= q < 2 ^ 53.
Proof.
  change (2 ^ 104) with (4503599627370496 * 4503599627370496).
  change (2 ^ 106) with (9007199254740992 * 9007199254740992).
  change (2 ^ 52) with 4503599627370496. change (2 ^ 53) with 9007199254740992.
  intros. split; nia.
Qed.

(** The square root of a positive finite number. *)
Lemma sqrt_magnitude x g :
  magnitudeBetween g g x ->
  magnitudeBetween ((g + 1) / 2) ((g + 1) / 2 + 1) (sqrt x).
Proof.
  intros [m [e [Hx G]]].
  pose proof (canonical_exponent x _ _ _ Hx) as [Cx Ex].
  pose proof (pos_digits_bounds m) as Bm.
  set (d := Zpos (digits2_pos m)) in *.
  assert (Dd : 1 <= d <= 53) by (unfold d; lia).
  set (z := (g + 1) / 2).
  assert (Hz : 2 * z <= g + 1 <= 2 * z + 1).
  { pose proof (Z.div_mod (g + 1) 2 ltac:(lia)).
    pose proof (Z.mod_pos_bound (g + 1) 2 ltac:(lia)). unfold z. lia. }
  assert (Hh : 2 * (e / 2) <= e <= 2 * (e / 2) + 1).
  { pose proof (Z.div_mod e 2 ltac:(lia)). pose proof (Z.mod_pos_bound e 2 ltac:(lia)). lia. }
  set (e' := z - 53).
  set (s := e - 2 * e').
  assert (Hs : 52 <= s <= 106) by (unfold s, e'; lia).
  assert (Ds : 105 <= d + s <= 106) by (unfold s, e'; lia).
  set (q := Z.sqrt (Zpos m * 2 ^ s)).
  assert (C : exists l, SFsqrt_core_binary prec emax (Zpos m) e = (q, e', l)).
  { unfold SFsqrt_core_binary.
    change (Zdigits2 (Zpos m)) with d.
    change (fexp prec emax (Z.div2 (d + e + 1)))
      with (Z.max (Z.div2 (d + e + 1) - 53) (-1074)).
    rewrite !Z.div2_div. replace (d + e + 1) with (g + 1) by lia. fold z.
    replace (Z.min (Z.max (z - 53) (-1074)) (e / 2)) with e' by (unfold e'; lia).
    cbv zeta. fold s.
    destruct s as [|sp|sp] eqn:Es; try lia.
    rewrite Z.shiftl_mul_pow2 by lia. unfold q.
    pose proof (Z.sqrtrem_sqrt (Zpos m * 2 ^ Zpos sp)) as Q.
    destruct (Z.sqrtrem (Zpos m * 2 ^ Zpos sp)) as [q0 r0]. simpl in Q. subst q0.
    eexists. reflexivity. }
  destruct C as [l C].
  assert (P : Prim2SF (sqrt x) = binary_round_aux prec emax false q e' l).
  { rewrite sqrt_spec, Hx. unfold SF64sqrt, SFsqrt. rewrite C. reflexivity. }
  assert (Ps : 0 < 2 ^ s) by (apply Z.pow_pos_nonneg; lia).
  assert (M1 : 2 ^ 104 <= Zpos m * 2 ^ s).
  { apply Z.le_trans with (2 ^ (d - 1) * 2 ^ s); [|nia].
    rewrite <- Z.pow_add_r by lia. apply Z.pow_le_mono_r; lia. }
  assert (M2 : Zpos m * 2 ^ s < 2 ^ 106).
  { apply Z.lt_le_trans with (2 ^ d * 2 ^ s); [nia|].
    rewrite <- Z.pow_add_r by lia. apply Z.pow_le_mono_r; lia. }
  assert (Hq : q * q <= Zpos m * 2 ^ s < (q + 1) * (q + 1)).
  { pose proof (Z.sqrt_spec (Zpos m * 2 ^ s) ltac:(lia)) as H. cbv zeta in H.
    fold q in H. unfold Z.succ in H. lia. }
  assert (Bq : 2 ^ 52 <= q < 2 ^ 53)
    by (apply (sqrt_bounds (Zpos m * 2 ^ s)); [apply Z.sqrt_nonneg|exact Hq|lia]).
  destruct q as [|qp|qp] eqn:Eq; try lia.
  assert (Dq : Zpos (digits2_pos qp) = 53).
  { rewrite digits2_pos_log2.
    assert (52 <= Z.log2 (Zpos qp)) by (apply Z.log2_le_pow2; lia).
    assert (Z.log2 (Zpos qp) < 53) by (apply Z.log2_lt_pow2; lia). lia. }
  destruct (binary_round_aux_pos false qp e' l ltac:(unfold e'; lia))
    as [[mr [er [F [G1 G2]]]]|[_ Gi]]; [|unfold e' in *; lia].
  exists mr, er. rewrite P. split; [exact F|]. split; [unfold e' in *; lia|].
  destruct (binary_round_aux_below false (Zpos qp) e' l z)
    as [Hz0|[m' [e1 [F' G']]]]; try (unfold e' in *; lia).
  - change (Zdigits2 (Zpos qp)) with (Zpos (digits2_pos qp)). unfold e'. lia.
  - rewrite F in Hz0. discriminate.
  - rewrite F in F'. inversion F'; subst. lia.
Qed.

End Magnitudes.

(** ** Small targets *)

Section SmallNumbers.

Local Open Scope Z_scope.

(** A number below one half rounds to zero. *)
Lemma Math_round_tiny x : zeroOrBelow (-1) x -> Math_round x = 0%float.
Proof.
  intros [->|[m [e [Hx [_ G]]]]]; [reflexivity|].
  pose proof (pos_digits_bounds m) as Bm.
  set (d := Zpos (digits2_pos m)) in *.
  assert (Dd : 1 <= d) by (unfold d; lia).
  unfold Math_round. rewrite Hx.
  replace (0 <=? e) with false by (symmetry; apply Z.leb_gt; lia).
  cbv zeta. cbn [cond_Zopp].
  rewrite Z.shiftr_div_pow2, Z.shiftl_mul_pow2, Z.mul_1_l by lia.
  assert (Hp : 2 ^ d <= 2 ^ (- e - 1)) by (apply Z.pow_le_mono_r; lia).
  assert (Hh : 2 * 2 ^ (- e - 1) = 2 ^ (- e)).
  { rewrite <- Z.pow_succ_r by lia. f_equal. lia. }
  rewrite Z.div_small by lia. reflexivity.
Qed.

(** A number below [2^k] rounds to zero or to an integer up to [2^k]. *)
Lemma Math_round_small x k :
  zeroOrBelow k x -> 0 <= k <= 52 ->
  Math_round x = 0%float \/
  exists n, 0 < n <= 2 ^ k /\ Math_round x = of_Z n.
Proof.
  intros [->|[m [e [Hx [_ G]]]]] K; [left; reflexivity|].
  pose proof (canonical_exponent x _ _ _ Hx) as [Cx _].
  pose proof (pos_digits_bounds m) as Bm.
  set (d := Zpos (digits2_pos m)) in *.
  assert (Dd : 1 <= d) by (unfold d; lia).
  assert (E : e < 0) by lia.
  unfold Math_round. rewrite Hx.
  replace (0 <=? e) with false by (symmetry; apply Z.leb_gt; lia).
  cbv zeta. cbn [cond_Zopp].
  rewrite Z.shiftr_div_pow2, Z.shiftl_mul_pow2, Z.mul_1_l by lia.
  assert (Hp : 2 ^ d <= 2 ^ (k - e)) by (apply Z.pow_le_mono_r; lia).
  assert (Hk : 2 ^ (k - e) = 2 ^ k * 2 ^ (- e)).
  { rewrite <- Z.pow_add_r by lia. f_equal; lia. }
  assert (Hh : 2 * 2 ^ (- e - 1) = 2 ^ (- e)).
  { rewrite <- Z.pow_succ_r by lia. f_equal. lia. }
  assert (Pe : 0 < 2 ^ (- e)) by (apply Z.pow_pos_nonneg; lia).
  assert (Pk : 0 < 2 ^ k) by (apply Z.pow_pos_nonneg; lia).
  set (n := (Zpos m + 2 ^ (- e - 1)) / 2 ^ (- e)).
  assert (N0 : 0 <= n) by (apply Z.div_pos; lia).
  assert (N1 : n < 2 ^ k + 1) by (apply Z.div_lt_upper_bound; nia).
  destruct (n =? 0) eqn:En; [left; reflexivity|right].
  apply Z.eqb_neq in En. exists n. split; [lia|reflexivity].
Qed.

Local Open Scope float_scope.

(** The larger of a small positive integer and a larger one. *)
Lemma Math_max_of_small n c :
  (0 < n <= c)%Z -> (c < 2 ^ 53)%Z -> Math_max (of_Z n) (of_Z c) = of_Z c.
Proof.
  intros N C.
  destruct (of_Z_value n ltac:(lia)) as [Pn Vn].
  destruct (of_Z_value c ltac:(lia)) as [Pc Vc].
  destruct (Math_max_value _ _ Pn Pc) as [Pm Vm].
  apply toReal_inj; [exact Pm|exact Pc|].
  rewrite Vm, Vn, Vc. apply Rmax_right. apply IZR_le. lia.
Qed.

(** A rounded small number floored at a larger integer is that integer. *)
Lemma floored_small x k c :
  zeroOrBelow k x -> (0 <= k <= 52)%Z -> (2 ^ k <= c < 2 ^ 53)%Z ->
  Math_max (Math_round x) (of_Z c) = of_Z c.
Proof.
  intros X K C.
  assert (Pk : (0 < 2 ^ k)%Z) by (apply Z.pow_pos_nonneg; lia).
  destruct (Math_round_small x k X K) as [->|[n [N ->]]].
  - apply Math_max_zero. apply of_Z_value. lia.
  - apply Math_max_of_small; lia.
Qed.

(** A number below [2^14] is not above the ceiling. *)
Lemma small_not_gt x : zeroOrBelow 14 x -> gtb x maxDimension = false.
Proof.
  intros [->|[m [e [Hx [_ G]]]]]; [reflexivity|].
  pose proof (canonical_exponent x _ _ _ Hx) as [Cx _].
  unfold gtb. rewrite FloatAxioms.ltb_spec, Prim2SF_maxDimension, Hx.
  unfold SFltb, SFcompare.
  replace (-38 ?= e)%Z with Gt; [reflexivity|].
  symmetry. apply Z.compare_gt_iff. lia.
Qed.

Lemma zeroOrBelow_le k k' x : (k <= k')%Z -> zeroOrBelow k x -> zeroOrBelow k' x.
Proof.
  intros L [->|[m [e [Hx G]]]]; [now left|right]. exists m, e. split; [exact Hx|lia].
Qed.

Lemma magnitudeBetween_le lo hi lo' hi' x :
  (lo' <= lo)%Z -> (hi <= hi')%Z -> magnitudeBetween lo hi x -> magnitudeBetween lo' hi' x.
Proof. intros L H [m [e [Hx G]]]. exists m, e. split; [exact Hx|lia]. Qed.

Lemma magnitudeBetween_exact lo hi x :
  magnitudeBetween lo hi x -> exists g, (lo <= g <= hi)%Z /\ magnitudeBetween g g x.
Proof.
  intros [m [e [Hx G]]]. exists (Zpos (digits2_pos m) + e)%Z.
  split; [exact G|]. exists m, e. split; [exact Hx|lia].
Qed.

Lemma magnitudeBetween_floor lo hi x :
  magnitudeBetween lo hi x -> magnitudeBetween (-1073) hi x.
Proof.
  intros [m [e [Hx G]]]. exists m, e. split; [exact Hx|].
  pose proof (canonical_exponent x _ _ _ Hx) as [Cx _].
  pose proof (pos_digits_bounds m). lia.
Qed.

(** The exponent of a positive normal number, from bounds on its value. *)
Lemma positiveNormal_magnitude x lo hi :
  positiveNormal x -> (pow2 (lo - 1) <= toReal x < pow2 hi)%R ->
  magnitudeBetween lo hi x.
Proof.
  intros [m [e [Hx D]]] [L U].
  pose proof (positiveNormal_bounds x m e Hx D) as [B1 B2].
  exists m, e. split; [exact Hx|]. rewrite D. split.
  - assert (H : (pow2 (lo - 1) < pow2 (e + 53))%R) by lra. apply pow2_lt_inv in H. lia.
  - assert (H : (pow2 (e + 52) < pow2 hi)%R) by lra. apply pow2_lt_inv in H. lia.
Qed.

(** A positive finite number of 53 bits is positive normal, with its
    value between the powers of two of its exponent. *)
Lemma magnitude_positiveNormal x g :
  magnitudeBetween g g x -> (-1021 <= g)%Z ->
  positiveNormal x /\ (pow2 (g - 1) <= toReal x < pow2 g)%R.
Proof.
  intros [m [e [Hx G]]] L.
  pose proof (canonical_exponent x _ _ _ Hx) as [Cx _].
  assert (D : Zpos (digits2_pos m) = 53%Z) by lia.
  split; [exists m, e; split; assumption|].
  pose proof (positiveNormal_bounds x m e Hx D) as B.
  replace (g - 1)%Z with (e + 52)%Z by lia. replace g with (e + 53)%Z by lia. exact B.
Qed.

Lemma factor_magnitude fmt :
  isFormatSupported fmt = true ->
  magnitudeBetween 1 1
    (toNumber (or_default (get_property compressionFactors (toLowerCase fmt)) 1.5)).
Proof.
  intros S. apply isFormatSupported_spec in S. unfold Spec.formatSupported in S.
  cbv zeta in S.
  destruct S as [-> | [-> | ->]]; eexists _, _; (split; [reflexivity|simpl; lia]).
Qed.

Lemma aspectRatio_magnitude : magnitudeBetween 1 1 (16 / 9).
Proof. eexists _, _. split; [reflexivity|simpl; lia]. Qed.

Lemma sqrt_zero : sqrt 0 = 0.
Proof. reflexivity. Qed.

Lemma mul_zero_r x m e : Prim2SF x = S754_finite false m e -> x * 0 = 0.
Proof.
  intros H. apply Prim2SF_inj. rewrite mul_spec, H. reflexivity.
Qed.

(** The three smallest positive numbers. *)
Lemma smallest_numbers x g :
  magnitudeBetween g g x -> (g <= -1072)%Z ->
  x = SF2Prim (S754_finite false 1 (-1074)) \/
  x = SF2Prim (S754_finite false 2 (-1074)) \/
  x = SF2Prim (S754_finite false 3 (-1074)).
Proof.
  intros [m [e [Hx G]]] L.
  pose proof (canonical_exponent x _ _ _ Hx) as [Cx _].
  pose proof (pos_digits_bounds m) as Bm.
  assert (E : e = (-1074)%Z) by lia. subst e.
  assert (D : (Zpos (digits2_pos m) <= 2)%Z) by lia.
  assert (M : (Zpos m < 4)%Z).
  { apply Z.lt_le_trans with (2 ^ Zpos (digits2_pos m))%Z; [lia|].
    change 4%Z with (2 ^ 2)%Z. apply Z.pow_le_mono_r; lia. }
  rewrite <- (SF2Prim_Prim2SF x), Hx.
  assert (m = 1 \/ m = 2 \/ m = 3)%positive as [->|[->| ->]] by lia; auto.
Qed.

(** The estimate for a target below one byte is the floor of the
    estimator, 100 x 56. *)
Lemma estimate_below_one t fmt g :
  isFormatSupported fmt = true ->
  magnitudeBetween g g t -> (g <= 0)%Z ->
  estimateInitialDimensions t fmt = {| width := 100; height := 56 |}.
Proof.
  intros S T G.
  destruct (Z_le_gt_dec g (-1072)) as [Small|Big].
  { pose proof S as S'. apply isFormatSupported_spec in S'. unfold Spec.formatSupported in S'.
    cbv zeta in S'. unfold estimateInitialDimensions.
    destruct (smallest_numbers t g T Small) as [->|[->| ->]];
      destruct S' as [-> | [-> | ->]]; vm_compute; reflexivity. }
  pose proof (factor_magnitude fmt S) as F.
  pose proof (estimate_unfold t fmt) as U. cbv zeta in U. unfold Math_sqrt in U.
  set (f := toNumber (or_default (get_property compressionFactors (toLowerCase fmt)) 1.5))
    in *.
  destruct (proj2 (div_magnitude t f g 1 T F ltac:(lia)) ltac:(lia)) as [mp [ep [Hp Gp]]].
  set (p := t / f) in *.
  set (gp := (Zpos (digits2_pos mp) + ep)%Z) in *.
  assert (P : magnitudeBetween gp gp p) by (exists mp, ep; split; [exact Hp|unfold gp; lia]).
  destruct (proj2 (mul_magnitude p (16 / 9) gp 1 P aspectRatio_magnitude ltac:(lia))
              ltac:(lia)) as [ma [ea [Ha Ga]]].
  set (a := p * (16 / 9)) in *.
  set (ga := (Zpos (digits2_pos ma) + ea)%Z) in *.
  assert (A : magnitudeBetween ga ga a) by (exists ma, ea; split; [exact Ha|unfold ga; lia]).
  destruct (sqrt_magnitude a ga A) as [mw [ew [Hw Gw]]].
  set (w := sqrt a) in *.
  set (gw := (Zpos (digits2_pos mw) + ew)%Z) in *.
  assert (Wm : magnitudeBetween gw gw w) by (exists mw, ew; split; [exact Hw|unfold gw; lia]).
  assert (Hz : (2 * ((ga + 1) / 2) <= ga + 1 <= 2 * ((ga + 1) / 2) + 1)%Z)
    by (pose proof (Z.div_mod (ga + 1) 2 ltac:(lia));
        pose proof (Z.mod_pos_bound (ga + 1) 2 ltac:(lia)); lia).
  pose proof (proj1 (div_magnitude p w gp gw P Wm ltac:(lia))) as Hh.
  assert (W3 : zeroOrBelow 3 w).
  { right. apply magnitudeBetween_floor with gw. exists mw, ew.
    split; [exact Hw|fold gw; lia]. }
  assert (H3 : zeroOrBelow 3 (p / w))
    by (eapply zeroOrBelow_le; [|exact Hh]; lia).
  rewrite U.
  - f_equal.
    + apply (floored_small w 3 100 W3); [lia|]. change (2 ^ 3)%Z with 8%Z. lia.
    + apply (floored_small (p / w) 3 56 H3); [lia|]. change (2 ^ 3)%Z with 8%Z. lia.
  - apply small_not_gt. eapply zeroOrBelow_le; [|exact W3]. lia.
  - apply small_not_gt. eapply zeroOrBelow_le; [|exact H3]. lia.
Qed.

(** With a target below [2^-960] bytes, every adjustment of dimensions
    up to the ceiling gives 50 x 50: the scaled dimensions round to zero. *)
Lemma adjustDimensions_tiny a t w0 h0 g :
  positiveNormal a -> (1 <= toReal a <= pow2 53)%R ->
  magnitudeBetween g g t -> (g <= -960)%Z ->
  dimensionInRange w0 -> dimensionInRange h0 ->
  adjustDimensions a t w0 h0 = {| width := 50; height := 50 |}.
Proof.
  intros Pa [A1 A2] T G Dw Dh.
  assert (Am : magnitudeBetween 1 54 a).
  { apply positiveNormal_magnitude; [exact Pa|]. split.
    - change (1 - 1)%Z with 0%Z. rewrite pow2_0. exact A1.
    - apply Rle_lt_trans with (pow2 53); [exact A2|apply pow2_lt; lia]. }
  destruct (magnitudeBetween_exact _ _ _ Am) as [ga [Ga Am']].
  pose proof (proj1 (div_magnitude t a g ga T Am' ltac:(lia))) as R.
  assert (Ss : zeroOrBelow (-478) (Math_sqrt (t / a))).
  { unfold Math_sqrt. destruct R as [->|R]; [left; reflexivity|right].
    destruct (magnitudeBetween_exact _ _ _ R) as [gr [Gr R']].
    pose proof (sqrt_magnitude _ gr R') as Sq.
    assert (Hz : (2 * ((gr + 1) / 2) <= gr + 1 <= 2 * ((gr + 1) / 2) + 1)%Z)
      by (pose proof (Z.div_mod (gr + 1) 2 ltac:(lia));
          pose proof (Z.mod_pos_bound (gr + 1) 2 ltac:(lia)); lia).
    apply magnitudeBetween_floor with ((gr + 1) / 2)%Z.
    eapply magnitudeBetween_le; [| |exact Sq]; lia. }
  assert (Side : forall x0, dimensionInRange x0 ->
                   Math_max (Math_round (x0 * Math_sqrt (t / a))) 50 = 50).
  { intros x0 [Px [X1 X2]].
    assert (Xm : magnitudeBetween 1 15 x0).
    { apply positiveNormal_magnitude; [exact Px|]. split.
      - change (1 - 1)%Z with 0%Z. rewrite pow2_0. lra.
      - rewrite pow2_15. lra. }
    destruct (magnitudeBetween_exact _ _ _ Xm) as [gx [Gx Xm']].
    assert (Z0 : zeroOrBelow (-1) (x0 * Math_sqrt (t / a))).
    { destruct Ss as [->|Sm].
      - left. destruct Px as [m [e [H _]]]. exact (mul_zero_r x0 m e H).
      - destruct (magnitudeBetween_exact _ _ _ Sm) as [gs [Gs Sm']].
        eapply zeroOrBelow_le;
          [|exact (proj1 (mul_magnitude x0 _ gx gs Xm' Sm' ltac:(lia)))]. lia. }
    rewrite (Math_round_tiny _ Z0). apply Math_max_zero. exact (proj1 value_50). }
  unfold adjustDimensions. cbv zeta. rewrite (Side w0 Dw), (Side h0 Dh). reflexivity.
Qed.

End SmallNumbers.

(** ** The ceiling rescale keeps the aspect ratio *)

Section ClampValues.

Local Open Scope R_scope.

(** The side of the ceiling rescale computed as
    [Math.round(maxDimension / aspectRatio)], where the width is the
    larger dimension: the whole number closest to 32767 h / w. *)
Lemma clamp_by_quotient_value w h :
  positiveNormal w -> positiveNormal h ->
  50 <= toReal h -> toReal h <= toReal w -> toReal w <= pow2 1000 ->
  (99 / 2) * toReal w * (1 + pow2 (-52))
    <= 32767 * toReal h * ((1 - 2 * pow2 (-52)) * (1 - pow2 (-52))) ->
  exists n : Z,
    Math_min (Math_round (maxDimension / (w / h))) maxDimension = of_Z n /\
    (50 <= n <= 32767)%Z /\
    Rabs (IZR n - 32767 * (toReal h / toReal w)) <= 501 / 1000.
Proof.
  intros Pw Ph H50 HW W1000 K.
  destruct value_maxDimension as [Pmax Vmax].
  pose proof ulp_small as Eps. pose proof (pow2_pos (-52)) as Eps0.
  set (eps := pow2 (-52)) in *.
  assert (E2 : pow2 (-51) = 2 * eps).
  { unfold eps. change (-51)%Z with (1 + -52)%Z. rewrite pow2_add, pow2_1. ring. }
  set (W := toReal w) in *. set (H := toReal h) in *.
  assert (Q : 1 <= W / H <= pow2 1000).
  { split.
    - apply Rmult_le_reg_r with H; [lra|]. replace (W / H * H) with W by (field; lra). lra.
    - apply Rmult_le_reg_r with H; [lra|]. replace (W / H * H) with W by (field; lra).
      pose proof (pow2_pos 1000). nra. }
  assert (M1 : pow2 (-1020) <= W / H <= pow2 1021).
  { split.
    - apply Rle_trans with (pow2 0); [apply pow2_le; lia|rewrite pow2_0; lra].
    - apply Rle_trans with (pow2 1000); [lra|apply pow2_le; lia]. }
  destruct (div_value w h Pw Ph M1) as [Pa [A1 A2]]. fold W H in A1, A2.
  rewrite E2 in A1. fold eps in A2.
  set (AR := toReal (w / h)%float) in *.
  assert (AR1 : / 2 <= AR) by nra.
  assert (AR2 : AR <= pow2 1001).
  { apply Rle_trans with (pow2 1000 * 2).
    - apply Rle_trans with (W / H * (1 + eps)); [exact A2|].
      apply Rmult_le_compat; lra.
    - change 1001%Z with (1000 + 1)%Z. rewrite pow2_add, pow2_1. lra. }
  assert (M2 : pow2 (-1020) <= toReal maxDimension / AR <= pow2 1021).
  { rewrite Vmax. split.
    - apply Rle_trans with (1 / pow2 1001).
      + replace (1 / pow2 1001) with (pow2 (-1001))
          by (change (-1001)%Z with (- (1001))%Z; rewrite pow2_neg; field;
              pose proof (pow2_pos 1001); lra).
        apply pow2_le. lia.
      + pose proof (pow2_pos 1001).
        apply Rmult_le_reg_r with (pow2 1001 * AR); [nra|].
        replace (1 / pow2 1001 * (pow2 1001 * AR)) with AR by (field; lra).
        replace (32767 / AR * (pow2 1001 * AR)) with (32767 * pow2 1001) by (field; lra).
        nra.
    - apply Rle_trans with (pow2 16); [|apply pow2_le; lia].
      replace (pow2 16) with 65536 by (unfold pow2; simpl; lra).
      apply Rmult_le_reg_r with AR; [lra|].
      replace (32767 / AR * AR) with 32767 by (field; lra). lra. }
  destruct (div_value maxDimension (w / h) Pmax Pa M2) as [Pv [V1 V2]].
  fold AR in V1, V2. rewrite Vmax, E2 in V1. rewrite Vmax in V2. fold eps in V2.
  set (V := toReal (maxDimension / (w / h))%float) in *.
  assert (V50 : 99 / 2 <= V).
  { apply Rle_trans with (32767 / AR * (1 - 2 * eps)); [|exact V1].
    apply Rmult_le_reg_r with AR; [lra|].
    replace (32767 / AR * (1 - 2 * eps) * AR) with (32767 * (1 - 2 * eps)) by (field; lra).
    apply Rle_trans with (99 / 2 * (W / H * (1 + eps))).
    - apply Rmult_le_compat_l; lra.
    - apply Rmult_le_reg_r with H; [lra|].
      replace (99 / 2 * (W / H * (1 + eps)) * H) with (99 / 2 * W * (1 + eps)) by (field; lra).
      apply Rle_trans with (32767 * H * ((1 - 2 * eps) * (1 - eps))); [exact K|].
      assert (0 <= 32767 * H * (1 - 2 * eps) * eps).
      { apply Rmult_le_pos; [|lra]. apply Rmult_le_pos; lra. }
      nra. }
  (* the exact quotient, and the computed one against it *)
  set (X := 32767 * (H / W)).
  assert (X0 : 0 < X <= 32767).
  { unfold X. split.
    - apply Rmult_lt_0_compat; [lra|]. apply Rdiv_lt_0_compat; lra.
    - assert (H / W <= 1); [|lra].
      apply Rmult_le_reg_r with W; [lra|]. replace (H / W * W) with H by (field; lra). lra. }
  set (Y := 32767 / AR) in *.
  assert (YA : Y * AR = 32767) by (unfold Y; field; lra).
  assert (XQ : X * (W / H) = 32767) by (unfold X; field; lra).
  assert (Y0 : 0 < Y) by (unfold Y; apply Rdiv_lt_0_compat; lra).
  assert (Y1 : Y * (1 - 2 * eps) <= X).
  { apply Rmult_le_reg_r with (W / H); [lra|]. rewrite XQ, <- YA.
    replace (Y * (1 - 2 * eps) * (W / H)) with (Y * (W / H * (1 - 2 * eps))) by ring.
    apply Rmult_le_compat_l; lra. }
  assert (Y2 : X <= Y * (1 + eps)).
  { apply Rmult_le_reg_r with (W / H); [lra|]. rewrite XQ, <- YA.
    replace (Y * (1 + eps) * (W / H)) with (Y * (W / H * (1 + eps))) by ring.
    apply Rmult_le_compat_l; lra. }
  assert (Yb : Y <= 40000).
  { assert (Y * (1 - 2 * eps) <= 32767) by lra.
    assert (Y * (2 * eps) <= Y * (/ 100)) by (apply Rmult_le_compat_l; lra). lra. }
  assert (Ye : Y * eps <= 40000 * / 1000000000) by (apply Rmult_le_compat; lra).
  assert (VX : X - / 1000 <= V <= X + / 1000).
  { split.
    - apply Rle_trans with (Y * (1 - 2 * eps)); [|exact V1]. lra.
    - apply Rle_trans with (Y * (1 + eps)); [exact V2|]. lra. }
  destruct (Math_round_value _ Pv) as [n [N [[N0 _]|[N0 [Pr Vr]]]]];
    destruct (round_at_least_50 n V N V50) as [Np N50]; [lia|].
  fold V in N.
  assert (N32 : (n <= 32767)%Z).
  { assert (IZR n < 32768) by lra. apply lt_IZR in H0. lia. }
  destruct (Math_min_value _ _ Pr Pmax) as [Pm Vm].
  exists n. split; [|split].
  - destruct (of_Z_value n ltac:(lia)) as [Pn Vn].
    apply toReal_inj; [exact Pm|exact Pn|].
    rewrite Vm, Vr, Vmax, Vn. apply Rmin_left. apply IZR_le. exact N32.
  - split; [apply le_IZR; lra|exact N32].
  - fold X. unfold Rabs. destruct (Rcase_abs (IZR n - X)); lra.
Qed.

(** The side computed as [Math.round(maxDimension * aspectRatio)], where
    the height is the larger dimension: the whole number closest to
    32767 w / h. *)
Lemma clamp_by_product_value w h :
  positiveNormal w -> positiveNormal h ->
  50 <= toReal w -> toReal w <= toReal h -> toReal h <= pow2 1000 ->
  (99 / 2) * toReal h * (1 + pow2 (-52))
    <= 32767 * toReal w * ((1 - 2 * pow2 (-52)) * (1 - pow2 (-52))) ->
  exists n : Z,
    Math_min (Math_round (maxDimension * (w / h))) maxDimension = of_Z n /\
    (50 <= n <= 32767)%Z /\
    Rabs (IZR n - 32767 * (toReal w / toReal h)) <= 501 / 1000.
Proof.
  intros Pw Ph H50 HW W1000 K.
  destruct value_maxDimension as [Pmax Vmax].
  pose proof ulp_small as Eps. pose proof (pow2_pos (-52)) as Eps0.
  set (eps := pow2 (-52)) in *.
  assert (E2 : pow2 (-51) = 2 * eps).
  { unfold eps. change (-51)%Z with (1 + -52)%Z. rewrite pow2_add, pow2_1. ring. }
  set (W := toReal w) in *. set (H := toReal h) in *.
  pose proof (pow2_pos 1000) as P1000.
  assert (Q : pow2 (-1000) <= W / H <= 1).
  { split.
    - apply Rmult_le_reg_r with H; [lra|]. replace (W / H * H) with W by (field; lra).
      apply Rle_trans with (pow2 (-1000) * pow2 1000).
      + apply Rmult_le_compat_l; [apply Rlt_le, pow2_pos|lra].
      + rewrite <- pow2_add. change (-1000 + 1000)%Z with 0%Z. rewrite pow2_0. lra.
    - apply Rmult_le_reg_r with H; [lra|]. replace (W / H * H) with W by (field; lra). lra. }
  assert (M1 : pow2 (-1020) <= W / H <= pow2 1021).
  { split.
    - apply Rle_trans with (pow2 (-1000)); [apply pow2_le; lia|lra].
    - apply Rle_trans with (pow2 0); [rewrite pow2_0; lra|apply pow2_le; lia]. }
  destruct (div_value w h Pw Ph M1) as [Pa [A1 A2]]. fold W H in A1, A2.
  rewrite E2 in A1. fold eps in A2.
  set (AR := toReal (w / h)%float) in *.
  pose proof (pow2_pos (-1000)) as Pm1000.
  assert (AR1 : pow2 (-1001) <= AR).
  { apply Rle_trans with (pow2 (-1000) * / 2).
    - change (-1000)%Z with (1 + -1001)%Z. rewrite pow2_add, pow2_1. lra.
    - apply Rle_trans with (W / H * (1 - 2 * eps)); [|exact A1].
      apply Rmult_le_compat; lra. }
  assert (AR2 : AR <= 2).
  { apply Rle_trans with (W / H * (1 + eps)); [exact A2|].
    apply Rle_trans with (1 * (1 + eps)); [apply Rmult_le_compat_r; lra|lra]. }
  pose proof (pow2_pos (-1001)) as Pm1001.
  assert (M2 : pow2 (-1021) <= toReal maxDimension * AR <= pow2 1022).
  { rewrite Vmax. split.
    - apply Rle_trans with (1 * pow2 (-1001)).
      + rewrite Rmult_1_l. apply pow2_le. lia.
      + apply Rmult_le_compat; lra.
    - apply Rle_trans with (pow2 16); [|apply pow2_le; lia].
      replace (pow2 16) with 65536 by (unfold pow2; simpl; lra). lra. }
  destruct (mul_value maxDimension (w / h) Pmax Pa M2) as [Pv [V1 V2]].
  fold AR in V1, V2. rewrite Vmax in V1, V2. fold eps in V1, V2.
  set (V := toReal (maxDimension * (w / h))%float) in *.
  assert (V50 : 99 / 2 <= V).
  { apply Rle_trans with (32767 * AR * (1 - eps)); [|exact V1].
    apply Rle_trans with (32767 * (W / H * (1 - 2 * eps)) * (1 - eps)).
    - apply Rmult_le_reg_r with H; [lra|].
      replace (32767 * (W / H * (1 - 2 * eps)) * (1 - eps) * H)
        with (32767 * W * ((1 - 2 * eps) * (1 - eps))) by (field; lra).
      apply Rle_trans with (99 / 2 * H * (1 + eps)); [|exact K].
      assert (0 <= 99 / 2 * H * eps) by (apply Rmult_le_pos; lra). lra.
    - apply Rmult_le_compat_r; [lra|]. apply Rmult_le_compat_l; lra. }
  set (X := 32767 * (W / H)).
  assert (X0 : 0 < X <= 32767).
  { unfold X. pose proof (pow2_pos (-1000)). split; [|lra].
    apply Rmult_lt_0_compat; lra. }
  assert (A3 : 32767 * AR <= X + / 10000).
  { unfold X. assert (W / H * eps <= 1 * / 1000000000) by (apply Rmult_le_compat; lra).
    lra. }
  assert (A4 : X - / 10000 <= 32767 * AR).
  { unfold X. assert (W / H * eps <= 1 * / 1000000000) by (apply Rmult_le_compat; lra).
    lra. }
  assert (A5 : 0 <= 32767 * AR <= 70000) by lra.
  assert (A6 : 32767 * AR * eps <= 70000 * / 1000000000) by (apply Rmult_le_compat; lra).
  assert (VX : X - / 1000 <= V <= X + / 1000) by lra.
  destruct (Math_round_value _ Pv) as [n [N [[N0 _]|[N0 [Pr Vr]]]]];
    destruct (round_at_least_50 n V N V50) as [Np N50]; [lia|].
  fold V in N.
  assert (N32 : (n <= 32767)%Z).
  { assert (IZR n < 32768) by lra. apply lt_IZR in H0. lia. }
  destruct (Math_min_value _ _ Pr Pmax) as [Pm Vm].
  exists n. split; [|split].
  - destruct (of_Z_value n ltac:(lia)) as [Pn Vn].
    apply toReal_inj; [exact Pm|exact Pn|].
    rewrite Vm, Vr, Vmax, Vn. apply Rmin_left. apply IZR_le. exact N32.
  - split; [apply le_IZR; lra|exact N32].
  - fold X. unfold Rabs. destruct (Rcase_abs (IZR n - X)); lra.
Qed.

End ClampValues.

(** ** One adjustment, for every positive target *)

Section AnyTarget.

Local Open Scope R_scope.

Lemma of_Z_inRange n : (50 <= n <= 32767)%Z -> dimensionInRange (of_Z n).
Proof.
  intros N. destruct (of_Z_value n ltac:(lia)) as [P V].
  split; [exact P|]. rewrite V. split; apply IZR_le; lia.
Qed.

(** The scale factor for a target from [2^-960] bytes on. *)
Lemma scaleFactor_value_wide a t :
  positiveNormal a -> 1 <= toReal a <= pow2 53 ->
  positiveNormal t -> pow2 (-960) <= toReal t <= pow2 997 ->
  positiveNormal (Math_sqrt (t / a)) /\
  pow2 (-900) <= toReal (Math_sqrt (t / a)) <= pow2 900.
Proof.
  intros Pa [A1 A2] Pt [T1 T2].
  pose proof ulp_small as Eps. pose proof (pow2_pos (-52)) as Eps0.
  set (eps := pow2 (-52)) in *.
  assert (E2 : pow2 (-51) = 2 * eps).
  { unfold eps. change (-51)%Z with (1 + -52)%Z. rewrite pow2_add, pow2_1. ring. }
  assert (E4 : pow2 (-50) = 4 * eps).
  { unfold eps. change (-50)%Z with (1 + (1 + -52))%Z. rewrite !pow2_add, pow2_1. ring. }
  set (A := toReal a) in *. set (T := toReal t) in *.
  pose proof (pow2_pos 53) as P53. pose proof (pow2_pos 997) as P997.
  pose proof (pow2_pos (-960)) as Pm960.
  assert (Q : pow2 (-1013) <= T / A <= pow2 997).
  { split.
    - apply Rmult_le_reg_r with A; [lra|]. replace (T / A * A) with T by (field; lra).
      apply Rle_trans with (pow2 (-1013) * pow2 53).
      + apply Rmult_le_compat_l; [apply Rlt_le, pow2_pos|lra].
      + rewrite <- pow2_add. change (-1013 + 53)%Z with (-960)%Z. lra.
    - apply Rmult_le_reg_r with A; [lra|]. replace (T / A * A) with T by (field; lra). nra. }
  assert (M : pow2 (-1020) <= T / A <= pow2 1021).
  { split.
    - apply Rle_trans with (pow2 (-1013)); [apply pow2_le; lia|lra].
    - apply Rle_trans with (pow2 997); [lra|apply pow2_le; lia]. }
  destruct (div_value t a Pt Pa M) as [Pr [R1 R2]]. fold T A in R1, R2.
  rewrite E2 in R1. fold eps in R2.
  destruct (sqrt_value _ Pr) as [Ps [S1 S2]]. rewrite E4 in S1, S2.
  split; [exact Ps|].
  set (r := toReal (t / a)%float) in *. set (s := toReal (sqrt (t / a))) in *.
  unfold Math_sqrt. fold s.
  pose proof (positiveNormal_pos _ Ps) as S0. fold s in S0.
  pose proof (pow2_pos (-1013)) as Pm1013.
  assert (r1 : pow2 (-1014) <= r).
  { apply Rle_trans with (pow2 (-1013) * / 2).
    - change (-1013)%Z with (1 + -1014)%Z. rewrite pow2_add, pow2_1.
      pose proof (pow2_pos (-1014)). lra.
    - apply Rle_trans with (T / A * (1 - 2 * eps)); [|exact R1]. apply Rmult_le_compat; lra. }
  assert (r2 : r <= pow2 998).
  { apply Rle_trans with (pow2 997 * 2).
    - apply Rle_trans with (T / A * (1 + eps)); [exact R2|]. apply Rmult_le_compat; lra.
    - change 998%Z with (997 + 1)%Z. rewrite pow2_add, pow2_1. lra. }
  pose proof (pow2_pos (-1014)) as Pm1014.
  split.
  - apply Rle_trans with (pow2 (-508)); [apply pow2_le; lia|].
    apply square_le; [apply Rlt_le, pow2_pos|exact S0|].
    rewrite <- pow2_add. change (-508 + -508)%Z with (-1016)%Z.
    apply Rle_trans with (r * (1 - 4 * eps)); [|exact S1].
    apply Rle_trans with (pow2 (-1014) * / 4).
    + change (-1014)%Z with (1 + (1 + -1016))%Z. rewrite !pow2_add, pow2_1.
      pose proof (pow2_pos (-1016)). lra.
    + apply Rmult_le_compat; lra.
  - apply Rle_trans with (pow2 500); [|apply pow2_le; lia].
    apply square_le; [lra|apply pow2_pos|].
    rewrite <- pow2_add. change (500 + 500)%Z with 1000%Z.
    apply Rle_trans with (r * (1 + 4 * eps)); [exact S2|].
    apply Rle_trans with (pow2 998 * 2).
    + apply Rmult_le_compat; lra.
    + apply Rle_trans with (pow2 999); [|apply pow2_le; lia].
      change 999%Z with (998 + 1)%Z. rewrite pow2_add, pow2_1. lra.
Qed.

(** One adjustment followed by the ceiling check of the next iteration,
    for a scale factor in the normal range: the adjusted dimensions are
    at least 50, and the check brings them between 50 and 32767 keeping
    the aspect ratio. *)
Lemma adjustDimensions_scaled a t w0 h0 :
  positiveNormal (Math_sqrt (t / a)) ->
  pow2 (-900) <= toReal (Math_sqrt (t / a)) <= pow2 900 ->
  dimensionInRange w0 -> dimensionInRange h0 ->
  adjustedWithinBounds (adjustDimensions a t w0 h0).
Proof.
  intros Ps Hs Gw Gh.
  unfold adjustDimensions. cbv zeta.
  set (s := Math_sqrt (t / a)) in *.
  destruct (rescaled_value w0 s Gw Ps Hs) as [Pw [W50 [Wlo Whi]]].
  destruct (rescaled_value h0 s Gh Ps Hs) as [Ph [H50 [Hlo Hhi]]].
  set (w := Math_max (Math_round (w0 * s)) 50) in *.
  set (h := Math_max (Math_round (h0 * s)) 50) in *.
  split; [split; split; assumption|].
  destruct value_maxDimension as [Pmax Vmax].
  pose proof ulp_small as Eps. pose proof (pow2_pos (-52)) as Eps0.
  pose proof (positiveNormal_pos _ Ps) as S0.
  destruct Gw as [Pw0 [Gw1 Gw2]]. destruct Gh as [Ph0 [Gh1 Gh2]].
  set (eps := pow2 (-52)) in *. set (S := toReal s) in *.
  set (W := toReal w) in *. set (H := toReal h) in *.
  set (W0 := toReal w0) in *. set (H0 := toReal h0) in *.
  assert (B : forall X0 X, 50 <= X0 <= 32767 ->
                X0 * S * (1 - eps) - / 2 <= X ->
                (X = 50 \/ X <= X0 * S * (1 + eps) + / 2) ->
                50 * S * (1 - eps) - / 2 <= X /\
                (X = 50 \/ X <= 32767 * S * (1 + eps) + / 2)).
  { intros X0 X [X1 X2] Xlo Xhi. split.
    - apply Rle_trans with (X0 * S * (1 - eps) - / 2); [|exact Xlo].
      assert (50 * S * (1 - eps) <= X0 * S * (1 - eps)); [|lra].
      apply Rmult_le_compat_r; [lra|]. apply Rmult_le_compat_r; lra.
    - destruct Xhi as [Xhi|Xhi]; [left; exact Xhi|right].
      apply Rle_trans with (X0 * S * (1 + eps) + / 2); [exact Xhi|].
      assert (X0 * S * (1 + eps) <= 32767 * S * (1 + eps)); [|lra].
      apply Rmult_le_compat_r; [lra|]. apply Rmult_le_compat_r; lra. }
  destruct (B W0 W (conj Gw1 Gw2) Wlo Whi) as [Wl Wh].
  destruct (B H0 H (conj Gh1 Gh2) Hlo Hhi) as [Hl Hh].
  assert (Big : forall X, (X = 50 \/ X <= 32767 * S * (1 + eps) + / 2) -> X <= pow2 1000).
  { intros X [->|HX].
    - apply Rle_trans with (pow2 15); [rewrite pow2_15; lra|apply pow2_le; lia].
    - apply Rle_trans with (32767 * S * (1 + eps) + / 2); [exact HX|].
      apply Rle_trans with (pow2 15 * pow2 900 * 2 + pow2 0).
      + rewrite pow2_15, pow2_0.
        assert (32767 * S * (1 + eps) <= 32768 * pow2 900 * 2); [|lra].
        apply Rmult_le_compat; lra.
      + pose proof (pow2_pos 916) as P916.
        apply Rle_trans with (pow2 916 + pow2 916).
        * apply Rplus_le_compat.
          -- rewrite <- pow2_add. change (15 + 900)%Z with 915%Z.
             change 916%Z with (915 + 1)%Z. rewrite pow2_add, pow2_1. lra.
          -- apply pow2_le. lia.
        * apply Rle_trans with (pow2 917); [|apply pow2_le; lia].
          change 917%Z with (916 + 1)%Z. rewrite pow2_add, pow2_1. lra. }
  assert (E0 : 0 <= eps <= / 1000000000) by lra.
  destruct (exceedsCeiling {| width := w; height := h |}) eqn:Ex.
  - unfold exceedsCeiling in Ex. cbn [width height] in Ex.
    assert (Ex' : 32767 < W \/ 32767 < H).
    { apply orb_true_iff in Ex. rewrite <- Vmax.
      destruct Ex as [Ex|Ex]; [left|right]; apply gtb_toReal in Ex; assumption. }
    assert (M : Math_min maxDimension maxDimension = maxDimension) by reflexivity.
    unfold clampDimensions, dimensionsInRange, clampedKeepingRatio. cbn [width height].
    destruct (gtb w h) eqn:Gt.
    + apply gtb_toReal in Gt; [|assumption..]. fold W H in Gt.
      cbn [width height]. fold W H.
      destruct (clamp_by_quotient_value w h Pw Ph) as [n [En [Nn Rn]]];
        try assumption; fold W H; try lra.
      { apply Big. exact Wh. }
      { apply (floor_survives S H W eps); try assumption. lra. }
      rewrite En. split; [split; [apply min_maxDimension|apply of_Z_inRange; exact Nn]|].
      intros _. split.
      * intros _. split; [exact M|]. exists n. split; [reflexivity|exact Rn].
      * intros C. lra.
    + apply gtb_false_toReal in Gt; [|assumption..]. fold W H in Gt.
      cbn [width height]. fold W H.
      destruct (clamp_by_product_value w h Pw Ph) as [n [En [Nn Rn]]];
        try assumption; fold W H; try lra.
      { apply Big. exact Hh. }
      { apply (floor_survives S W H eps); try assumption. lra. }
      rewrite En. split; [split; [apply of_Z_inRange; exact Nn|apply min_maxDimension]|].
      intros _. split.
      * intros C. lra.
      * intros _. split; [exact M|]. exists n. split; [reflexivity|exact Rn].
  - split; [|discriminate].
    unfold exceedsCeiling in Ex. cbn [width height] in Ex.
    apply orb_false_iff in Ex. destruct Ex as [Ew Eh].
    apply gtb_false_toReal in Ew; [|assumption..].
    apply gtb_false_toReal in Eh; [|assumption..]. rewrite Vmax in Ew, Eh.
    split; (split; [assumption|split; assumption]).
Qed.

(** A positive target of at most 1e300 bytes is finite. *)
Lemma positive_target_finite t :
  (0 <? t)%float = true -> (t <=? 1e300)%float = true ->
  exists g, magnitudeBetween g g t.
Proof.
  intros T0 T1. destruct (positive_cases t T0) as [[m [e H]]|H].
  - exists (Zpos (digits2_pos m) + e)%Z, m, e. split; [exact H|lia].
  - exfalso. rewrite FloatAxioms.leb_spec, H in T1. discriminate.
Qed.

(** From [2^-960] bytes on, it is a positive normal number. *)
Lemma normal_target t g :
  magnitudeBetween g g t -> (-959 <= g)%Z -> (t <=? 1e300)%float = true ->
  positiveNormal t /\ pow2 (-960) <= toReal t <= pow2 997 /\ pow2 (g - 1) <= toReal t.
Proof.
  intros T G U.
  destruct (magnitude_positiveNormal t g T ltac:(lia)) as [Pt [L _]].
  assert (P300 : positiveNormal 1e300 /\ toReal 1e300 <= pow2 997).
  { assert (E : exists m, Prim2SF 1e300 = S754_finite false m 944 /\
                            Zpos (digits2_pos m) = 53%Z) by (eexists; split; reflexivity).
    destruct E as [m [E D]]. split; [now exists m, 944%Z|].
    apply Rlt_le. exact (proj2 (positiveNormal_bounds _ _ _ E D)). }
  destruct P300 as [P300 V300].
  apply (leb_toReal t 1e300 Pt P300) in U.
  split; [exact Pt|]. split; [|exact L]. split; [|lra].
  apply Rle_trans with (pow2 (g - 1)); [apply pow2_le; lia|exact L].
Qed.

(** The estimate for every positive target up to 1e300 bytes and a
    supported format: between 50 and 32767. *)
Lemma estimate_in_range_any t fmt :
  isFormatSupported fmt = true ->
  (0 <? t)%float = true -> (t <=? 1e300)%float = true ->
  dimensionsInRange (estimateInitialDimensions t fmt).
Proof.
  intros S T0 T1. destruct (positive_target_finite t T0 T1) as [g T].
  destruct (Z_le_gt_dec g 0) as [G|G].
  - rewrite (estimate_below_one t fmt g S T G).
    destruct value_100 as [P100 V100]. destruct value_56 as [P56 V56].
    split; cbn [width height]; (split; [assumption|]); rewrite ?V100, ?V56; lra.
  - destruct (normal_target t g T ltac:(lia) T1) as [Pt [[_ U] L]].
    apply estimate_in_range; [exact S|exact Pt|]. split; [|exact U].
    apply Rle_trans with (pow2 (g - 1)); [|exact L].
    rewrite <- pow2_0. apply pow2_le. lia.
Qed.

(** One adjustment, for every positive target up to 1e300 bytes. *)
Lemma adjustDimensions_any a t w0 h0 :
  positiveNormal a -> 1 <= toReal a <= pow2 53 ->
  (0 <? t)%float = true -> (t <=? 1e300)%float = true ->
  dimensionInRange w0 -> dimensionInRange h0 ->
  adjustedWithinBounds (adjustDimensions a t w0 h0).
Proof.
  intros Pa Ha T0 T1 Gw Gh. destruct (positive_target_finite t T0 T1) as [g T].
  destruct (Z_le_gt_dec g (-960)) as [G|G].
  - rewrite (adjustDimensions_tiny a t w0 h0 g Pa Ha T G Gw Gh).
    destruct value_50 as [P50 V50].
    assert (D : dimensionsInRange {| width := 50; height := 50 |}).
    { split; cbn [width height]; (split; [exact P50|]); rewrite V50; lra. }
    split; [apply dimensionsInRange_aboveFloor; exact D|].
    split; [exact D|discriminate].
  - destruct (normal_target t g T ltac:(lia) T1) as [Pt [Ht _]].
    destruct (scaleFactor_value_wide a t Pa Ha Pt Ht) as [Ps Hs].
    apply adjustDimensions_scaled; assumption.
Qed.

End AnyTarget.

(** ** The heads of the iterations *)

Section Heads.

Variable W : Type.
Variable Jimp : option (JimpLib W).
Variable config : Config.

Local Abbreviation fmt := (format config).
Local Abbreviation target := (targetSizeBytes config).
Local Abbreviation tol := (tolerance' config).
Local Abbreviation render := (generateImageWithText W Jimp).
Local Abbreviation loop := (while_loop W Jimp config).
Local Abbreviation generate := (generateImageWithTargetSize W Jimp config).
Local Abbreviation head := (iterationHead Jimp config).

Local Open Scope R_scope.

(** Every render call of the loop is made for the head of an iteration,
    and the state the loop returns is such a head, or the checked state
    of one whose render was accepted. *)
Lemma while_loop_heads n : forall st env r env',
  head st ->
  loop n st env = (r, env') ->
  exists calls,
    renderCalls env' = renderCalls env ++ calls /\
    Forall (rendersHead Jimp config) calls /\
    (forall st', r = inr st' ->
       head st' \/ exists s, head s /\ cur st' = cur (ceilingCheck fmt target s)).
Proof.
  induction n as [|n IH]; intros st env r env' Hd H.
  - simpl in H. unfold ret in H. inversion H; subst.
    exists []. rewrite app_nil_r. repeat split; auto.
    intros st' E. inversion E; subst. now left.
  - set (st1 := ceilingCheck fmt target st) in *.
    destruct (generateImageWithText_log W Jimp (renderConfig config st1) env) as [Hc _].
    assert (R1 : rendersHead Jimp config (renderConfig config st1))
      by (exists st; split; [exact Hd|reflexivity]).
    destruct (render (renderConfig config st1) env) as [[e|b] env1] eqn:R.
    + rewrite (while_loop_render_throws W Jimp config n st env e env1 R) in H.
      inversion H; subst. simpl in Hc.
      exists [renderConfig config st1]. repeat split; auto. discriminate.
    + rewrite (while_loop_render_ok W Jimp config n st env b env1 R) in H.
      simpl in Hc. fold st1 in H.
      destruct (generateImageWithText_buffer W Jimp _ _ _ _ R) as [lib [HL Hb]].
      destruct (isWithinTolerance (getImageSize b) target tol) eqn:Tol.
      * inversion H; subst.
        exists [renderConfig config st1]. repeat split; auto.
        intros st' E. inversion E; subst. right. exists st. split; [exact Hd|reflexivity].
      * assert (Hd' : head (adjust fmt target b st1)).
        { apply head_adjusted; [exact Hd| |exact Tol].
          exists lib, (world env). split; assumption. }
        destruct (IH _ _ _ _ Hd' H) as [calls [Hc' [Hf Hr]]].
        exists (renderConfig config st1 :: calls). repeat split.
        -- rewrite Hc', Hc, <- app_assoc. reflexivity.
        -- constructor; assumption.
        -- exact Hr.
Qed.

Hypothesis buffersNonEmpty : returnsNonEmptyBuffers Jimp.
Hypothesis formatSupported : isFormatSupported fmt = true.
Hypothesis targetPositive : (0 <? target)%float = true.
Hypothesis targetBounded : (target <=? 1e300)%float = true.

(** With a positive target of at most 1e300 bytes and a library that
    returns non-empty buffers, the dimensions at the head of every
    iteration are at least 50; the ceiling check brings them between 50
    and 32767, keeping the aspect ratio when it clamps them. *)
Lemma head_dimensions st :
  head st ->
  aboveFloor (cur st) /\
  dimensionsInRange (cur (ceilingCheck fmt target st)) /\
  (exceedsCeiling (cur st) = true ->
   clampedKeepingRatio (cur st) (cur (ceilingCheck fmt target st))).
Proof.
  induction 1 as [|st b Hd [Fl [Gd Kr]] Pb Tol].
  - pose proof (estimate_in_range_any target fmt formatSupported targetPositive targetBounded) as G0.
    rewrite ceilingCheck_cur. cbn [initialState cur].
    rewrite (dimensionsInRange_not_exceeds _ G0).
    split; [apply dimensionsInRange_aboveFloor; exact G0|]. split; [exact G0|discriminate].
  - set (st1 := ceilingCheck fmt target st) in *.
    destruct Pb as [lib [w [HL Hb]]].
    assert (Hlen : (0 < Z.of_nat (List.length b) < 2 ^ 53)%Z).
    { destruct (lib (renderConfig config st1) w) as [rb w'] eqn:E.
      simpl in Hb. subst rb. exact (buffersNonEmpty _ _ _ _ _ HL E). }
    destruct (getImageSize_value b Hlen) as [Pa Ha].
    rewrite ceilingCheck_cur. unfold adjust.
    destruct (atCeiling fmt (cur st1)); cbn [cur].
    + rewrite (dimensionsInRange_not_exceeds _ Gd).
      split; [apply dimensionsInRange_aboveFloor; exact Gd|]. split; [exact Gd|discriminate].
    + destruct Gd as [Gw Gh].
      destruct (adjustDimensions_any _ _ _ _ Pa Ha targetPositive targetBounded Gw Gh) as [A1 [A2 A3]].
      split; [exact A1|]. split; [exact A2|].
      intros E. rewrite E. exact (A3 E).
Qed.

Lemma aboveFloor_atLeast d :
  aboveFloor d -> atLeast 50 (width d) /\ atLeast 50 (height d).
Proof.
  intros [[Pw Hw] [Ph Hh]]. destruct value_50 as [P50 V50].
  split; apply leb_toReal; try assumption; lra.
Qed.

Lemma dimensionsInRange_withinBounds st :
  dimensionsInRange (cur st) -> withinBounds (renderConfig config st).
Proof.
  intros [Gw Gh].
  destruct (dimensionInRange_bounds _ Gw). destruct (dimensionInRange_bounds _ Gh).
  repeat split; assumption.
Qed.

(** The same for a whole call. *)
Lemma generate_heads env :
  exists calls,
    renderCalls (snd (generate env)) = renderCalls env ++ calls /\
    Forall (rendersHead Jimp config) calls /\
    Forall withinBounds calls /\
    match fst (generate env) with
    | inr o => atLeast 50 (out_width o) /\ atLeast 50 (out_height o)
    | inl _ => True
    end.
Proof.
  destruct (generate env) as [r env'] eqn:G. cbn [fst snd].
  unfold generateImageWithTargetSize in G.
  destruct (targetSizeMB config <=? 0)%float.
  { inversion G; subst. exists []. rewrite app_nil_r. auto. }
  rewrite formatSupported in G. simpl in G. unfold bind at 1 in G.
  destruct (loop (maxIterations' config) (initialState config) env) as [[e|st'] env1] eqn:L0;
    destruct (while_loop_heads _ (initialState config) _ _ _ (head_initial Jimp config) L0)
      as [calls [Hc [Hf Hr]]];
    assert (Hb : Forall withinBounds calls)
      by (eapply Forall_impl; [|exact Hf]; intros c [s [Hs ->]];
          apply dimensionsInRange_withinBounds; apply (head_dimensions s Hs)).
  - inversion G; subst. exists calls. auto.
  - exists calls. unfold bind, console_warn, ret in G.
    assert (Ho : atLeast 50 (width (cur st')) /\ atLeast 50 (height (cur st'))).
    { apply aboveFloor_atLeast.
      destruct (Hr st' eq_refl) as [Hd|[s [Hd E]]].
      - apply (head_dimensions st' Hd).
      - rewrite E. apply dimensionsInRange_aboveFloor. apply (head_dimensions s Hd). }
    destruct (maxIterations' config <=? iteration st')%nat;
      inversion G; subst; simpl; auto.
Qed.

End Heads.

(** * The claims *)

(** C1.  In the normal dimension regime (the render-time state is not at
    the ceiling for a JPEG format), a render that misses tolerance makes
    the loop go on with dimensions rescaled in proportion to area: each of
    width and height becomes [round(old * sqrt(target / actual))] floored
    at 50, while quality is kept and the iteration counter advances.  This
    holds for every actual and target size and every current width and
    height; the floor means the result is at least 50 whenever it is a
    number. *)
Theorem normal_regime_rescales_by_area
  W (Jimp : option (JimpLib W)) (config : Config) n st env b env1 :
  let fmt := format config in
  let target := targetSizeBytes config in
  let st1 := ceilingCheck fmt target st in
  let actual := getImageSize b in
  generateImageWithText W Jimp (renderConfig config st1) env = (inr b, env1) ->
  isWithinTolerance actual target (tolerance' config) = false ->
  atCeiling fmt (cur st1) = false ->
  exists st2,
    while_loop W Jimp config (S n) st env = while_loop W Jimp config n st2 env1 /\
    cur st2 = adjustDimensions actual target (width (cur st1)) (height (cur st1)) /\
    width (cur st2) = Spec.rescale target actual (width (cur st1)) /\
    height (cur st2) = Spec.rescale target actual (height (cur st1)) /\
    (atLeast 50 (width (cur st2)) \/ is_nan (width (cur st2)) = true) /\
    (atLeast 50 (height (cur st2)) \/ is_nan (height (cur st2)) = true) /\
    quality st2 = quality st1 /\
    iteration st2 = S (iteration st1).
Proof.
  intros fmt target st1 actual R T C.
  exists (adjust fmt target b st1).
  split.
  - rewrite (while_loop_render_ok W Jimp config n st env b env1 R).
    fold fmt target st1 actual. rewrite T. reflexivity.
  - unfold adjust. rewrite C. simpl. fold actual.
    repeat split; try reflexivity; apply Math_max_floor; reflexivity.
Qed.

(** A 2000-byte render for a 1048.576-byte PNG target: 100 x 56 becomes
    72 x 50. *)
Lemma normal_regime_rescales_by_area_witness :
  exists st2,
    while_loop unit (Some (constantJimp 2000)) (request 0.001 "png" 5 0.05) 1
      (initialState (request 0.001 "png" 5 0.05)) (freshEnv tt)
    = while_loop unit (Some (constantJimp 2000)) (request 0.001 "png" 5 0.05) 0 st2
        {| world := tt;
           renderCalls := [renderConfig (request 0.001 "png" 5 0.05)
                             (initialState (request 0.001 "png" 5 0.05))];
           warnings := 0 |} /\
    width (cur st2) = 72 /\ height (cur st2) = 50.
Proof.
  destruct (normal_regime_rescales_by_area unit (Some (constantJimp 2000))
              (request 0.001 "png" 5 0.05) 0
              (initialState (request 0.001 "png" 5 0.05)) (freshEnv tt)
              (repeat Byte.x00 2000)
              {| world := tt;
                 renderCalls := [renderConfig (request 0.001 "png" 5 0.05)
                                   (initialState (request 0.001 "png" 5 0.05))];
                 warnings := 0 |})
    as [st2 [H1 [_ [H3 [H4 _]]]]].
  - vm_compute. reflexivity.
  - vm_compute. reflexivity.
  - vm_compute. reflexivity.
  - exists st2. split; [exact H1|]. split.
    + rewrite H3. vm_compute. reflexivity.
    + rewrite H4. vm_compute. reflexivity.
Defined.

(** C2, as amended.  After a render the loop accepts and stops (no
    further render, iteration counter untouched) exactly when
    [Math.abs(actual - target) < target * tolerance] as evaluated in
    binary64, and otherwise goes on with the adjusted state.  The
    comparison is strict: a difference equal to the computed allowed
    difference is rejected.  A buffer whose length equals a positive
    target is accepted for every positive tolerance.  For a non-empty
    buffer, a target from one byte to 1e300 bytes and a tolerance from
    1e-9 to 1, the test decides by the exact quantities except on a
    hairline at the boundary: a size inside the band by a relative margin
    of 2^-50 is accepted, and a size outside it by that margin is
    rejected. *)
Theorem tolerance_gate_is_strict
  W (Jimp : option (JimpLib W)) (config : Config) n st env b env1 :
  let fmt := format config in
  let target := targetSizeBytes config in
  let tol := tolerance' config in
  let st1 := ceilingCheck fmt target st in
  let actual := getImageSize b in
  generateImageWithText W Jimp (renderConfig config st1) env = (inr b, env1) ->
  (isWithinTolerance actual target tol = (Math_abs (actual - target) <? target * tol)) /\
  ((Math_abs (actual - target) <? target * tol) = true ->
   while_loop W Jimp config (S n) st env = (inr (accept b st1), env1)) /\
  ((Math_abs (actual - target) <? target * tol) = false ->
   while_loop W Jimp config (S n) st env
   = while_loop W Jimp config n (adjust fmt target b st1) env1) /\
  (Math_abs (actual - target) = target * tol -> isWithinTolerance actual target tol = false) /\
  (actual = target -> (0 <? target) = true -> (0 <? tol) = true ->
   isWithinTolerance actual target tol = true) /\
  ((0 < Z.of_nat (List.length b) < 2 ^ 53)%Z ->
   (1 <=? target) = true -> (target <=? 1e300) = true ->
   (1e-9 <=? tol) = true -> (tol <=? 1) = true ->
   (insideBand (Z.of_nat (List.length b)) target tol ->
    isWithinTolerance actual target tol = true) /\
   (outsideBand (Z.of_nat (List.length b)) target tol ->
    isWithinTolerance actual target tol = false)).
Proof.
  intros fmt target tol st1 actual R.
  pose proof (while_loop_render_ok W Jimp config n st env b env1 R) as L.
  fold fmt target tol st1 actual in L.
  split; [reflexivity|]. split; [|split; [|split; [|split]]].
  - intros H. rewrite L. unfold isWithinTolerance. rewrite H. reflexivity.
  - intros H. rewrite L. unfold isWithinTolerance. rewrite H. reflexivity.
  - intros H. unfold isWithinTolerance. rewrite H. apply ltb_irrefl.
  - intros H Ht Htol. apply exact_match_accepted; assumption.
  - intros Hb T1 T2 L1 L2. unfold insideBand, outsideBand.
    destruct (bounded_target _ T1 T2) as [Pt Ht].
    destruct (bounded_tolerance _ L1 L2) as [Ptol Htol].
    destruct (getImageSize_value b Hb) as [Pa Ha].
    assert (Va : toReal actual = IZR (Z.of_nat (List.length b)))
      by (apply of_Z_value; exact Hb).
    rewrite <- Va.
    apply tolerance_band; try assumption.
    split; [tauto|]. apply Rle_trans with (pow2 53); [tauto|]. apply pow2_le. lia.
Qed.

(** 1050 bytes for a 1000-byte target at 5 %: the difference 50 equals
    [1000 * 0.05], and the loop goes on. *)
Lemma tolerance_gate_is_strict_witness :
  isWithinTolerance (getImageSize (repeat Byte.x00 1050))
    (targetSizeBytes (request (1000 / 1048576) "png" 1 0.05)) 0.05 = false /\
  isWithinTolerance (getImageSize (repeat Byte.x00 1000))
    (targetSizeBytes (request (1000 / 1048576) "png" 1 0.05)) 0.05 = true.
Proof.
  split.
  - refine (proj1 (proj2 (proj2 (proj2
      (tolerance_gate_is_strict unit (Some (constantJimp 1050))
         (request (1000 / 1048576) "png" 1 0.05) 0
         (initialState (request (1000 / 1048576) "png" 1 0.05)) (freshEnv tt)
         (repeat Byte.x00 1050)
         {| world := tt;
            renderCalls := [renderConfig (request (1000 / 1048576) "png" 1 0.05)
                              (initialState (request (1000 / 1048576) "png" 1 0.05))];
            warnings := 0 |} _)))) _).
    + vm_compute. reflexivity.
    + vm_compute. reflexivity.
  - refine (proj1 (proj2 (proj2 (proj2 (proj2
      (tolerance_gate_is_strict unit (Some (constantJimp 1000))
         (request (1000 / 1048576) "png" 1 0.05) 0
         (initialState (request (1000 / 1048576) "png" 1 0.05)) (freshEnv tt)
         (repeat Byte.x00 1000)
         {| world := tt;
            renderCalls := [renderConfig (request (1000 / 1048576) "png" 1 0.05)
                              (initialState (request (1000 / 1048576) "png" 1 0.05))];
            warnings := 0 |} _))))) _ _ _).
    + vm_compute. reflexivity.
    + vm_compute. reflexivity.
    + vm_compute. reflexivity.
    + vm_compute. reflexivity.
Defined.

(** C2 as stated fails: 214 bytes is exactly [200 * (1 + 0.07)], yet a
    214-byte render for a 200-byte target at tolerance 0.07 is accepted,
    because [200 * 0.07] evaluates to 14.000000000000002.  The same
    happens at 25 MB: 28049408 is [26214400 * (1 + 0.07)] and passes. *)
Lemma boundary_size_accepted_after_rounding :
  let c := request (200 / 1048576) "png" 5 0.07 in
  targetSizeBytes c = 200 /\
  (0 <? targetSizeBytes c) = true /\
  targetSizeBytes c * (1 + 0.07) = 214 /\
  getImageSize (repeat Byte.x00 214) = 214 /\
  isWithinTolerance (getImageSize (repeat Byte.x00 214)) (targetSizeBytes c) 0.07 = true /\
  rendered (run 214 c) = [(100, 56, 90)] /\
  iterationsOf (run 214 c) = Some 1%nat /\
  bufferLengthOf (run 214 c) = Some 214%nat /\
  mbToBytes 25 * (1 + 0.07) = 28049408 /\
  isWithinTolerance 28049408 (mbToBytes 25) 0.07 = true.
Proof. vm_compute. repeat split. Qed.

(** C3, as amended.  A call whose [targetSizeMB <= 0] throws the
    invalid-target error; a call whose target passes that test and whose
    format is not jpg, jpeg or png (case-insensitively) throws the
    unsupported-format error.  In both cases the environment is returned
    as it was: no render call, no change to Jimp's world, no warning. *)
Theorem validation_precedes_rendering W (Jimp : option (JimpLib W)) config env :
  ((targetSizeMB config <=? 0) = true ->
   generateImageWithTargetSize W Jimp config env = (inl InvalidTargetSize, env)) /\
  ((targetSizeMB config <=? 0) = false ->
   ~ Spec.formatSupported (format config) ->
   generateImageWithTargetSize W Jimp config env
   = (inl (UnsupportedFormat (format config)), env)).
Proof.
  unfold generateImageWithTargetSize. split.
  - intros H. rewrite H. reflexivity.
  - intros H F. rewrite H.
    destruct (isFormatSupported (format config)) eqn:S.
    + apply isFormatSupported_spec in S. contradiction.
    + reflexivity.
Qed.

Lemma validation_precedes_rendering_witness :
  run 10 (request (-1) "png" 20 0.05) = (inl InvalidTargetSize, freshEnv tt) /\
  run 10 (request 1 "gif" 20 0.05) = (inl (UnsupportedFormat "gif"), freshEnv tt).
Proof.
  split.
  - apply (proj1 (validation_precedes_rendering unit (Some (constantJimp 10))
                    (request (-1) "png" 20 0.05) (freshEnv tt))).
    vm_compute. reflexivity.
  - apply (proj2 (validation_precedes_rendering unit (Some (constantJimp 10))
                    (request 1 "gif" 20 0.05) (freshEnv tt))).
    + vm_compute. reflexivity.
    + unfold Spec.formatSupported. simpl. intros [H|[H|H]]; discriminate.
Defined.

(** C3 as stated fails for a request that is wrong on both counts: with
    target 0 and format "gif" the error is the invalid-target one. *)
Lemma unsupported_format_with_zero_target :
  ~ Spec.formatSupported "gif" /\
  run 10 (request 0 "gif" 20 0.05) = (inl InvalidTargetSize, freshEnv tt) /\
  fst (run 10 (request 0 "gif" 20 0.05)) <> inl (UnsupportedFormat "gif").
Proof.
  split; [|split].
  - unfold Spec.formatSupported. simpl. intros [H|[H|H]]; discriminate.
  - vm_compute. reflexivity.
  - vm_compute. discriminate.
Qed.

(** C4, at the failing input.  With [maxIterations = 1] and a 2000-byte
    render for a 1048.576-byte target (not within 5 %), exactly one render
    call is made, its buffer is returned and a warning is raised, but the
    outcome reports [iterations = 2]. *)
Theorem one_iteration_budget_reports_two_iterations :
  let r := run 2000 (request 0.001 "png" 1 0.05) in
  rendered r = [(100, 56, 90)] /\
  bufferLengthOf r = Some 2000%nat /\
  warnings (snd r) = 1%nat /\
  iterationsOf r = Some 2%nat.
Proof. vm_compute. repeat split. Qed.

(** C5, at the failing input.  For the format "constructor" the
    specification's estimator gives 1115 x 627 (factor 1.5), while the
    source reads the inherited [Object.prototype.constructor] as the
    factor and returns NaN for both dimensions. *)
Theorem estimate_of_constructor_is_not_a_number :
  Spec.estimate 1048576 "constructor" = {| width := 1115; height := 627 |} /\
  is_nan (width (estimateInitialDimensions 1048576 "constructor")) = true /\
  is_nan (height (estimateInitialDimensions 1048576 "constructor")) = true.
Proof. vm_compute. repeat split. Qed.

(** C6, as amended.  In every call whose target is positive and at most
    1e300 bytes and whose library returns non-empty buffers: at the head
    of every iteration (of a call with a supported format, the others
    render nothing) the width and the height are at least 50; the state
    that is rendered has a width and a height between 50 and 32767;
    dimensions within the ceiling are rendered as they are, and
    dimensions of which one exceeds the ceiling are clamped keeping the
    aspect ratio (the longer side becomes 32767, the other the whole
    number closest to 32767 times the ratio of the two); every render
    call of the call is made for such a head, and the width and height of
    a returned result are at least 50.  Without these conditions what
    holds for every call is that no render call has a dimension that
    compares greater than 32767 (each is at most 32767 unless it is NaN),
    and that every dimension adjustment returns a width and a height of
    at least 50 unless NaN. *)
Theorem render_calls_stay_within_ceiling W (Jimp : option (JimpLib W)) config env :
  let fmt := format config in
  let target := targetSizeBytes config in
  (returnsNonEmptyBuffers Jimp ->
   (0 <? target) = true ->
   (target <=? 1e300) = true ->
   (isFormatSupported fmt = true ->
    forall st,
      iterationHead Jimp config st ->
      let st1 := ceilingCheck fmt target st in
      aboveFloor (cur st) /\
      atLeast 50 (width (cur st)) /\ atLeast 50 (height (cur st)) /\
      withinBounds (renderConfig config st1) /\
      (exceedsCeiling (cur st) = false -> cur st1 = cur st) /\
      (exceedsCeiling (cur st) = true -> clampedKeepingRatio (cur st) (cur st1))) /\
   exists calls,
     renderCalls (snd (generateImageWithTargetSize W Jimp config env))
     = renderCalls env ++ calls /\
     Forall (rendersHead Jimp config) calls /\
     Forall withinBounds calls /\
     match fst (generateImageWithTargetSize W Jimp config env) with
     | inr o => atLeast 50 (out_width o) /\ atLeast 50 (out_height o)
     | inl _ => True
     end) /\
  (exists calls,
     renderCalls (snd (generateImageWithTargetSize W Jimp config env))
     = renderCalls env ++ calls /\
     Forall withinCeiling calls) /\
  (forall actual target w h,
     let d := adjustDimensions actual target w h in
     (atLeast 50 (width d) \/ is_nan (width d) = true) /\
     (atLeast 50 (height d) \/ is_nan (height d) = true)).
Proof.
  intros fmt target. split; [|split].
  - intros HJ T0 T1. split.
    + intros F st Hd st1.
      destruct (head_dimensions W Jimp config HJ F T0 T1 st Hd) as [Fl [Gd Kr]].
      destruct (aboveFloor_atLeast _ Fl) as [Lw Lh].
      split; [exact Fl|]. split; [exact Lw|]. split; [exact Lh|].
      split; [apply dimensionsInRange_withinBounds; exact Gd|].
      split; [|exact Kr].
      intros E. unfold st1. rewrite ceilingCheck_cur, E. reflexivity.
    + destruct (isFormatSupported fmt) eqn:F.
      * exact (generate_heads W Jimp config HJ F T0 T1 env).
      * exists []. unfold generateImageWithTargetSize. fold fmt. rewrite F.
        destruct (targetSizeMB config <=? 0); simpl; rewrite app_nil_r; auto.
  - destruct (generateImageWithTargetSize W Jimp config env) as [r env'] eqn:H. simpl.
    destruct (targetSizeMB config <=? 0) eqn:T.
    { unfold generateImageWithTargetSize in H. rewrite T in H. inversion H; subst.
      exists []. rewrite app_nil_r. auto. }
    destruct (isFormatSupported (format config)) eqn:F.
    2:{ unfold generateImageWithTargetSize in H. rewrite T, F in H. inversion H; subst.
        exists []. rewrite app_nil_r. auto. }
    destruct (generate_exit W Jimp config env r env' H T F) as [calls [Hc [_ [Hf _]]]].
    exists calls. split; [exact Hc|].
    eapply Forall_impl; [|exact Hf]. intros c [s ->].
    apply checked_state_withinCeiling.
  - intros. unfold d, adjustDimensions. simpl. split; apply Math_max_floor; reflexivity.
Qed.

(** A 100 MB JPEG request against a library that always returns 10
    bytes.  The first render is made at the estimate, 11148 x 6271; the
    adjustment that follows it gives dimensions far above the ceiling,
    which are clamped to 32767 x 18432, keeping the ratio; all four
    render calls are within the bounds. *)
Lemma render_calls_stay_within_ceiling_witness :
  let c := request 100 "jpg" 4 0.05 in
  let lib := Some (constantJimp 10) in
  let st := adjust "jpg" (targetSizeBytes c) (repeat Byte.x00 10) (initialState c) in
  returnsNonEmptyBuffers lib /\
  iterationHead lib c st /\
  exceedsCeiling (cur st) = true /\
  cur (ceilingCheck "jpg" (targetSizeBytes c) st) = {| width := 32767; height := 18432 |} /\
  clampedKeepingRatio (cur st) {| width := 32767; height := 18432 |} /\
  exists calls,
    renderCalls (snd (run 10 c)) = calls /\
    List.length calls = 4%nat /\
    Forall withinBounds calls.
Proof.
  intros c lib st.
  assert (H : returnsNonEmptyBuffers lib).
  { intros l cfg w b w' E1 E2. inversion E1; subst. unfold constantJimp in E2.
    inversion E2; subst. simpl. lia. }
  assert (Hd : iterationHead lib c st).
  { assert (I : ceilingCheck (format c) (targetSizeBytes c) (initialState c)
                = initialState c)
      by (apply exceedsCeiling_fixpoint; apply estimate_within_ceiling).
    replace st with (adjust (format c) (targetSizeBytes c) (repeat Byte.x00 10)
                       (ceilingCheck (format c) (targetSizeBytes c) (initialState c)))
      by (rewrite I; reflexivity).
    apply (head_adjusted lib c (initialState c) (repeat Byte.x00 10)).
    - apply head_initial.
    - exists (constantJimp 10), tt. split; reflexivity.
    - vm_compute. reflexivity. }
  assert (E : exceedsCeiling (cur st) = true) by (vm_compute; reflexivity).
  assert (D : cur (ceilingCheck "jpg" (targetSizeBytes c) st)
              = {| width := 32767; height := 18432 |}) by (vm_compute; reflexivity).
  destruct (proj1 (render_calls_stay_within_ceiling unit lib c (freshEnv tt))
              H ltac:(vm_compute; reflexivity) ltac:(vm_compute; reflexivity))
    as [Hh [calls [Hc [_ [Hf _]]]]].
  destruct (Hh ltac:(vm_compute; reflexivity) st Hd) as [_ [_ [_ [_ [_ Kr]]]]].
  split; [exact H|]. split; [exact Hd|]. split; [exact E|]. split; [exact D|].
  split; [rewrite <- D; exact (Kr E)|].
  exists calls. split; [exact Hc|]. split; [|exact Hf].
  assert (L : List.length (renderCalls (snd (run 10 c))) = 4%nat)
    by (vm_compute; reflexivity).
  unfold run in L. fold lib in L. rewrite Hc in L. exact L.
Defined.

(** A target below one byte keeps the invariants: 1e-7 MB is 0.1 bytes,
    the estimate is the estimator's floor, and the adjustment's floor
    of 50 x 50 follows. *)
Lemma sub_byte_target_renders_at_the_floors :
  rendered (run 10 (request 1e-7 "png" 3 0.05))
  = [(100, 56, 90); (50, 50, 90); (50, 50, 90)].
Proof. vm_compute. reflexivity. Qed.

(** C6 as stated fails when the target in bytes overflows: for a PNG of
    [1e305] MB the first adjustment gives infinite dimensions, the ceiling
    rescale turns the width into NaN, and the second render call is made
    with a width that is neither at most 32767 nor at least 50. *)
Lemma overflowing_target_renders_nan_width :
  let c := request 1e305 "png" 2 0.05 in
  (0 <? targetSizeMB c) = true /\
  rendered (run 1000 c) = [(32767, 32767, 90); (nan, 32767, 90)] /\
  ~ atMost 32767 nan /\
  ~ atLeast 50 nan.
Proof.
  split; [vm_compute; reflexivity|].
  split; [vm_compute; reflexivity|].
  split; vm_compute; discriminate.
Qed.

(** The other condition is needed as well: with a library that returns an
    empty buffer the scale factor is infinite, and the second render call
    of a 1 MB PNG request is made with a width that is NaN. *)
Lemma empty_buffer_renders_nan_width :
  rendered (run 0 (request 1 "png" 2 0.05)) = [(1246, 701, 90); (nan, 32767, 90)].
Proof. vm_compute. reflexivity. Qed.

(** C7.  For jpg and jpeg, once the state that is rendered is at the
    ceiling, every later adjustment changes the quality only: after a
    render of [b] bytes that misses the tolerance the dimensions are
    kept, the quality is raised by 5 (capped at 100) when the size of [b]
    is below the target and lowered by 5 (floored at 10) otherwise, and
    the state that results is at the ceiling again.  So the rest of the
    loop is the quality search of the specification, run on the buffers
    the library returns: every render call from then on is made at the
    same dimensions, and the state the loop returns has them. *)
Theorem quality_regime_is_absorbing
  W (Jimp : option (JimpLib W)) (config : Config) n st env r env' :
  let fmt := format config in
  let target := targetSizeBytes config in
  let st1 := ceilingCheck fmt target st in
  atCeiling fmt (cur st1) = true ->
  while_loop W Jimp config (S n) st env = (r, env') ->
  isJpeg fmt = true /\
  (forall b : Buffer,
     let st2 := adjust fmt target b st1 in
     cur st2 = cur st1 /\
     Spec.qualityStep (getImageSize b) target (quality st1) (quality st2) /\
     ceilingCheck fmt target st2 = st2 /\
     atCeiling fmt (cur st2) = true) /\
  qualitySearch W Jimp config (S n) st1 env = (r, env') /\
  exists calls,
    renderCalls env' = renderCalls env ++ calls /\
    Forall (sameDimensions (cur st1)) calls /\
    (forall st', r = inr st' -> cur st' = cur st1).
Proof.
  intros fmt target st1 C H.
  pose proof (ceilingCheck_not_exceeds fmt target st) as E. fold st1 in E.
  assert (Q : qualitySearch W Jimp config (S n) st1 env = (r, env')).
  { rewrite <- H, while_loop_checked. symmetry.
    apply while_loop_quality_search; assumption. }
  split.
  { unfold atCeiling in C. apply andb_true_iff in C. apply C. }
  split; [intros b; apply adjust_stays_atCeiling; assumption|].
  split; [exact Q|].
  exact (qualitySearch_dimensions W Jimp config (S n) st1 env r env' Q).
Qed.

(** A 2000 MB JPEG, whose estimate is 32767 x 18431, with a library that
    returns 10 bytes: the loop is the quality search, and its three
    render calls are made with the qualities 90, 95 and 100. *)
Lemma quality_regime_is_absorbing_witness :
  let c := request 2000 "jpg" 3 0.05 in
  let lib := Some (constantJimp 10) in
  atCeiling "jpg" (cur (initialState c)) = true /\
  qualitySearch unit lib c 3 (initialState c) (freshEnv tt)
  = while_loop unit lib c 3 (initialState c) (freshEnv tt) /\
  rendered (run 10 c) = [(32767, 18431, 90); (32767, 18431, 95); (32767, 18431, 100)].
Proof.
  intros c lib.
  assert (C : atCeiling (format c) (cur (ceilingCheck (format c) (targetSizeBytes c)
                                         (initialState c))) = true)
    by (vm_compute; reflexivity).
  destruct (quality_regime_is_absorbing unit lib c 2 (initialState c) (freshEnv tt)
              (fst (while_loop unit lib c 3 (initialState c) (freshEnv tt)))
              (snd (while_loop unit lib c 3 (initialState c) (freshEnv tt)))
              C (surjective_pairing _))
    as [_ [_ [Q _]]].
  split; [vm_compute; reflexivity|].
  split; [|vm_compute; reflexivity].
  rewrite <- surjective_pairing in Q. rewrite <- Q. reflexivity.
Defined.

(** C8, as amended.  When a dimension is above the ceiling at the head of
    an iteration, the dimensions are replaced by the clamped ones, which
    are within the ceiling, and for jpg and jpeg the quality is seeded from
    the step table applied to [targetSizeBytes / (width * height)] of the
    clamped dimensions; the clamped state is at the ceiling, so this
    iteration and all later ones are the quality search: they move the
    quality and never the dimensions.  For other formats the quality is
    kept.  When no dimension is above the ceiling, also when one equals
    it, the state is left as it is and the quality is not seeded.  The
    estimator never returns a dimension above the ceiling, so the first
    iteration of every call is of the second kind: its render is made
    with the estimated dimensions and the initial quality 90; when the
    estimate reaches the ceiling for jpg or jpeg the whole loop is the
    quality search started at 90. *)
Theorem quality_is_seeded_when_dimensions_exceed_ceiling
  W (Jimp : option (JimpLib W)) (config : Config) st :
  let fmt := format config in
  let t := targetSizeBytes config in
  let st1 := ceilingCheck fmt t st in
  (exceedsCeiling (cur st) = true ->
     cur st1 = clampDimensions (cur st) /\
     exceedsCeiling (cur st1) = false /\
     (isJpeg fmt = true ->
        quality st1 = Spec.qualityFromTable t (width (cur st1)) (height (cur st1)) /\
        atCeiling fmt (cur st1) = true /\
        forall n env,
          while_loop W Jimp config (S n) st env
          = qualitySearch W Jimp config (S n) st1 env) /\
     (isJpeg fmt = false -> quality st1 = quality st)) /\
  (exceedsCeiling (cur st) = false -> st1 = st) /\
  (ceilingCheck fmt t (initialState config) = initialState config /\
   quality (initialState config) = 90 /\
   (atCeiling fmt (cur (initialState config)) = true ->
    forall n env,
      while_loop W Jimp config n (initialState config) env
      = qualitySearch W Jimp config n (initialState config) env)).
Proof.
  intros fmt t st1. split; [|split].
  - intros E. pose proof (ceilingCheck_not_exceeds fmt t st) as N. fold st1 in N.
    assert (D : cur st1 = clampDimensions (cur st)).
    { unfold st1, ceilingCheck. rewrite E. reflexivity. }
    split; [exact D|]. split; [exact N|]. split.
    + intros J.
      assert (C : atCeiling fmt (cur st1) = true)
        by (rewrite D; apply clampDimensions_atCeiling; exact J).
      split; [|split; [exact C|]].
      * unfold st1, ceilingCheck. rewrite E, J. reflexivity.
      * intros n env. rewrite while_loop_checked.
        apply while_loop_quality_search; assumption.
    + intros J. unfold st1, ceilingCheck. rewrite E, J. reflexivity.
  - intros E. unfold st1, ceilingCheck. rewrite E. reflexivity.
  - split; [|split; [reflexivity|]].
    + apply exceedsCeiling_fixpoint. apply estimate_within_ceiling.
    + intros C n env. apply while_loop_quality_search; [|exact C].
      apply estimate_within_ceiling.
Qed.

(** A 100 MB JPEG after a 10-byte first render: the adjusted dimensions
    are far above the ceiling, are clamped to 32767 x 18432, and the
    quality is seeded to 70 (0.17 bytes per pixel); the renders that
    follow move it to 75 and 80 at the same dimensions. *)
Lemma quality_is_seeded_when_dimensions_exceed_ceiling_witness :
  let c := request 100 "jpg" 4 0.05 in
  let st := adjust "jpg" (targetSizeBytes c) (repeat Byte.x00 10) (initialState c) in
  exceedsCeiling (cur st) = true /\
  cur (ceilingCheck "jpg" (targetSizeBytes c) st) = {| width := 32767; height := 18432 |} /\
  quality (ceilingCheck "jpg" (targetSizeBytes c) st) = 70 /\
  rendered (run 10 c)
  = [(11148, 6271, 90); (32767, 18432, 70); (32767, 18432, 75); (32767, 18432, 80)].
Proof.
  intros c st.
  assert (E : exceedsCeiling (cur st) = true) by (vm_compute; reflexivity).
  destruct (proj1 (quality_is_seeded_when_dimensions_exceed_ceiling
                     unit (Some (constantJimp 10)) c st) E)
    as [H1 [_ [H3 _]]].
  destruct (H3 eq_refl) as [Hq _].
  split; [exact E|]. split; [|split].
  - change (format c) with "jpg"%string in H1. rewrite H1. vm_compute. reflexivity.
  - change (format c) with "jpg"%string in Hq. rewrite Hq. vm_compute. reflexivity.
  - vm_compute. reflexivity.
Defined.

(** C8 as stated fails when the estimated seed already reaches the
    ceiling: for a 2000 MB JPEG the seed is 32767 x 18431, the table gives
    100 for it, but the first render is made at the initial quality 90,
    and the following iterations move it in steps of 5. *)
Lemma seed_at_ceiling_keeps_initial_quality :
  let c := request 2000 "jpg" 3 0.05 in
  cur (initialState c) = {| width := 32767; height := 18431 |} /\
  atCeiling "jpg" (cur (initialState c)) = true /\
  Spec.qualityFromTable (targetSizeBytes c) 32767 18431 = 100 /\
  rendered (run 10 c) = [(32767, 18431, 90); (32767, 18431, 95); (32767, 18431, 100)].
Proof. vm_compute. repeat split. Qed.

(** C9, as amended.  For every target of at least one byte (up to 1e300
    bytes) the estimate for "png" has a pixel area that is at least that
    of the estimate for "jpg", and for every target from 7 KiB to 512 MiB
    (7168 to 536870912 bytes) it is strictly larger.  Below and above,
    both estimates can be pinned to the same bounds and then have equal
    areas: 100 x 56 at 1000 bytes, and 32767 x 18431 at 2000 MB. *)
Theorem png_estimate_larger_between_floor_and_ceiling :
  (forall t,
     (1 <=? t) = true -> (t <=? 1e300) = true -> pngAreaNotSmaller t = true) /\
  (forall t,
     (7168 <=? t) = true -> (t <=? 536870912) = true -> pngAreaLarger t = true) /\
  estimateInitialDimensions 1000 "jpg" = {| width := 100; height := 56 |} /\
  estimateInitialDimensions 1000 "png" = {| width := 100; height := 56 |} /\
  estimateInitialDimensions (mbToBytes 2000) "jpg" = {| width := 32767; height := 18431 |} /\
  estimateInitialDimensions (mbToBytes 2000) "png" = {| width := 32767; height := 18431 |}.
Proof.
  split; [exact png_area_not_smaller|].
  split; [exact png_area_larger|].
  vm_compute. repeat split.
Qed.

(** At 1 MiB the estimates are 1115 x 627 and 1246 x 701. *)
Lemma png_estimate_larger_between_floor_and_ceiling_witness :
  estimateInitialDimensions 1048576 "jpg" = {| width := 1115; height := 627 |} /\
  estimateInitialDimensions 1048576 "png" = {| width := 1246; height := 701 |} /\
  pngAreaLarger 1048576 = true /\
  pngAreaNotSmaller 1000 = true.
Proof.
  split; [vm_compute; reflexivity|]. split; [vm_compute; reflexivity|]. split.
  - apply (proj1 (proj2 png_estimate_larger_between_floor_and_ceiling) 1048576);
      vm_compute; reflexivity.
  - apply (proj1 png_estimate_larger_between_floor_and_ceiling 1000);
      vm_compute; reflexivity.
Defined.

(** C9 as stated fails at a positive target of 1000 bytes: both estimates
    are the 100 x 56 floor, and the areas are equal. *)
Lemma equal_areas_at_the_floor :
  (0 <? 1000) = true /\
  Spec.area (estimateInitialDimensions 1000 "jpg") = 5600 /\
  Spec.area (estimateInitialDimensions 1000 "png") = 5600 /\
  pngAreaLarger 1000 = false.
Proof. vm_compute. repeat split. Qed.

(** C10.  When a call returns reporting one more iteration than its
    (positive) budget, the loop ran out: the last render call [c] produced
    a buffer [b] that missed tolerance, the outcome carries that buffer and
    its size, and, if that last call was not at the ceiling for a JPEG
    format, the outcome's width and height are
    [adjustDimensions(size of b, target, width of c, height of c)], the
    result of the adjustment made after the last render, for which no
    render call follows.  They can differ from the rendered dimensions and
    be above the ceiling: an 800 MB PNG with a 10-byte renderer and a
    budget of 4 renders 32767 x 18431 four times and returns
    300110805 x 168808321 with the 10-byte buffer. *)
Theorem exhausted_outcome_carries_unrendered_dimensions :
  (forall W (Jimp : option (JimpLib W)) config env o env',
     generateImageWithTargetSize W Jimp config env = (inr o, env') ->
     (0 < maxIterations' config)%nat ->
     iterations o = S (maxIterations' config) ->
     exists calls c b,
       renderCalls env' = renderCalls env ++ calls ++ [c] /\
       (exists lib w, Jimp = Some lib /\ fst (lib c w) = inr b) /\
       isWithinTolerance (getImageSize b) (targetSizeBytes config) (tolerance' config) = false /\
       out_buffer o = Some b /\
       actualSizeBytes o = Some (getImageSize b) /\
       (atCeiling (format config) {| width := img_width c; height := img_height c |} = false ->
        out_width o
        = width (adjustDimensions (getImageSize b) (targetSizeBytes config)
                   (img_width c) (img_height c)) /\
        out_height o
        = height (adjustDimensions (getImageSize b) (targetSizeBytes config)
                    (img_width c) (img_height c))))
  /\
  (let r := run 10 (request 800 "png" 4 0.05) in
   rendered r = [(32767, 18431, 90); (32767, 18431, 90); (32767, 18431, 90); (32767, 18431, 90)] /\
   iterationsOf r = Some 5%nat /\
   bufferLengthOf r = Some 10%nat /\
   match fst r with
   | inr o => out_width o = 300110805 /\ out_height o = 168808321 /\
              gtb (out_width o) maxDimension = true /\ gtb (out_height o) maxDimension = true
   | inl _ => False
   end).
Proof.
  split.
  - intros W Jimp config env o env' H Hpos Hit.
    destruct (generate_returns_validated W Jimp config _ _ _ H) as [T F].
    destruct (generate_exit W Jimp config env _ _ H T F)
      as [calls [Hc [Hl [_ [st' [Ho [Hx _]]]]]]].
    subst o. simpl in *.
    destruct Hx as [Hn Hcalls Hst | s1 b1 c0 Hcalls HJ1 HT Hst Hlen Hit'
                   | s1 b1 c0 Hcalls HJ1 HT Hst Hlen Hit'].
    + lia.
    + exfalso. rewrite Hit' in Hit. rewrite Hcalls, length_app in Hlen. simpl in *. lia.
    + exists c0, (renderConfig config s1), b1. subst st'.
      split; [rewrite Hc, Hcalls; reflexivity|].
      split; [exact HJ1|].
      split; [exact HT|].
      split; [unfold adjust; destruct (atCeiling (format config) (cur s1)); reflexivity|].
      split; [unfold adjust; destruct (atCeiling (format config) (cur s1)); reflexivity|].
      simpl. intros C.
      assert (C' : atCeiling (format config) (cur s1) = false).
      { destruct (cur s1); exact C. }
      unfold adjust. rewrite C'. split; reflexivity.
  - vm_compute. repeat split.
Qed.

(** A 1048.576-byte PNG with a 2000-byte renderer and a budget of 1: the
    only render is at 100 x 56 and the outcome says 72 x 50. *)
Lemma exhausted_outcome_carries_unrendered_dimensions_witness :
  exists o env',
    run 2000 (request 0.001 "png" 1 0.05) = (inr o, env') /\
    out_width o = 72 /\ out_height o = 50 /\
    rendered (run 2000 (request 0.001 "png" 1 0.05)) = [(100, 56, 90)].
Proof.
  eexists. eexists. split; [vm_compute; reflexivity|].
  destruct (proj1 exhausted_outcome_carries_unrendered_dimensions unit
              (Some (constantJimp 2000)) (request 0.001 "png" 1 0.05) (freshEnv tt) _ _
              eq_refl)
    as [calls [c [b [Hc _]]]].
  - vm_compute. lia.
  - vm_compute. reflexivity.
  - vm_compute. repeat split.
Defined.

(** * Further properties of the code *)

(** ** The order on numbers, continued *)

Section FloatOrderMore.

Lemma leb_ltb_false x y : (x <=? y) = true -> (y <? x) = false.
Proof.
  rewrite FloatAxioms.ltb_spec, FloatAxioms.leb_spec. unfold SFltb, SFleb.
  rewrite (SFcompare_antisym (Prim2SF x) (Prim2SF y)).
  destruct (SFcompare (Prim2SF x) (Prim2SF y)) as [[]|]; simpl; congruence.
Qed.

Lemma ltb_leb_false x y : (x <? y) = true -> (y <=? x) = false.
Proof.
  rewrite FloatAxioms.ltb_spec, FloatAxioms.leb_spec. unfold SFltb, SFleb.
  rewrite (SFcompare_antisym (Prim2SF x) (Prim2SF y)).
  destruct (SFcompare (Prim2SF x) (Prim2SF y)) as [[]|]; simpl; congruence.
Qed.

Lemma not_leb_ltb x y :
  is_nan x = false -> is_nan y = false -> (x <=? y) = false -> (y <? x) = true.
Proof.
  intros Hx Hy H. destruct (y <? x) eqn:E; [reflexivity|].
  rewrite (not_ltb_leb y x Hy Hx E) in H. discriminate.
Qed.

Lemma leb_nan_l x y : is_nan x = true -> (x <=? y) = false.
Proof.
  intros N. destruct (x <=? y) eqn:E; [|reflexivity].
  destruct (leb_not_nan _ _ E). congruence.
Qed.

Lemma is_nan_maxDimension : is_nan maxDimension = false.
Proof. reflexivity. Qed.

(** What the two comparisons of [validateDimensions] let through. *)
Lemma validDimension_spec x :
  validDimension x <-> (x <=? 0) = false /\ gtb x maxDimension = false.
Proof.
  unfold validDimension, gtb. split.
  - intros [N|[A B]].
    + split; [now apply leb_nan_l | now apply ltb_nan_r].
    + split; [now apply ltb_leb_false | now apply leb_ltb_false].
  - intros [A B]. destruct (is_nan x) eqn:N; [now left|right]. split.
    + apply not_leb_ltb; auto.
    + apply not_ltb_leb; auto.
Qed.

End FloatOrderMore.

(** ** The validations of the rendering method *)

(** X1.  [validateDimensions] returns normally exactly when each of the
    width and the height is either a number above 0 and at most 32767 or
    NaN; it reports non-positive dimensions exactly when one of them is
    [<= 0], also when the other one is too large; and a NaN width with a
    NaN height is let through. *)
Theorem validateDimensions_lets_numbers_in_range_and_nan_through
  W (w h : float) (env : Env W) :
  (validateDimensions W w h env = (inr tt, env) <-> validDimension w /\ validDimension h) /\
  (validateDimensions W w h env = (inl NonPositiveDimensions, env)
   <-> (w <=? 0) = true \/ (h <=? 0) = true) /\
  validateDimensions W nan nan env = (inr tt, env).
Proof.
  split; [|split].
  - rewrite !validDimension_spec. unfold validateDimensions, throw, ret.
    destruct (w <=? 0), (h <=? 0), (gtb w maxDimension), (gtb h maxDimension); simpl;
      intuition discriminate.
  - unfold validateDimensions, throw, ret.
    destruct (w <=? 0), (h <=? 0), (gtb w maxDimension), (gtb h maxDimension); simpl;
      intuition discriminate.
  - reflexivity.
Qed.

(** X2.  Without the Jimp module the rendering method throws the
    availability error for every configuration, before it looks at the
    dimensions or the format; a valid request with a budget of at least
    one iteration therefore fails with that error in its first render
    call, which is made for the estimated dimensions at quality 90, and
    without a warning. *)
Theorem missing_jimp_fails_in_the_first_render W (config : Config) (env : Env W) :
  (forall cfg, fst (generateImageWithText W None cfg env) = inl JimpNotAvailable) /\
  ((targetSizeMB config <=? 0) = false ->
   isFormatSupported (format config) = true ->
   maxIterations' config <> 0%nat ->
   generateImageWithTargetSize W None config env
   = (inl JimpNotAvailable,
      {| world := world env;
         renderCalls := renderCalls env ++ [renderConfig config (initialState config)];
         warnings := warnings env |})).
Proof.
  split; [reflexivity|]. intros T F M.
  unfold generateImageWithTargetSize. rewrite T, F. simpl.
  destruct (maxIterations' config) as [|n]; [congruence|].
  assert (E : ceilingCheck (format config) (targetSizeBytes config) (initialState config)
              = initialState config).
  { apply exceedsCeiling_fixpoint. apply estimate_within_ceiling. }
  unfold bind at 1. simpl. rewrite E. reflexivity.
Qed.

Lemma missing_jimp_fails_in_the_first_render_witness :
  fst (generateImageWithTargetSize unit None (request 1 "png" 20 0.05) (freshEnv tt))
  = inl JimpNotAvailable /\
  rendered (generateImageWithTargetSize unit None (request 1 "png" 20 0.05) (freshEnv tt))
  = [(1246, 701, 90)].
Proof.
  rewrite (proj2 (missing_jimp_fails_in_the_first_render unit (request 1 "png" 20 0.05)
                    (freshEnv tt)) eq_refl eq_refl ltac:(discriminate)).
  split; reflexivity.
Defined.

(** ** Invariants of the loop *)

Section Invariants.

Variable W : Type.
Variable Jimp : option (JimpLib W).
Variable config : Config.

Local Abbreviation fmt := (format config).
Local Abbreviation target := (targetSizeBytes config).
Local Abbreviation tol := (tolerance' config).
Local Abbreviation render := (generateImageWithText W Jimp).
Local Abbreviation loop := (while_loop W Jimp config).
Local Abbreviation generate := (generateImageWithTargetSize W Jimp config).

(** A property [P] of the state at the head of an iteration that the
    adjustment after a missed render re-establishes holds at the head of
    every iteration: every render call is made for a state with [P], a
    loop that throws does so in a render for such a state, and a loop
    that returns does so with [P], or by accepting the render of such a
    state. *)
Lemma while_loop_invariant (P : LoopState -> Prop) :
  (forall st b,
     P st ->
     producedBy Jimp (renderConfig config (ceilingCheck fmt target st)) b ->
     isWithinTolerance (getImageSize b) target tol = false ->
     P (adjust fmt target b (ceilingCheck fmt target st))) ->
  forall n st env r env',
    P st ->
    loop n st env = (r, env') ->
    exists calls,
      renderCalls env' = renderCalls env ++ calls /\
      Forall (fun c => exists s, P s /\ c = renderConfig config (ceilingCheck fmt target s)) calls /\
      match r with
      | inr st' =>
          P st' \/
          exists s b, P s /\ producedBy Jimp (renderConfig config (ceilingCheck fmt target s)) b /\
                      st' = accept b (ceilingCheck fmt target s)
      | inl e =>
          exists s env0,
            P s /\ render (renderConfig config (ceilingCheck fmt target s)) env0 = (inl e, env')
      end.
Proof.
  intros Step. induction n as [|n IH]; intros st env r env' HP H.
  - simpl in H. unfold ret in H. inversion H; subst.
    exists []. rewrite app_nil_r. repeat split; auto.
  - set (st1 := ceilingCheck fmt target st) in *.
    destruct (generateImageWithText_log W Jimp (renderConfig config st1) env) as [Hc _].
    destruct (render (renderConfig config st1) env) as [[e|b] env1] eqn:R; simpl in Hc.
    + rewrite (while_loop_render_throws W Jimp config n st env e env1 R) in H.
      inversion H; subst.
      exists [renderConfig config st1]. repeat split; auto.
      * constructor; [now exists st | constructor].
      * now exists st, env.
    + rewrite (while_loop_render_ok W Jimp config n st env b env1 R) in H. fold st1 in H.
      destruct (generateImageWithText_buffer W Jimp _ _ _ _ R) as [lib [HL Hb]].
      assert (Pb : producedBy Jimp (renderConfig config st1) b)
        by (now exists lib, (world env)).
      destruct (isWithinTolerance (getImageSize b) target tol) eqn:T.
      * inversion H; subst.
        exists [renderConfig config st1]. repeat split; auto.
        -- constructor; [now exists st | constructor].
        -- right. now exists st, b.
      * destruct (IH _ _ _ _ (Step st b HP Pb T) H) as [calls [Hc' [Hf Hr]]].
        exists (renderConfig config st1 :: calls). repeat split.
        -- rewrite Hc', Hc, <- app_assoc. reflexivity.
        -- constructor; [now exists st | exact Hf].
        -- exact Hr.
Qed.

(** The same for a whole call that passes the two validations. *)
Lemma generate_invariant (P : LoopState -> Prop) :
  (forall st b,
     P st ->
     producedBy Jimp (renderConfig config (ceilingCheck fmt target st)) b ->
     isWithinTolerance (getImageSize b) target tol = false ->
     P (adjust fmt target b (ceilingCheck fmt target st))) ->
  ((targetSizeMB config <=? 0) = false -> isFormatSupported fmt = true ->
   P (initialState config)) ->
  forall env,
    exists calls,
      renderCalls (snd (generate env)) = renderCalls env ++ calls /\
      Forall (fun c => exists s, P s /\ c = renderConfig config (ceilingCheck fmt target s)) calls /\
      match fst (generate env) with
      | inr o =>
          exists st', o = outcome config st' /\
          (P st' \/
           exists s b, P s /\ producedBy Jimp (renderConfig config (ceilingCheck fmt target s)) b /\
                       st' = accept b (ceilingCheck fmt target s))
      | inl e =>
          (e = InvalidTargetSize /\ (targetSizeMB config <=? 0) = true) \/
          (e = UnsupportedFormat fmt /\ isFormatSupported fmt = false) \/
          exists s env0 env',
            P s /\ render (renderConfig config (ceilingCheck fmt target s)) env0 = (inl e, env')
      end.
Proof.
  intros Step P0 env.
  destruct (generate env) as [r env'] eqn:G. cbn [fst snd].
  unfold generateImageWithTargetSize in G.
  destruct (targetSizeMB config <=? 0) eqn:T.
  { inversion G; subst. exists []. rewrite app_nil_r.
    split; [reflexivity|]. split; [constructor|]. left. split; reflexivity. }
  destruct (isFormatSupported fmt) eqn:F.
  2:{ inversion G; subst. exists []. rewrite app_nil_r.
      split; [reflexivity|]. split; [constructor|]. right. left. split; reflexivity. }
  simpl in G. unfold bind at 1 in G. specialize (P0 eq_refl eq_refl).
  destruct (loop (maxIterations' config) (initialState config) env) as [[e|st'] env1] eqn:L;
    destruct (while_loop_invariant P Step _ _ _ _ _ P0 L) as [calls [Hc [Hf Hr]]].
  - inversion G; subst. exists calls. repeat split; auto.
    destruct Hr as [s [env0 [Ps R]]]. right. right. now exists s, env0, env'.
  - exists calls. unfold bind, console_warn, ret in G.
    destruct (maxIterations' config <=? iteration st')%nat; inversion G; subst; simpl;
      (split; [exact Hc|split; [exact Hf|exists st'; split; [reflexivity|exact Hr]]]).
Qed.

End Invariants.

(** ** What every call does *)

Section Accounting.

Variable W : Type.
Variable Jimp : option (JimpLib W).
Variable config : Config.

Local Abbreviation fmt := (format config).
Local Abbreviation target := (targetSizeBytes config).
Local Abbreviation tol := (tolerance' config).
Local Abbreviation render := (generateImageWithText W Jimp).
Local Abbreviation loop := (while_loop W Jimp config).
Local Abbreviation generate := (generateImageWithTargetSize W Jimp config).

Lemma renderConfig_carriesRequest st : carriesRequest config (renderConfig config st).
Proof. repeat split. Qed.

Lemma generate_throws_unchanged env :
  (targetSizeMB config <=? 0) = true \/ isFormatSupported fmt = false ->
  renderCalls (snd (generate env)) = renderCalls env /\
  warnings (snd (generate env)) = warnings env.
Proof.
  unfold generateImageWithTargetSize. intros [H|H].
  - rewrite H. split; reflexivity.
  - rewrite H. destruct (targetSizeMB config <=? 0); split; reflexivity.
Qed.

Lemma quality_adjusted_levels a t q :
  In q qualityLevels -> In (adjustQuality a t q) qualityLevels.
Proof.
  unfold adjustQuality. intros H.
  destruct (a <? t); simpl in H;
    repeat (destruct H as [H|H]; [subst q; vm_compute; tauto|]); contradiction.
Qed.

Lemma quality_seeded_levels x : In (seedQuality x) qualityLevels.
Proof.
  unfold seedQuality.
  destruct (gtb x 2); [|destruct (gtb x 1.5); [|destruct (gtb x 1); [|destruct (gtb x 0.5)]]];
    vm_compute; tauto.
Qed.

Lemma quality_checked_levels f t st :
  In (quality st) qualityLevels -> In (quality (ceilingCheck f t st)) qualityLevels.
Proof.
  intros H. unfold ceilingCheck. destruct (exceedsCeiling (cur st)); [|exact H].
  cbn [quality]. destruct (isJpeg f); [apply quality_seeded_levels|exact H].
Qed.

Lemma quality_of_adjust_levels f t b st :
  In (quality st) qualityLevels -> In (quality (adjust f t b st)) qualityLevels.
Proof.
  intros H. unfold adjust. destruct (atCeiling f (cur st)); cbn [quality]; [|exact H].
  now apply quality_adjusted_levels.
Qed.

Lemma isJpeg_false_checked f t st :
  isJpeg f = false -> quality (ceilingCheck f t st) = quality st.
Proof.
  intros J. unfold ceilingCheck. destruct (exceedsCeiling (cur st)); [|reflexivity].
  cbn [quality]. rewrite J. reflexivity.
Qed.

Lemma isJpeg_false_adjust f t b st :
  isJpeg f = false ->
  adjust f t b st
  = {| cur := adjustDimensions (getImageSize b) t (width (cur st)) (height (cur st));
       quality := quality st; iteration := S (iteration st);
       buffer := Some b; actualSize := Some (getImageSize b) |}.
Proof.
  intros J. unfold adjust, atCeiling. rewrite J, andb_false_r. reflexivity.
Qed.

End Accounting.

(** X3.  Whatever the library does and whichever configuration is given,
    a call makes at most [maxIterations] render calls (20 when the option
    is left out) and warns at most once, and every render call carries
    the request's format, target size in MB and colours ("#ffffff" and
    "#000000" when left out): the loop only varies the width, the height
    and the quality. *)
Theorem render_calls_carry_the_request_within_the_budget
  W (Jimp : option (JimpLib W)) (config : Config) (env : Env W) :
  exists calls,
    renderCalls (snd (generateImageWithTargetSize W Jimp config env)) = renderCalls env ++ calls /\
    (List.length calls <= default 20%nat (maxIterations config))%nat /\
    Forall (carriesRequest config) calls /\
    (warnings env <= warnings (snd (generateImageWithTargetSize W Jimp config env))
       <= S (warnings env))%nat.
Proof.
  destruct (targetSizeMB config <=? 0) eqn:T.
  { destruct (generate_throws_unchanged W Jimp config env (or_introl T)) as [Hc Hw].
    exists []. rewrite app_nil_r, Hw. repeat split; auto; simpl; lia. }
  destruct (isFormatSupported (format config)) eqn:F.
  2:{ destruct (generate_throws_unchanged W Jimp config env (or_intror F)) as [Hc Hw].
      exists []. rewrite app_nil_r, Hw. repeat split; auto; simpl; lia. }
  destruct (generateImageWithTargetSize W Jimp config env) as [r env'] eqn:G.
  destruct (generate_exit W Jimp config env r env' G T F) as [calls [Hc [Hl [Hf Hr]]]].
  exists calls. cbn [snd]. split; [exact Hc|]. split; [exact Hl|]. split.
  - eapply Forall_impl; [|exact Hf]. intros c [s ->]. apply renderConfig_carriesRequest.
  - destruct r as [e|o].
    + unfold generateImageWithTargetSize in G. rewrite T, F in G. simpl in G.
      unfold bind at 1 in G.
      destruct (while_loop W Jimp config (maxIterations' config) (initialState config) env)
        as [[e1|st1] env1] eqn:L.
      * destruct (while_loop_exit W Jimp config _ _ _ _ _ L) as [Hw _].
        inversion G; subst. lia.
      * unfold bind, console_warn, ret in G.
        destruct (maxIterations' config <=? iteration st1)%nat; discriminate.
    + destruct Hr as [st' [_ [_ Hw]]]. rewrite Hw.
      destruct (maxIterations' config <=? iteration st')%nat; lia.
Qed.

(** X4.  In every call, the JPEG quality of every render call is one of
    the multiples of 5 from 10 to 100, and so is the quality a JPEG
    outcome reports: the quality starts at 90, is seeded from the table
    and moves in steps of 5 that are capped at 100 and floored at 10. *)
Theorem quality_is_a_multiple_of_five_between_10_and_100
  W (Jimp : option (JimpLib W)) (config : Config) (env : Env W) :
  exists calls,
    renderCalls (snd (generateImageWithTargetSize W Jimp config env)) = renderCalls env ++ calls /\
    Forall (fun c => In (img_quality c) qualityLevels) calls /\
    match fst (generateImageWithTargetSize W Jimp config env) with
    | inr o => match out_quality o with Some q => In q qualityLevels | None => True end
    | inl _ => True
    end.
Proof.
  destruct (generate_invariant W Jimp config (fun st => In (quality st) qualityLevels)) with (env := env)
    as [calls [Hc [Hf Hr]]].
  - intros st b H _ _. now apply quality_of_adjust_levels, quality_checked_levels.
  - intros _ _. vm_compute. tauto.
  - exists calls. split; [exact Hc|]. split.
    + eapply Forall_impl; [|exact Hf]. intros c [s [Hs ->]]. simpl.
      now apply quality_checked_levels.
    + destruct (fst (generateImageWithTargetSize W Jimp config env)) as [e|o]; [exact I|].
      destruct Hr as [st' [-> Hq]]. simpl.
      destruct (isJpeg (format config)); [|exact I].
      destruct Hq as [Hq|[s [b [Hs [_ ->]]]]]; [exact Hq|].
      simpl. now apply quality_checked_levels.
Qed.

(** X5.  For a format that is not jpg or jpeg (that is, for png) the
    quality is never touched: every render call is made with the initial
    quality 90, and the outcome reports no quality. *)
Theorem png_quality_is_never_adjusted
  W (Jimp : option (JimpLib W)) (config : Config) (env : Env W) :
  isJpeg (format config) = false ->
  exists calls,
    renderCalls (snd (generateImageWithTargetSize W Jimp config env)) = renderCalls env ++ calls /\
    Forall (fun c => img_quality c = 90) calls /\
    match fst (generateImageWithTargetSize W Jimp config env) with
    | inr o => out_quality o = None
    | inl _ => True
    end.
Proof.
  intros J.
  destruct (generate_invariant W Jimp config (fun st => quality st = 90)) with (env := env)
    as [calls [Hc [Hf Hr]]].
  - intros st b H _ _. rewrite (isJpeg_false_adjust _ _ _ _ J). cbn [quality].
    rewrite (isJpeg_false_checked _ _ _ J). exact H.
  - reflexivity.
  - exists calls. split; [exact Hc|]. split.
    + eapply Forall_impl; [|exact Hf]. intros c [s [Hs ->]]. simpl.
      rewrite (isJpeg_false_checked _ _ _ J). exact Hs.
    + destruct (fst (generateImageWithTargetSize W Jimp config env)) as [e|o]; [exact I|].
      destruct Hr as [st' [-> _]]. simpl. rewrite J. reflexivity.
Qed.

Lemma png_quality_is_never_adjusted_witness :
  isJpeg "png" = false /\
  exists calls,
    renderCalls (snd (run 10 (request 1 "png" 3 0.05))) = [] ++ calls /\
    Forall (fun c => img_quality c = 90) calls /\
    List.length calls = 3%nat.
Proof.
  split; [reflexivity|].
  destruct (png_quality_is_never_adjusted unit (Some (constantJimp 10))
              (request 1 "png" 3 0.05) (freshEnv tt) eq_refl) as [calls [Hc [Hf _]]].
  exists calls. split; [exact Hc|]. split; [exact Hf|].
  apply (f_equal (@List.length _)) in Hc. vm_compute in Hc. symmetry. exact Hc.
Defined.

(** X6.  A call that returns has either warned or not.  If it has not,
    the buffer it returns is within tolerance of the target and the
    reported [iterations] is within the budget.  If it has, it has
    warned once, [iterations] is the budget plus one, and either the
    budget was 0 and there is no buffer at all, or the returned buffer
    missed the tolerance. *)
Theorem result_without_warning_is_within_tolerance
  W (Jimp : option (JimpLib W)) (config : Config) (env : Env W) o env' :
  generateImageWithTargetSize W Jimp config env = (inr o, env') ->
  (warnings env' = warnings env /\
   (iterations o <= maxIterations' config)%nat /\
   exists b,
     out_buffer o = Some b /\
     isWithinTolerance (getImageSize b) (targetSizeBytes config) (tolerance' config) = true)
  \/
  (warnings env' = S (warnings env) /\
   iterations o = S (maxIterations' config) /\
   ((maxIterations' config = 0%nat /\ out_buffer o = None) \/
    exists b,
      out_buffer o = Some b /\
      isWithinTolerance (getImageSize b) (targetSizeBytes config) (tolerance' config) = false)).
Proof.
  intros H. destruct (generate_returns_validated W Jimp config _ _ _ H) as [T F].
  destruct (generate_exit W Jimp config env _ _ H T F) as [calls [Hc [Hl [_ [st' [Ho [Hx Hw]]]]]]].
  subst o. cbn [out_buffer iterations outcome].
  destruct Hx as [Hn Hcalls Hst | s1 b1 c0 Hcalls HJ1 HT Hst Hlen Hit
                 | s1 b1 c0 Hcalls HJ1 HT Hst Hlen Hit].
  - right. subst st'. rewrite Hn in *. simpl in Hw. split; [lia|].
    split; [reflexivity|]. left. split; reflexivity.
  - left. rewrite Hcalls, length_app in Hlen. simpl in Hlen, Hit.
    assert (L : (maxIterations' config <=? iteration st')%nat = false)
      by (apply Nat.leb_gt; lia).
    rewrite L in Hw. split; [lia|]. split; [lia|].
    exists b1. rewrite Hst. split; [reflexivity|exact HT].
  - right. simpl in Hit.
    assert (L : (maxIterations' config <=? iteration st')%nat = true)
      by (apply Nat.leb_le; lia).
    rewrite L in Hw. split; [lia|]. split; [lia|]. right.
    exists b1. split; [|exact HT].
    rewrite Hst. unfold adjust. destruct (atCeiling (format config) (cur s1)); reflexivity.
Qed.

Lemma result_without_warning_is_within_tolerance_witness :
  exists o env',
    run 1000 (request (1000 / 1048576) "png" 5 0.05) = (inr o, env') /\
    warnings env' = 0%nat /\
    exists b,
      out_buffer o = Some b /\
      isWithinTolerance (getImageSize b)
        (targetSizeBytes (request (1000 / 1048576) "png" 5 0.05)) 0.05 = true.
Proof.
  destruct (run 1000 (request (1000 / 1048576) "png" 5 0.05)) as [[e|o] env'] eqn:G.
  - exfalso. vm_compute in G. discriminate.
  - exists o, env'. split; [reflexivity|].
    assert (Hw : warnings env' = 0%nat)
      by (vm_compute in G; inversion G; reflexivity).
    split; [exact Hw|].
    destruct (result_without_warning_is_within_tolerance unit (Some (constantJimp 1000))
                (request (1000 / 1048576) "png" 5 0.05) (freshEnv tt) o env' G)
      as [[_ [_ H]]|[Hw' _]].
    + exact H.
    + rewrite Hw in Hw'. discriminate.
Defined.

(** X7.  The outcome of a call that returns describes the last render:
    it repeats the request's target and format (as given, not
    lower-cased), reports a quality exactly for jpg and jpeg, and either
    the budget was 0, nothing was rendered and buffer and size are
    undefined (the size in MB is NaN), or the buffer is the one the
    library produced for the last render call, [actualSizeBytes] is its
    length and [actualSizeMB] that length divided by 1048576. *)
Theorem outcome_describes_the_last_render
  W (Jimp : option (JimpLib W)) (config : Config) (env : Env W) o env' :
  generateImageWithTargetSize W Jimp config env = (inr o, env') ->
  out_targetSizeMB o = targetSizeMB config /\
  out_format o = format config /\
  (out_quality o = None <-> isJpeg (format config) = false) /\
  ((maxIterations' config = 0%nat /\ renderCalls env' = renderCalls env /\
    out_buffer o = None /\ actualSizeBytes o = None /\ is_nan (actualSizeMB o) = true)
   \/
   exists calls c b,
     renderCalls env' = renderCalls env ++ calls ++ [c] /\
     producedBy Jimp c b /\
     out_buffer o = Some b /\
     actualSizeBytes o = Some (getImageSize b) /\
     actualSizeMB o = bytesToMB (getImageSize b)).
Proof.
  intros H. destruct (generate_returns_validated W Jimp config _ _ _ H) as [T F].
  destruct (generate_exit W Jimp config env _ _ H T F) as [calls [Hc [Hl [_ [st' [Ho [Hx Hw]]]]]]].
  subst o. cbn [out_targetSizeMB out_format out_quality out_buffer actualSizeBytes
                actualSizeMB outcome].
  split; [reflexivity|]. split; [reflexivity|]. split.
  { destruct (isJpeg (format config)); split; intros; congruence. }
  destruct Hx as [Hn Hcalls Hst | s1 b1 c0 Hcalls HJ1 HT Hst Hlen Hit
                 | s1 b1 c0 Hcalls HJ1 HT Hst Hlen Hit].
  - left. subst st' calls. rewrite app_nil_r in Hc. repeat split; auto.
  - right. exists c0, (renderConfig config s1), b1. subst calls st'.
    repeat split; auto.
  - right. exists c0, (renderConfig config s1), b1. subst calls.
    assert (E : buffer st' = Some b1 /\ actualSize st' = Some (getImageSize b1)).
    { rewrite Hst. unfold adjust. destruct (atCeiling (format config) (cur s1)); split; reflexivity. }
    destruct E as [E1 E2]. rewrite E1, E2. repeat split; auto.
Qed.

Lemma outcome_describes_the_last_render_witness :
  exists o env',
    run 10 (request 1 "PNG" 1 0.05) = (inr o, env') /\
    out_format o = "PNG"%string /\ out_quality o = None /\
    bufferLengthOf (run 10 (request 1 "PNG" 1 0.05)) = Some 10%nat.
Proof.
  assert (B : bufferLengthOf (run 10 (request 1 "PNG" 1 0.05)) = Some 10%nat)
    by (vm_compute; reflexivity).
  destruct (run 10 (request 1 "PNG" 1 0.05)) as [[e|o] env'] eqn:G.
  - exfalso. vm_compute in G. discriminate.
  - exists o, env'. split; [reflexivity|].
    destruct (outcome_describes_the_last_render unit (Some (constantJimp 10))
                (request 1 "PNG" 1 0.05) (freshEnv tt) o env' G) as [_ [Hf [Hq _]]].
    split; [exact Hf|]. split; [apply Hq; reflexivity|exact B].
Defined.

(** X8.  With a budget of 0 a valid request is answered without any
    render, whatever the library is and even when it is missing: the call
    warns once and returns the estimated dimensions with no buffer, no
    size (NaN in MB) and [iterations] 1. *)
Theorem zero_budget_returns_the_unrendered_estimate
  W (Jimp : option (JimpLib W)) (config : Config) (env : Env W) :
  maxIterations config = Some 0%nat ->
  (targetSizeMB config <=? 0) = false ->
  isFormatSupported (format config) = true ->
  exists o,
    generateImageWithTargetSize W Jimp config env
    = (inr o, {| world := world env; renderCalls := renderCalls env;
                 warnings := S (warnings env) |}) /\
    out_buffer o = None /\ actualSizeBytes o = None /\ is_nan (actualSizeMB o) = true /\
    iterations o = 1%nat /\
    {| width := out_width o; height := out_height o |}
    = estimateInitialDimensions (targetSizeBytes config) (format config).
Proof.
  intros M T F. exists (outcome config (initialState config)).
  split; [|split; [reflexivity|split; [reflexivity|split; [reflexivity|split; [reflexivity|]]]]].
  - unfold generateImageWithTargetSize, maxIterations'. rewrite T, F, M. reflexivity.
  - cbn [outcome out_width out_height initialState cur].
    destruct (estimateInitialDimensions (targetSizeBytes config) (format config)); reflexivity.
Qed.

Lemma zero_budget_returns_the_unrendered_estimate_witness :
  exists o,
    generateImageWithTargetSize unit None (request 1 "png" 0 0.05) (freshEnv tt)
    = (inr o, {| world := tt; renderCalls := []; warnings := 1 |}) /\
    out_buffer o = None /\ out_width o = 1246 /\ out_height o = 701.
Proof.
  destruct (zero_budget_returns_the_unrendered_estimate unit None (request 1 "png" 0 0.05)
              (freshEnv tt) eq_refl eq_refl eq_refl) as [o [G [B [_ [_ [_ D]]]]]].
  exists o. split; [exact G|]. split; [exact B|].
  vm_compute in D. inversion D. split; reflexivity.
Defined.


(** ** The sign of a product *)

Section Signs.

(** A number that is [<= 0], or NaN: zero, negative, or not a number. *)
Lemma leb_zero_cases x :
  (x <=? 0) = true ->
  (exists s, Prim2SF x = S754_zero s) \/ (exists m e, Prim2SF x = S754_finite true m e) \/
  Prim2SF x = S754_infinity true.
Proof.
  rewrite FloatAxioms.leb_spec. unfold SFleb. rewrite Prim2SF_zero.
  destruct (Prim2SF x) as [s|[]| |[] m e]; simpl; try discriminate; eauto.
Qed.

Lemma binary_round_aux_sign sx m e l :
  match binary_round_aux prec emax sx m e l with
  | S754_zero s => s = sx
  | S754_infinity s => s = sx
  | S754_finite s _ _ => s = sx
  | S754_nan => True
  end.
Proof.
  unfold binary_round_aux.
  destruct (shr_fexp prec emax m e l) as [mrs1 e1].
  destruct (shr_fexp prec emax (round_nearest_even (shr_m mrs1) (loc_of_shr_record mrs1)) e1 loc_Exact)
    as [mrs2 e2].
  destruct (shr_m mrs2); auto.
  destruct (e2 <=? emax - prec)%Z; reflexivity.
Qed.

(** Rounding a positive mantissa never gives NaN. *)
Lemma binary_round_aux_not_nan sx p e l :
  binary_round_aux prec emax sx (Zpos p) e l <> S754_nan.
Proof.
  unfold binary_round_aux.
  destruct (shr_fexp_spec (Zpos p) e l ltac:(lia)) as [k1 [_ [_ Hm1]]].
  destruct (shr_fexp prec emax (Zpos p) e l) as [mrs1 e1].
  cbn [fst snd] in Hm1.
  pose proof (round_nearest_even_bounds (shr_m mrs1) (loc_of_shr_record mrs1)) as Hr.
  assert (0 <= shr_m mrs1)%Z by (rewrite Hm1; apply Z.shiftr_nonneg; lia).
  destruct (shr_fexp_spec (round_nearest_even (shr_m mrs1) (loc_of_shr_record mrs1)) e1
              loc_Exact ltac:(lia)) as [k2 [_ [_ Hm2]]].
  destruct (shr_fexp prec emax (round_nearest_even (shr_m mrs1) (loc_of_shr_record mrs1)) e1
              loc_Exact) as [mrs2 e2].
  cbn [fst snd] in Hm2.
  assert (0 <= shr_m mrs2)%Z by (rewrite Hm2; apply Z.shiftr_nonneg; lia).
  destruct (shr_m mrs2); try lia; [discriminate|].
  destruct (e2 <=? emax - prec)%Z; discriminate.
Qed.

(** A number that is [<= 0] stays so when multiplied by 1024. *)
Lemma mul_1024_nonpositive x :
  (x <=? 0) = true -> (x * 1024 <=? 0) = true.
Proof.
  intros H. rewrite FloatAxioms.leb_spec, mul_spec. unfold SFleb. rewrite Prim2SF_zero.
  replace (Prim2SF 1024) with (S754_finite false 4503599627370496 (-42)) by reflexivity.
  destruct (leb_zero_cases x H) as [[s E]|[[m [e E]]|E]]; rewrite E.
  - simpl. destruct s; reflexivity.
  - unfold SF64mul, SFmul. cbn [xorb].
    pose proof (binary_round_aux_sign true (Zpos (m * 4503599627370496)) (e + -42) loc_Exact)
      as Hs.
    pose proof (binary_round_aux_not_nan true (m * 4503599627370496) (e + -42) loc_Exact)
      as Hn.
    destruct (binary_round_aux prec emax true (Zpos (m * 4503599627370496)) (e + -42) loc_Exact)
      as [s|s| |s m' e']; try subst s; try reflexivity.
    congruence.
  - reflexivity.
Qed.

(** A target of at least one byte passes the validation of the size. *)
Lemma byte_target_is_valid mb :
  (1 <=? mbToBytes mb) = true -> (mb <=? 0) = false.
Proof.
  intros H. destruct (mb <=? 0) eqn:E; [|reflexivity].
  unfold mbToBytes in H.
  pose proof (mul_1024_nonpositive _ (mul_1024_nonpositive _ E)) as N.
  destruct (leb_zero_cases _ N) as [[s Z]|[[m [e Z]]|Z]];
    rewrite FloatAxioms.leb_spec in H; unfold SFleb in H; rewrite Z in H;
    discriminate.
Qed.

End Signs.

(** ** Where a call can fail *)

Section Failures.

Variable W : Type.
Variable Jimp : option (JimpLib W).
Variable config : Config.

Local Abbreviation fmt := (format config).
Local Abbreviation target := (targetSizeBytes config).
Local Abbreviation tol := (tolerance' config).
Local Abbreviation render := (generateImageWithText W Jimp).
Local Abbreviation loop := (while_loop W Jimp config).
Local Abbreviation generate := (generateImageWithTargetSize W Jimp config).

(** A render call with dimensions between 50 and 32767 and a supported
    format passes the method's own validation: it fails only when the
    module is missing or when the library raises. *)
Lemma render_in_range_fails_in_jimp cfg env e env' :
  dimensionInRange (img_width cfg) -> dimensionInRange (img_height cfg) ->
  isFormatSupported (img_format cfg) = true ->
  render cfg env = (inl e, env') ->
  (Jimp = None /\ e = JimpNotAvailable) \/ raisedByJimp Jimp e.
Proof.
  intros Gw Gh F.
  assert (V : forall x, dimensionInRange x -> validDimension x).
  { intros x G. destruct (dimensionInRange_bounds x G) as [L U]. right. split; [|exact U].
    destruct G as [[m [e0 [E _]]] _].
    rewrite FloatAxioms.ltb_spec, E. reflexivity. }
  apply V, validDimension_spec in Gw. apply V, validDimension_spec in Gh.
  destruct Gw as [W1 W2], Gh as [H1 H2].
  unfold generateImageWithText, bind, recordRenderCall, validateJimpAvailability,
    validateDimensions, callJimp, throw, ret.
  destruct Jimp as [lib|]; simpl.
  - rewrite W1, H1, W2, H2, F. simpl.
    destruct (lib cfg (world env)) as [r w'] eqn:L. intros H. inversion H; subst.
    right. exists lib, cfg, (world env). rewrite L. auto.
  - intros H. inversion H. auto.
Qed.

(** With a target of at least one byte (and at most 1e300) and a library
    that returns non-empty buffers, a call fails only for an unsupported
    format, for a missing module, or inside the library. *)
Lemma generate_failure_origin env :
  returnsNonEmptyBuffers Jimp ->
  (1 <=? target) = true -> (target <=? 1e300) = true ->
  match fst (generate env) with
  | inl e =>
      (e = UnsupportedFormat fmt /\ isFormatSupported fmt = false) \/
      (Jimp = None /\ e = JimpNotAvailable) \/
      raisedByJimp Jimp e
  | inr _ => True
  end.
Proof.
  intros HJ T1 T2.
  destruct (bounded_target _ T1 T2) as [Pt Ht].
  destruct (generate_invariant W Jimp config
              (fun st => aboveFloor (cur st) /\
                         dimensionsInRange (cur (ceilingCheck fmt target st))
                         /\ isFormatSupported fmt = true))
    with (env := env) as [calls [_ [_ Hr]]].
  - intros st b [Fl [Gd F]] [lib [w [HL Hb]]] _.
    set (st1 := ceilingCheck fmt target st) in *.
    assert (Hlen : (0 < Z.of_nat (List.length b) < 2 ^ 53)%Z).
    { destruct (lib (renderConfig config st1) w) as [rb w'] eqn:E.
      simpl in Hb. subst rb. exact (HJ _ _ _ _ _ HL E). }
    destruct (getImageSize_value b Hlen) as [Pa Ha].
    split; [|split; [|exact F]].
    + unfold adjust. destruct (atCeiling fmt (cur st1)); cbn [cur].
      * apply dimensionsInRange_aboveFloor. exact Gd.
      * destruct Gd as [Gw Gh].
        exact (proj1 (adjustDimensions_checked _ _ _ _ Pa Ha Pt Ht Gw Gh)).
    + rewrite ceilingCheck_cur. unfold adjust.
      destruct (atCeiling fmt (cur st1)); cbn [cur].
      * rewrite (dimensionsInRange_not_exceeds _ Gd). exact Gd.
      * destruct Gd as [Gw Gh].
        exact (proj2 (adjustDimensions_checked _ _ _ _ Pa Ha Pt Ht Gw Gh)).
  - intros _ F. pose proof (estimate_in_range target fmt F Pt Ht) as G0.
    split; [|split; [|exact F]].
    + apply dimensionsInRange_aboveFloor. exact G0.
    + rewrite ceilingCheck_cur. cbn [initialState cur].
      rewrite (dimensionsInRange_not_exceeds _ G0). exact G0.
  - destruct (fst (generate env)) as [e|o]; [|exact I].
    destruct Hr as [[_ T]|[U|[s [env0 [env' [[_ [[Gw Gh] F]] R]]]]]].
    + rewrite (byte_target_is_valid _ T1) in T. discriminate.
    + left. exact U.
    + right.
      exact (render_in_range_fails_in_jimp
               (renderConfig config (ceilingCheck fmt target s)) _ _ _ Gw Gh F R).
Qed.

End Failures.

(** X9.  With a target of at least one byte (and at most 1e300 bytes)
    and a library that returns non-empty buffers, the dimensions the loop
    asks for always pass the rendering method's own validation: a call
    that fails does so because the format is unsupported, because the
    Jimp module is missing, or with an error raised by the library
    itself, never with one of the two dimension errors of the class. *)
Theorem bounded_run_fails_only_in_the_library
  W (Jimp : option (JimpLib W)) (config : Config) (env : Env W) e env' :
  returnsNonEmptyBuffers Jimp ->
  (1 <=? targetSizeBytes config) = true ->
  (targetSizeBytes config <=? 1e300) = true ->
  generateImageWithTargetSize W Jimp config env = (inl e, env') ->
  (e = UnsupportedFormat (format config) /\ isFormatSupported (format config) = false) \/
  (Jimp = None /\ e = JimpNotAvailable) \/
  raisedByJimp Jimp e.
Proof.
  intros HJ T1 T2 G.
  pose proof (generate_failure_origin W Jimp config env HJ T1 T2) as H.
  rewrite G in H. exact H.
Qed.

Lemma bounded_run_fails_only_in_the_library_witness :
  returnsNonEmptyBuffers (Some failingJimp) /\
  fst (generateImageWithTargetSize unit (Some failingJimp) (request 1 "png" 20 0.05)
         (freshEnv tt)) = inl (JimpError "encode") /\
  raisedByJimp (Some failingJimp) (JimpError "encode").
Proof.
  assert (H : returnsNonEmptyBuffers (Some failingJimp)).
  { intros lib cfg w b w' E1 E2. inversion E1; subst. discriminate. }
  split; [exact H|].
  destruct (generateImageWithTargetSize unit (Some failingJimp) (request 1 "png" 20 0.05)
              (freshEnv tt)) as [[e|o] env'] eqn:G.
  - assert (E : e = JimpError "encode") by (vm_compute in G; inversion G; reflexivity).
    subst e. split; [reflexivity|].
    destruct (bounded_run_fails_only_in_the_library unit (Some failingJimp)
                (request 1 "png" 20 0.05) (freshEnv tt) _ env' H eq_refl eq_refl G)
      as [[U _]|[[N _]|R]].
    + discriminate.
    + discriminate.
    + exact R.
  - exfalso. vm_compute in G. discriminate.
Defined.

(** X10.  With a supported format, a target of at least one byte (and at
    most 1e300 bytes) and a library that never raises and returns
    non-empty buffers, the call always returns a result. *)
Theorem run_with_a_total_library_returns
  W (lib : JimpLib W) (config : Config) (env : Env W) :
  neverRaises lib ->
  returnsNonEmptyBuffers (Some lib) ->
  isFormatSupported (format config) = true ->
  (1 <=? targetSizeBytes config) = true ->
  (targetSizeBytes config <=? 1e300) = true ->
  exists o env', generateImageWithTargetSize W (Some lib) config env = (inr o, env').
Proof.
  intros Tot HJ F T1 T2.
  pose proof (generate_failure_origin W (Some lib) config env HJ T1 T2) as H.
  destruct (generateImageWithTargetSize W (Some lib) config env) as [[e|o] env'] eqn:G.
  - exfalso. cbn [fst] in H. destruct H as [[_ U]|[[N _]|[lib' [c [w [L R]]]]]].
    + congruence.
    + discriminate.
    + inversion L; subst lib'. destruct (Tot c w) as [b B]. congruence.
  - now exists o, env'.
Qed.


Lemma run_with_a_total_library_returns_witness :
  neverRaises (constantJimp 10) /\
  exists o env', run 10 (request 1 "png" 3 0.05) = (inr o, env').
Proof.
  assert (T : neverRaises (constantJimp 10)).
  { intros c w. exists (repeat Byte.x00 10). reflexivity. }
  assert (H : returnsNonEmptyBuffers (Some (constantJimp 10))).
  { intros lib cfg w b w' E1 E2. inversion E1; subst. unfold constantJimp in E2.
    inversion E2; subst. simpl. lia. }
  split; [exact T|].
  exact (run_with_a_total_library_returns unit (constantJimp 10) (request 1 "png" 3 0.05)
           (freshEnv tt) T H eq_refl eq_refl eq_refl).
Defined.

(** ** A tolerance that cannot be met *)

Section NoTolerance.

(** The absolute value of a number is never below a number that is
    [<= 0], nor below NaN. *)
Lemma abs_not_below_nonpositive d y :
  (y <=? 0) = true \/ is_nan y = true -> (Math_abs d <? y) = false.
Proof.
  intros [H|H]; [|now apply ltb_nan_r].
  unfold Math_abs. rewrite FloatAxioms.ltb_spec, abs_spec. unfold SFltb.
  destruct (leb_zero_cases y H) as [[s E]|[[m [e E]]|E]]; rewrite E;
    destruct (Prim2SF d) as [[]|[]| |[] md ed]; reflexivity.
Qed.

(** The product of a positive number and a number that is [<= 0] or
    NaN is [<= 0] or NaN. *)
Lemma mul_positive_nonpositive t x :
  (0 <? t) = true -> (x <=? 0) = true \/ is_nan x = true ->
  (t * x <=? 0) = true \/ is_nan (t * x) = true.
Proof.
  intros T [H|H].
  - destruct (positive_cases t T) as [[mt [et Et]]|Et].
    + destruct (leb_zero_cases x H) as [[s E]|[[m [e E]]|E]].
      * left. rewrite FloatAxioms.leb_spec, mul_spec, Et, E. destruct s; reflexivity.
      * left. rewrite FloatAxioms.leb_spec, mul_spec, Et, E. unfold SFleb, SF64mul, SFmul.
        cbn [xorb].
        pose proof (binary_round_aux_sign true (Zpos (mt * m)) (et + e) loc_Exact) as Hs.
        pose proof (binary_round_aux_not_nan true (mt * m) (et + e) loc_Exact) as Hn.
        rewrite Prim2SF_zero.
        destruct (binary_round_aux prec emax true (Zpos (mt * m)) (et + e) loc_Exact)
          as [s|s| |s m' e']; try subst s; try reflexivity. congruence.
      * left. rewrite FloatAxioms.leb_spec, mul_spec, Et, E. reflexivity.
    + destruct (leb_zero_cases x H) as [[s E]|[[m [e E]]|E]].
      * right. apply is_nan_spec. rewrite mul_spec, Et, E. reflexivity.
      * left. rewrite FloatAxioms.leb_spec, mul_spec, Et, E. reflexivity.
      * left. rewrite FloatAxioms.leb_spec, mul_spec, Et, E. reflexivity.
  - right. apply is_nan_spec. apply is_nan_spec in H. rewrite mul_spec, H.
    destruct (Prim2SF t); reflexivity.
Qed.

Lemma tolerance_not_positive_rejects a t tol :
  (0 <? t) = true -> (tol <=? 0) = true \/ is_nan tol = true ->
  isWithinTolerance a t tol = false.
Proof.
  intros T H. unfold isWithinTolerance.
  apply abs_not_below_nonpositive. now apply mul_positive_nonpositive.
Qed.

End NoTolerance.

(** X11.  A tolerance of 0 (or below 0, or NaN) can never be met: for a
    positive target no size is within tolerance, not even the target
    itself.  A call with such a tolerance that returns has therefore used
    up its budget: it has warned, and it reports [maxIterations + 1]
    iterations. *)
Theorem tolerance_of_zero_is_never_met
  W (Jimp : option (JimpLib W)) (config : Config) (env : Env W) :
  (0 <? targetSizeBytes config) = true ->
  (tolerance' config <=? 0) = true \/ is_nan (tolerance' config) = true ->
  (forall actual,
     isWithinTolerance actual (targetSizeBytes config) (tolerance' config) = false) /\
  (forall o env',
     generateImageWithTargetSize W Jimp config env = (inr o, env') ->
     warnings env' = S (warnings env) /\ iterations o = S (maxIterations' config)).
Proof.
  intros T H.
  assert (R : forall actual,
             isWithinTolerance actual (targetSizeBytes config) (tolerance' config) = false)
    by (intros actual; now apply tolerance_not_positive_rejects).
  split; [exact R|]. intros o env' G.
  destruct (generate_returns_validated W Jimp config _ _ _ G) as [V F].
  destruct (generate_exit W Jimp config env _ _ G V F) as [calls [Hc [Hl [_ [st' [Ho [Hx Hw]]]]]]].
  subst o. cbn [iterations outcome].
  destruct Hx as [Hn Hcalls Hst | s1 b1 c0 Hcalls HJ1 HT Hst Hlen Hit
                 | s1 b1 c0 Hcalls HJ1 HT Hst Hlen Hit].
  - subst st'. rewrite Hn in *. simpl in Hw. split; [lia|reflexivity].
  - rewrite R in HT. discriminate.
  - simpl in Hit.
    assert (L : (maxIterations' config <=? iteration st')%nat = true)
      by (apply Nat.leb_le; lia).
    rewrite L in Hw. split; lia.
Qed.

Lemma tolerance_of_zero_is_never_met_witness :
  isWithinTolerance 1000 (targetSizeBytes (request (1000 / 1048576) "png" 2 0)) 0 = false /\
  iterationsOf (run 1000 (request (1000 / 1048576) "png" 2 0)) = Some 3%nat /\
  warnings (snd (run 1000 (request (1000 / 1048576) "png" 2 0))) = 1%nat.
Proof.
  destruct (tolerance_of_zero_is_never_met unit (Some (constantJimp 1000))
              (request (1000 / 1048576) "png" 2 0) (freshEnv tt) eq_refl (or_introl eq_refl)) as [R H].
  split; [exact (R 1000)|].
  destruct (run 1000 (request (1000 / 1048576) "png" 2 0)) as [[e|o] env'] eqn:G.
  - exfalso. vm_compute in G. discriminate.
  - destruct (H o env' G) as [Hw Hi]. unfold iterationsOf. cbn [fst snd].
    rewrite Hw, Hi. split; reflexivity.
Defined.

(** ** Multiplying and dividing by a power of two *)

Section PowersOfTwo.

Local Open Scope Z_scope.

Lemma iter_pos_nat {A} (f : A -> A) n : forall x,
  iter_pos f n x = Nat.iter (Pos.to_nat n) f x.
Proof.
  induction n as [n IH|n IH|]; intros x; simpl iter_pos.
  - rewrite !IH, Pos2Nat.inj_xI.
    replace (S (2 * Pos.to_nat n)) with (S (Pos.to_nat n + Pos.to_nat n)) by lia.
    rewrite Nat.iter_succ_r, Nat.iter_add. reflexivity.
  - rewrite !IH, Pos2Nat.inj_xO.
    replace (2 * Pos.to_nat n)%nat with (Pos.to_nat n + Pos.to_nat n)%nat by lia.
    rewrite Nat.iter_add. reflexivity.
  - reflexivity.
Qed.

(** Shifting out the zeros that a shift to the left put in loses
    nothing: the location stays exact. *)
Lemma iter_shr_1_exact k q :
  iter_pos shr_1 k {| shr_m := Zpos (Pos.iter xO q k); shr_r := false; shr_s := false |}
  = {| shr_m := Zpos q; shr_r := false; shr_s := false |}.
Proof.
  rewrite iter_pos_nat, Pos2Nat.inj_iter.
  induction (Pos.to_nat k) as [|n IH]; [reflexivity|].
  rewrite Nat.iter_succ_r.
  change (Nat.iter (S n) xO q) with (xO (Nat.iter n xO q)). exact IH.
Qed.

(** A 53-bit mantissa followed by [k] zeros rounds to itself. *)
Lemma binary_round_aux_shifted sx q k p ex :
  Zpos (digits2_pos q) = 53 -> Zpos p = Zpos q * 2 ^ Zpos k ->
  -1074 <= ex + Zpos k <= 971 ->
  binary_round_aux prec emax sx (Zpos p) ex loc_Exact = S754_finite sx q (ex + Zpos k).
Proof.
  intros D Hp E.
  assert (P : p = Pos.iter xO q k).
  { apply Pos2Z.inj. rewrite Hp, iter_xO_value. reflexivity. }
  subst p. unfold binary_round_aux, shr_fexp.
  change (Zdigits2 (Zpos (Pos.iter xO q k))) with (Zpos (digits2_pos (Pos.iter xO q k))).
  rewrite digits2_pos_iter_xO, Pos2Z.inj_add, D.
  change (fexp prec emax (53 + Zpos k + ex)) with (Z.max (53 + Zpos k + ex - 53) (-1074)).
  replace (Z.max (53 + Zpos k + ex - 53) (-1074) - ex) with (Zpos k) by lia.
  cbn [shr shr_record_of_loc]. rewrite iter_shr_1_exact.
  cbn [loc_of_shr_record shr_m shr_r shr_s round_nearest_even].
  change (Zdigits2 (Zpos q)) with (Zpos (digits2_pos q)). rewrite D.
  change (fexp prec emax (53 + (ex + Zpos k))) with (Z.max (53 + (ex + Zpos k) - 53) (-1074)).
  replace (Z.max (53 + (ex + Zpos k) - 53) (-1074) - (ex + Zpos k)) with 0 by lia.
  cbn [shr shr_m shr_record_of_loc].
  replace (ex + Zpos k <=? emax - prec) with true; [reflexivity|].
  symmetry. apply Z.leb_le. change (emax - prec) with 971. lia.
Qed.

(** Multiplying a normal number by 1024 adds 10 to its exponent. *)
Lemma mul_1024_exact x s m e :
  Prim2SF x = S754_finite s m e -> Zpos (digits2_pos m) = 53 -> e + 10 <= 971 ->
  Prim2SF (x * 1024) = S754_finite s m (e + 10).
Proof.
  intros H D E. pose proof (valid_exponent x _ _ _ H) as V.
  rewrite mul_spec, H.
  replace (Prim2SF 1024) with (S754_finite false 4503599627370496 (-42)) by reflexivity.
  unfold SF64mul, SFmul. rewrite xorb_false_r.
  rewrite (binary_round_aux_shifted s m 52 (m * 4503599627370496) (e + -42) D) by
    (try reflexivity; lia).
  f_equal. lia.
Qed.

(** Dividing a normal number by 1024 * 1024 takes 20 from its exponent. *)
Lemma div_1048576_exact x s m e :
  Prim2SF x = S754_finite s m e -> Zpos (digits2_pos m) = 53 -> -1074 <= e - 20 ->
  Prim2SF (x / (1024 * 1024)) = S754_finite s m (e - 20).
Proof.
  intros H D E. pose proof (valid_exponent x _ _ _ H) as V.
  assert (V2 : e <= 971).
  { pose proof (Prim2SF_valid x) as B. rewrite H in B.
    unfold SpecFloat.valid_binary, bounded in B. apply andb_true_iff in B.
    destruct B as [_ B]. apply Z.leb_le in B. exact B. }
  rewrite div_spec, H.
  replace (Prim2SF (1024 * 1024)) with (S754_finite false 4503599627370496 (-32)) by reflexivity.
  unfold SF64div, SFdiv. rewrite xorb_false_r.
  unfold SFdiv_core_binary.
  change (Zdigits2 (Zpos m)) with (Zpos (digits2_pos m)). rewrite D.
  change (Zdigits2 4503599627370496) with 53.
  change (fexp prec emax (53 + e - (53 + -32))) with (Z.max (53 + e - (53 + -32) - 53) (-1074)).
  destruct (Z_le_gt_dec (-1074) (e - 21)) as [L|L].
  - replace (Z.min (Z.max (53 + e - (53 + -32) - 53) (-1074)) (e - -32)) with (e - 21) by lia.
    cbv zeta. replace (e - -32 - (e - 21)) with 53 by lia.
    rewrite Z.shiftl_mul_pow2 by lia.
    replace (Zpos m * 2 ^ 53) with (Zpos (xO m) * 4503599627370496) by
      (rewrite Pos2Z.inj_xO; change (2 ^ 53) with (2 * 4503599627370496); ring).
    pose proof (Z.div_eucl_eq (Zpos (xO m) * 4503599627370496) 4503599627370496 ltac:(lia)) as Q.
    pose proof (Z.mod_mul (Zpos (xO m)) 4503599627370496 ltac:(lia)) as R.
    pose proof (Z.div_mul (Zpos (xO m)) 4503599627370496 ltac:(lia)) as Q2.
    unfold Z.modulo, Z.div in R, Q2.
    destruct (Z.div_eucl (Zpos (xO m) * 4503599627370496) 4503599627370496) as [q r].
    subst q r. change (new_location 4503599627370496 0) with loc_Exact.
    rewrite (binary_round_aux_shifted s m 1 (xO m) (e - 21) D) by (try reflexivity; lia).
    f_equal. lia.
  - replace (Z.min (Z.max (53 + e - (53 + -32) - 53) (-1074)) (e - -32)) with (-1074) by lia.
    cbv zeta. replace (e - -32 - -1074) with 52 by lia.
    rewrite Z.shiftl_mul_pow2 by lia. change (2 ^ 52) with 4503599627370496.
    pose proof (Z.mod_mul (Zpos m) 4503599627370496 ltac:(lia)) as R.
    pose proof (Z.div_mul (Zpos m) 4503599627370496 ltac:(lia)) as Q2.
    unfold Z.modulo, Z.div in R, Q2.
    destruct (Z.div_eucl (Zpos m * 4503599627370496) 4503599627370496) as [q r].
    subst q r. change (new_location 4503599627370496 0) with loc_Exact.
    rewrite binary_round_aux_exact by (try assumption; lia).
    f_equal. lia.
Qed.

Lemma normal_exponent_le x s m e :
  Prim2SF x = S754_finite s m e -> e <= 971.
Proof.
  intros H. pose proof (Prim2SF_valid x) as B. rewrite H in B.
  unfold SpecFloat.valid_binary, bounded in B. apply andb_true_iff in B.
  destruct B as [_ B]. apply Z.leb_le in B. exact B.
Qed.

(** Megabytes to bytes and back, and bytes to megabytes and back, on
    the bits of a normal number. *)
Lemma mb_bytes_mb x s m e :
  Prim2SF x = S754_finite s m e -> Zpos (digits2_pos m) = 53 -> e + 20 <= 971 ->
  bytesToMB (mbToBytes x) = x.
Proof.
  intros H D E. pose proof (valid_exponent x _ _ _ H) as V.
  apply Prim2SF_inj. unfold bytesToMB, mbToBytes.
  pose proof (mul_1024_exact x s m e H D ltac:(lia)) as H1.
  pose proof (mul_1024_exact _ s m _ H1 D ltac:(lia)) as H2.
  rewrite (div_1048576_exact _ s m _ H2 D ltac:(lia)), H. f_equal. lia.
Qed.

Lemma bytes_mb_bytes x s m e :
  Prim2SF x = S754_finite s m e -> Zpos (digits2_pos m) = 53 -> -1074 <= e - 20 ->
  mbToBytes (bytesToMB x) = x.
Proof.
  intros H D E. pose proof (normal_exponent_le x _ _ _ H) as V.
  apply Prim2SF_inj. unfold bytesToMB, mbToBytes.
  pose proof (div_1048576_exact x s m e H D E) as H1.
  pose proof (mul_1024_exact _ s m _ H1 D ltac:(lia)) as H2.
  rewrite (mul_1024_exact _ s m _ H2 D ltac:(lia)), H. f_equal. lia.
Qed.

End PowersOfTwo.

(** X12.  Converting megabytes to bytes and back, and bytes to megabytes
    and back, returns the number it started from, bit for bit, for every
    number from 1e-300 to 1e300: multiplying and dividing by 1024 only
    move the exponent. *)
Theorem megabytes_and_bytes_convert_back_exactly (x : float) :
  (1e-300 <=? x) = true -> (x <=? 1e300) = true ->
  bytesToMB (mbToBytes x) = x /\ mbToBytes (bytesToMB x) = x.
Proof.
  intros L U.
  assert (Plo : exists m, Prim2SF 1e-300 = S754_finite false m (-1049) /\
                          Zpos (digits2_pos m) = 53%Z) by (eexists; split; reflexivity).
  assert (Phi : exists m, Prim2SF 1e300 = S754_finite false m 944 /\
                          Zpos (digits2_pos m) = 53%Z) by (eexists; split; reflexivity).
  destruct Plo as [ml [El Dl]]. destruct Phi as [mh [Eh Dh]].
  destruct (positiveNormal_between 1e-300 1e300 x) as [[m [e [E D]]] [Bl Bh]]; auto.
  { now exists ml, (-1049)%Z. }
  { now exists mh, 944%Z. }
  pose proof (positiveNormal_bounds _ _ _ El Dl) as [B1 _].
  pose proof (positiveNormal_bounds _ _ _ Eh Dh) as [_ B2].
  pose proof (positiveNormal_bounds _ _ _ E D) as [B3 B4].
  assert (E1 : (e + 52 < 997)%Z) by (apply pow2_lt_inv; simpl Z.add in *; lra).
  assert (E2 : (-997 < e + 53)%Z) by (apply pow2_lt_inv; simpl Z.add in *; lra).
  split.
  - apply (mb_bytes_mb x false m e E D). lia.
  - apply (bytes_mb_bytes x false m e E D). lia.
Qed.

Lemma megabytes_and_bytes_convert_back_exactly_witness :
  bytesToMB (mbToBytes 0.1) = 0.1 /\ mbToBytes (bytesToMB 1000) = 1000.
Proof.
  split.
  - exact (proj1 (megabytes_and_bytes_convert_back_exactly 0.1 eq_refl eq_refl)).
  - exact (proj2 (megabytes_and_bytes_convert_back_exactly 1000 eq_refl eq_refl)).
Defined.

(** ** The shape of the estimate and the direction of the adjustment *)

Section Shapes.

Local Open Scope R_scope.

(** A positive normal number whose value is the integer [n] is [of_Z n]. *)
Lemma integer_value x n :
  positiveNormal x -> toReal x = IZR n -> (0 < n < 2 ^ 53)%Z -> x = of_Z n.
Proof.
  intros Px Vx N. destruct (of_Z_value n N) as [Pn Vn].
  apply toReal_inj; [exact Px|exact Pn|]. rewrite Vx, Vn. reflexivity.
Qed.

Lemma estimate_shape t fmt :
  isFormatSupported fmt = true ->
  positiveNormal t -> 1 <= toReal t <= pow2 997 ->
  exists a b : Z,
    width (estimateInitialDimensions t fmt) = of_Z a /\
    height (estimateInitialDimensions t fmt) = of_Z b /\
    (100 <= a <= 32767)%Z /\ (56 <= b <= 18432)%Z /\
    (-12 <= 16 * b - 9 * a <= 12)%Z.
Proof.
  intros S Pt Ht.
  destruct (supported_factor fmt S) as [Pf Hf].
  destruct (estimate_values t _ Pt Ht Pf Hf) as [Pw [Ph [_ [H1 H2]]]].
  set (f := toNumber (or_default (get_property compressionFactors (toLowerCase fmt)) 1.5)) in *.
  set (w := Math_sqrt (t / f * (16 / 9))) in *.
  set (h := (t / f / w)%float) in *.
  pose proof (positiveNormal_pos _ Pw) as W0. pose proof (positiveNormal_pos _ Ph) as H0.
  set (Wr := toReal w) in *. set (Hr := toReal h) in *.
  destruct value_maxDimension as [Pmax Vmax].
  destruct value_100 as [P100 V100]. destruct value_56 as [P56 V56].
  destruct (gtb w maxDimension || gtb h maxDimension) eqn:Ex.
  - assert (Gt : gtb w h = true) by (apply gtb_toReal; try assumption; fold Wr Hr; lra).
    rewrite (estimate_unfold_clamped t fmt Ex Gt). cbn [width height].
    exists 32767%Z, 18431%Z. repeat split; try reflexivity; lia.
  - apply orb_false_iff in Ex. destruct Ex as [Ew Eh].
    rewrite (estimate_unfold t fmt Ew Eh). cbn [width height].
    apply gtb_false_toReal in Ew; try assumption. rewrite Vmax in Ew. fold Wr in Ew.
    destruct (floored_round_value w 100 100 Pw P100 V100) as [Px [a [Va [A1 [A2 A3]]]]].
    destruct (floored_round_value h 56 56 Ph P56 V56) as [Py [b [Vb [B1 [B2 B3]]]]].
    fold Wr in A2, A3. fold Hr in B2, B3.
    assert (Ia : 100 <= IZR a) by (apply IZR_le; exact A1).
    assert (Ib : 56 <= IZR b) by (apply IZR_le; exact B1).
    assert (Ua : (a <= 32767)%Z).
    { destruct A3 as [->|A3]; [lia|].
      assert (a < 32768)%Z by (apply lt_IZR; lra). lia. }
    assert (Up : (16 * b - 9 * a <= 12)%Z).
    { destruct B3 as [->|B3]; [lia|].
      assert (16 * b - 9 * a < 13)%Z; [|lia].
      apply lt_IZR. rewrite minus_IZR, !mult_IZR. lra. }
    assert (Lo : (-12 <= 16 * b - 9 * a)%Z).
    { destruct A3 as [->|A3]; [lia|].
      assert (-13 < 16 * b - 9 * a)%Z; [|lia].
      apply lt_IZR. rewrite minus_IZR, !mult_IZR. lra. }
    exists a, b.
    split; [apply integer_value; auto; lia|].
    split; [apply integer_value; auto; lia|].
    repeat split; lia.
Qed.

End Shapes.

(** X13.  For a supported format and a target from 1 byte to 1e300
    bytes the estimated dimensions are whole numbers, the width between
    100 and 32767 and the height between 56 and 18432, in the ratio
    16:9 up to rounding: 16 times the height and 9 times the width
    differ by at most 12. *)
Theorem estimate_is_sixteen_by_nine (t : float) (fmt : string) :
  isFormatSupported fmt = true ->
  (1 <=? t) = true -> (t <=? 1e300) = true ->
  exists a b : Z,
    estimateInitialDimensions t fmt = {| width := of_Z a; height := of_Z b |} /\
    (100 <= a <= 32767)%Z /\ (56 <= b <= 18432)%Z /\
    (-12 <= 16 * b - 9 * a <= 12)%Z.
Proof.
  intros S T1 T2. destruct (bounded_target _ T1 T2) as [Pt Ht].
  destruct (estimate_shape t fmt S Pt Ht) as [a [b [Ea [Eb H]]]].
  exists a, b. split; [|exact H].
  destruct (estimateInitialDimensions t fmt) as [w h]. simpl in Ea, Eb. congruence.
Qed.

Lemma estimate_is_sixteen_by_nine_witness :
  exists a b : Z,
    estimateInitialDimensions 1048576 "png" = {| width := of_Z a; height := of_Z b |} /\
    (-12 <= 16 * b - 9 * a <= 12)%Z.
Proof.
  destruct (estimate_is_sixteen_by_nine 1048576 "png" eq_refl eq_refl eq_refl)
    as [a [b [E [_ [_ H]]]]].
  exists a, b. split; assumption.
Defined.

(** ** The estimate for the sizes the command line accepts *)

Section SmallTargets.

Local Open Scope R_scope.

Lemma supported_factor_tight fmt :
  isFormatSupported fmt = true ->
  let f := toNumber (or_default (get_property compressionFactors (toLowerCase fmt)) 1.5) in
  positiveNormal f /\ 6 / 5 * (1 - / 1000000000) <= toReal f <= 2.
Proof.
  intros S. apply isFormatSupported_spec in S. unfold Spec.formatSupported in S.
  cbv zeta in *.
  destruct factor_jpg_value as [Pj Vj]. destruct factor_png_value as [Pp [Vp1 Vp2]].
  destruct S as [-> | [-> | ->]];
    change (toNumber (or_default (get_property compressionFactors "jpg") 1.5)) with 1.5%float;
    change (toNumber (or_default (get_property compressionFactors "jpeg") 1.5)) with 1.5%float;
    change (toNumber (or_default (get_property compressionFactors "png") 1.5)) with 1.2%float;
    (split; [assumption|lra]).
Qed.

Lemma value_26214400 : positiveNormal 26214400 /\ toReal 26214400 = 26214400.
Proof. apply (literal_value 26214400); [reflexivity|lia]. Qed.

Lemma small_estimate t fmt :
  isFormatSupported fmt = true ->
  positiveNormal t -> 1 <= toReal t <= 26214400 ->
  exists a b : Z,
    estimateInitialDimensions t fmt = {| width := of_Z a; height := of_Z b |} /\
    (100 <= a <= 6232)%Z /\ (56 <= b <= 3505)%Z.
Proof.
  intros S Pt [T1 T2].
  assert (Ht : 1 <= toReal t <= pow2 997).
  { split; [exact T1|]. apply Rle_trans with (pow2 25); [|apply pow2_le; lia].
    replace (pow2 25) with 33554432 by (unfold pow2; simpl; lra). lra. }
  destruct (supported_factor_tight fmt S) as [Pf [F1 F2]].
  assert (Hf : 1 <= toReal
                      (toNumber (or_default (get_property compressionFactors (toLowerCase fmt)) 1.5))
                  <= 2) by lra.
  destruct (estimate_values t _ Pt Ht Pf Hf) as [Pw [Ph [[_ W2] [_ H2]]]].
  set (f := toNumber (or_default (get_property compressionFactors (toLowerCase fmt)) 1.5)) in *.
  set (w := Math_sqrt (t / f * (16 / 9))) in *.
  set (h := (t / f / w)%float) in *.
  pose proof (positiveNormal_pos _ Pw) as W0. pose proof (positiveNormal_pos _ Ph) as H0.
  set (T := toReal t) in *. set (F := toReal f) in *.
  set (Wr := toReal w) in *. set (Hr := toReal h) in *.
  assert (D : T / F <= 218453334 / 10).
  { apply Rmult_le_reg_r with F; [lra|]. replace (T / F * F) with T by (field; lra). lra. }
  assert (D0 : 0 < T / F) by (apply Rdiv_lt_0_compat; lra).
  assert (W3 : Wr <= 62319 / 10).
  { apply square_le; [lra|lra|]. apply Rle_trans with (T / F * (16 / 9) * (1 + / 100000000));
      [exact W2|]. apply Rle_trans with (218453334 / 10 * (16 / 9) * (1 + / 100000000)); [|lra].
    apply Rmult_le_compat_r; [lra|]. apply Rmult_le_compat_r; lra. }
  assert (H3 : Hr <= 35055 / 10).
  { apply Rle_trans with (Wr * (9 / 16) * (1 + / 100000000)); [exact H2|].
    apply Rle_trans with (62319 / 10 * (9 / 16) * (1 + / 100000000)); [|lra].
    apply Rmult_le_compat_r; [lra|]. apply Rmult_le_compat_r; lra. }
  destruct value_maxDimension as [Pmax Vmax].
  destruct value_100 as [P100 V100]. destruct value_56 as [P56 V56].
  assert (Ew : gtb w maxDimension = false).
  { apply not_true_is_false. intros A. apply gtb_toReal in A; try assumption.
    fold Wr in A. lra. }
  assert (Eh : gtb h maxDimension = false).
  { apply not_true_is_false. intros A. apply gtb_toReal in A; try assumption.
    fold Hr in A. lra. }
  rewrite (estimate_unfold t fmt Ew Eh).
  destruct (floored_round_value w 100 100 Pw P100 V100) as [Px [a [Va [A1 [A2 A3]]]]].
  destruct (floored_round_value h 56 56 Ph P56 V56) as [Py [b [Vb [B1 [B2 B3]]]]].
  fold Wr in A2, A3. fold Hr in B2, B3.
  assert (Ua : (a <= 6232)%Z).
  { destruct A3 as [->|A3]; [lia|].
    assert (a < 6233)%Z by (apply lt_IZR; lra). lia. }
  assert (Ub : (b <= 3505)%Z).
  { destruct B3 as [->|B3]; [lia|].
    assert (b < 3506)%Z by (apply lt_IZR; lra). lia. }
  exists a, b. split; [|lia].
  f_equal; apply integer_value; auto; lia.
Qed.

End SmallTargets.

(** X14.  For every size the command line accepts (at most 25 MB, that
    is 26214400 bytes) that is at least one byte, and every supported
    format, the estimated dimensions are whole numbers of at most
    6232 x 3505: the loop starts far below the 32767 ceiling, in the
    regime that adjusts dimensions. *)
Theorem estimate_for_command_line_sizes_is_below_the_ceiling (t : float) (fmt : string) :
  isFormatSupported fmt = true ->
  (1 <=? t) = true -> (t <=? 26214400) = true ->
  exists a b : Z,
    estimateInitialDimensions t fmt = {| width := of_Z a; height := of_Z b |} /\
    (100 <= a <= 6232)%Z /\ (56 <= b <= 3505)%Z /\
    atCeiling fmt (estimateInitialDimensions t fmt) = false.
Proof.
  intros S T1 T2.
  assert (P1 : positiveNormal 1 /\ toReal 1 = 1%R)
    by (apply (literal_value 1); [reflexivity|lia]).
  destruct value_26214400 as [P2 V2].
  destruct (positiveNormal_between 1 26214400 t (proj1 P1) P2 T1 T2) as [Pt [L U]].
  rewrite (proj2 P1) in L. rewrite V2 in U.
  destruct (small_estimate t fmt S Pt (conj L U)) as [a [b [E [A B]]]].
  exists a, b. split; [exact E|]. split; [exact A|]. split; [exact B|].
  rewrite E. unfold atCeiling, geb. cbn [width height].
  destruct value_maxDimension as [Pmax Vmax].
  destruct (of_Z_value a ltac:(lia)) as [Pa Va].
  destruct (of_Z_value b ltac:(lia)) as [Pb Vb].
  assert (Xa : (maxDimension <=? of_Z a) = false).
  { apply ltb_leb_false. apply ltb_toReal; auto. rewrite Va, Vmax. apply IZR_lt. lia. }
  assert (Xb : (maxDimension <=? of_Z b) = false).
  { apply ltb_leb_false. apply ltb_toReal; auto. rewrite Vb, Vmax. apply IZR_lt. lia. }
  rewrite Xa, Xb. reflexivity.
Qed.

Lemma estimate_for_command_line_sizes_is_below_the_ceiling_witness :
  estimateInitialDimensions (mbToBytes 25) "png" = {| width := 6232; height := 3505 |} /\
  atCeiling "png" (estimateInitialDimensions (mbToBytes 25) "png") = false.
Proof.
  split; [reflexivity|].
  destruct (estimate_for_command_line_sizes_is_below_the_ceiling (mbToBytes 25) "png"
              eq_refl eq_refl eq_refl) as [a [b [_ [_ [_ H]]]]].
  exact H.
Defined.

Section Direction.

Local Open Scope R_scope.

(** One rescaled dimension: from a whole number [k] between 50 and
    32767, a result that is at least [k] when the size was at most the
    target, and at most [k] when the size was at least the target. *)
Lemma rescaled_direction a t k :
  positiveNormal a -> 1 <= toReal a <= pow2 53 ->
  positiveNormal t -> 1 <= toReal t <= pow2 997 ->
  (50 <= k <= 32767)%Z ->
  let v := Math_max (Math_round (of_Z k * Math_sqrt (t / a))) 50 in
  (toReal a <= toReal t -> (of_Z k <=? v)%float = true) /\
  (toReal t <= toReal a -> (v <=? of_Z k)%float = true /\ (50 <=? v)%float = true).
Proof.
  intros Pa Ha Pt Ht K v.
  destruct (scaleFactor_value a t Pa Ha Pt Ht) as [Ps [S1 S2]].
  destruct Ha as [A1 A2]. destruct Ht as [T1 T2].
  pose proof ulp_small as Eps. pose proof (pow2_pos (-52)) as Eps0.
  set (eps := pow2 (-52)) in *.
  assert (E2 : pow2 (-51) = 2 * eps).
  { unfold eps. change (-51)%Z with (1 + -52)%Z. rewrite pow2_add, pow2_1. ring. }
  assert (E4 : pow2 (-50) = 4 * eps).
  { unfold eps. change (-50)%Z with (1 + (1 + -52))%Z. rewrite !pow2_add, pow2_1. ring. }
  set (A := toReal a) in *. set (T := toReal t) in *.
  pose proof (pow2_pos 53) as P53. pose proof (pow2_pos 997) as P997.
  assert (M : pow2 (-1020) <= T / A <= pow2 1021).
  { split.
    - apply Rle_trans with (pow2 (-53)); [apply pow2_le; lia|].
      apply Rmult_le_reg_r with A; [lra|]. replace (T / A * A) with T by (field; lra).
      apply Rle_trans with (pow2 (-53) * pow2 53).
      + apply Rmult_le_compat_l; [apply Rlt_le, pow2_pos|lra].
      + rewrite <- pow2_add. change (-53 + 53)%Z with 0%Z. rewrite pow2_0. lra.
    - apply Rle_trans with (pow2 997); [|apply pow2_le; lia].
      apply Rmult_le_reg_r with A; [lra|]. replace (T / A * A) with T by (field; lra). nra. }
  destruct (div_value t a Pt Pa M) as [Pr [R1 R2]]. fold T A in R1, R2.
  rewrite E2 in R1. fold eps in R2.
  destruct (sqrt_value _ Pr) as [_ [Q1 Q2]]. rewrite E4 in Q1, Q2.
  unfold Math_sqrt in *.
  set (r := toReal (t / a)%float) in *. set (s := sqrt (t / a)) in *.
  set (Sr := toReal s) in *.
  pose proof (positiveNormal_pos _ Ps) as S0. fold Sr in S0.
  pose proof (positiveNormal_pos _ Pr) as R0. fold r in R0.
  destruct (of_Z_value k ltac:(lia)) as [Pk Vk].
  assert (Kr : 50 <= IZR k <= 32767) by (split; apply IZR_le; lia).
  set (Kf := of_Z k) in *.
  assert (M2 : pow2 (-1021) <= toReal Kf * Sr <= pow2 1022).
  { rewrite Vk. pose proof (pow2_pos (-900)). split.
    - apply Rle_trans with (1 * pow2 (-900)).
      + rewrite Rmult_1_l. apply pow2_le. lia.
      + apply Rmult_le_compat; lra.
    - apply Rle_trans with (pow2 15 * pow2 900).
      + apply Rmult_le_compat; try lra. rewrite pow2_15. lra.
      + rewrite <- pow2_add. apply pow2_le. lia. }
  destruct (mul_value Kf s Pk Ps M2) as [Px [X1 X2]]. fold Sr eps in X1, X2.
  rewrite Vk in X1, X2.
  destruct value_50 as [P50 V50].
  destruct (floored_round_value (Kf * s)%float 50 50 Px P50 V50) as [Pv [n [Vn [N1 [N2 N3]]]]].
  fold v in Pv, Vn.
  set (X := toReal (Kf * s)%float) in *.
  set (u := IZR k * Sr) in *.
  assert (U0 : 0 <= u) by (unfold u; apply Rmult_le_pos; lra).
  assert (X1' : u * (1 - / 1000000000) <= X).
  { apply Rle_trans with (u * (1 - eps)); [|exact X1]. apply Rmult_le_compat_l; lra. }
  assert (X2' : X <= u * (1 + / 1000000000)).
  { apply Rle_trans with (u * (1 + eps)); [exact X2|]. apply Rmult_le_compat_l; lra. }
  split.
  - intros L.
    assert (Q : 1 <= T / A).
    { apply Rmult_le_reg_r with A; [lra|]. replace (T / A * A) with T by (field; lra). lra. }
    assert (r1 : 1 - 2 * eps <= r).
    { apply Rle_trans with (T / A * (1 - 2 * eps)); [|exact R1].
      rewrite <- (Rmult_1_l (1 - 2 * eps)) at 1. apply Rmult_le_compat_r; lra. }
    assert (s1 : 1 - / 100000000 <= Sr).
    { apply square_le; [lra|exact S0|].
      apply Rle_trans with (r * (1 - 4 * eps)); [|exact Q1].
      apply Rle_trans with ((1 - 2 * eps) * (1 - 4 * eps)); [nra|].
      apply Rmult_le_compat_r; lra. }
    assert (u1 : IZR k * (1 - / 100000000) <= u)
      by (unfold u; apply Rmult_le_compat_l; lra).
    apply leb_toReal; [exact Pk|exact Pv|]. rewrite Vk, Vn.
    apply IZR_le. assert (k - 1 < n)%Z; [|lia].
    apply lt_IZR. rewrite minus_IZR. lra.
  - intros L.
    assert (Q : T / A <= 1).
    { apply Rmult_le_reg_r with A; [lra|]. replace (T / A * A) with T by (field; lra). lra. }
    assert (Q0 : 0 < T / A) by (apply Rdiv_lt_0_compat; lra).
    assert (r2 : r <= 1 + eps).
    { apply Rle_trans with (T / A * (1 + eps)); [exact R2|].
      rewrite <- (Rmult_1_l (1 + eps)) at 2. apply Rmult_le_compat_r; lra. }
    assert (s2 : Sr <= 1 + / 100000000).
    { apply square_le; [lra|lra|].
      apply Rle_trans with (r * (1 + 4 * eps)); [exact Q2|].
      apply Rle_trans with ((1 + eps) * (1 + 4 * eps)); [|nra].
      apply Rmult_le_compat_r; lra. }
    assert (u2 : u <= IZR k * (1 + / 100000000))
      by (unfold u; apply Rmult_le_compat_l; lra).
    split.
    + apply leb_toReal; [exact Pv|exact Pk|]. rewrite Vk, Vn.
      apply IZR_le. destruct N3 as [->|N3]; [lia|].
      assert (n < k + 1)%Z; [|lia].
      apply lt_IZR. rewrite plus_IZR. lra.
    + apply leb_toReal; [exact P50|exact Pv|]. rewrite V50, Vn. apply IZR_le. exact N1.
Qed.

End Direction.

(** X15.  An adjustment never moves a dimension away from the target.
    For whole dimensions between 50 and 32767, a rendered buffer of at
    least one byte and a target from 1 byte to 1e300 bytes: when the
    buffer is no larger than the target the new width and height are at
    least the old ones, and when it is no smaller they are at most the
    old ones (and at least 50); when the two sizes are equal the
    dimensions stay as they are. *)
Theorem adjustment_moves_towards_the_target (b : Buffer) (t : float) (k l : Z) :
  (0 < Z.of_nat (List.length b) < 2 ^ 53)%Z ->
  (1 <=? t) = true -> (t <=? 1e300) = true ->
  (50 <= k <= 32767)%Z -> (50 <= l <= 32767)%Z ->
  let d := adjustDimensions (getImageSize b) t (of_Z k) (of_Z l) in
  ((getImageSize b <=? t) = true ->
   (of_Z k <=? width d) = true /\ (of_Z l <=? height d) = true) /\
  ((t <=? getImageSize b) = true ->
   (width d <=? of_Z k) = true /\ (height d <=? of_Z l) = true /\
   (50 <=? width d) = true /\ (50 <=? height d) = true).
Proof.
  intros Hb T1 T2 K L d.
  destruct (bounded_target _ T1 T2) as [Pt Ht].
  destruct (getImageSize_value b Hb) as [Pa Ha].
  destruct (rescaled_direction _ _ k Pa Ha Pt Ht K) as [Kup Kdown].
  destruct (rescaled_direction _ _ l Pa Ha Pt Ht L) as [Lup Ldown].
  split; intros C; apply leb_toReal in C; try assumption.
  - split; [exact (Kup C)|exact (Lup C)].
  - destruct (Kdown C). destruct (Ldown C). repeat split; assumption.
Qed.

Lemma adjustment_moves_towards_the_target_witness :
  adjustDimensions (getImageSize (repeat Byte.x00 2000)) 1000 100 56
  = {| width := 71; height := 50 |} /\
  (71 <=? 100) = true /\ (50 <=? 56) = true.
Proof.
  split; [reflexivity|].
  destruct (proj2 (adjustment_moves_towards_the_target (repeat Byte.x00 2000) 1000 100 56
                     ltac:(simpl; lia) eq_refl eq_refl ltac:(lia) ltac:(lia)) eq_refl)
    as [H1 [H2 _]].
  split; [exact H1|exact H2].
Defined.

(** ** How far one adjustment moves the area *)

Section AreaScaling.

Local Open Scope R_scope.

Lemma product_between a b x y lo hi :
  0 <= lo -> 0 <= a -> 0 <= b ->
  lo * a <= x <= hi * a -> lo * b <= y <= hi * b ->
  lo * lo * (a * b) <= x * y <= hi * hi * (a * b).
Proof.
  intros Hlo Ha Hb [X1 X2] [Y1 Y2].
  assert (0 <= lo * a) by (apply Rmult_le_pos; assumption).
  assert (0 <= lo * b) by (apply Rmult_le_pos; assumption).
  split.
  - replace (lo * lo * (a * b)) with (lo * a * (lo * b)) by ring.
    apply Rmult_le_compat; lra.
  - replace (hi * hi * (a * b)) with (hi * a * (hi * b)) by ring.
    apply Rmult_le_compat; lra.
Qed.

(** One rescaled dimension that ends above the floor: a whole number
    within 1 part in 101 of [k * s], where [s * s] is within 1 part in
    10^8 of [target / actual]. *)
Lemma rescaled_above_floor a t k :
  positiveNormal a -> 1 <= toReal a <= pow2 53 ->
  positiveNormal t -> 1 <= toReal t <= pow2 997 ->
  (50 <= k <= 32767)%Z ->
  let s := toReal (Math_sqrt (t / a)) in
  let v := Math_max (Math_round (of_Z k * Math_sqrt (t / a))) 50 in
  0 < s /\
  toReal t / toReal a * (1 - / 100000000) <= s * s
    <= toReal t / toReal a * (1 + / 100000000) /\
  positiveNormal v /\
  ((50 <? v)%float = true ->
   (100 / 101 * (1 - / 1000000000)) * (IZR k * s) <= toReal v
     <= (102 / 101 * (1 + / 1000000000)) * (IZR k * s)).
Proof.
  intros Pa Ha Pt Ht K s v.
  destruct (scaleFactor_value a t Pa Ha Pt Ht) as [Ps [S1 S2]].
  destruct Ha as [A1 A2]. destruct Ht as [T1 T2].
  pose proof ulp_small as Eps. pose proof (pow2_pos (-52)) as Eps0.
  set (eps := pow2 (-52)) in *.
  assert (E2 : pow2 (-51) = 2 * eps).
  { unfold eps. change (-51)%Z with (1 + -52)%Z. rewrite pow2_add, pow2_1. ring. }
  assert (E4 : pow2 (-50) = 4 * eps).
  { unfold eps. change (-50)%Z with (1 + (1 + -52))%Z. rewrite !pow2_add, pow2_1. ring. }
  set (A := toReal a) in *. set (T := toReal t) in *.
  pose proof (pow2_pos 53) as P53. pose proof (pow2_pos 997) as P997.
  assert (M : pow2 (-1020) <= T / A <= pow2 1021).
  { split.
    - apply Rle_trans with (pow2 (-53)); [apply pow2_le; lia|].
      apply Rmult_le_reg_r with A; [lra|]. replace (T / A * A) with T by (field; lra).
      apply Rle_trans with (pow2 (-53) * pow2 53).
      + apply Rmult_le_compat_l; [apply Rlt_le, pow2_pos|lra].
      + rewrite <- pow2_add. change (-53 + 53)%Z with 0%Z. rewrite pow2_0. lra.
    - apply Rle_trans with (pow2 997); [|apply pow2_le; lia].
      apply Rmult_le_reg_r with A; [lra|]. replace (T / A * A) with T by (field; lra). nra. }
  destruct (div_value t a Pt Pa M) as [Pr [R1 R2]]. fold T A in R1, R2.
  rewrite E2 in R1. fold eps in R2.
  destruct (sqrt_value _ Pr) as [_ [Q1 Q2]]. rewrite E4 in Q1, Q2.
  unfold Math_sqrt in *. fold s in S1, S2, Q1, Q2.
  set (r := toReal (t / a)%float) in *.
  pose proof (positiveNormal_pos _ Ps) as S0. fold s in S0.
  pose proof (positiveNormal_pos _ Pr) as R0. fold r in R0.
  assert (Q0 : 0 < T / A) by (apply Rdiv_lt_0_compat; lra).
  destruct (of_Z_value k ltac:(lia)) as [Pk Vk].
  assert (Kr : 50 <= IZR k <= 32767) by (split; apply IZR_le; lia).
  set (Kf := of_Z k) in *.
  assert (M2 : pow2 (-1021) <= toReal Kf * s <= pow2 1022).
  { rewrite Vk. pose proof (pow2_pos (-900)). split.
    - apply Rle_trans with (1 * pow2 (-900)).
      + rewrite Rmult_1_l. apply pow2_le. lia.
      + apply Rmult_le_compat; lra.
    - apply Rle_trans with (pow2 15 * pow2 900).
      + apply Rmult_le_compat; try lra. rewrite pow2_15. lra.
      + rewrite <- pow2_add. apply pow2_le. lia. }
  destruct (mul_value Kf (sqrt (t / a)) Pk Ps M2) as [Px [X1 X2]]. fold s eps in X1, X2.
  rewrite Vk in X1, X2.
  destruct value_50 as [P50 V50].
  destruct (floored_round_value (Kf * sqrt (t / a))%float 50 50 Px P50 V50)
    as [Pv [n [Vn [N1 [N2 N3]]]]].
  fold v in Pv, Vn.
  set (X := toReal (Kf * sqrt (t / a))%float) in *.
  set (u := IZR k * s) in *.
  assert (U0 : 0 <= u) by (unfold u; apply Rmult_le_pos; lra).
  assert (X1' : u * (1 - / 1000000000) <= X).
  { apply Rle_trans with (u * (1 - eps)); [|exact X1]. apply Rmult_le_compat_l; lra. }
  assert (X2' : X <= u * (1 + / 1000000000)).
  { apply Rle_trans with (u * (1 + eps)); [exact X2|]. apply Rmult_le_compat_l; lra. }
  split; [exact S0|]. split; [|split; [exact Pv|]].
  - split.
    + apply Rle_trans with (r * (1 - 4 * eps)); [|exact Q1].
      apply Rle_trans with (T / A * (1 - 2 * eps) * (1 - 4 * eps)).
      * rewrite Rmult_assoc. apply Rmult_le_compat_l; [lra|]. nra.
      * apply Rmult_le_compat_r; lra.
    + apply Rle_trans with (r * (1 + 4 * eps)); [exact Q2|].
      apply Rle_trans with (T / A * (1 + eps) * (1 + 4 * eps)).
      * apply Rmult_le_compat_r; lra.
      * rewrite Rmult_assoc. apply Rmult_le_compat_l; [lra|]. nra.
  - intros G. apply ltb_toReal in G; [|exact P50|exact Pv]. rewrite V50, Vn in G.
    assert (N51 : (51 <= n)%Z) by (apply lt_IZR in G; lia).
    assert (I51 : 51 <= IZR n) by (apply IZR_le; exact N51).
    destruct N3 as [->|N3]; [lia|].
    rewrite Vn.
    assert (Xlo : 101 / 2 <= X) by lra.
    split.
    + apply Rle_trans with (100 / 101 * X); [|lra].
      replace (100 / 101 * (1 - / 1000000000) * u)
        with (100 / 101 * (u * (1 - / 1000000000))) by ring.
      apply Rmult_le_compat_l; lra.
    + apply Rle_trans with (102 / 101 * X); [lra|].
      replace (102 / 101 * (1 + / 1000000000) * u)
        with (102 / 101 * (u * (1 + / 1000000000))) by ring.
      apply Rmult_le_compat_l; lra.
Qed.

Lemma adjusted_area a t k l :
  positiveNormal a -> 1 <= toReal a <= pow2 53 ->
  positiveNormal t -> 1 <= toReal t <= pow2 997 ->
  (50 <= k <= 32767)%Z -> (50 <= l <= 32767)%Z ->
  let d := adjustDimensions a t (of_Z k) (of_Z l) in
  (50 <? width d)%float = true -> (50 <? height d)%float = true ->
  98 / 100 * (IZR k * IZR l * toReal t)
    <= toReal (width d) * toReal (height d) * toReal a
    <= 102 / 100 * (IZR k * IZR l * toReal t).
Proof.
  intros Pa Ha Pt Ht K L d Gw Gh.
  destruct (rescaled_above_floor a t k Pa Ha Pt Ht K) as [S0 [[Q1 Q2] [_ Bw]]].
  destruct (rescaled_above_floor a t l Pa Ha Pt Ht L) as [_ [_ [_ Bh]]].
  specialize (Bw Gw). specialize (Bh Gh).
  change (Math_max (Math_round (of_Z k * Math_sqrt (t / a))) 50) with (width d) in Bw.
  change (Math_max (Math_round (of_Z l * Math_sqrt (t / a))) 50) with (height d) in Bh.
  set (s := toReal (Math_sqrt (t / a))) in *.
  set (Wd := toReal (width d)) in *. set (Hd := toReal (height d)) in *.
  set (A := toReal a) in *. set (T := toReal t) in *.
  assert (Kr : 50 <= IZR k <= 32767) by (split; apply IZR_le; lia).
  assert (Lr : 50 <= IZR l <= 32767) by (split; apply IZR_le; lia).
  set (Kr' := IZR k) in *. set (Lr' := IZR l) in *.
  assert (U0 : 0 <= Kr' * s) by (apply Rmult_le_pos; lra).
  assert (V0 : 0 <= Lr' * s) by (apply Rmult_le_pos; lra).
  destruct (product_between (Kr' * s) (Lr' * s) Wd Hd
              (100 / 101 * (1 - / 1000000000)) (102 / 101 * (1 + / 1000000000))
              ltac:(lra) U0 V0 Bw Bh) as [P1 P2].
  replace (Kr' * s * (Lr' * s)) with (Kr' * Lr' * (s * s)) in P1, P2 by ring.
  assert (KL0 : 0 <= Kr' * Lr') by (apply Rmult_le_pos; lra).
  assert (Z1 : Kr' * Lr' * (T / A * (1 - / 100000000)) <= Kr' * Lr' * (s * s))
    by (apply Rmult_le_compat_l; lra).
  assert (Z2 : Kr' * Lr' * (s * s) <= Kr' * Lr' * (T / A * (1 + / 100000000)))
    by (apply Rmult_le_compat_l; lra).
  destruct Ha as [A1 A2].
  assert (TA : T / A * A = T) by (field; lra).
  set (q := T / A) in *.
  assert (Q0 : 0 <= q) by (unfold q; apply Rlt_le, Rdiv_lt_0_compat; lra).
  set (p := Kr' * Lr' * (s * s)) in *.
  assert (G0 : 0 <= Kr' * Lr' * q) by (apply Rmult_le_pos; assumption).
  set (g := Kr' * Lr' * q) in *.
  replace (Kr' * Lr' * (q * (1 - / 100000000))) with (g * (1 - / 100000000)) in Z1
    by (unfold g; ring).
  replace (Kr' * Lr' * (q * (1 + / 100000000))) with (g * (1 + / 100000000)) in Z2
    by (unfold g; ring).
  assert (C1 : 98 / 100 * g <= Wd * Hd).
  { apply Rle_trans with
      (100 / 101 * (1 - / 1000000000) * (100 / 101 * (1 - / 1000000000)) * p); [|exact P1].
    apply Rle_trans with
      (100 / 101 * (1 - / 1000000000) * (100 / 101 * (1 - / 1000000000))
       * (g * (1 - / 100000000))); [lra|].
    apply Rmult_le_compat_l; lra. }
  assert (C2 : Wd * Hd <= 102 / 100 * g).
  { apply Rle_trans with
      (102 / 101 * (1 + / 1000000000) * (102 / 101 * (1 + / 1000000000)) * p); [exact P2|].
    apply Rle_trans with
      (102 / 101 * (1 + / 1000000000) * (102 / 101 * (1 + / 1000000000))
       * (g * (1 + / 100000000))); [|lra].
    apply Rmult_le_compat_l; lra. }
  replace (Kr' * Lr' * T) with (g * A) by (unfold g; rewrite <- TA; ring).
  split.
  - replace (98 / 100 * (g * A)) with (98 / 100 * g * A) by ring.
    apply Rmult_le_compat_r; lra.
  - replace (102 / 100 * (g * A)) with (102 / 100 * g * A) by ring.
    apply Rmult_le_compat_r; lra.
Qed.

End AreaScaling.

(** X16.  One adjustment scales the pixel area by target / actual, up
    to 2 per cent.  For whole dimensions between 50 and 32767, a
    rendered buffer of at least one byte and a target from 1 byte to
    1e300 bytes, whenever both new dimensions end above the floor of 50,
    the new area times the rendered size is between 0.98 and 1.02 times
    the old area times the target (as exact real numbers). *)
Theorem adjustment_scales_the_area_by_the_size_ratio (b : Buffer) (t : float) (k l : Z) :
  (0 < Z.of_nat (List.length b) < 2 ^ 53)%Z ->
  (1 <=? t) = true -> (t <=? 1e300) = true ->
  (50 <= k <= 32767)%Z -> (50 <= l <= 32767)%Z ->
  let d := adjustDimensions (getImageSize b) t (of_Z k) (of_Z l) in
  (50 <? width d) = true -> (50 <? height d) = true ->
  (98 / 100 * (IZR k * IZR l * toReal t)
   <= toReal (width d) * toReal (height d) * IZR (Z.of_nat (List.length b))
   <= 102 / 100 * (IZR k * IZR l * toReal t))%R.
Proof.
  intros Hb T1 T2 K L d Gw Gh.
  destruct (bounded_target _ T1 T2) as [Pt Ht].
  destruct (getImageSize_value b Hb) as [Pa Ha].
  pose proof (adjusted_area _ _ k l Pa Ha Pt Ht K L Gw Gh) as H.
  pose proof (proj2 (of_Z_value _ Hb)) as Va.
  change (of_Z (Z.of_nat (List.length b))) with (getImageSize b) in Va.
  rewrite <- Va. exact H.
Qed.

Lemma adjustment_scales_the_area_by_the_size_ratio_witness :
  adjustDimensions (getImageSize (repeat Byte.x00 1000)) 4000 100 56
  = {| width := 200; height := 112 |} /\
  (98 / 100 * (100 * 56 * toReal 4000)
   <= toReal 200 * toReal 112 * 1000
   <= 102 / 100 * (100 * 56 * toReal 4000))%R.
Proof.
  split; [reflexivity|].
  exact (adjustment_scales_the_area_by_the_size_ratio (repeat Byte.x00 1000) 4000 100 56
           ltac:(simpl; lia) eq_refl eq_refl ltac:(lia) ltac:(lia) eq_refl eq_refl).
Defined.

(** ** One adjustment and the tolerance *)

Section OneStep.

Local Open Scope R_scope.

Lemma value_003 : positiveNormal 0.03 /\ 29 / 1000 <= toReal 0.03.
Proof.
  assert (E : Prim2SF 0.03 = S754_finite false 8646911284551352 (-58)) by reflexivity.
  split; [eexists _, _; split; [exact E|reflexivity]|].
  rewrite (toReal_finite _ _ _ E).
  replace (pow2 (-58)) with (/ 288230376151711744) by (unfold pow2; simpl; lra).
  lra.
Qed.

Lemma proportional_size_within a' t tol (n n' k l : Z) Wd Hd :
  positiveNormal a' -> toReal a' = IZR n' -> (0 < n' < 2 ^ 53)%Z ->
  positiveNormal t -> 1 <= toReal t <= pow2 997 ->
  positiveNormal tol -> 29 / 1000 <= toReal tol <= 1 ->
  (0 < n)%Z -> (50 <= k)%Z -> (50 <= l)%Z ->
  98 / 100 * (IZR k * IZR l * toReal t) <= Wd * Hd * IZR n
    <= 102 / 100 * (IZR k * IZR l * toReal t) ->
  IZR n' * (IZR k * IZR l) = IZR n * (Wd * Hd) ->
  isWithinTolerance a' t tol = true.
Proof.
  intros Pa Va N' Pt Ht Ptol Htol N K L [B1 B2] E.
  assert (Kr : 50 <= IZR k) by (apply IZR_le; exact K).
  assert (Lr : 50 <= IZR l) by (apply IZR_le; exact L).
  assert (KL : 0 < IZR k * IZR l) by (apply Rmult_lt_0_compat; lra).
  set (g := IZR k * IZR l) in *. set (T := toReal t) in *.
  replace (Wd * Hd * IZR n) with (IZR n' * g) in B1, B2 by (rewrite E; ring).
  assert (L1 : 98 / 100 * T <= IZR n').
  { apply Rmult_le_reg_r with g; [exact KL|].
    replace (98 / 100 * T * g) with (98 / 100 * (g * T)) by ring. exact B1. }
  assert (L2 : IZR n' <= 102 / 100 * T).
  { apply Rmult_le_reg_r with g; [exact KL|].
    replace (102 / 100 * T * g) with (102 / 100 * (g * T)) by ring. exact B2. }
  assert (A1 : 1 <= toReal a' <= pow2 997).
  { rewrite Va. split; [apply IZR_le; lia|].
    apply Rle_trans with (pow2 53); [|apply pow2_le; lia].
    rewrite <- pow2_IZR by lia. apply IZR_le. lia. }
  assert (Htol' : pow2 (-30) <= toReal tol <= 1).
  { split; [|lra]. apply Rle_trans with (29 / 1000); [|lra].
    apply Rle_trans with (pow2 (-6)); [apply pow2_le; lia|].
    unfold pow2. simpl. lra. }
  apply (proj1 (tolerance_band a' t tol Pa A1 Pt Ht Ptol Htol')).
  rewrite Va. fold T.
  assert (P50 : pow2 (-50) <= / 1000).
  { apply Rle_trans with (pow2 (-10)); [apply pow2_le; lia|]. unfold pow2. simpl. lra. }
  pose proof (pow2_pos (-50)) as P0.
  destruct Ht as [T1 _]. fold T in T1.
  apply Rle_trans with (2 / 100 * T).
  - unfold Rabs. destruct (Rcase_abs (IZR n' - T)); lra.
  - apply Rle_trans with (T * (29 / 1000) * (999 / 1000)); [lra|].
    apply Rmult_le_compat.
    + apply Rmult_le_pos; lra.
    + lra.
    + apply Rmult_le_compat_l; lra.
    + lra.
Qed.

End OneStep.

(** X17.  The adjustment and the tolerance fit together: if the next
    render has the same number of bytes per pixel as the one that
    missed, one adjustment is enough.  For whole dimensions between 50
    and 32767, a rendered buffer of at least one byte, a target from 1
    byte to 1e300 bytes and a tolerance from 0.03 to 1 (the default is
    0.05): when both adjusted dimensions end above the floor of 50, any
    buffer of the same number of bytes per pixel at the adjusted
    dimensions is within tolerance of the target. *)
Theorem proportional_render_is_within_tolerance_after_one_adjustment
  (b b' : Buffer) (t tol : float) (k l : Z) :
  (0 < Z.of_nat (List.length b) < 2 ^ 53)%Z ->
  (0 < Z.of_nat (List.length b') < 2 ^ 53)%Z ->
  (1 <=? t) = true -> (t <=? 1e300) = true ->
  (0.03 <=? tol) = true -> (tol <=? 1) = true ->
  (50 <= k <= 32767)%Z -> (50 <= l <= 32767)%Z ->
  let d := adjustDimensions (getImageSize b) t (of_Z k) (of_Z l) in
  (50 <? width d) = true -> (50 <? height d) = true ->
  sameBytesPerPixel (Z.of_nat (List.length b)) (of_Z k) (of_Z l)
                    (Z.of_nat (List.length b')) (width d) (height d) ->
  isWithinTolerance (getImageSize b') t tol = true.
Proof.
  intros Hb Hb' T1 T2 L1 L2 K L d Gw Gh E.
  destruct (bounded_target _ T1 T2) as [Pt Ht].
  destruct (of_Z_value _ Hb') as [Pa' Va'].
  assert (P1 : positiveNormal 1 /\ toReal 1 = 1%R)
    by (apply (literal_value 1); [reflexivity|lia]).
  destruct value_003 as [P3 V3].
  destruct (positiveNormal_between 0.03 1 tol P3 (proj1 P1) L1 L2) as [Ptol [Lt Ut]].
  rewrite (proj2 P1) in Ut.
  destruct (getImageSize_value b Hb) as [Pa Ha].
  pose proof (adjusted_area _ _ k l Pa Ha Pt Ht K L Gw Gh) as B. fold d in B.
  replace (toReal (getImageSize b)) with (IZR (Z.of_nat (List.length b))) in B
    by (symmetry; exact (proj2 (of_Z_value _ Hb))).
  unfold sameBytesPerPixel in E.
  rewrite (proj2 (of_Z_value k ltac:(lia))), (proj2 (of_Z_value l ltac:(lia))) in E.
  apply (proportional_size_within (getImageSize b') t tol (Z.of_nat (List.length b))
           (Z.of_nat (List.length b')) k l (toReal (width d)) (toReal (height d)));
    auto; try lia; try lra.
Qed.

Lemma proportional_render_is_within_tolerance_after_one_adjustment_witness :
  adjustDimensions (getImageSize (repeat Byte.x00 1000)) 4000 100 56
  = {| width := 200; height := 112 |} /\
  isWithinTolerance (getImageSize (repeat Byte.x00 4000)) 4000 0.05 = true.
Proof.
  split; [reflexivity|].
  apply (proportional_render_is_within_tolerance_after_one_adjustment
           (repeat Byte.x00 1000) (repeat Byte.x00 4000) 4000 0.05 100 56);
    try reflexivity; try lia; try (simpl; lia).
  unfold sameBytesPerPixel.
  replace (Z.of_nat (List.length (repeat Byte.x00 4000))) with 4000%Z by reflexivity.
  replace (Z.of_nat (List.length (repeat Byte.x00 1000))) with 1000%Z by reflexivity.
  replace (adjustDimensions (getImageSize (repeat Byte.x00 1000)) 4000 (of_Z 100) (of_Z 56))
    with {| width := of_Z 200; height := of_Z 112 |} by reflexivity.
  cbn [width height].
  rewrite (proj2 (of_Z_value 100 ltac:(lia))), (proj2 (of_Z_value 56 ltac:(lia))),
    (proj2 (of_Z_value 200 ltac:(lia))), (proj2 (of_Z_value 112 ltac:(lia))).
  lra.
Defined.

(** ** MIME types *)




(** ** Colours *)

Section ColourFacts.

(** A hexadecimal digit is neither white space, nor a sign, nor the
    letter x, and its value is below 16. *)
Lemma hexDigit_char c d :
  hexDigit c = Some d ->
  isWhiteSpace c = false /\ Ascii.eqb c "-" = false /\ Ascii.eqb c "+" = false /\
  Ascii.eqb c "x" = false /\ Ascii.eqb c "X" = false /\ (0 <= d <= 15)%Z.
Proof.
  destruct c as [[] [] [] [] [] [] [] []]; intros H; vm_compute in H;
    try discriminate; inversion H; subst d; repeat split; try reflexivity; lia.
Qed.

(** An integer between 1 and 2^63 converts as [of_Z] does. *)
Lemma Number_of_Z_small n : (0 <= n < 2 ^ 63)%Z -> Number_of_Z n = of_Z n.
Proof.
  intros N. unfold Number_of_Z, of_Z. destruct n as [|p|p]; try lia.
  - reflexivity.
  - rewrite <- (SF2Prim_Prim2SF (of_uint63 (Uint63.of_Z (Zpos p)))).
    rewrite of_uint63_spec, Uint63.of_Z_spec.
    rewrite Z.mod_small by (change Uint63.wB with (2 ^ 63)%Z; lia). reflexivity.
Qed.

(** [parseInt] of two hexadecimal digits, base 16. *)
Lemma parseInt_16_pair c1 c2 d1 d2 :
  hexDigit c1 = Some d1 -> hexDigit c2 = Some d2 ->
  parseInt_16 (String c1 (String c2 EmptyString)) = of_Z (16 * d1 + d2).
Proof.
  intros H1 H2.
  destruct (hexDigit_char c1 d1 H1) as [W1 [M1 [P1 [_ [_ D1]]]]].
  destruct (hexDigit_char c2 d2 H2) as [_ [_ [_ [X2 [Y2 D2]]]]].
  unfold parseInt_16. cbn [trimStart]. rewrite W1, M1, P1, X2, Y2, andb_false_r.
  cbn [hexDigits orb]. rewrite H1, H2.
  replace (16 * (16 * 0 + d1) + d2)%Z with (16 * d1 + d2)%Z by lia.
  destruct (16 * d1 + d2)%Z as [|p|p] eqn:E; try lia.
  - reflexivity.
  - apply Number_of_Z_small. lia.
Qed.

Lemma substring_all s : substring 0 (String.length s) s = s.
Proof. induction s as [|c s IH]; simpl; [reflexivity|]. rewrite IH. reflexivity. Qed.

Lemma startsWith_hash s :
  startsWith s "#" = true -> exists rest, s = String "#" rest /\ slice_from s 1 = rest.
Proof.
  unfold startsWith. destruct s as [|c rest]; cbn [String.prefix]; [discriminate|].
  destruct (ascii_dec "#" c) as [<-|]; [|discriminate]. intros _.
  exists rest. split; [reflexivity|].
  unfold slice_from. simpl. rewrite Nat.sub_0_r. apply substring_all.
Qed.

End ColourFacts.

(** X19.  [parseColor] understands exactly the colours written as "#"
    and six more characters.  When these are hexadecimal digits (in
    either case) it passes the three bytes they spell, and the alpha 255,
    to [Jimp.rgbaToInt]; every string that does not start with "#", or
    that is not seven characters long, gives white (255, 255, 255, 255),
    so a colour name such as "black" and a short form such as "#000" are
    rendered white. *)
Theorem hex_colours_are_decoded_and_other_shapes_are_white
  (Color : Type) (rgbaToInt : float -> float -> float -> float -> Color) :
  (forall c1 c2 c3 c4 c5 c6 d1 d2 d3 d4 d5 d6,
     hexDigit c1 = Some d1 -> hexDigit c2 = Some d2 -> hexDigit c3 = Some d3 ->
     hexDigit c4 = Some d4 -> hexDigit c5 = Some d5 -> hexDigit c6 = Some d6 ->
     parseColor Color rgbaToInt
       (String "#" (String c1 (String c2 (String c3 (String c4 (String c5 (String c6
          EmptyString)))))))
     = rgbaToInt (of_Z (16 * d1 + d2)) (of_Z (16 * d3 + d4)) (of_Z (16 * d5 + d6)) 255) /\
  (forall s,
     startsWith s "#" = false \/ String.length s <> 7%nat ->
     parseColor Color rgbaToInt s = rgbaToInt 255 255 255 255).
Proof.
  split.
  - intros c1 c2 c3 c4 c5 c6 d1 d2 d3 d4 d5 d6 H1 H2 H3 H4 H5 H6.
    unfold parseColor.
    change (startsWith (String "#" (String c1 (String c2 (String c3 (String c4 (String c5
              (String c6 EmptyString))))))) "#") with true.
    cbv iota.
    change (slice_from (String "#" (String c1 (String c2 (String c3 (String c4 (String c5
              (String c6 EmptyString))))))) 1)
      with (String c1 (String c2 (String c3 (String c4 (String c5 (String c6 EmptyString)))))).
    cbv zeta. cbn [String.length Nat.eqb slice substring Nat.sub].
    rewrite (parseInt_16_pair c1 c2 d1 d2 H1 H2), (parseInt_16_pair c3 c4 d3 d4 H3 H4),
      (parseInt_16_pair c5 c6 d5 d6 H5 H6).
    reflexivity.
  - intros s H. unfold parseColor.
    destruct (startsWith s "#") eqn:P; [|reflexivity].
    destruct H as [H|H]; [discriminate|].
    destruct (startsWith_hash s P) as [rest [-> R]]. rewrite R. cbv zeta.
    destruct (String.length rest =? 6)%nat eqn:E; [|reflexivity].
    apply Nat.eqb_eq in E. simpl in H. congruence.
Qed.

Lemma hex_colours_are_decoded_and_other_shapes_are_white_witness :
  parseColor _ (fun r g b a => (r, g, b, a)) "#FF8000" = (255, 128, 0, 255) /\
  parseColor _ (fun r g b a => (r, g, b, a)) "black" = (255, 255, 255, 255) /\
  parseColor _ (fun r g b a => (r, g, b, a)) "#000" = (255, 255, 255, 255).
Proof.
  split; [|split].
  - exact (proj1 (hex_colours_are_decoded_and_other_shapes_are_white _
                    (fun r g b a => (r, g, b, a)))
             "F"%char "F"%char "8"%char "0"%char "0"%char "0"%char 15%Z 15%Z 8%Z 0%Z 0%Z 0%Z
             eq_refl eq_refl eq_refl eq_refl eq_refl eq_refl).
  - apply (proj2 (hex_colours_are_decoded_and_other_shapes_are_white _
                    (fun r g b a => (r, g, b, a))) "black"%string).
    left. reflexivity.
  - apply (proj2 (hex_colours_are_decoded_and_other_shapes_are_white _
                    (fun r g b a => (r, g, b, a))) "#000"%string).
    right. discriminate.
Defined.

(** ** Fonts *)

Section FontFacts.









End FontFacts.



(** ** The text colour *)

Section TextColour.

Variable W : Type.
Variables Image Font : Type.
Variable J : JimpModule W Image Font.
Variable Number_toString : float -> string.

Local Abbreviation Jimp := (Some (renderImage W Image Font J Number_toString)).

(** The calls into Jimp do not depend on the text colour. *)
Lemma renderImage_ignores_textColor c c' :
  sameButTextColor c c' ->
  renderImage W Image Font J Number_toString c = renderImage W Image Font J Number_toString c'.
Proof.
  intros [Hw [Hh [Hf [Hs [Hb Hq]]]]]. unfold renderImage.
  rewrite Hw, Hh, Hf, Hs, Hb, Hq. reflexivity.
Qed.

Lemma generateImageWithText_ignores_textColor c c' env env' :
  sameButTextColor c c' -> sameButTextColors env env' ->
  fst (generateImageWithText W Jimp c env) = fst (generateImageWithText W Jimp c' env') /\
  sameButTextColors (snd (generateImageWithText W Jimp c env))
                    (snd (generateImageWithText W Jimp c' env')).
Proof.
  intros S [Ew [En Ec]].
  assert (Ec' : Forall2 sameButTextColor (renderCalls env ++ [c]) (renderCalls env' ++ [c']))
    by (apply Forall2_app; [exact Ec|constructor; [exact S|constructor]]).
  pose proof (renderImage_ignores_textColor c c' S) as R.
  destruct S as [Hw [Hh [Hf _]]].
  unfold generateImageWithText, bind, recordRenderCall, validateJimpAvailability,
    validateDimensions, callJimp, throw, ret. simpl.
  rewrite <- Hw, <- Hh, <- Hf, <- R, <- Ew.
  destruct ((img_width c <=? 0) || (img_height c <=? 0)); simpl.
  { split; [reflexivity|]. repeat split; assumption. }
  destruct (gtb (img_width c) maxDimension || gtb (img_height c) maxDimension); simpl.
  { split; [reflexivity|]. repeat split; assumption. }
  destruct (negb (isFormatSupported (img_format c))); simpl.
  { split; [reflexivity|]. repeat split; assumption. }
  destruct (renderImage W Image Font J Number_toString c (world env)) as [r w'].
  split; [reflexivity|]. repeat split; assumption.
Qed.

Lemma while_loop_ignores_textColor color config n : forall st env env',
  sameButTextColors env env' ->
  fst (while_loop W Jimp (withTextColor color config) n st env)
  = fst (while_loop W Jimp config n st env') /\
  sameButTextColors (snd (while_loop W Jimp (withTextColor color config) n st env))
                    (snd (while_loop W Jimp config n st env')).
Proof.
  induction n as [|n IH]; intros st env env' E.
  - simpl. split; [reflexivity|exact E].
  - set (c1 := withTextColor color config).
    set (st1 := ceilingCheck (format config) (targetSizeBytes config) st).
    assert (S : sameButTextColor (renderConfig c1 st1) (renderConfig config st1))
      by (repeat split).
    destruct (generateImageWithText_ignores_textColor _ _ env env' S E) as [R1 R2].
    destruct (generateImageWithText W Jimp (renderConfig c1 st1) env) as [r1 e1] eqn:G1.
    destruct (generateImageWithText W Jimp (renderConfig config st1) env') as [r2 e2] eqn:G2.
    cbn [fst snd] in R1, R2. subst r2.
    destruct r1 as [err|b].
    + rewrite (while_loop_render_throws W Jimp c1 n st env err e1 G1),
        (while_loop_render_throws W Jimp config n st env' err e2 G2).
      split; [reflexivity|exact R2].
    + rewrite (while_loop_render_ok W Jimp c1 n st env b e1 G1),
        (while_loop_render_ok W Jimp config n st env' b e2 G2).
      change (targetSizeBytes c1) with (targetSizeBytes config).
      change (tolerance' c1) with (tolerance' config).
      change (format c1) with (format config).
      destruct (isWithinTolerance (getImageSize b) (targetSizeBytes config) (tolerance' config)).
      * split; [reflexivity|exact R2].
      * apply IH. exact R2.
Qed.

End TextColour.

(** X21.  The text colour of a request is never used: the label is
    always drawn with one of the black fonts, and no call into Jimp
    receives the colour.  A request and the same request with any other
    text colour give the same result (the same outcome or the same
    error), leave the library in the same state, warn equally often, and
    make render calls that differ in nothing but the recorded text
    colour. *)
Theorem text_colour_is_never_used
  (W Image Font : Type) (J : JimpModule W Image Font) (Number_toString : float -> string)
  (config : Config) (color : option string) (env : Env W) :
  let Jimp := Some (renderImage W Image Font J Number_toString) in
  fst (generateImageWithTargetSize W Jimp (withTextColor color config) env)
  = fst (generateImageWithTargetSize W Jimp config env) /\
  sameButTextColors (snd (generateImageWithTargetSize W Jimp (withTextColor color config) env))
                    (snd (generateImageWithTargetSize W Jimp config env)).
Proof.
  intros Jimp.
  assert (E : sameButTextColors env env).
  { repeat split. induction (renderCalls env) as [|c l IH]; constructor; auto.
    repeat split. }
  destruct (while_loop_ignores_textColor W Image Font J Number_toString color config
              (maxIterations' config) (initialState config) env env E) as [R1 R2].
  fold Jimp in R1, R2.
  unfold generateImageWithTargetSize, bind.
  change (targetSizeMB (withTextColor color config)) with (targetSizeMB config).
  change (format (withTextColor color config)) with (format config).
  change (maxIterations' (withTextColor color config)) with (maxIterations' config).
  change (initialState (withTextColor color config)) with (initialState config).
  destruct (targetSizeMB config <=? 0); [split; [reflexivity|exact E]|].
  destruct (negb (isFormatSupported (format config))); [split; [reflexivity|exact E]|].
  destruct (while_loop W Jimp (withTextColor color config) (maxIterations' config)
              (initialState config) env) as [r1 e1].
  destruct (while_loop W Jimp config (maxIterations' config) (initialState config) env)
    as [r2 e2].
  cbn [fst snd] in R1, R2. subst r2.
  destruct r1 as [err|st]; [split; [reflexivity|exact R2]|].
  change (outcome (withTextColor color config) st) with (outcome config st).
  destruct R2 as [Ew [En Ec]].
  unfold console_warn, ret.
  destruct (maxIterations' config <=? iteration st)%nat; simpl;
    (split; [reflexivity|]); repeat split; simpl; auto.
Qed.

(** ** The command line's validation *)

(** X22.  What the command line lets through, the generator accepts: a
    format that passes [validateFormat] is returned in lower case, is
    one of jpg, jpeg and png, and passes [isFormatSupported]; a size
    that passes [validateSize] is a number above 0 and at most 25, so it
    is not rejected by the guard [targetSizeMB <= 0].  The command line
    rejects exactly the formats the generator rejects. *)
Theorem command_line_validation_implies_the_generators
  (parseFloat : string -> float) (sizeStr formatStr : string) :
  (forall fmt,
     CLI.validateFormat formatStr = inr fmt ->
     fmt = toLowerCase formatStr /\
     (fmt = "jpg" \/ fmt = "jpeg" \/ fmt = "png")%string /\
     isFormatSupported fmt = true) /\
  (isFormatSupported formatStr = false <->
   CLI.validateFormat formatStr = inl (CLI.UnsupportedFormat formatStr)) /\
  (forall size,
     CLI.validateSize parseFloat sizeStr = inr size ->
     size = parseFloat sizeStr /\
     (0 <? size) = true /\ (size <=? 25) = true /\ (size <=? 0) = false).
Proof.
  split; [|split].
  - intros fmt. unfold CLI.validateFormat.
    destruct (includes ["jpg"; "jpeg"; "png"]%string (toLowerCase formatStr)) eqn:I;
      simpl; [|discriminate].
    intros H. inversion H; subst fmt. split; [reflexivity|].
    assert (S : isFormatSupported formatStr = true) by exact I.
    apply isFormatSupported_spec in S. unfold Spec.formatSupported in S. cbv zeta in S.
    split; [exact S|].
    destruct S as [-> | [-> | ->]]; reflexivity.
  - unfold CLI.validateFormat, isFormatSupported, supportedFormats.
    destruct (includes ["jpg"; "jpeg"; "png"]%string (toLowerCase formatStr)); simpl;
      split; intros H; try discriminate; reflexivity.
  - intros size. unfold CLI.validateSize.
    destruct (is_nan (parseFloat sizeStr)) eqn:N; [discriminate|].
    destruct (parseFloat sizeStr <=? 0) eqn:Z; [discriminate|].
    destruct (gtb (parseFloat sizeStr) 25) eqn:G; [discriminate|].
    intros H. inversion H; subst size. split; [reflexivity|].
    split; [apply not_leb_ltb; auto|]. split; [|exact Z].
    apply not_ltb_leb; auto.
Qed.

Lemma command_line_validation_implies_the_generators_witness :
  CLI.validateFormat "PNG" = inr "png"%string /\ isFormatSupported "png" = true /\
  CLI.validateSize (fun _ => 1.5) "1.5" = inr 1.5 /\ (1.5 <=? 0) = false.
Proof.
  split; [reflexivity|].
  split; [exact (proj2 (proj2 (proj1 (command_line_validation_implies_the_generators
                                         (fun _ => 1.5) "1.5" "PNG") "png"%string eq_refl)))|].
  split; [reflexivity|].
  exact (proj2 (proj2 (proj2 (proj2 (proj2 (command_line_validation_implies_the_generators
                                         (fun _ => 1.5) "1.5" "PNG")) 1.5 eq_refl)))).
Defined.
